(** * Storage committee worker (go/worker/storage/committee/node.go)

    A shallow embedding of the block follower of the storage worker: the
    round-ordered priority queues, the diff fetcher, the finalizer, the
    main loop of [worker] and [ForceFinalize], followed by the properties
    proved about them. *)

From Stdlib Require Import ZArith Lia String List Permutation Sorted.
From stdpp Require Import base option list gmap strings.

Local Open Scope Z_scope.

(** ** Machine integers *)

(** Rounds are [uint64]: arithmetic wraps modulo 2^64. *)
Definition MaxUint64 : Z := 2 ^ 64 - 1.
Definition wrap64 (x : Z) : Z := x mod 2 ^ 64.
Definition add64 (x y : Z) : Z := wrap64 (x + y).
Definition sub64 (x y : Z) : Z := wrap64 (x - y).
Definition isUint64 (x : Z) : Prop := 0 <= x <= MaxUint64.

(** The constants of node.go. *)
Definition RoundLatest : Z := MaxUint64.
Definition defaultUndefinedRound : Z := Z.land (Z.lnot 0) (Z.ones 64).

(** ** Outcomes

    Code that can fail returns a [Result]: [Panic] is a Go run-time panic
    (nil dereference, index out of range, the explicit [panic] of the
    catch-up loop), [Diverges] a loop that never hands control back, and
    [Blocked] a step of the main loop that is not enabled in the state. *)
Inductive Result (A : Type) : Type :=
| Ok (a : A)
| Panic
| Diverges
| Blocked.
Arguments Ok {A} a.
Arguments Panic {A}.
Arguments Diverges {A}.
Arguments Blocked {A}.

#[global] Instance Result_ret : MRet Result := fun A a => Ok a.
#[global] Instance Result_bind : MBind Result := fun A B f r =>
  match r with
  | Ok a => f a
  | Panic => Panic
  | Diverges => Diverges
  | Blocked => Blocked
  end.

Definition isOk {A} (r : Result A) : bool :=
  match r with Ok _ => true | _ => false end.

Definition fromOk {A} (d : A) (r : Result A) : A :=
  match r with Ok a => a | _ => d end.

(** A nil pointer or a missing slice index dereferenced. *)
Definition deref {A} (o : option A) : Result A :=
  match o with Some a => Ok a | None => Panic end.

(** ** outstandingMask *)

(** [type outstandingMask uint] *)
Abbreviation outstandingMask := Z (only parsing).
Definition maskNone : outstandingMask := 0.
Definition maskIO : outstandingMask := 1.
Definition maskState : outstandingMask := 2.
Definition maskAll : outstandingMask := Z.lor maskIO maskState.

(** [^m] on a 64-bit [uint]. *)
Definition maskNot (m : outstandingMask) : outstandingMask :=
  Z.land (Z.lnot m) (Z.ones 64).
(** [o &= ^m] *)
Definition maskClear (o m : outstandingMask) : outstandingMask :=
  Z.land o (maskNot m).
(** [o |= m] *)
Definition maskSet (o m : outstandingMask) : outstandingMask := Z.lor o m.

(** ** Roots, blocks and summaries *)

Definition Namespace := string.
Definition Hash := string.
Definition error := string.

(** Modelled from the spec: the hash package is not under src/; the spec
    says that the empty hash denotes an empty subtree, which is all the
    worker uses of [Hash.Empty]. The value is the digest the package
    uses (SHA-512/256 of the empty input). *)
Definition emptyHash : Hash :=
  "c672b8d1ef56ed28ab87c3622c5114069bdd3ad7b8f9737498d0c01ecef0967a"%string.

Definition hashEqual (a b : Hash) : bool := bool_decide (a = b).

Record Root := mkRoot {
  rNamespace : Namespace;
  rRound : Z;
  rHash : Hash
}.

Record Header := mkHeader {
  hNamespace : Namespace;
  hRound : Z;
  hIORoot : Hash;
  hStateRoot : Hash
}.

Record Block := mkBlock { bHeader : Header }.

(** blockSummary *)
Record blockSummary := mkSummary {
  sNamespace : Namespace;
  sRound : Z;
  sIORoot : Root;
  sStateRoot : Root
}.

Definition summaryFromBlock (blk : Block) : blockSummary :=
  {| sNamespace := hNamespace (bHeader blk);
     sRound := hRound (bHeader blk);
     sIORoot := {| rNamespace := hNamespace (bHeader blk);
                   rRound := hRound (bHeader blk);
                   rHash := hIORoot (bHeader blk) |};
     sStateRoot := {| rNamespace := hNamespace (bHeader blk);
                      rRound := hRound (bHeader blk);
                      rHash := hStateRoot (bHeader blk) |} |}.

Record watcherState := mkWatcher { LastBlock : blockSummary }.

Definition LogEntry := (string * string)%type.
Definition WriteLog := list LogEntry.

(** fetchedDiff *)
Record fetchedDiff := mkDiff {
  fetchMask : outstandingMask;
  fetched : bool;
  err : option error;
  round : Z;
  prevRoot : Root;
  thisRoot : Root;
  writeLog : WriteLog
}.

Record inFlight := mkInFlight {
  outstanding : outstandingMask;
  awaitingRetry : outstandingMask
}.

(** ** roundItem and the out-of-order queue

    [roundItem] is the interface of the queue's elements. A queue holds
    pointers; an element of type [option T] is a possibly nil pointer,
    whose [GetRound] panics. *)
Class roundItem (T : Type) := GetRound : T -> Result Z.

#[global] Instance fetchedDiff_roundItem : roundItem fetchedDiff :=
  fun d => Ok (round d).
#[global] Instance blockSummary_roundItem : roundItem blockSummary :=
  fun s => Ok (sRound s).
#[global] Instance pointer_roundItem {T} `{roundItem T} : roundItem (option T) :=
  fun p => match p with Some x => GetRound x | None => Panic end.

Section Queue.
Context {T : Type} `{roundItem T}.

(** outOfOrderRoundQueue: the slice behind the heap. Indices are [nat];
    Go's [int] arithmetic on them never goes below zero except in
    [(j - 1) / 2] at [j = 0], which truncates to 0 in both. *)
Definition qLess (q : list T) (i j : nat) : Result bool :=
  a ← deref (q !! i);
  b ← deref (q !! j);
  ra ← GetRound a;
  rb ← GetRound b;
  mret (ra <? rb).

Definition qSwap (q : list T) (i j : nat) : Result (list T) :=
  a ← deref (q !! i);
  b ← deref (q !! j);
  mret (<[j:=a]> (<[i:=b]> q)).

(** Push appends x as the last element. *)
Definition qPush (q : list T) (x : T) : list T := q ++ [x].

(** Pop removes and returns the last element. *)
Definition qPop (q : list T) : Result (T * list T) :=
  let n := length q in
  x ← deref (q !! (n - 1)%nat);
  if (n =? 0)%nat then Panic else mret (x, take (n - 1)%nat q).

(** container/heap's [up]; the loop moves [j] to its parent, so it
    runs at most [j] times round. *)
Fixpoint heapUp (fuel : nat) (q : list T) (j : nat) : Result (list T) :=
  let i := ((j - 1) / 2)%nat in
  if (i =? j)%nat then mret q
  else
    match fuel with
    | O => Diverges
    | S fuel' =>
        lt ← qLess q j i;
        if negb lt then mret q
        else q' ← qSwap q i j; heapUp fuel' q' i
    end.

(** container/heap's [down]; [j1 < 0], the guard against overflow of
    [int], cannot hold of a [nat]. *)
Fixpoint heapDown (fuel : nat) (q : list T) (i n : nat) : Result (list T) :=
  let j1 := (2 * i + 1)%nat in
  if (n <=? j1)%nat then mret q
  else
    match fuel with
    | O => Diverges
    | S fuel' =>
        let j2 := (j1 + 1)%nat in
        lt21 ← (if (j2 <? n)%nat then qLess q j2 j1 else Ok false);
        let j := if (lt21 : bool) then j2 else j1 in
        lt ← qLess q j i;
        if negb lt then mret q
        else q' ← qSwap q i j; heapDown fuel' q' j n
    end.

(** heap.Push *)
Definition heapPush (q : list T) (x : T) : Result (list T) :=
  let q1 := qPush q x in
  heapUp (length q1) q1 (length q1 - 1)%nat.

(** heap.Pop; on an empty queue [n] is -1 and [Swap(0, n)] panics. *)
Definition heapPop (q : list T) : Result (T * list T) :=
  let n := (length q - 1)%nat in
  if (length q =? 0)%nat then Panic
  else
    q1 ← qSwap q 0%nat n;
    q2 ← heapDown n q1 0%nat n;
    qPop q2.

(** No element of the queue is a nil pointer. *)
Definition roundsOk (q : list T) : Prop := ∀ x, x ∈ q → ∃ r, GetRound x = Ok r.

(** The heap order on the first [n] elements of the slice, for elements
    whose round is [key]: no element is below its parent. *)
Definition heapOrderedUpTo (key : T → Z) (n : nat) (q : list T) : Prop :=
  ∀ (k : nat) x p, (0 < k < n)%nat →
    q !! k = Some x → q !! ((k - 1) / 2)%nat = Some p → key p <= key x.

Definition heapOrdered (key : T → Z) (q : list T) : Prop :=
  heapOrderedUpTo key (length q) q.

(** The order [up(h, j)] works under: it holds but between [j] and its
    parent, and the children of [j] are not below the parent of [j]. *)
Definition upInv (key : T → Z) (q : list T) (j : nat) : Prop :=
  (∀ (k : nat) x p, (0 < k)%nat → k ≠ j →
     q !! k = Some x → q !! ((k - 1) / 2)%nat = Some p → key p <= key x)
  ∧ (∀ (k : nat) x g, (0 < k)%nat → ((k - 1) / 2)%nat = j → (0 < j)%nat →
       q !! k = Some x → q !! ((j - 1) / 2)%nat = Some g → key g <= key x).

(** The order [down(h, i, n)] works under: it holds but between [i] and
    its children, which are not below the parent of [i]. *)
Definition downInv (key : T → Z) (q : list T) (i n : nat) : Prop :=
  (∀ (k : nat) x p, (0 < k < n)%nat → ((k - 1) / 2)%nat ≠ i →
     q !! k = Some x → q !! ((k - 1) / 2)%nat = Some p → key p <= key x)
  ∧ (∀ (k : nat) x g, (0 < k < n)%nat → ((k - 1) / 2)%nat = i → (0 < i)%nat →
       q !! k = Some x → q !! ((i - 1) / 2)%nat = Some g → key g <= key x).
End Queue.

(** ** The diff fetcher *)

(** The stream that [GetDiff] returns, as the fetcher sees it: every step
    is a [Next] reporting more, whose [Value] yields a chunk or fails;
    after the steps [Next] reports the end of the stream ([itEnd = None])
    or fails. A stream that never ends keeps the fetcher in its loop for
    ever: such a run reaches no exit path and has no script. *)
Inductive iterStep :=
| itValue (chunk : LogEntry)
| itValueErr (e : error).

Record WriteLogIterator := mkIterator {
  itSteps : list iterStep;
  itEnd : option error
}.

(** What the fetcher asks of the local store and of the storage client. *)
Record Storage := mkStorage {
  HasRoot : Root -> bool;
  GetDiff : Root -> Root -> error + WriteLogIterator
}.

Definition setErr (e : error) (d : fetchedDiff) : fetchedDiff :=
  {| fetchMask := fetchMask d; fetched := fetched d; err := Some e;
     round := round d; prevRoot := prevRoot d; thisRoot := thisRoot d;
     writeLog := writeLog d |}.

Definition setFetched (b : bool) (d : fetchedDiff) : fetchedDiff :=
  {| fetchMask := fetchMask d; fetched := b; err := err d;
     round := round d; prevRoot := prevRoot d; thisRoot := thisRoot d;
     writeLog := writeLog d |}.

Definition setWriteLog (wl : WriteLog) (d : fetchedDiff) : fetchedDiff :=
  {| fetchMask := fetchMask d; fetched := fetched d; err := err d;
     round := round d; prevRoot := prevRoot d; thisRoot := thisRoot d;
     writeLog := wl |}.

(** The [for] loop over the iterator (node.go, lines 395-411). *)
Fixpoint consume (steps : list iterStep) (end_ : option error)
    (result : fetchedDiff) : fetchedDiff :=
  match steps with
  | [] =>
      match end_ with
      | Some e => setErr e result
      | None => result
      end
  | itValueErr e :: _ => setErr e result
  | itValue chunk :: rest =>
      consume rest end_ (setWriteLog (writeLog result ++ [chunk]) result)
  end.

(** One run of the fetcher: what it sent on [diffCh] and the [GetDiff]
    calls it made. *)
Record fetchRun := mkFetchRun {
  sent : list fetchedDiff;
  remoteCalls : list (Root * Root)
}.

(** The body of [fetchDiff] up to its return: the final [result] and the
    remote calls. *)
Definition fetchDiffBody (st : Storage) (round_ : Z) (prevRoot_ thisRoot_ : Root)
    (fetchMask_ : outstandingMask) : fetchedDiff * list (Root * Root) :=
  let result :=
    {| fetchMask := fetchMask_; fetched := false; err := None;
       round := round_; prevRoot := prevRoot_; thisRoot := thisRoot_;
       writeLog := [] |} in
  if negb (HasRoot st thisRoot_) then
    let result := setFetched true result in
    if hashEqual (rHash thisRoot_) (rHash prevRoot_) then
      (setWriteLog [] result, [])
    else
      match GetDiff st prevRoot_ thisRoot_ with
      | inl e => (setErr e result, [(prevRoot_, thisRoot_)])
      | inr it =>
          (consume (itSteps it) (itEnd it) result, [(prevRoot_, thisRoot_)])
      end
  else (result, []).

(** [fetchDiff]: the deferred send runs on every return of the body. *)
Definition fetchDiff (st : Storage) (round_ : Z) (prevRoot_ thisRoot_ : Root)
    (fetchMask_ : outstandingMask) : fetchRun :=
  let '(result, calls) := fetchDiffBody st round_ prevRoot_ thisRoot_ fetchMask_ in
  {| sent := [result]; remoteCalls := calls |}.

(** ** Calls on the local store *)

Record applyCall := mkApplyCall {
  aNamespace : Namespace;
  aSrcRound : Z;
  aSrcHash : Hash;
  aDstRound : Z;
  aDstHash : Hash;
  aWriteLog : WriteLog
}.

Record finalizeCall := mkFinalizeCall {
  fNamespace : Namespace;
  fRound : Z;
  fRoots : list Hash
}.

(** The arguments of [localStorage.Apply] for a popped diff. *)
Definition applyArgs (lastDiff : fetchedDiff) : applyCall :=
  {| aNamespace := rNamespace (thisRoot lastDiff);
     aSrcRound := rRound (prevRoot lastDiff);
     aSrcHash := rHash (prevRoot lastDiff);
     aDstRound := rRound (thisRoot lastDiff);
     aDstHash := rHash (thisRoot lastDiff);
     aWriteLog := writeLog lastDiff |}.

(** ** ForceFinalize *)

(** The roothash backend and the local store as [ForceFinalize] uses
    them. *)
Record Roothash := mkRoothash {
  GetLatestBlock : error + Block;
  GetBlock : Z -> error + Block
}.

(** The returned error and the [Finalize] calls made on the local
    store; [finalizeResult] is the store's answer to a call. *)
Definition ForceFinalize (rh : Roothash) (finalizeResult : finalizeCall -> option error)
    (round_ : Z) : option error * list finalizeCall :=
  let lookup :=
    if round_ =? RoundLatest then GetLatestBlock rh else GetBlock rh round_ in
  match lookup with
  | inl e => (Some e, [])
  | inr block =>
      let call :=
        {| fNamespace := hNamespace (bHeader block);
           fRound := round_;
           fRoots := [hIORoot (bHeader block); hStateRoot (bHeader block)] |} in
      (finalizeResult call, [call])
  end.

(** ** The finalizer *)

Inductive logLevel := LogDebug | LogWarn | LogError.

(** Modelled from the spec: storageApi.ErrAlreadyFinalized is declared
    outside src/; the spec names it the benign AlreadyFinalized outcome
    of finalize. Only its identity matters. *)
Definition ErrAlreadyFinalized : error := "AlreadyFinalized"%string.

Definition finalizeArgs (summary : blockSummary) : finalizeCall :=
  {| fNamespace := sNamespace summary;
     fRound := sRound summary;
     fRoots := [rHash (sIORoot summary); rHash (sStateRoot summary)] |}.

(** The [switch] of [finalize]: the level of the line it logs. *)
Definition finalizeLog (res : option error) : logLevel :=
  match res with
  | None => LogDebug
  | Some e => if bool_decide (e = ErrAlreadyFinalized) then LogWarn else LogError
  end.

(** [finalize summary]: the call it makes, the level it logs at and the
    summary it then sends on [finalizeCh]. *)
Definition finalize (res : option error) (summary : blockSummary)
    : finalizeCall * logLevel * blockSummary :=
  (finalizeArgs summary, finalizeLog res, summary).

(** ** The worker's state *)

(** A fetch submitted to the pool: the arguments its closure passes to
    [fetchDiff]. The previous state root is [&prev.StateRoot] with
    [prev] read from the hash cache: when [prev] is nil ([tPrev = None])
    the closure panics as it runs. *)
Record fetchTask := mkFetchTask {
  tRound : Z;
  tPrev : option Root;
  tThis : Root;
  tMask : outstandingMask
}.

(** A spawned [finalize] goroutine: its summary and whether it has
    already called the local store (and now waits to send on the
    unbuffered [finalizeCh]). *)
Record finalizeTask := mkFinalizeTask {
  ftSummary : blockSummary;
  ftCalled : bool
}.

Record PrunedBlock := mkPruned { pRuntimeID : Namespace; pRound : Z }.

(** What the worker does to its collaborators, in the order it does it. *)
Inductive Event :=
| EvPop (d : fetchedDiff)
| EvApply (d : fetchedDiff) (call : applyCall) (res : option error)
| EvPushApplied (summary : option blockSummary)
| EvSpawnFinalize (summary : blockSummary)
| EvFinalize (call : finalizeCall) (res : option error)
| EvFinalized (summary : blockSummary)
| EvPersist (st : watcherState) (res : option error)
| EvGetBlock (i : Z)
| EvSubmit (t : fetchTask)
| EvGetDiff (prev this : Root)
| EvPrune (ns : Namespace) (r : Z) (res : option error)
| EvLog (lvl : logLevel) (msg : string).

(** The fields of [Node] and the locals of [worker] that the main loop
    reads and writes, with the goroutines in flight and the trace. *)
Record World := mkWorld {
  undefinedRound : Z;
  syncedState : watcherState;
  stateStore : option watcherState;
  cachedLastRound : Z;
  lastFullyAppliedRound : Z;
  outOfOrderDiffs : list fetchedDiff;
  outOfOrderApplieds : list (option blockSummary);
  syncingRounds : gmap Z inFlight;
  hashCache : gmap Z blockSummary;
  fetching : list fetchTask;
  finalizing : list finalizeTask;
  running : bool;
  trace : list Event
}.

Definition setSyncedState (x : watcherState) (w : World) : World :=
  mkWorld (undefinedRound w) x (stateStore w) (cachedLastRound w)
    (lastFullyAppliedRound w) (outOfOrderDiffs w) (outOfOrderApplieds w)
    (syncingRounds w) (hashCache w) (fetching w) (finalizing w) (running w)
    (trace w).
Definition setStateStore (x : option watcherState) (w : World) : World :=
  mkWorld (undefinedRound w) (syncedState w) x (cachedLastRound w)
    (lastFullyAppliedRound w) (outOfOrderDiffs w) (outOfOrderApplieds w)
    (syncingRounds w) (hashCache w) (fetching w) (finalizing w) (running w)
    (trace w).
Definition setCachedLastRound (x : Z) (w : World) : World :=
  mkWorld (undefinedRound w) (syncedState w) (stateStore w) x
    (lastFullyAppliedRound w) (outOfOrderDiffs w) (outOfOrderApplieds w)
    (syncingRounds w) (hashCache w) (fetching w) (finalizing w) (running w)
    (trace w).
Definition setLastFullyAppliedRound (x : Z) (w : World) : World :=
  mkWorld (undefinedRound w) (syncedState w) (stateStore w) (cachedLastRound w)
    x (outOfOrderDiffs w) (outOfOrderApplieds w)
    (syncingRounds w) (hashCache w) (fetching w) (finalizing w) (running w)
    (trace w).
Definition setDiffs (x : list fetchedDiff) (w : World) : World :=
  mkWorld (undefinedRound w) (syncedState w) (stateStore w) (cachedLastRound w)
    (lastFullyAppliedRound w) x (outOfOrderApplieds w)
    (syncingRounds w) (hashCache w) (fetching w) (finalizing w) (running w)
    (trace w).
Definition setApplieds (x : list (option blockSummary)) (w : World) : World :=
  mkWorld (undefinedRound w) (syncedState w) (stateStore w) (cachedLastRound w)
    (lastFullyAppliedRound w) (outOfOrderDiffs w) x
    (syncingRounds w) (hashCache w) (fetching w) (finalizing w) (running w)
    (trace w).
Definition setSyncingRounds (x : gmap Z inFlight) (w : World) : World :=
  mkWorld (undefinedRound w) (syncedState w) (stateStore w) (cachedLastRound w)
    (lastFullyAppliedRound w) (outOfOrderDiffs w) (outOfOrderApplieds w)
    x (hashCache w) (fetching w) (finalizing w) (running w)
    (trace w).
Definition setHashCache (x : gmap Z blockSummary) (w : World) : World :=
  mkWorld (undefinedRound w) (syncedState w) (stateStore w) (cachedLastRound w)
    (lastFullyAppliedRound w) (outOfOrderDiffs w) (outOfOrderApplieds w)
    (syncingRounds w) x (fetching w) (finalizing w) (running w)
    (trace w).
Definition setFetching (x : list fetchTask) (w : World) : World :=
  mkWorld (undefinedRound w) (syncedState w) (stateStore w) (cachedLastRound w)
    (lastFullyAppliedRound w) (outOfOrderDiffs w) (outOfOrderApplieds w)
    (syncingRounds w) (hashCache w) x (finalizing w) (running w)
    (trace w).
Definition setFinalizing (x : list finalizeTask) (w : World) : World :=
  mkWorld (undefinedRound w) (syncedState w) (stateStore w) (cachedLastRound w)
    (lastFullyAppliedRound w) (outOfOrderDiffs w) (outOfOrderApplieds w)
    (syncingRounds w) (hashCache w) (fetching w) x (running w)
    (trace w).
Definition setRunning (x : bool) (w : World) : World :=
  mkWorld (undefinedRound w) (syncedState w) (stateStore w) (cachedLastRound w)
    (lastFullyAppliedRound w) (outOfOrderDiffs w) (outOfOrderApplieds w)
    (syncingRounds w) (hashCache w) (fetching w) (finalizing w) x
    (trace w).
Definition setTrace (x : list Event) (w : World) : World :=
  mkWorld (undefinedRound w) (syncedState w) (stateStore w) (cachedLastRound w)
    (lastFullyAppliedRound w) (outOfOrderDiffs w) (outOfOrderApplieds w)
    (syncingRounds w) (hashCache w) (fetching w) (finalizing w) (running w)
    x.

(** Events are appended in the order they happen. *)
Definition emit (evs : list Event) (w : World) : World :=
  setTrace (trace w ++ evs) w.

(** ** Start-up *)

(** Modelled from the spec: urkelNode.Root is declared outside src/;
    [Root.Empty] leaves the empty root, whose hash is the empty hash
    (an empty subtree), in the zero namespace at round 0. *)
Definition emptyRoot : Root :=
  {| rNamespace := ""%string; rRound := 0; rHash := emptyHash |}.

Definition zeroSummary : blockSummary :=
  {| sNamespace := ""%string; sRound := 0;
     sIORoot := {| rNamespace := ""%string; rRound := 0; rHash := ""%string |};
     sStateRoot := {| rNamespace := ""%string; rRound := 0; rHash := ""%string |} |}.

Definition setSummaryRound (r : Z) (s : blockSummary) : blockSummary :=
  {| sNamespace := sNamespace s; sRound := r;
     sIORoot := sIORoot s; sStateRoot := sStateRoot s |}.

(** [NewNode]: the synced state is the default (round all-ones) unless
    the state store holds an entry for the runtime. *)
Definition NewNode (db : option watcherState) : watcherState :=
  let syncedState_ :=
    {| LastBlock := setSummaryRound defaultUndefinedRound zeroSummary |} in
  match db with
  | Some st => st
  | None => syncedState_
  end.

(** [worker] up to its main loop (lines 461-500), for a genesis block
    that was found. *)
Definition workerInit (genesisBlock : Block) (db : option watcherState) : World :=
  let synced := NewNode db in
  let undefinedRound_ := sub64 (hRound (bHeader genesisBlock)) 1 in
  let cachedLastRound_ := sRound (LastBlock synced) in
  let cachedLastRound_ :=
    if (cachedLastRound_ =? defaultUndefinedRound)
       || (cachedLastRound_ <? hRound (bHeader genesisBlock))
    then undefinedRound_ else cachedLastRound_ in
  {| undefinedRound := undefinedRound_;
     syncedState := synced;
     stateStore := db;
     cachedLastRound := cachedLastRound_;
     lastFullyAppliedRound := cachedLastRound_;
     outOfOrderDiffs := [];
     outOfOrderApplieds := [];
     syncingRounds := ∅;
     hashCache := ∅;
     fetching := [];
     finalizing := [];
     running := true;
     trace := [] |}.

(** [worker]: it returns before the loop when the genesis block cannot
    be retrieved. *)
Definition workerStart (genesis : error + Block) (db : option watcherState)
    : option World :=
  match genesis with
  | inl _ => None
  | inr genesisBlock => Some (workerInit genesisBlock db)
  end.

(** ** The main loop *)

(** The two guards at the head of the loop (lines 517 and 558). *)
Definition guardDiffs (w : World) : Result bool :=
  if (0 <? length (outOfOrderDiffs w))%nat then
    head_ ← deref (outOfOrderDiffs w !! 0%nat);
    r ← GetRound head_;
    mret (add64 (lastFullyAppliedRound w) 1 =? r)
  else mret false.

Definition guardApplieds (w : World) : Result bool :=
  if (0 <? length (outOfOrderApplieds w))%nat then
    head_ ← deref (outOfOrderApplieds w !! 0%nat);
    r ← GetRound head_;
    mret (add64 (cachedLastRound w) 1 =? r)
  else mret false.

(** First branch (lines 518-550): pop the next diff, apply it and close
    the round when nothing of it is left. [res] is what
    [localStorage.Apply] answers when it is called. *)
Definition applyStep (res : option error) (w : World) : Result World :=
  '(lastDiff, q) ← heapPop (outOfOrderDiffs w);
  let w := emit [EvPop lastDiff] (setDiffs q w) in
  let w :=
    if fetched lastDiff then
      let w := emit [EvApply lastDiff (applyArgs lastDiff) res] w in
      match res with
      | Some _ => emit [EvLog LogError "can't apply write log"] w
      | None => w
      end
    else w in
  syncing ← deref (syncingRounds w !! round lastDiff);
  let syncing :=
    {| outstanding := maskClear (outstanding syncing) (fetchMask lastDiff);
       awaitingRetry := awaitingRetry syncing |} in
  let w := setSyncingRounds (<[round lastDiff := syncing]> (syncingRounds w)) w in
  if (outstanding syncing =? maskNone) && (awaitingRetry syncing =? maskNone) then
    let w := emit [EvLog LogDebug "finished syncing round"] w in
    let w := setSyncingRounds (delete (round lastDiff) (syncingRounds w)) w in
    let summary := hashCache w !! round lastDiff in
    let w := setHashCache (delete (sub64 (round lastDiff) 1) (hashCache w)) w in
    let w := setLastFullyAppliedRound (round lastDiff) w in
    q' ← heapPush (outOfOrderApplieds w) summary;
    mret (emit [EvPushApplied summary] (setApplieds q' w))
  else mret w.

(** Second branch (lines 559-565): pop the next summary and spawn its
    [finalize]. The popped pointer is the one the guard has just
    dereferenced. *)
Definition spawnStep (w : World) : Result World :=
  '(p, q) ← heapPop (outOfOrderApplieds w);
  lastSummary ← deref p;
  mret (emit [EvSpawnFinalize lastSummary]
          (setFinalizing (finalizing w ++ [mkFinalizeTask lastSummary false])
             (setApplieds q w))).

(** The [finalize] goroutine [k] calls the local store, which answers
    [res], and logs. *)
Definition runFinalize (k : nat) (res : option error) (w : World) : Result World :=
  match finalizing w !! k with
  | Some (mkFinalizeTask summary false) =>
      let '(call, lvl, _) := finalize res summary in
      mret (emit [EvFinalize call res; EvLog lvl "finalize"]
              (setFinalizing (<[k := mkFinalizeTask summary true]> (finalizing w)) w))
  | _ => Blocked
  end.

(** [case prunedBlk := <-pruneCh] *)
Definition handlePruned (prunedBlk : PrunedBlock) (res : option error) (w : World)
    : Result World :=
  let w := emit [EvLog LogDebug "pruning storage for round"] w in
  let ns := pRuntimeID prunedBlk in
  let w := emit [EvPrune ns (pRound prunedBlk) res] w in
  match res with
  | Some _ => mret (emit [EvLog LogError "failed to prune block"] w)
  | None => mret w
  end.

(** Lines 590-600: the summary that stands for the round before the
    first one. *)
Definition installDummy (blk : Block) (w : World) : World :=
  if negb (bool_decide (is_Some (hashCache w !! cachedLastRound w)))
     && (cachedLastRound w =? undefinedRound w)
  then
    let r := add64 (cachedLastRound w) 1 in
    let dummy :=
      {| sNamespace := hNamespace (bHeader blk);
         sRound := r;
         sIORoot := {| rNamespace := rNamespace emptyRoot; rRound := r;
                       rHash := rHash emptyRoot |};
         sStateRoot := {| rNamespace := rNamespace emptyRoot; rRound := r;
                          rHash := rHash emptyRoot |} |} in
    setHashCache (<[cachedLastRound w := dummy]> (hashCache w)) w
  else w.

(** Lines 605-608. *)
Definition startSummaryRound (w : World) : Z :=
  let startSummaryRound_ := cachedLastRound w in
  if startSummaryRound_ =? undefinedRound w then add64 startSummaryRound_ 1
  else startSummaryRound_.

(** Lines 609-624: [for i := startSummaryRound; i < blk.Header.Round; i++].
    A failed lookup ends in the explicit [panic]. *)
Fixpoint catchUp (getBlock : Z -> error + Block) (fuel : nat) (i R : Z)
    (w : World) : Result World :=
  if i <? R then
    match fuel with
    | O => Diverges
    | S fuel' =>
        w' ← match hashCache w !! i with
             | Some _ => Ok w
             | None =>
                 match getBlock i with
                 | inl _ => Panic
                 | inr oldBlock =>
                     Ok (setHashCache (<[i := summaryFromBlock oldBlock]> (hashCache w))
                           (emit [EvGetBlock i] w))
                 end
             end;
        catchUp getBlock fuel' (add64 i 1) R w'
    end
  else Ok w.

(** Lines 625-627. *)
Definition cacheIncoming (blk : Block) (w : World) : World :=
  match hashCache w !! hRound (bHeader blk) with
  | Some _ => w
  | None =>
      setHashCache (<[hRound (bHeader blk) := summaryFromBlock blk]> (hashCache w)) w
  end.

(** Lines 656 and 665: the subtree [m] awaits a retry and is not
    outstanding. *)
Definition needsFetch (syncing : inFlight) (m : outstandingMask) : bool :=
  (Z.land (outstanding syncing) m =? 0)
  && negb (Z.land (awaitingRetry syncing) m =? 0).

(** [syncing.outstanding |= m; syncing.awaitingRetry &= ^m] *)
Definition markOutstanding (syncing : inFlight) (m : outstandingMask) : inFlight :=
  {| outstanding := maskSet (outstanding syncing) m;
     awaitingRetry := maskClear (awaitingRetry syncing) m |}.

(** The entry of round [i], written through its pointer, and the fetch
    handed to the pool. *)
Definition submitFetch (i : Z) (syncing : inFlight) (t : fetchTask) (w : World)
    : World :=
  emit [EvSubmit t]
    (setFetching (fetching w ++ [t])
       (setSyncingRounds (<[i := syncing]> (syncingRounds w)) w)).

(** Lines 656-664 and 665-673, for the subtree [m]: [syncing] is the
    pointer held by [syncingRounds[i]], read and written through the
    map. The entry is there: the loop body has just looked it up or
    created it. *)
Definition scheduleSubtree (i : Z) (m : outstandingMask) (t : fetchTask)
    (w : World) : World :=
  match syncingRounds w !! i with
  | Some syncing =>
      if needsFetch syncing m
      then submitFetch i (markOutstanding syncing m) t w
      else w
  | None => w
  end.

(** Lines 630-673: the body of the scheduling loop for round [i]. *)
Definition scheduleRound (i : Z) (w : World) : Result World :=
  let found := syncingRounds w !! i in
  if match found with
     | Some syncing => outstanding syncing =? maskAll
     | None => false
     end
  then Ok w
  else
    let w :=
      match found with
      | Some _ => w
      | None =>
          setSyncingRounds
            (<[i := {| outstanding := maskNone; awaitingRetry := maskAll |}]>
               (syncingRounds w)) w
      end in
    let w := emit [EvLog LogDebug "preparing round sync"] w in
    let prev := hashCache w !! sub64 i 1 in
    this ← deref (hashCache w !! i);
    let prevIORoot :=
      {| rNamespace := rNamespace (sIORoot this);
         rRound := rRound (sIORoot this);
         rHash := emptyHash |} in
    let w :=
      scheduleSubtree i maskIO
        (mkFetchTask (sRound this) (Some prevIORoot) (sIORoot this) maskIO) w in
    let w :=
      scheduleSubtree i maskState
        (mkFetchTask (sRound this) (sStateRoot <$> prev) (sStateRoot this)
           maskState) w in
    Ok w.

(** Line 629: [for i := cachedLastRound + 1; i <= blk.Header.Round; i++].
    When the block's round is the largest [uint64] the condition never
    fails: the loop wraps and runs until it panics, if it ever does. *)
Fixpoint scheduleLoop (fuel : nat) (i R : Z) (w : World) : Result World :=
  if i <=? R then
    match fuel with
    | O => Diverges
    | S fuel' =>
        w' ← scheduleRound i w;
        scheduleLoop fuel' (add64 i 1) R w'
    end
  else Ok w.

(** [case inBlk := <-n.blockCh.Out()] *)
Definition handleNewBlock (blk : Block) (getBlock : Z -> error + Block) (w : World)
    : Result World :=
  let R := hRound (bHeader blk) in
  let w := emit [EvLog LogDebug "incoming block"] w in
  let w := installDummy blk w in
  let start := startSummaryRound w in
  w ← catchUp getBlock (Z.to_nat (R - start)) start R w;
  let w := cacheIncoming blk w in
  let first := add64 (cachedLastRound w) 1 in
  scheduleLoop (Z.to_nat (R - first + 1)) first R w.

(** [case item := <-n.diffCh] for one received item. *)
Definition handleItem (item : fetchedDiff) (w : World) : Result World :=
  match err item with
  | Some _ =>
      let w := emit [EvLog LogError "error calling getdiff"] w in
      syncing ← deref (syncingRounds w !! round item);
      let syncing :=
        {| outstanding := maskClear (outstanding syncing) (fetchMask item);
           awaitingRetry := awaitingRetry syncing |} in
      let w := setSyncingRounds (<[round item := syncing]> (syncingRounds w)) w in
      syncing ← deref (syncingRounds w !! round item);
      let syncing :=
        {| outstanding := outstanding syncing;
           awaitingRetry := maskSet (awaitingRetry syncing) (fetchMask item) |} in
      mret (setSyncingRounds (<[round item := syncing]> (syncingRounds w)) w)
  | None =>
      q ← heapPush (outOfOrderDiffs w) item;
      mret (setDiffs q w)
  end.

Fixpoint handleItems (items : list fetchedDiff) (w : World) : Result World :=
  match items with
  | [] => Ok w
  | item :: rest => w' ← handleItem item w; handleItems rest w'
  end.

(** The pool runs fetch [k] against the store and the client as they
    are then ([st]), and the loop receives what it sends. *)
Definition handleDiff (k : nat) (st : Storage) (w : World) : Result World :=
  match fetching w !! k with
  | None => Blocked
  | Some t =>
      prev ← deref (tPrev t);
      let run := fetchDiff st (tRound t) prev (tThis t) (tMask t) in
      let w := setFetching (delete k (fetching w)) w in
      let w := emit (map (fun c => EvGetDiff (fst c) (snd c)) (remoteCalls run)) w in
      handleItems (sent run) w
  end.

(** [case finalized := <-n.finalizeCh]: goroutine [k] has made its call
    and sends; [dbErr] is the outcome of the state store's update. *)
Definition handleFinalized (k : nat) (dbErr : option error) (w : World)
    : Result World :=
  match finalizing w !! k with
  | Some (mkFinalizeTask finalized true) =>
      let w := setFinalizing (delete k (finalizing w)) w in
      let synced :=
        {| LastBlock :=
             {| sNamespace := sNamespace (LastBlock (syncedState w));
                sRound := sRound finalized;
                sIORoot := sIORoot finalized;
                sStateRoot := sStateRoot finalized |} |} in
      let w := setSyncedState synced w in
      let w :=
        match dbErr with
        | None => setStateStore (Some synced) w
        | Some _ => w
        end in
      let w := emit [EvFinalized finalized; EvPersist synced dbErr] w in
      let w := setCachedLastRound (sRound finalized) w in
      match dbErr with
      | Some _ => mret (emit [EvLog LogError "can't store watcher state to database"] w)
      | None => mret w
      end
  | _ => Blocked
  end.

(** What can happen next. *)
Inductive Label :=
| LApply (res : option error)
| LSpawnFinalize
| LRunFinalize (k : nat) (res : option error)
| LPruned (prunedBlk : PrunedBlock) (res : option error)
| LNewBlock (blk : Block) (getBlock : Z -> error + Block)
| LDiff (k : nat) (st : Storage)
| LFinalized (k : nat) (dbErr : option error)
| LDone.

(** One iteration of [mainLoop] (or one step of a [finalize] goroutine,
    which runs beside it). The drains come first: an input of the
    [select] is taken only when neither guard holds. *)
Definition iter (l : Label) (w : World) : Result World :=
  match l with
  | LRunFinalize k res => runFinalize k res w
  | _ =>
      if negb (running w) then Blocked
      else
        gd ← guardDiffs w;
        if (gd : bool) then
          match l with
          | LApply res => applyStep res w
          | _ => Blocked
          end
        else
          ga ← guardApplieds w;
          if (ga : bool) then
            match l with
            | LSpawnFinalize => spawnStep w
            | _ => Blocked
            end
          else
            match l with
            | LPruned prunedBlk res => handlePruned prunedBlk res w
            | LNewBlock blk getBlock => handleNewBlock blk getBlock w
            | LDiff k st => handleDiff k st w
            | LFinalized k dbErr => handleFinalized k dbErr w
            | LDone => mret (setRunning false w)
            | _ => Blocked
            end
  end.

(** A run: the labels in order. *)
Fixpoint run (ls : list Label) (w : World) : Result World :=
  match ls with
  | [] => Ok w
  | l :: rest => w' ← iter l w; run rest w'
  end.

(** ** Runs of the worker *)

(** What the environment is assumed to do: a new block carries a
    [uint64] round, and the roothash backend answers a lookup by round
    with a block of that round. *)
Definition wfLabel (l : Label) : Prop :=
  match l with
  | LNewBlock blk getBlock =>
      isUint64 (hRound (bHeader blk))
      ∧ ∀ i b, getBlock i = inr b → hRound (bHeader b) = i
  | _ => True
  end.

Definition anyLabel (l : Label) : Prop := True.

Inductive reachableFrom (P : Label → Prop) (w0 : World) : World → Prop :=
| reach_init : reachableFrom P w0 w0
| reach_step w l w' :
    reachableFrom P w0 w → P l → iter l w = Ok w' → reachableFrom P w0 w'.

Definition wfStart (genesisBlock : Block) (db : option watcherState) : Prop :=
  isUint64 (hRound (bHeader genesisBlock))
  ∧ ∀ st, db = Some st → isUint64 (sRound (LastBlock st)).

(** The states of the worker in its main loop. *)
Definition Reachable (w : World) : Prop :=
  ∃ genesisBlock db,
    wfStart genesisBlock db
    ∧ reachableFrom wfLabel (workerInit genesisBlock db) w.

(** ** Observations on a trace *)

Definition popRounds (tr : list Event) : list Z :=
  omap (fun e => match e with EvPop d => Some (round d) | _ => None end) tr.

Definition applyCalls (tr : list Event) : list (applyCall * option error) :=
  omap (fun e => match e with EvApply _ call res => Some (call, res) | _ => None end) tr.

(** The destination round of each [Apply], in the order of the calls. *)
Definition applyRounds (tr : list Event) : list Z :=
  (fun c => aDstRound (fst c)) <$> applyCalls tr.

Definition finalizeRounds (tr : list Event) : list Z :=
  omap (fun e => match e with EvFinalize call _ => Some (fRound call) | _ => None end) tr.

Definition getBlockRounds (tr : list Event) : list Z :=
  omap (fun e => match e with EvGetBlock i => Some i | _ => None end) tr.

Definition submitted (tr : list Event) : list fetchTask :=
  omap (fun e => match e with EvSubmit t => Some t | _ => None end) tr.

(** Orders on a list of rounds. *)
Definition strictlyIncreasing (l : list Z) : Prop :=
  ∀ (i : nat) x y, l !! i = Some x → l !! S i = Some y → x < y.

Definition consecutive (l : list Z) : Prop :=
  ∀ (i : nat) x y, l !! i = Some x → l !! S i = Some y → y = x + 1.

(** Each round is the one before it or its successor. *)
Definition gapless (l : list Z) : Prop :=
  ∀ (i : nat) x y, l !! i = Some x → l !! S i = Some y → y = x ∨ y = x + 1.

Definition nondecreasing (l : list Z) : Prop :=
  ∀ (i j : nat) x y, (i < j)%nat → l !! i = Some x → l !! j = Some y → x <= y.

(** ** The invariant of the main loop *)

(** A round as a position: the all-ones round is the one before round 0. *)
Definition ordinal (x : Z) : Z := if x =? MaxUint64 then -1 else x.

Definition coherent (s : blockSummary) : Prop :=
  rRound (sIORoot s) = sRound s ∧ rRound (sStateRoot s) = sRound s.

(** The (round, subtree) of the fetches under way: results waiting in
    the diffs queue and tasks in the pool. *)
Definition diffKey (d : fetchedDiff) : Z * Z := (round d, fetchMask d).
Definition taskKey (t : fetchTask) : Z * Z := (tRound t, tMask t).
Definition pending (w : World) : list (Z * Z) :=
  (diffKey <$> outOfOrderDiffs w) ++ (taskKey <$> fetching w).

Definition appliedRound (p : option blockSummary) : Z :=
  match p with Some s => sRound s | None => -2 end.

(** Rounds finalized, rounds applied and what lies between them. *)
Record InvRounds (w : World) : Prop := mkInvRounds {
  inv_u : isUint64 (undefinedRound w);
  inv_c : isUint64 (cachedLastRound w);
  inv_a : isUint64 (lastFullyAppliedRound w);
  inv_uc : ordinal (undefinedRound w) <= ordinal (cachedLastRound w);
  inv_ca : ordinal (cachedLastRound w) <= ordinal (lastFullyAppliedRound w);
  inv_fin_len : (length (finalizing w) <= 1)%nat;
  inv_fin : ∀ t, t ∈ finalizing w →
      sRound (ftSummary t) = ordinal (cachedLastRound w) + 1
      ∧ ordinal (cachedLastRound w) + 1 <= ordinal (lastFullyAppliedRound w);
  inv_applieds : ∀ p, p ∈ outOfOrderApplieds w →
      is_Some p
      ∧ ordinal (cachedLastRound w) < appliedRound p <= ordinal (lastFullyAppliedRound w)
      ∧ ∀ t, t ∈ finalizing w → appliedRound p ≠ sRound (ftSummary t);
  inv_applieds_nodup : NoDup (appliedRound <$> outOfOrderApplieds w)
}.

(** Every cached summary is the summary of its round, but for the
    summary standing before the first round. *)
Definition InvHash (w : World) : Prop :=
  ∀ k s, hashCache w !! k = Some s →
    coherent s ∧ (k ≠ undefinedRound w → sRound s = k).

(** Fetches under way: one at most for a round and a subtree, marked
    outstanding in the round's entry. *)
Record InvPending (w : World) : Prop := mkInvPending {
  inv_pending : ∀ r m, (r, m) ∈ pending w →
      0 <= r < MaxUint64
      ∧ (m = maskIO ∨ m = maskState)
      ∧ (ordinal (lastFullyAppliedRound w) < r → is_Some (hashCache w !! r))
      ∧ ∃ e, syncingRounds w !! r = Some e ∧ Z.land (outstanding e) m ≠ 0;
  inv_pending_nodup : NoDup (pending w);
  inv_diffs_coherent : ∀ d, d ∈ outOfOrderDiffs w → rRound (thisRoot d) = round d;
  inv_tasks_coherent : ∀ t, t ∈ fetching w → rRound (tThis t) = tRound t
}.

(** The calls made so far. *)
Record InvTrace (w : World) : Prop := mkInvTrace {
  inv_pops : gapless (popRounds (trace w));
  inv_pops_last : ∀ x, last (popRounds (trace w)) = Some x →
      x = ordinal (lastFullyAppliedRound w)
      ∨ x = ordinal (lastFullyAppliedRound w) + 1;
  inv_applies : nondecreasing (applyRounds (trace w));
  inv_applies_bound : ∀ x, x ∈ applyRounds (trace w) →
      x <= ordinal (lastFullyAppliedRound w) + 1;
  inv_finalizes : consecutive (finalizeRounds (trace w));
  inv_finalizes_last : ∀ x, last (finalizeRounds (trace w)) = Some x →
      x = ordinal (cachedLastRound w)
          + (if existsb ftCalled (finalizing w) then 1 else 0)
}.

Record Inv (w : World) : Prop := mkInv {
  inv_rounds : InvRounds w;
  inv_hash : InvHash w;
  inv_pend : InvPending w;
  inv_trace : InvTrace w
}.

(** A step that pops nothing, applies nothing, finalizes nothing and
    leaves the rounds and the queues as they are. *)
Record quietStep (w w' : World) : Prop := mkQuiet {
  quiet_u : undefinedRound w' = undefinedRound w;
  quiet_c : cachedLastRound w' = cachedLastRound w;
  quiet_a : lastFullyAppliedRound w' = lastFullyAppliedRound w;
  quiet_diffs : outOfOrderDiffs w' = outOfOrderDiffs w;
  quiet_applieds : outOfOrderApplieds w' = outOfOrderApplieds w;
  quiet_finalizing : finalizing w' = finalizing w;
  quiet_running : running w' = running w;
  quiet_pops : popRounds (trace w') = popRounds (trace w);
  quiet_applies : applyCalls (trace w') = applyCalls (trace w);
  quiet_finalizes : finalizeRounds (trace w') = finalizeRounds (trace w)
}.

(** The diffs queue holds a diff of a round that is not after the last
    fully applied one. *)
Definition staleDiffQueued (w : World) : Prop :=
  ∃ d, d ∈ outOfOrderDiffs w ∧ round d <= ordinal (lastFullyAppliedRound w).

(** Subtrees outstanding and awaiting retry do not overlap. *)
Definition disjointMasks (w : World) : Prop :=
  ∀ r e, syncingRounds w !! r = Some e →
    Z.land (outstanding e) (awaitingRetry e) = 0.

(** ** What the fetcher is expected to deliver *)

(** The chunks streamed before the stream ends or fails, in order. *)
Fixpoint chunksRead (steps : list iterStep) : WriteLog :=
  match steps with
  | itValue chunk :: rest => chunk :: chunksRead rest
  | _ => []
  end.

(** The failure met while consuming the stream, if any. *)
Fixpoint streamError (steps : list iterStep) (end_ : option error) : option error :=
  match steps with
  | [] => end_
  | itValue _ :: rest => streamError rest end_
  | itValueErr e :: _ => Some e
  end.

(** ** A sample runtime

    A runtime whose genesis block is round 0 and whose state store is
    empty, with the blocks, the roothash backend and the stores used to
    run the worker on concrete inputs. *)
Definition sampleHash (tag : string) (r : Z) : Hash :=
  (tag +:+ match r with
           | 0 => "0" | 1 => "1" | 2 => "2" | 3 => "3" | 4 => "4"
           | 5 => "5" | 6 => "6" | 7 => "7" | 8 => "8" | 9 => "9"
           | _ => "n"
           end)%string.

Definition sampleBlock (r : Z) : Block :=
  mkBlock (mkHeader "ns" r (sampleHash "io" r) (sampleHash "state" r)).

Definition sampleChain (i : Z) : error + Block := inr (sampleBlock i).

(** A store that has none of the roots, with a client streaming one
    chunk. *)
Definition missingStore : Storage :=
  mkStorage (fun _ => false)
    (fun _ _ => inr (mkIterator [itValue ("key", "value")%string] None)).

(** A store that has every root. *)
Definition presentStore : Storage :=
  mkStorage (fun _ => true) (fun _ _ => inl "unused"%string).

(** A client whose stream fails after one chunk. *)
Definition failingStore : Storage :=
  mkStorage (fun _ => false)
    (fun _ _ => inr (mkIterator [itValue ("key", "value")%string]
                      (Some "stream broken"%string))).

Definition sampleInit : World := workerInit (sampleBlock 0) None.

Definition sampleRun (ls : list Label) : World := fromOk sampleInit (run ls sampleInit).

(** Fetch, apply and finalize the round whose two fetches are the only
    ones in the pool. *)
Definition syncRound : list Label :=
  [LDiff 0 missingStore; LApply None; LDiff 0 missingStore; LApply None;
   LSpawnFinalize; LRunFinalize 0 None; LFinalized 0 None].

(** Block 0 arrives; its two diffs are fetched and applied. *)
Definition applyRound0 : list Label :=
  [LNewBlock (sampleBlock 0) sampleChain;
   LDiff 0 missingStore; LApply None; LDiff 0 missingStore; LApply None].

(** Block 1 arrives first; the two diffs of round 1 are delivered
    before those of round 0. *)
Definition round1First : list Label :=
  [LNewBlock (sampleBlock 1) sampleChain;
   LDiff 2 missingStore; LDiff 2 missingStore].

(** Rounds 0 to 2 arrive at once; the roots of round 1 are already in
    the store. *)
Definition round1Present : list Label :=
  [LNewBlock (sampleBlock 2) sampleChain;
   LDiff 0 missingStore; LApply None; LDiff 0 missingStore; LApply None;
   LSpawnFinalize;
   LDiff 0 presentStore; LApply None; LDiff 0 presentStore; LApply None;
   LDiff 0 missingStore; LApply None; LDiff 0 missingStore; LApply None].

(** Round 0 is applied and its [finalize] has called the store; the
    loop has not yet received the completion. *)
Definition round0Processed : list Label :=
  applyRound0 ++ [LSpawnFinalize; LRunFinalize 0 None].

(** Block 0 is delivered once, then block 1. *)
Definition deliveredOnce : list Label :=
  round0Processed
  ++ [LFinalized 0 None; LNewBlock (sampleBlock 1) sampleChain]
  ++ syncRound.

(** Block 0 is delivered a second time before the completion of its
    [finalize] is received; then block 1. Every fetch is delivered. *)
Definition deliveredTwice : list Label :=
  round0Processed
  ++ [LNewBlock (sampleBlock 0) sampleChain;
      LFinalized 0 None;
      LDiff 0 presentStore; LDiff 0 presentStore;
      LNewBlock (sampleBlock 1) sampleChain;
      LDiff 0 missingStore; LDiff 0 missingStore].

(** Block 1 arrives before the completion of round 0's [finalize] is
    received. Every fetch is delivered. *)
Definition nextDuringFinalize : list Label :=
  round0Processed
  ++ [LNewBlock (sampleBlock 1) sampleChain;
      LFinalized 0 None;
      LDiff 0 presentStore; LDiff 0 presentStore;
      LDiff 0 missingStore; LDiff 0 missingStore].

(** A roothash backend whose latest block is round 7. *)
Definition sampleRoothash : Roothash :=
  mkRoothash (inr (sampleBlock 7)) (fun i => inr (sampleBlock i)).

(** * The rest of the node *)

(** ** Queries and shutdown *)

(** [GetLastSynced] (lines 328-334): the round and the two roots of the
    last block synced, read under the lock. *)
Definition GetLastSynced (w : World) : Z * Root * Root :=
  (sRound (LastBlock (syncedState w)),
   sIORoot (LastBlock (syncedState w)),
   sStateRoot (LastBlock (syncedState w))).

(** The counter of [fetcherGroup]: one is added for each fetch handed
    to the pool (lines 659 and 668) and for each [finalize] spawned
    (line 560); it is taken off when the goroutine returns, which it
    does once its send on [diffCh] or [finalizeCh] has been received. *)
Definition fetcherGroup (w : World) : nat :=
  (length (fetching w) + length (finalizing w))%nat.

(** [worker] returns (line 714): the loop is left and
    [fetcherGroup.Wait()] returns. *)
Definition workerReturns (w : World) : Prop :=
  running w = false ∧ fetcherGroup w = 0%nat.

(** ** The checkpoint *)

(** The round [NewNode] reads back from the state store as it is: the
    round a restart of the node resumes from. *)
Definition persistedRound (w : World) : Z :=
  sRound (LastBlock (NewNode (stateStore w))).

(** A step that leaves the synced state and the state store alone. *)
Record sameCheckpoint (w w' : World) : Prop := mkSameCheckpoint {
  same_synced : syncedState w' = syncedState w;
  same_store : stateStore w' = stateStore w
}.

(** The synced state, the state store and the summaries on their way to
    them, for a worker started on [genesisBlock] and [db]. *)
Record InvCheckpoint (genesisBlock : Block) (db : option watcherState)
    (w : World) : Prop := mkInvCheckpoint {
  ck_undefined : undefinedRound w = sub64 (hRound (bHeader genesisBlock)) 1;
  ck_start : ordinal (cachedLastRound (workerInit genesisBlock db))
             <= ordinal (cachedLastRound w);
  ck_synced : syncedState w = NewNode db
      ∨ (sRound (LastBlock (syncedState w)) = cachedLastRound w
         ∧ coherent (LastBlock (syncedState w))
         ∧ hRound (bHeader genesisBlock) <= cachedLastRound w < MaxUint64
         ∧ cachedLastRound w ∈ finalizeRounds (trace w));
  ck_store : stateStore w = db
      ∨ (∃ st, stateStore w = Some st
           ∧ hRound (bHeader genesisBlock) <= sRound (LastBlock st)
                                           <= ordinal (cachedLastRound w)
           ∧ coherent (LastBlock st)
           ∧ sRound (LastBlock st) ∈ finalizeRounds (trace w));
  ck_called : ∀ t, t ∈ finalizing w → ftCalled t = true →
      sRound (ftSummary t) ∈ finalizeRounds (trace w);
  ck_finalizing : ∀ t, t ∈ finalizing w → coherent (ftSummary t);
  ck_applieds : ∀ s, Some s ∈ outOfOrderApplieds w → coherent s
}.

(** ** Fetches and the marks of a round *)

(** The subtrees of a round marked outstanding are those with a fetch
    under way, and neither mask holds a bit other than the two
    subtrees'. *)
Record InvOutstanding (w : World) : Prop := mkInvOutstanding {
  out_range : ∀ r e, syncingRounds w !! r = Some e →
      0 <= outstanding e <= maskAll ∧ 0 <= awaitingRetry e <= maskAll;
  out_pending : ∀ r e m, syncingRounds w !! r = Some e →
      (m = maskIO ∨ m = maskState) →
      Z.land (outstanding e) m ≠ 0 → (r, m) ∈ pending w
}.

(** The previous root of an IO fetch (lines 650-654): the root to
    fetch, with the empty hash. *)
Definition emptiedRoot (this : Root) : Root :=
  {| rNamespace := rNamespace this; rRound := rRound this; rHash := emptyHash |}.

(** The two roots a fetch of round [r] and subtree [m] is given, for
    the sentinel [u]: the IO root against itself emptied; the state
    root against the state root of the round before or, for the first
    round, against an empty root of the round itself. *)
Definition fetchShape (u r m : Z) (prev this : Root) : Prop :=
  rRound this = r
  ∧ ((m = maskIO ∧ prev = emptiedRoot this)
     ∨ (m = maskState
        ∧ (rRound prev = r - 1
           ∨ (r = ordinal u + 1 ∧ rRound prev = r ∧ rHash prev = emptyHash)))).

(** The source of an Apply: the empty hash at the destination's round,
    or a root of the round before. *)
Definition applyShape (call : applyCall) : Prop :=
  (aSrcRound call = aDstRound call ∧ aSrcHash call = emptyHash)
  ∨ aSrcRound call = aDstRound call - 1.

Record InvShape (w : World) : Prop := mkInvShape {
  shape_tasks : ∀ t, t ∈ fetching w →
      ∃ prev, tPrev t = Some prev
        ∧ fetchShape (undefinedRound w) (tRound t) (tMask t) prev (tThis t);
  shape_diffs : ∀ d, d ∈ outOfOrderDiffs w →
      fetchShape (undefinedRound w) (round d) (fetchMask d) (prevRoot d) (thisRoot d);
  shape_dummy : cachedLastRound w = undefinedRound w →
      ∀ s, hashCache w !! undefinedRound w = Some s →
        rRound (sStateRoot s) = ordinal (undefinedRound w) + 1
        ∧ rHash (sStateRoot s) = emptyHash;
  shape_applies : ∀ c, c ∈ applyCalls (trace w) → applyShape c.1
}.

(** ** Printing a mask *)

(** [outstandingMask.String] (lines 59-69): the subtrees whose bit is
    set, IO first, joined by a comma. *)
Definition outstandingMask_String (o : Z) : string :=
  let represented : list string := [] in
  let represented :=
    if Z.land o maskIO =? 0 then represented else represented ++ ["io"%string] in
  let represented :=
    if Z.land o maskState =? 0 then represented else represented ++ ["state"%string] in
  String.append "outstanding_mask{"
    (String.append (String.concat ", " represented) "}").

(** ** A round synced in step *)

(** The worker waits in its [select] with nothing queued, nothing in
    flight and no round in progress. *)
Record idle (w : World) : Prop := mkIdle {
  idle_running : running w = true;
  idle_diffs : outOfOrderDiffs w = [];
  idle_applieds : outOfOrderApplieds w = [];
  idle_fetching : fetching w = [];
  idle_finalizing : finalizing w = [];
  idle_syncing : syncingRounds w = ∅;
  idle_rounds : lastFullyAppliedRound w = cachedLastRound w
}.

(** A local store and a storage client that answer every fetch without
    an error. *)
Definition answers (st : Storage) : Prop :=
  ∀ r prev this m, err (fetchDiffBody st r prev this m).1 = None.

(** A block arrives; the result of its IO fetch is received and
    applied, then that of its state fetch; the round is finalized and
    the completion received. [apIO], [apState], [fin] and [dbErr] are
    what Apply, Finalize and the state store answer. *)
Definition syncNext (blk : Block) (getBlock : Z → error + Block)
    (stIO stState : Storage) (apIO apState fin dbErr : option error)
    : list Label :=
  [LNewBlock blk getBlock;
   LDiff 0 stIO; LApply apIO; LDiff 0 stState; LApply apState;
   LSpawnFinalize; LRunFinalize 0 fin; LFinalized 0 dbErr].

(** The blocks of the rounds [r], [r + 1], ... in this order. *)
Fixpoint inStep (r : Z) (blks : list Block) : Prop :=
  match blks with
  | [] => True
  | blk :: rest => hRound (bHeader blk) = r ∧ inStep (r + 1) rest
  end.

(** Each block is synced before the next one arrives. *)
Definition syncInStep (getBlock : Z → error + Block) (st : Storage)
    (ap fin dbErr : option error) (blks : list Block) : list Label :=
  flat_map (fun blk => syncNext blk getBlock st st ap ap fin dbErr) blks.

(** ** Finalize after Apply *)

(** The round and the subtree of each diff popped, in order. *)
Definition popKeys (tr : list Event) : list (Z * Z) :=
  omap (fun e => match e with EvPop d => Some (diffKey d) | _ => None end) tr.

(** A diff of each subtree of round [r] was popped. *)
Definition bothPopped (tr : list Event) (r : Z) : Prop :=
  (r, maskIO) ∈ popKeys tr ∧ (r, maskState) ∈ popKeys tr.

(** A subtree of a round in progress that is neither outstanding nor
    awaiting a retry has had a diff popped; so have both subtrees of a
    round that waits for its finalize, is being finalized or was
    finalized. *)
Record InvPopped (w : World) : Prop := mkInvPopped {
  pop_syncing : ∀ r e m, syncingRounds w !! r = Some e →
      (m = maskIO ∨ m = maskState) →
      Z.land (outstanding e) m = 0 → Z.land (awaitingRetry e) m = 0 →
      (r, m) ∈ popKeys (trace w);
  pop_applieds : ∀ s, Some s ∈ outOfOrderApplieds w →
      bothPopped (trace w) (sRound s);
  pop_finalizing : ∀ t, t ∈ finalizing w →
      bothPopped (trace w) (sRound (ftSummary t));
  pop_finalized : ∀ r, r ∈ finalizeRounds (trace w) → bothPopped (trace w) r
}.

(** A step that pops nothing. *)
Definition samePops (w w' : World) : Prop :=
  popKeys (trace w') = popKeys (trace w).

(** The first part of [InvPopped], for the keys [K] popped so far. *)
Definition syncPopped (K : list (Z * Z)) (w : World) : Prop :=
  ∀ r e m, syncingRounds w !! r = Some e →
    (m = maskIO ∨ m = maskState) →
    Z.land (outstanding e) m = 0 → Z.land (awaitingRetry e) m = 0 →
    (r, m) ∈ K.

(** * Properties *)

(** ** The outcome monad *)

Lemma bind_Ok {A B} (r : Result A) (f : A → Result B) (b : B) :
  r ≫= f = Ok b ↔ ∃ a, r = Ok a ∧ f a = Ok b.
Proof.
  unfold mbind, Result_bind. destruct r; split.
  all: try (intros [a' [Ha Hf]]); try discriminate; eauto.
  injection Ha as <-. exact Hf.
Qed.

Lemma deref_Ok {A} (o : option A) (a : A) : deref o = Ok a ↔ o = Some a.
Proof. destruct o; simpl; split; congruence. Qed.

(** Break a successful run of monadic code into its successful steps. *)
Ltac inv_ok :=
  repeat match goal with
  | H : Ok _ = Ok _ |- _ => injection H as H; try subst
  | H : mret _ = Ok _ |- _ => injection H as H; try subst
  | H : Panic = Ok _ |- _ => discriminate H
  | H : Diverges = Ok _ |- _ => discriminate H
  | H : Blocked = Ok _ |- _ => discriminate H
  | H : _ ≫= _ = Ok _ |- _ =>
      let a := fresh "a" in
      let Ha := fresh "Hstep" in
      apply bind_Ok in H; destruct H as [a [Ha H]]
  | H : deref _ = Ok _ |- _ => apply deref_Ok in H
  end.

(** ** Machine arithmetic *)

Lemma MaxUint64_eq : MaxUint64 = 18446744073709551615.
Proof. reflexivity. Qed.

Lemma defaultUndefinedRound_eq : defaultUndefinedRound = MaxUint64.
Proof. reflexivity. Qed.

Lemma add64_1 (x : Z) : isUint64 x → add64 x 1 = ordinal x + 1.
Proof.
  unfold isUint64, add64, wrap64, ordinal. rewrite MaxUint64_eq. intros Hx.
  destruct (Z.eqb_spec x 18446744073709551615) as [->|Hne].
  - reflexivity.
  - apply Z.mod_small. lia.
Qed.

Lemma sub64_1 (x : Z) : isUint64 x → ordinal (sub64 x 1) = x - 1.
Proof.
  unfold isUint64, sub64, wrap64, ordinal. rewrite MaxUint64_eq. intros Hx.
  destruct (Z.eq_dec x 0) as [->|Hne].
  - reflexivity.
  - rewrite Z.mod_small by lia.
    destruct (Z.eqb_spec (x - 1) 18446744073709551615); lia.
Qed.

Lemma sub64_isUint64 (x y : Z) : isUint64 (sub64 x y).
Proof.
  unfold isUint64, sub64, wrap64. rewrite MaxUint64_eq.
  pose proof (Z.mod_pos_bound (x - y) (2 ^ 64) ltac:(lia)). lia.
Qed.

Lemma add64_isUint64 (x y : Z) : isUint64 (add64 x y).
Proof.
  unfold isUint64, add64, wrap64. rewrite MaxUint64_eq.
  pose proof (Z.mod_pos_bound (x + y) (2 ^ 64) ltac:(lia)). lia.
Qed.

Lemma ordinal_small (x : Z) : x ≠ MaxUint64 → ordinal x = x.
Proof. unfold ordinal. destruct (Z.eqb_spec x MaxUint64); congruence. Qed.

Lemma ordinal_bounds (x : Z) : isUint64 x → -1 <= ordinal x < MaxUint64.
Proof.
  unfold isUint64, ordinal. rewrite MaxUint64_eq.
  destruct (Z.eqb_spec x 18446744073709551615); lia.
Qed.

Lemma ordinal_inj (x y : Z) :
  isUint64 x → isUint64 y → ordinal x = ordinal y → x = y.
Proof.
  unfold isUint64, ordinal. rewrite MaxUint64_eq.
  destruct (Z.eqb_spec x 18446744073709551615),
    (Z.eqb_spec y 18446744073709551615); lia.
Qed.

(** ** Masks *)

Lemma maskNot_spec (m : Z) (n : Z) :
  0 <= n → Z.testbit (maskNot m) n = negb (Z.testbit m n) && (n <? 64).
Proof.
  intros Hn. unfold maskNot.
  rewrite Z.land_spec, Z.lnot_spec by lia.
  rewrite Z.testbit_ones by lia.
  destruct (Z.leb_spec 0 n); [|lia]. reflexivity.
Qed.

Lemma maskClear_disjoint (o m : Z) : Z.land (maskClear o m) m = 0.
Proof.
  apply Z.bits_inj'. intros n Hn. unfold maskClear.
  rewrite !Z.land_spec, maskNot_spec, Z.bits_0 by lia.
  destruct (Z.testbit o n), (Z.testbit m n), (n <? 64); reflexivity.
Qed.

Lemma maskClear_sub (o m x : Z) : Z.land o x = 0 → Z.land (maskClear o m) x = 0.
Proof.
  intros H. apply Z.bits_inj'. intros n Hn. unfold maskClear.
  assert (Hb : Z.testbit (Z.land o x) n = false) by (rewrite H; apply Z.bits_0).
  rewrite Z.land_spec in Hb.
  rewrite !Z.land_spec, maskNot_spec, Z.bits_0 by lia.
  destruct (Z.testbit o n), (Z.testbit m n), (Z.testbit x n), (n <? 64);
    simpl in *; congruence.
Qed.

(** Moving bits from one mask to the other keeps them apart. *)
Lemma mask_move_disjoint (a b m : Z) :
  Z.land a b = 0 → Z.land (maskClear a m) (maskSet b m) = 0.
Proof.
  intros H. apply Z.bits_inj'. intros n Hn. unfold maskClear, maskSet.
  assert (Hb : Z.testbit (Z.land a b) n = false) by (rewrite H; apply Z.bits_0).
  rewrite Z.land_spec in Hb.
  rewrite !Z.land_spec, Z.lor_spec, maskNot_spec, Z.bits_0 by lia.
  destruct (Z.testbit a n), (Z.testbit b n), (Z.testbit m n), (n <? 64);
    simpl in *; congruence.
Qed.

Lemma mask_move_disjoint' (a b m : Z) :
  Z.land a b = 0 → Z.land (maskSet a m) (maskClear b m) = 0.
Proof.
  intros H. rewrite Z.land_comm. apply mask_move_disjoint.
  now rewrite Z.land_comm.
Qed.

Lemma maskSet_keeps (o x m : Z) : Z.land o m ≠ 0 → Z.land (maskSet o x) m ≠ 0.
Proof.
  unfold maskSet. rewrite Z.land_lor_distr_l. intros H Hc.
  apply Z.lor_eq_0_iff in Hc. tauto.
Qed.

Lemma maskSet_has (o m : Z) : m ≠ 0 → Z.land (maskSet o m) m ≠ 0.
Proof.
  unfold maskSet. rewrite Z.land_lor_distr_l, Z.land_diag. intros H Hc.
  apply Z.lor_eq_0_iff in Hc. tauto.
Qed.

(** Clearing one subtree leaves the other one as it is. *)
Lemma maskClear_other (o m m' : Z) :
  (m = maskIO ∨ m = maskState) → (m' = maskIO ∨ m' = maskState) → m ≠ m' →
  Z.land (maskClear o m) m' = Z.land o m'.
Proof.
  intros Hm Hm' Hne. unfold maskClear. rewrite <- Z.land_assoc.
  f_equal. destruct Hm as [-> | ->], Hm' as [-> | ->]; try congruence; reflexivity.
Qed.

(** ** The out-of-order queue *)

Section QueueFacts.
Context {T : Type} `{roundItem T}.
Implicit Types q : list T.
#[local] Arguments Nat.div : simpl never.
#[local] Arguments Nat.mul : simpl never.

Lemma qSwap_length q i j q' : qSwap q i j = Ok q' → length q' = length q.
Proof.
  unfold qSwap. intros Hs. inv_ok. now rewrite !length_insert.
Qed.

Lemma qSwap_lookup_other q i j q' (k : nat) :
  qSwap q i j = Ok q' → k ≠ i → k ≠ j → q' !! k = q !! k.
Proof.
  unfold qSwap. intros Hs Hi Hj. inv_ok.
  rewrite !list_lookup_insert_ne by congruence. reflexivity.
Qed.

Lemma qSwap_lookup_l q i j q' : qSwap q i j = Ok q' → q' !! i = q !! j.
Proof.
  unfold qSwap. intros Hs. inv_ok.
  destruct (decide (i = j)) as [->|Hne].
  - rewrite list_lookup_insert_eq; [congruence|].
    rewrite length_insert. eapply lookup_lt_Some; eauto.
  - rewrite list_lookup_insert_ne by congruence.
    rewrite list_lookup_insert_eq; [congruence|].
    eapply lookup_lt_Some; eauto.
Qed.

Lemma qSwap_lookup_r q i j q' : qSwap q i j = Ok q' → q' !! j = q !! i.
Proof.
  unfold qSwap. intros Hs. inv_ok.
  rewrite list_lookup_insert_eq; [congruence|].
  rewrite length_insert. eapply lookup_lt_Some; eauto.
Qed.

Lemma qSwap_Ok q i j :
  (i < length q)%nat → (j < length q)%nat → ∃ q', qSwap q i j = Ok q'.
Proof.
  intros Hi Hj. unfold qSwap.
  destruct (lookup_lt_is_Some_2 q i Hi) as [a ->].
  destruct (lookup_lt_is_Some_2 q j Hj) as [b ->].
  simpl. eauto.
Qed.

(** Writing [x] over an element [y] of a list: what is left beside
    them is the same. *)
Lemma insert_Permutation q (i : nat) (x y : T) :
  q !! i = Some y → ∃ rest, q ≡ₚ y :: rest ∧ <[i:=x]> q ≡ₚ x :: rest.
Proof.
  intros Hi. exists (delete i q). split.
  - now apply delete_Permutation.
  - rewrite insert_take_drop by (eapply lookup_lt_Some; eauto).
    rewrite delete_take_drop. symmetry. apply Permutation_middle.
Qed.

Lemma qSwap_Permutation q i j q' : qSwap q i j = Ok q' → q' ≡ₚ q.
Proof.
  unfold qSwap. intros Hs. inv_ok.
  rename a into a, a0 into b.
  destruct (decide (i = j)) as [->|Hne].
  - assert (a = b) by congruence. subst b.
    rewrite (list_insert_id q j a) by assumption.
    now rewrite (list_insert_id q j a).
  - destruct (insert_Permutation q i b a Hstep) as [r1 [Hq Hq1]].
    assert (Hj : <[i:=b]> q !! j = Some b)
      by (rewrite list_lookup_insert_ne by congruence; assumption).
    destruct (insert_Permutation _ j a b Hj) as [r2 [Hq2 Hq3]].
    rewrite Hq3, Hq.
    assert (Hr : r1 ≡ₚ r2).
    { apply (Permutation_cons_inv (a := b)). now rewrite <- Hq1, <- Hq2. }
    now rewrite Hr.
Qed.

Lemma heapUp_Permutation fuel q j q' : heapUp fuel q j = Ok q' → q' ≡ₚ q.
Proof.
  revert q j. induction fuel as [|fuel IH]; intros q j; simpl.
  - destruct (_ =? _)%nat; intros Hs; inv_ok; reflexivity.
  - destruct (_ =? _)%nat; intros Hs; inv_ok; [reflexivity|].
    destruct (negb a); inv_ok; [reflexivity|].
    apply IH in Hs. rewrite Hs. eapply qSwap_Permutation; eauto.
Qed.

Lemma heapDown_Permutation fuel q i n q' :
  heapDown fuel q i n = Ok q' → q' ≡ₚ q.
Proof.
  revert q i. induction fuel as [|fuel IH]; intros q i; simpl.
  - destruct (_ <=? _)%nat; intros Hs; inv_ok; reflexivity.
  - destruct (_ <=? _)%nat; intros Hs; inv_ok; [reflexivity|].
    destruct (negb a0); inv_ok; [reflexivity|].
    apply IH in Hs. rewrite Hs. eapply qSwap_Permutation; eauto.
Qed.

(** [down(h, i, n)] touches the slice below [n] only. *)
Lemma heapDown_frame fuel q i n q' (k : nat) :
  heapDown fuel q i n = Ok q' → (n <= k)%nat → q' !! k = q !! k.
Proof.
  revert q i. induction fuel as [|fuel IH]; intros q i; simpl.
  - destruct (_ <=? _)%nat; intros Hs; inv_ok; reflexivity.
  - destruct (Nat.leb_spec n (2 * i + 1)); intros Hs Hk; inv_ok;
      [reflexivity|].
    destruct (negb a0); inv_ok; [reflexivity|].
    rewrite (IH _ _ Hs Hk).
    eapply qSwap_lookup_other; eauto; [lia|].
    destruct (2 * i + 1 + 1 <? n)%nat eqn:E.
    + apply Nat.ltb_lt in E. destruct a; lia.
    + inv_ok. lia.
Qed.

Lemma heapDown_length fuel q i n q' :
  heapDown fuel q i n = Ok q' → length q' = length q.
Proof. intros Hs. apply heapDown_Permutation in Hs. now apply Permutation_length. Qed.

(** heap.Push keeps what the queue holds and adds [x]. *)
Lemma heapPush_Permutation q x q' : heapPush q x = Ok q' → q' ≡ₚ x :: q.
Proof.
  unfold heapPush, qPush. intros Hs. apply heapUp_Permutation in Hs.
  rewrite Hs. symmetry. apply Permutation_cons_append.
Qed.

(** heap.Pop returns the element at index 0 and keeps the others. *)
Lemma heapPop_spec q x q' :
  heapPop q = Ok (x, q') → q !! 0%nat = Some x ∧ q ≡ₚ x :: q'.
Proof.
  unfold heapPop. destruct (Nat.eqb_spec (length q) 0); [discriminate|].
  intros Hs. inv_ok. rename a into q1, a0 into q2.
  unfold qPop in Hs. inv_ok.
  destruct (Nat.eqb_spec (length q2) 0); [discriminate|]. inv_ok.
  assert (Hl2 : length q2 = length q).
  { rewrite (heapDown_length _ _ _ _ _ Hstep0).
    eapply qSwap_length; eauto. }
  rewrite Hl2 in *.
  assert (Hx : q !! 0%nat = Some x).
  { rewrite <- Hstep1.
    rewrite (heapDown_frame _ _ _ _ _ _ Hstep0) by lia.
    symmetry. eapply qSwap_lookup_r; eauto. }
  split; [exact Hx|].
  rewrite <- (qSwap_Permutation _ _ _ _ Hstep).
  rewrite <- (heapDown_Permutation _ _ _ _ _ Hstep0).
  rewrite ?Hl2.
  rewrite <- (take_drop_middle q2 (length q - 1) x) at 1 by exact Hstep1.
  rewrite drop_ge by lia. rewrite <- Permutation_cons_append. reflexivity.
Qed.

Lemma heapPop_length q x q' :
  heapPop q = Ok (x, q') → length q = S (length q').
Proof.
  intros Hs. apply heapPop_spec in Hs as [_ Hp].
  now rewrite (Permutation_length Hp).
Qed.

(** *** The queue operations return *)

Lemma roundsOk_Permutation q q' : q' ≡ₚ q → roundsOk q → roundsOk q'.
Proof. intros Hp Hq x Hx. apply Hq. now rewrite <- Hp. Qed.

Lemma qLess_Ok q i j :
  roundsOk q → (i < length q)%nat → (j < length q)%nat →
  ∃ b, qLess q i j = Ok b.
Proof.
  intros Hq Hi Hj. unfold qLess.
  destruct (lookup_lt_is_Some_2 q i Hi) as [a Ha].
  destruct (lookup_lt_is_Some_2 q j Hj) as [b Hb].
  rewrite Ha, Hb. simpl.
  destruct (Hq a) as [ra Hra]; [eapply list_elem_of_lookup_2; eauto|].
  destruct (Hq b) as [rb Hrb]; [eapply list_elem_of_lookup_2; eauto|].
  rewrite Hra, Hrb. simpl. eauto.
Qed.

Lemma heapUp_Ok fuel q j :
  roundsOk q → (j < length q)%nat → (j <= fuel)%nat →
  ∃ q', heapUp fuel q j = Ok q'.
Proof.
  revert q j. induction fuel as [|fuel IH]; intros q j Hq Hj Hf; simpl.
  - assert (j = 0%nat) as -> by lia. simpl. eauto.
  - destruct (Nat.eqb_spec ((j - 1) / 2) j) as [|Hne]; [simpl; eauto|].
    assert (Hlt : ((j - 1) / 2 < j)%nat).
    { destruct j as [|j]; [exfalso; apply Hne; reflexivity|].
      replace (S j - 1)%nat with j in * by lia.
      assert (j / 2 <= j)%nat by (apply Nat.Div0.div_le_upper_bound; lia).
      lia. }
    destruct (qLess_Ok q j ((j - 1) / 2) Hq) as [b ->]; [lia..|]. simpl.
    destruct b; simpl; eauto.
    destruct (qSwap_Ok q ((j - 1) / 2) j) as [q1 Hq1]; [lia..|].
    rewrite Hq1. simpl. apply IH.
    + apply (roundsOk_Permutation q); [eapply qSwap_Permutation; eauto|exact Hq].
    + rewrite (qSwap_length _ _ _ _ Hq1). lia.
    + lia.
Qed.

Lemma heapDown_Ok fuel q i n :
  roundsOk q → (n <= length q)%nat → (n <= fuel + i)%nat →
  ∃ q', heapDown fuel q i n = Ok q'.
Proof.
  revert q i. induction fuel as [|fuel IH]; intros q i Hq Hn Hf; simpl.
  - destruct (Nat.leb_spec n (2 * i + 1)); [simpl; eauto|lia].
  - destruct (Nat.leb_spec n (2 * i + 1)); [simpl; eauto|].
    assert (Hb : ∃ b, (if (2 * i + 1 + 1 <? n)%nat
                       then qLess q (2 * i + 1 + 1) (2 * i + 1)
                       else Ok false) = Ok b
                      ∧ ((if b then 2 * i + 1 + 1 else 2 * i + 1) < n)%nat).
    { destruct (Nat.ltb_spec (2 * i + 1 + 1) n).
      - destruct (qLess_Ok q (2 * i + 1 + 1) (2 * i + 1) Hq)
          as [b Hb]; [lia..|].
        exists b. split; [exact Hb|]. destruct b; lia.
      - exists false. split; [reflexivity|lia]. }
    destruct Hb as [b [-> Hj]]. simpl.
    set (j := (if b then 2 * i + 1 + 1 else 2 * i + 1)%nat) in *.
    destruct (qLess_Ok q j i Hq) as [c ->]; [lia..|]. simpl.
    destruct c; simpl; eauto.
    destruct (qSwap_Ok q i j) as [q1 Hq1]; [lia..|].
    rewrite Hq1. simpl. apply IH.
    + apply (roundsOk_Permutation q); [eapply qSwap_Permutation; eauto|exact Hq].
    + rewrite (qSwap_length _ _ _ _ Hq1). lia.
    + assert (i < j)%nat by (subst j; destruct b; lia). lia.
Qed.

(** heap.Push returns when no element of the queue is nil. *)
Lemma heapPush_Ok q x :
  roundsOk (x :: q) → ∃ q', heapPush q x = Ok q'.
Proof.
  intros Hq. unfold heapPush, qPush. apply heapUp_Ok.
  - apply (roundsOk_Permutation (x :: q)); [|exact Hq].
    symmetry. apply Permutation_cons_append.
  - rewrite length_app. simpl. lia.
  - lia.
Qed.

(** heap.Pop returns on a queue that is not empty. *)
Lemma heapPop_Ok q :
  roundsOk q → q ≠ [] → ∃ x q', heapPop q = Ok (x, q').
Proof.
  intros Hq Hne. unfold heapPop.
  destruct (Nat.eqb_spec (length q) 0) as [H0|H0].
  { destruct q; simpl in H0; congruence. }
  destruct (qSwap_Ok q 0 (length q - 1)) as [q1 Hq1]; [lia..|].
  rewrite Hq1. simpl.
  assert (Hl1 := qSwap_length _ _ _ _ Hq1).
  destruct (heapDown_Ok (length q - 1) q1 0 (length q - 1)) as [q2 Hq2].
  - apply (roundsOk_Permutation q); [eapply qSwap_Permutation; eauto|exact Hq].
  - lia.
  - lia.
  - rewrite Hq2. simpl. unfold qPop.
    assert (Hl2 := heapDown_length _ _ _ _ _ Hq2).
    destruct (lookup_lt_is_Some_2 q2 (length q2 - 1)) as [x Hx]; [lia|].
    rewrite Hx. simpl.
    destruct (Nat.eqb_spec (length q2) 0); [lia|]. simpl. eauto.
Qed.
End QueueFacts.

(** ** The queue is a min-heap *)

Section HeapOrder.
Context {T : Type} `{roundItem T}.
Context (key : T → Z) (Hkey : ∀ x, GetRound x = Ok (key x)).
Implicit Types q : list T.
#[local] Arguments Nat.div : simpl never.
#[local] Arguments Nat.mul : simpl never.

Lemma parent_lt (k : nat) : (0 < k)%nat → ((k - 1) / 2 < k)%nat.
Proof.
  intros Hk. assert ((k - 1) / 2 <= k - 1)%nat
    by (apply Nat.Div0.div_le_upper_bound; lia). lia.
Qed.

Lemma parent_children (k i : nat) :
  (0 < k)%nat → ((k - 1) / 2)%nat = i ↔ k = (2 * i + 1)%nat ∨ k = (2 * i + 1 + 1)%nat.
Proof.
  intros Hk. split.
  - intros <-. pose proof (Nat.div_mod_eq (k - 1) 2) as E.
    pose proof (Nat.mod_upper_bound (k - 1) 2 ltac:(lia)). lia.
  - intros [-> | ->].
    + replace (2 * i + 1 - 1)%nat with (i * 2)%nat by lia. now apply Nat.div_mul.
    + replace (2 * i + 1 + 1 - 1)%nat with (1 + i * 2)%nat by lia.
      rewrite Nat.div_add by lia. reflexivity.
Qed.

Lemma qLess_key q i j b :
  qLess q i j = Ok b →
  ∃ x y, q !! i = Some x ∧ q !! j = Some y ∧ b = (key x <? key y).
Proof.
  unfold qLess. intros Hs. inv_ok. rewrite !Hkey in *. inv_ok. eauto.
Qed.

Lemma heapUp_ordered fuel q j q' :
  upInv key q j → (j < length q)%nat →
  heapUp fuel q j = Ok q' → heapOrdered key q'.
Proof.
  revert q j. induction fuel as [|fuel IH]; intros q j [Ha Hb] Hj; simpl.
  - destruct (Nat.eqb_spec ((j - 1) / 2) j) as [E|E]; intros Hs; inv_ok.
    intros k x p Hk Hx Hp. apply (Ha k); try assumption; try lia.
    intros ->. pose proof (parent_lt j). lia.
  - destruct (Nat.eqb_spec ((j - 1) / 2) j) as [E|E]; intros Hs; inv_ok.
    { intros k x p Hk Hx Hp. apply (Ha k); try assumption; try lia.
      intros ->. pose proof (parent_lt j). lia. }
    assert (Hj0 : (0 < j)%nat) by (destruct j; [exfalso; now apply E|lia]).
    pose proof (parent_lt j Hj0) as Hpj.
    destruct (qLess_key _ _ _ _ Hstep) as (x & p & Hx & Hp & ->).
    destruct (Z.ltb_spec (key x) (key p)) as [Hlt|Hge]; simpl in Hs; inv_ok.
    2:{ intros k y py Hk Hy Hpy. destruct (decide (k = j)) as [->|Hne].
        - assert (y = x) by congruence. assert (py = p) by congruence. subst. lia.
        - apply (Ha k); try assumption; lia. }
    rename a into q1.
    set (i := ((j - 1) / 2)%nat) in *.
    assert (Hl1 := qSwap_length _ _ _ _ Hstep0).
    assert (Hq1i : q1 !! i = Some x)
      by (rewrite (qSwap_lookup_l _ _ _ _ Hstep0); exact Hx).
    assert (Hq1j : q1 !! j = Some p)
      by (rewrite (qSwap_lookup_r _ _ _ _ Hstep0); exact Hp).
    assert (Hq1o : ∀ k : nat, k ≠ i → k ≠ j → q1 !! k = q !! k)
      by (intros k ? ?; eapply qSwap_lookup_other; eauto).
    apply (IH q1 i); [|lia|exact Hs]. split.
    + intros k y py Hk Hne Hy Hpy.
      pose proof (parent_lt k Hk) as Hpk.
      destruct (decide (k = j)) as [->|Hnj].
      * fold i in Hpy. assert (y = p) by congruence.
        assert (py = x) by congruence. subst. lia.
      * rewrite Hq1o in Hy by assumption.
        destruct (decide (((k - 1) / 2)%nat = i)) as [Epi|Epi].
        -- rewrite Epi in Hpy. assert (py = x) by congruence. subst py.
           assert (key p <= key y); [|lia].
           apply (Ha k); try assumption. now rewrite Epi.
        -- destruct (decide (((k - 1) / 2)%nat = j)) as [Epj|Epj].
           ++ rewrite Epj in Hpy. assert (py = p) by congruence. subst py.
              apply (Hb k); assumption.
           ++ rewrite Hq1o in Hpy by assumption. apply (Ha k); assumption.
    + intros k y g Hk Epi Hi0 Hy Hg.
      pose proof (parent_lt k Hk) as Hpk.
      pose proof (parent_lt i Hi0) as Hpi.
      rewrite Hq1o in Hg by lia.
      assert (Hgp : key g <= key p) by (apply (Ha i); try assumption; lia).
      destruct (decide (k = j)) as [->|Hnj].
      * assert (y = p) by congruence. subst. exact Hgp.
      * rewrite Hq1o in Hy by lia.
        assert (key p <= key y); [|lia].
        apply (Ha k); try assumption. now rewrite Epi.
Qed.

Lemma heapDown_ordered fuel q i n q' :
  downInv key q i n → (n <= length q)%nat →
  heapDown fuel q i n = Ok q' → heapOrderedUpTo key n q'.
Proof.
  revert q i. induction fuel as [|fuel IH]; intros q i [Ha Hb] Hn; simpl.
  - destruct (Nat.leb_spec n (2 * i + 1)) as [E|E]; intros Hs; inv_ok.
    intros k x p Hk Hx Hp. apply (Ha k); try assumption.
    intros Epi. apply parent_children in Epi; lia.
  - destruct (Nat.leb_spec n (2 * i + 1)) as [E|E]; intros Hs; inv_ok.
    { intros k x p Hk Hx Hp. apply (Ha k); try assumption.
      intros Epi. apply parent_children in Epi; lia. }
    rename a into b21, a0 into b.
    set (j1 := (2 * i + 1)%nat) in *. set (j2 := (j1 + 1)%nat) in *.
    set (j := if b21 then j2 else j1) in *.
    destruct (lookup_lt_is_Some_2 q j1 ltac:(lia)) as [c1 Hc1].
    (* the child chosen is the smaller one *)
    assert (Hsel : (j < n)%nat ∧ (j = j1 ∨ j = j2)
                   ∧ ∀ c, q !! j = Some c →
                       key c <= key c1
                       ∧ ∀ c2, (j2 < n)%nat → q !! j2 = Some c2 → key c <= key c2).
    { subst j. destruct (Nat.ltb_spec j2 n) as [H2|H2].
      - destruct (qLess_key _ _ _ _ Hstep) as (x2 & x1 & Hx2 & Hx1 & ->).
        assert (x1 = c1) by congruence. subst x1.
        destruct (Z.ltb_spec (key x2) (key c1)).
        + split; [lia|]. split; [auto|]. intros c Hc.
          assert (c = x2) by congruence. subst c. split; [lia|].
          intros c2 _ Hc2. assert (c2 = x2) by congruence. subst. lia.
        + split; [lia|]. split; [auto|]. intros c Hc.
          assert (c = c1) by congruence. subst c. split; [lia|].
          intros c2 _ Hc2. assert (c2 = x2) by congruence. subst. lia.
      - inv_ok. split; [lia|]. split; [auto|]. intros c Hc.
        assert (c = c1) by congruence. subst c. split; [lia|]. intros; lia. }
    destruct Hsel as (Hjn & Hjcase & Hmin).
    assert (Hij : (i < j)%nat) by (destruct Hjcase; lia).
    assert (Hpj : ((j - 1) / 2)%nat = i).
    { apply parent_children; [lia|]. destruct Hjcase; lia. }
    destruct (qLess_key _ _ _ _ Hstep0) as (c & y & Hc & Hy & ->).
    destruct (Hmin c Hc) as [Hcc1 Hcc2].
    destruct (Z.ltb_spec (key c) (key y)) as [Hlt|Hge]; simpl in Hs; inv_ok.
    2:{ subst q'. intros k x p Hk Hx Hp.
        destruct (decide (((k - 1) / 2)%nat = i)) as [Epi|Epi];
          [|apply (Ha k); assumption].
        rewrite Epi in Hp. assert (p = y) by congruence. subst p.
        apply parent_children in Epi as [-> | ->]; [| |lia].
        - fold j1 in Hx. assert (x = c1) by congruence. subst x. lia.
        - assert (key c <= key x); [|lia].
          apply Hcc2; [unfold j2, j1; lia|]. exact Hx. }
    rename a into q1.
    assert (Hl1 := qSwap_length _ _ _ _ Hstep1).
    assert (Hq1i : q1 !! i = Some c)
      by (rewrite (qSwap_lookup_l _ _ _ _ Hstep1); exact Hc).
    assert (Hq1j : q1 !! j = Some y)
      by (rewrite (qSwap_lookup_r _ _ _ _ Hstep1); exact Hy).
    assert (Hq1o : ∀ k : nat, k ≠ i → k ≠ j → q1 !! k = q !! k)
      by (intros k ? ?; eapply qSwap_lookup_other; eauto).
    apply (IH q1 j); [|lia|exact Hs]. split.
    + intros k x p Hk Hne Hx Hp.
      pose proof (parent_lt k ltac:(lia)) as Hpk.
      destruct (decide (((k - 1) / 2)%nat = i)) as [Epi|Epi].
      * rewrite Epi in Hp. assert (p = c) by congruence. subst p.
        destruct (decide (k = j)) as [->|Hnj].
        -- assert (x = y) by congruence. subst x. lia.
        -- rewrite Hq1o in Hx by lia.
           apply parent_children in Epi as [-> | ->]; [| |lia].
           ++ fold j1 in Hx. assert (x = c1) by congruence. subst x. lia.
           ++ apply Hcc2; [unfold j2, j1; lia|exact Hx].
      * destruct (decide (k = i)) as [->|Hni].
        -- assert (x = c) by congruence. subst x.
           assert (Hi0 : (0 < i)%nat) by lia.
           rewrite Hq1o in Hp by lia.
           apply (Hb j); try assumption; lia.
        -- assert (k ≠ j) by (intros ->; contradiction).
           rewrite Hq1o in Hx by assumption.
           rewrite Hq1o in Hp by assumption.
           apply (Ha k); assumption.
    + intros k x g Hk Epj Hj0 Hx Hg.
      pose proof (parent_lt k ltac:(lia)) as Hpk.
      rewrite Hpj in Hg. assert (g = c) by congruence. subst g.
      rewrite Hq1o in Hx by lia.
      apply (Ha k); try assumption; [lia|]. now rewrite Epj.
Qed.

(** heap.Push keeps the heap order. *)
Lemma heapPush_ordered q x q' :
  heapOrdered key q → heapPush q x = Ok q' → heapOrdered key q'.
Proof.
  intros Hq. unfold heapPush, qPush. rewrite length_app. simpl.
  replace (length q + 1 - 1)%nat with (length q) by lia.
  apply heapUp_ordered; [|rewrite length_app; simpl; lia]. split.
  - intros k y p Hk Hne Hy Hp.
    assert (Hlt := lookup_lt_Some _ _ _ Hy). rewrite length_app in Hlt. simpl in Hlt.
    pose proof (parent_lt k Hk).
    rewrite lookup_app_l in Hy by lia. rewrite lookup_app_l in Hp by lia.
    apply (Hq k); try assumption. lia.
  - intros k y g Hk Epk Hj0 Hy Hg.
    assert (Hlt := lookup_lt_Some _ _ _ Hy). rewrite length_app in Hlt. simpl in Hlt.
    apply parent_children in Epk; lia.
Qed.

(** heap.Pop keeps the heap order. *)
Lemma heapPop_ordered q x q' :
  heapOrdered key q → heapPop q = Ok (x, q') → heapOrdered key q'.
Proof.
  intros Hq. unfold heapPop.
  destruct (Nat.eqb_spec (length q) 0); [discriminate|].
  intros Hs. inv_ok. rename a into q1, a0 into q2.
  assert (Hl1 := qSwap_length _ _ _ _ Hstep).
  assert (Hl2 := heapDown_length _ _ _ _ _ Hstep0).
  apply heapDown_ordered in Hstep0; [|split|lia].
  - unfold qPop in Hs. inv_ok.
    destruct (Nat.eqb_spec (length q2) 0); [discriminate|]. inv_ok.
    intros k y p Hk Hy Hp. rewrite length_take in Hk.
    pose proof (parent_lt k ltac:(lia)).
    rewrite lookup_take_lt in Hy by lia. rewrite lookup_take_lt in Hp by lia.
    apply (Hstep0 k); try assumption. lia.
  - intros k y p Hk Hne Hy Hp.
    pose proof (parent_lt k ltac:(lia)).
    rewrite (qSwap_lookup_other _ _ _ _ k Hstep) in Hy by lia.
    rewrite (qSwap_lookup_other _ _ _ _ _ Hstep) in Hp by lia.
    apply (Hq k); try assumption. lia.
  - intros k y g Hk Epk Hi0. lia.
Qed.

(** In a heap no element is below the one at index 0. *)
Lemma heapOrdered_head q h x :
  heapOrdered key q → q !! 0%nat = Some h → x ∈ q → key h <= key x.
Proof.
  intros Hq Hh Hx. apply list_elem_of_lookup in Hx as [k Hk].
  revert x Hk. induction k as [k IH] using lt_wf_ind. intros x Hk.
  destruct (decide (k = 0%nat)) as [->|Hne].
  - assert (x = h) by congruence. subst. lia.
  - pose proof (parent_lt k ltac:(lia)) as Hp.
    assert (Hlt := lookup_lt_Some _ _ _ Hk).
    destruct (lookup_lt_is_Some_2 q ((k - 1) / 2)) as [p Hpk]; [lia|].
    assert (key h <= key p) by (eapply IH; eauto).
    assert (key p <= key x) by (apply (Hq k); try assumption; lia). lia.
Qed.
End HeapOrder.

(** ** Observations on a trace *)

Lemma popRounds_app tr evs : popRounds (tr ++ evs) = popRounds tr ++ popRounds evs.
Proof. apply omap_app. Qed.

Lemma applyCalls_app tr evs : applyCalls (tr ++ evs) = applyCalls tr ++ applyCalls evs.
Proof. apply omap_app. Qed.

Lemma applyRounds_app tr evs : applyRounds (tr ++ evs) = applyRounds tr ++ applyRounds evs.
Proof. unfold applyRounds. now rewrite applyCalls_app, fmap_app. Qed.

Lemma finalizeRounds_app tr evs :
  finalizeRounds (tr ++ evs) = finalizeRounds tr ++ finalizeRounds evs.
Proof. apply omap_app. Qed.

Lemma getBlockRounds_app tr evs :
  getBlockRounds (tr ++ evs) = getBlockRounds tr ++ getBlockRounds evs.
Proof. apply omap_app. Qed.

Lemma submitted_app tr evs : submitted (tr ++ evs) = submitted tr ++ submitted evs.
Proof. apply omap_app. Qed.

(** ** Quiet steps *)

Lemma quietStep_refl w : quietStep w w.
Proof. constructor; reflexivity. Qed.

Lemma quietStep_trans w1 w2 w3 : quietStep w1 w2 → quietStep w2 w3 → quietStep w1 w3.
Proof. intros [] []. constructor; congruence. Qed.

Ltac quiet_fields :=
  constructor; simpl;
  rewrite ?popRounds_app, ?applyCalls_app, ?finalizeRounds_app; simpl;
  rewrite ?app_nil_r; reflexivity.

Lemma installDummy_quiet blk w : quietStep w (installDummy blk w).
Proof. unfold installDummy. destruct (_ && _); [quiet_fields|apply quietStep_refl]. Qed.

Lemma cacheIncoming_quiet blk w : quietStep w (cacheIncoming blk w).
Proof. unfold cacheIncoming. destruct (_ !! _); [apply quietStep_refl|quiet_fields]. Qed.

Lemma catchUp_quiet getBlock fuel i R w w' :
  catchUp getBlock fuel i R w = Ok w' → quietStep w w'.
Proof.
  revert i w. induction fuel as [|fuel IH]; intros i w; simpl.
  - destruct (i <? R); intros Hs; inv_ok. apply quietStep_refl.
  - destruct (i <? R); intros Hs; inv_ok; [|apply quietStep_refl].
    apply IH in Hs. eapply quietStep_trans; [|exact Hs].
    destruct (hashCache w !! i); inv_ok; [apply quietStep_refl|].
    destruct (getBlock i); inv_ok. quiet_fields.
Qed.

Lemma scheduleSubtree_quiet i m t w : quietStep w (scheduleSubtree i m t w).
Proof.
  unfold scheduleSubtree. destruct (syncingRounds w !! i) as [e|];
    [|apply quietStep_refl].
  destruct (needsFetch e m); [quiet_fields|apply quietStep_refl].
Qed.

Lemma scheduleRound_quiet i w w' : scheduleRound i w = Ok w' → quietStep w w'.
Proof.
  unfold scheduleRound. intros Hs.
  destruct (match syncingRounds w !! i with Some _ => _ | None => _ end);
    inv_ok; [apply quietStep_refl|].
  eapply quietStep_trans; [|apply scheduleSubtree_quiet].
  eapply quietStep_trans; [|apply scheduleSubtree_quiet].
  destruct (syncingRounds w !! i); quiet_fields.
Qed.

Lemma scheduleLoop_quiet fuel i R w w' :
  scheduleLoop fuel i R w = Ok w' → quietStep w w'.
Proof.
  revert i w. induction fuel as [|fuel IH]; intros i w; simpl.
  - destruct (i <=? R); intros Hs; inv_ok. apply quietStep_refl.
  - destruct (i <=? R); intros Hs; inv_ok; [|apply quietStep_refl].
    apply IH in Hs. eapply quietStep_trans; [|exact Hs].
    eapply scheduleRound_quiet; eauto.
Qed.

Lemma handleNewBlock_quiet blk getBlock w w' :
  handleNewBlock blk getBlock w = Ok w' → quietStep w w'.
Proof.
  unfold handleNewBlock. intros Hs. inv_ok.
  apply scheduleLoop_quiet in Hs. apply catchUp_quiet in Hstep.
  eapply quietStep_trans; [|exact Hs].
  eapply quietStep_trans; [|apply cacheIncoming_quiet].
  eapply quietStep_trans; [|exact Hstep].
  eapply quietStep_trans; [|apply installDummy_quiet].
  quiet_fields.
Qed.

Lemma handlePruned_quiet p res w w' : handlePruned p res w = Ok w' → quietStep w w'.
Proof. unfold handlePruned. destruct res; intros Hs; inv_ok; quiet_fields. Qed.

Lemma InvRounds_quiet w w' : quietStep w w' → InvRounds w → InvRounds w'.
Proof.
  intros [Hu Hc Ha _ Hap Hf _ _ _ _] [].
  constructor; rewrite ?Hu, ?Hc, ?Ha, ?Hap, ?Hf; assumption.
Qed.

Lemma InvTrace_quiet w w' : quietStep w w' → InvTrace w → InvTrace w'.
Proof.
  intros [_ Hc Ha _ _ Hf _ Hp Hap Hfr] [].
  constructor; unfold applyRounds in *;
    rewrite ?Hc, ?Ha, ?Hf, ?Hp, ?Hap, ?Hfr; assumption.
Qed.

(** ** What each branch of the loop does *)

(** The first branch: the diff popped, the entry of its round, and the
    state it leaves, by whether the round is complete. *)
Lemma applyStep_spec res w w' :
  applyStep res w = Ok w' →
  ∃ d q e evs,
    heapPop (outOfOrderDiffs w) = Ok (d, q)
    ∧ syncingRounds w !! round d = Some e
    ∧ undefinedRound w' = undefinedRound w
    ∧ cachedLastRound w' = cachedLastRound w
    ∧ outOfOrderDiffs w' = q
    ∧ fetching w' = fetching w
    ∧ finalizing w' = finalizing w
    ∧ running w' = running w
    ∧ trace w' = trace w ++ evs
    ∧ popRounds evs = [round d]
    ∧ applyCalls evs = (if fetched d then [(applyArgs d, res)] else [])
    ∧ finalizeRounds evs = []
    ∧ getBlockRounds evs = []
    ∧ submitted evs = []
    ∧ let e' := {| outstanding := maskClear (outstanding e) (fetchMask d);
                   awaitingRetry := awaitingRetry e |} in
      if (outstanding e' =? maskNone) && (awaitingRetry e' =? maskNone) then
        syncingRounds w' = delete (round d) (syncingRounds w)
        ∧ hashCache w' = delete (sub64 (round d) 1) (hashCache w)
        ∧ lastFullyAppliedRound w' = round d
        ∧ heapPush (outOfOrderApplieds w) (hashCache w !! round d)
          = Ok (outOfOrderApplieds w')
      else
        syncingRounds w' = <[round d := e']> (syncingRounds w)
        ∧ hashCache w' = hashCache w
        ∧ lastFullyAppliedRound w' = lastFullyAppliedRound w
        ∧ outOfOrderApplieds w' = outOfOrderApplieds w.
Proof.
  unfold applyStep. intros Hs. inv_ok. destruct a as [d q].
  destruct (fetched d) eqn:Hf; [destruct res as [er|]|]; simpl in Hs; inv_ok;
    rename a into e;
    match type of Hs with
    | (if ?c then _ else _) = _ => destruct c eqn:Hc
    end; inv_ok;
    eexists d, q, e, _; simpl; rewrite Hc; simpl;
    rewrite <- ?app_assoc; simpl;
    (repeat split; try reflexivity; try assumption; try apply delete_insert_eq);
    rewrite Hf; reflexivity.
Qed.

(** ** Orders on lists of rounds *)

Lemma gapless_snoc l r :
  gapless l → (∀ x, last l = Some x → r = x ∨ r = x + 1) → gapless (l ++ [r]).
Proof.
  intros Hl Hr i x y Hx Hy.
  destruct (decide (S i < length l)%nat) as [Hlt|Hge].
  - rewrite lookup_app_l in Hx, Hy by lia. eauto.
  - assert (Hi := lookup_lt_Some _ _ _ Hy). rewrite length_app in Hi. simpl in Hi.
    assert (S i = length l) as Hlen by lia.
    rewrite lookup_app_l in Hx by lia.
    assert (y = r).
    { rewrite lookup_app_r in Hy by lia.
      replace (S i - length l)%nat with 0%nat in Hy by lia. simpl in Hy. congruence. }
    subst y. apply Hr. rewrite last_lookup.
    replace (Init.Nat.pred (length l)) with i by lia. exact Hx.
Qed.

Lemma consecutive_snoc l r :
  consecutive l → (∀ x, last l = Some x → r = x + 1) → consecutive (l ++ [r]).
Proof.
  intros Hl Hr i x y Hx Hy.
  destruct (decide (S i < length l)%nat) as [Hlt|Hge].
  - rewrite lookup_app_l in Hx, Hy by lia. eauto.
  - assert (Hi := lookup_lt_Some _ _ _ Hy). rewrite length_app in Hi. simpl in Hi.
    assert (S i = length l) as Hlen by lia.
    rewrite lookup_app_l in Hx by lia.
    assert (y = r).
    { rewrite lookup_app_r in Hy by lia.
      replace (S i - length l)%nat with 0%nat in Hy by lia. simpl in Hy. congruence. }
    subst y. apply Hr. rewrite last_lookup.
    replace (Init.Nat.pred (length l)) with i by lia. exact Hx.
Qed.

Lemma nondecreasing_snoc l r :
  nondecreasing l → (∀ x, x ∈ l → x <= r) → nondecreasing (l ++ [r]).
Proof.
  intros Hl Hr i j x y Hij Hx Hy.
  assert (Hj := lookup_lt_Some _ _ _ Hy). rewrite length_app in Hj. simpl in Hj.
  rewrite lookup_app_l in Hx by lia.
  destruct (decide (j < length l)%nat) as [Hlt|Hge].
  - rewrite lookup_app_l in Hy by lia. eauto.
  - rewrite lookup_app_r in Hy by lia.
    replace (j - length l)%nat with 0%nat in Hy by lia. simpl in Hy.
    injection Hy as <-. apply Hr. eapply list_elem_of_lookup_2; eauto.
Qed.

Lemma gapless_nondecreasing l : gapless l → nondecreasing l.
Proof.
  intros Hl i j. revert i. induction j as [|j IH]; intros i x y Hij Hx Hy; [lia|].
  destruct (lookup_lt_is_Some_2 l j) as [z Hz].
  { apply lookup_lt_Some in Hy. lia. }
  destruct (Hl j z y Hz Hy); destruct (decide (i = j)) as [->|Hne].
  - assert (x = z) by congruence. lia.
  - assert (x <= z) by (eapply (IH i); eauto; lia). lia.
  - assert (x = z) by congruence. lia.
  - assert (x <= z) by (eapply (IH i); eauto; lia). lia.
Qed.

(** ** The first branch keeps the invariant *)

Lemma guardDiffs_head w :
  guardDiffs w = Ok true →
  ∃ d, outOfOrderDiffs w !! 0%nat = Some d
       ∧ round d = add64 (lastFullyAppliedRound w) 1.
Proof.
  unfold guardDiffs. destruct (0 <? _)%nat; [|discriminate].
  intros Hs. inv_ok. exists a. split; [assumption|].
  unfold GetRound, fetchedDiff_roundItem in Hstep0. inv_ok.
  symmetry. now apply Z.eqb_eq.
Qed.

Lemma guardApplieds_head w :
  guardApplieds w = Ok true →
  ∃ s, outOfOrderApplieds w !! 0%nat = Some (Some s)
       ∧ sRound s = add64 (cachedLastRound w) 1.
Proof.
  unfold guardApplieds. destruct (0 <? _)%nat; [|discriminate].
  intros Hs. inv_ok. destruct a as [s|]; [|discriminate].
  exists s. split; [assumption|].
  unfold GetRound, pointer_roundItem, GetRound, blockSummary_roundItem in Hstep0.
  inv_ok. symmetry. now apply Z.eqb_eq.
Qed.

Lemma pending_diff w d : d ∈ outOfOrderDiffs w → (round d, fetchMask d) ∈ pending w.
Proof.
  intros Hd. unfold pending. apply elem_of_app. left.
  apply (list_elem_of_fmap_2 diffKey) in Hd. exact Hd.
Qed.

Lemma pending_task w t : t ∈ fetching w → (tRound t, tMask t) ∈ pending w.
Proof.
  intros Hd. unfold pending. apply elem_of_app. right.
  apply (list_elem_of_fmap_2 taskKey) in Hd. exact Hd.
Qed.

(** What the invariant says of the diff at the head of the queue. *)
Lemma popped_facts w d q :
  Inv w → guardDiffs w = Ok true → heapPop (outOfOrderDiffs w) = Ok (d, q) →
  round d = ordinal (lastFullyAppliedRound w) + 1
  ∧ 0 <= round d < MaxUint64
  ∧ (fetchMask d = maskIO ∨ fetchMask d = maskState)
  ∧ round d ≠ undefinedRound w
  ∧ rRound (thisRoot d) = round d
  ∧ (∃ s, hashCache w !! round d = Some s ∧ sRound s = round d)
  ∧ outOfOrderDiffs w ≡ₚ d :: q
  ∧ (∃ e, syncingRounds w !! round d = Some e
          ∧ Z.land (outstanding e) (fetchMask d) ≠ 0).
Proof.
  intros [HR HH HP HT] Hg Hpop.
  apply heapPop_spec in Hpop as [Hhd Hperm].
  destruct (guardDiffs_head _ Hg) as [d' [Hd' Hr]].
  assert (d' = d) by congruence. subst d'.
  rewrite add64_1 in Hr by apply HR.
  assert (Hin : d ∈ outOfOrderDiffs w) by (eapply list_elem_of_lookup_2; eauto).
  destruct (inv_pending _ HP _ _ (pending_diff _ _ Hin)) as (Hb & Hm & Hc & He).
  assert (Hne : round d ≠ undefinedRound w).
  { pose proof (inv_uc _ HR). pose proof (inv_ca _ HR).
    intros Heq. unfold ordinal at 1 in H.
    destruct (Z.eqb_spec (undefinedRound w) MaxUint64); lia. }
  destruct Hc as [s Hs]; [lia|].
  repeat split; try assumption; try lia.
  - now apply (inv_diffs_coherent _ HP).
  - exists s. split; [assumption|]. now apply (HH _ _ Hs).
Qed.

Ltac apply_step_facts HI Hg Hs :=
  let d := fresh "d" in let q := fresh "q" in let e := fresh "e" in
  let evs := fresh "evs" in
  destruct (applyStep_spec _ _ _ Hs)
    as (d & q & e & evs & Hpop & He & Hu & Hc & Hq & Hfe & Hfi & Hrun & Htr
        & Hpr & Hac & Hfr & Hgb & Hsub & Hcase);
  destruct (popped_facts _ _ _ HI Hg Hpop)
    as (Hr & Hb & Hm & Hne & Hco & [s [Hs1 Hs2]] & Hperm & [e0 [He0 Hbit]]);
  assert (e0 = e) by congruence; subst e0;
  assert (Hord : ordinal (round d) = round d) by (apply ordinal_small; lia);
  cbv zeta in Hcase.

Lemma applyStep_InvRounds res w w' :
  Inv w → guardDiffs w = Ok true → applyStep res w = Ok w' → InvRounds w'.
Proof.
  intros HI Hg Hs. apply_step_facts HI Hg Hs.
  destruct HI as [HR HH HP HT].
  destruct HR as [Ru Rc Ra Ruc Rca Rfl Rf Rap Rnd].
  destruct (_ && _) in Hcase.
  - destruct Hcase as (Hsy & Hha & Ha & Hpush).
    rewrite Hs1 in Hpush. apply heapPush_Permutation in Hpush.
    constructor; rewrite ?Hu, ?Hc, ?Ha, ?Hfi, ?Hord; try assumption.
    + unfold isUint64. lia.
    + lia.
    + intros t Ht. destruct (Rf t Ht). split; lia.
    + intros p Hp. rewrite Hpush in Hp. apply elem_of_cons in Hp as [->|Hp].
      * simpl. split; [eauto|]. split; [lia|].
        intros t Ht. destruct (Rf t Ht). lia.
      * destruct (Rap p Hp) as (? & ? & ?).
        repeat split; try assumption; lia.
    + rewrite Hpush. rewrite fmap_cons. apply NoDup_cons. split; [|assumption].
      intros Hin. apply list_elem_of_fmap in Hin as [p [Hp1 Hp2]].
      destruct (Rap p Hp2) as (_ & ? & _). simpl in *; lia.
  - destruct Hcase as (Hsy & Hha & Ha & Hap).
    constructor; rewrite ?Hu, ?Hc, ?Ha, ?Hfi, ?Hap; assumption.
Qed.

Lemma applyStep_InvHash res w w' :
  Inv w → applyStep res w = Ok w' → InvHash w'.
Proof.
  intros HI Hs.
  destruct (applyStep_spec _ _ _ Hs)
    as (d & q & e & evs & Hpop & He & Hu & Hc & Hq & Hfe & Hfi & Hrun & Htr
        & Hpr & Hac & Hfr & Hgb & Hsub & Hcase).
  cbv zeta in Hcase. destruct HI as [HR HH HP HT].
  intros k s Hk. rewrite Hu.
  destruct (_ && _) in Hcase.
  - destruct Hcase as (_ & Hha & _). rewrite Hha in Hk.
    apply lookup_delete_Some in Hk as [_ Hk]. now apply HH.
  - destruct Hcase as (_ & Hha & _). rewrite Hha in Hk. now apply HH.
Qed.

Lemma sub64_1_ne (r r' : Z) : 0 <= r < MaxUint64 → r < r' < MaxUint64 → sub64 r 1 ≠ r'.
Proof.
  unfold sub64, wrap64. rewrite MaxUint64_eq. intros Hr Hr'.
  destruct (Z.eq_dec r 0) as [->|Hne].
  - change ((0 - 1) mod 2 ^ 64) with 18446744073709551615. lia.
  - rewrite Z.mod_small by lia. lia.
Qed.

Lemma applyStep_InvPending res w w' :
  Inv w → guardDiffs w = Ok true → applyStep res w = Ok w' → InvPending w'.
Proof.
  intros HI Hg Hs. apply_step_facts HI Hg Hs.
  destruct HI as [HR HH HP HT].
  assert (Hpend : pending w ≡ₚ (round d, fetchMask d) :: pending w').
  { unfold pending. rewrite Hq, Hfe, Hperm. reflexivity. }
  assert (Hnd := inv_pending_nodup _ HP). rewrite Hpend in Hnd.
  apply NoDup_cons in Hnd as [Hnotin Hnd].
  assert (Hold : ∀ x, x ∈ pending w' → x ∈ pending w).
  { intros x Hx. rewrite Hpend. now apply elem_of_cons; right. }
  assert (Hother : ∀ m', (round d, m') ∈ pending w' →
            Z.land (maskClear (outstanding e) (fetchMask d)) m' ≠ 0).
  { intros m' Hin.
    destruct (inv_pending _ HP _ _ (Hold _ Hin)) as (_ & Hm' & _ & [e1 [He1 Hb1]]).
    assert (e1 = e) by congruence. subst e1.
    rewrite maskClear_other; try assumption.
    intros Heq. apply Hnotin. rewrite Heq. exact Hin. }
  constructor.
  - intros r m Hin.
    destruct (inv_pending _ HP _ _ (Hold _ Hin)) as (Hb' & Hm' & Hc' & [e1 [He1 Hb1]]).
    split; [assumption|]. split; [assumption|].
    destruct (_ && _) eqn:Hclosed in Hcase.
    + destruct Hcase as (Hsy & Hha & Ha & Hpush).
      apply andb_true_iff in Hclosed as [Hz _]. apply Z.eqb_eq in Hz. simpl in Hz.
      assert (Hrne : r ≠ round d).
      { intros ->. apply (Hother _ Hin). rewrite Hz. reflexivity. }
      rewrite Hsy, Hha, Ha, Hord. split.
      * intros Hlt. rewrite lookup_delete_ne; [apply Hc'; lia|].
        apply sub64_1_ne; lia.
      * exists e1. rewrite lookup_delete_ne by congruence. auto.
    + destruct Hcase as (Hsy & Hha & Ha & Hap).
      rewrite Hsy, Hha, Ha. split; [assumption|].
      destruct (decide (r = round d)) as [->|Hrne].
      * eexists. rewrite lookup_insert_eq. split; [reflexivity|]. simpl.
        now apply Hother.
      * exists e1. rewrite lookup_insert_ne by congruence. auto.
  - exact Hnd.
  - intros d' Hd'. rewrite Hq in Hd'. apply (inv_diffs_coherent _ HP).
    rewrite Hperm. now apply elem_of_cons; right.
  - rewrite Hfe. apply (inv_tasks_coherent _ HP).
Qed.

Lemma applyStep_InvTrace res w w' :
  Inv w → guardDiffs w = Ok true → applyStep res w = Ok w' → InvTrace w'.
Proof.
  intros HI Hg Hs. apply_step_facts HI Hg Hs.
  destruct HI as [HR HH HP HT].
  destruct HT as [Tp Tpl Ta Tab Tf Tfl].
  assert (Ha' : lastFullyAppliedRound w' = round d
                ∨ lastFullyAppliedRound w' = lastFullyAppliedRound w).
  { destruct (_ && _) in Hcase; [left|right]; apply Hcase. }
  assert (Hoa : ordinal (lastFullyAppliedRound w') = round d
                ∨ ordinal (lastFullyAppliedRound w') = ordinal (lastFullyAppliedRound w)).
  { destruct Ha' as [-> | ->]; auto. }
  assert (Hap : applyRounds evs = if fetched d then [round d] else []).
  { unfold applyRounds. rewrite Hac. destruct (fetched d); simpl; congruence. }
  constructor; rewrite Htr, ?popRounds_app, ?applyRounds_app, ?finalizeRounds_app,
    ?Hpr, ?Hap, ?Hfr, ?Hc, ?Hfi, ?app_nil_r.
  - apply gapless_snoc; [assumption|]. intros x Hx. destruct (Tpl x Hx); lia.
  - intros x Hx. rewrite last_snoc in Hx. injection Hx as <-. lia.
  - destruct (fetched d); rewrite ?app_nil_r; [|assumption].
    apply nondecreasing_snoc; [assumption|]. intros x Hx. specialize (Tab x Hx). lia.
  - intros x Hx. apply elem_of_app in Hx as [Hx|Hx].
    + specialize (Tab x Hx). lia.
    + destruct (fetched d); [|inversion Hx].
      apply list_elem_of_singleton in Hx. lia.
  - assumption.
  - assumption.
Qed.

Lemma applyStep_Inv res w w' :
  Inv w → guardDiffs w = Ok true → applyStep res w = Ok w' → Inv w'.
Proof.
  intros HI Hg Hs. constructor.
  - eapply applyStep_InvRounds; eauto.
  - eapply applyStep_InvHash; eauto.
  - eapply applyStep_InvPending; eauto.
  - eapply applyStep_InvTrace; eauto.
Qed.

(** ** The invariant depends on part of the state only *)

Lemma InvRounds_eq w w' :
  undefinedRound w' = undefinedRound w →
  cachedLastRound w' = cachedLastRound w →
  lastFullyAppliedRound w' = lastFullyAppliedRound w →
  outOfOrderApplieds w' = outOfOrderApplieds w →
  finalizing w' = finalizing w →
  InvRounds w → InvRounds w'.
Proof.
  intros Hu Hc Ha Hap Hf [].
  constructor; rewrite ?Hu, ?Hc, ?Ha, ?Hap, ?Hf; assumption.
Qed.

Lemma InvHash_eq w w' :
  undefinedRound w' = undefinedRound w →
  hashCache w' = hashCache w →
  InvHash w → InvHash w'.
Proof. intros Hu Hh HH k s. rewrite Hu, Hh. apply HH. Qed.

Lemma InvPending_eq w w' :
  lastFullyAppliedRound w' = lastFullyAppliedRound w →
  hashCache w' = hashCache w →
  syncingRounds w' = syncingRounds w →
  outOfOrderDiffs w' = outOfOrderDiffs w →
  fetching w' = fetching w →
  InvPending w → InvPending w'.
Proof.
  intros Ha Hh Hs Hd Hf [].
  constructor; unfold pending in *; rewrite ?Ha, ?Hh, ?Hs, ?Hd, ?Hf; assumption.
Qed.

Lemma InvTrace_eq w w' :
  cachedLastRound w' = cachedLastRound w →
  lastFullyAppliedRound w' = lastFullyAppliedRound w →
  finalizing w' = finalizing w →
  popRounds (trace w') = popRounds (trace w) →
  applyCalls (trace w') = applyCalls (trace w) →
  finalizeRounds (trace w') = finalizeRounds (trace w) →
  InvTrace w → InvTrace w'.
Proof.
  intros Hc Ha Hf Hp Hap Hfr [].
  constructor; unfold applyRounds in *;
    rewrite ?Hc, ?Ha, ?Hf, ?Hp, ?Hap, ?Hfr; assumption.
Qed.

(** ** Finalization keeps the invariant *)

Lemma spawnStep_spec w w' :
  spawnStep w = Ok w' →
  ∃ s q, heapPop (outOfOrderApplieds w) = Ok (Some s, q)
    ∧ w' = emit [EvSpawnFinalize s]
             (setFinalizing (finalizing w ++ [mkFinalizeTask s false])
                (setApplieds q w)).
Proof.
  unfold spawnStep. intros Hs. inv_ok. destruct a as [p q]. inv_ok.
  subst p. eauto.
Qed.

(** A summary is popped for the round after the last finalized one,
    and only when no [finalize] is in flight. *)
Lemma spawn_facts w s q :
  Inv w → guardApplieds w = Ok true →
  heapPop (outOfOrderApplieds w) = Ok (Some s, q) →
  sRound s = ordinal (cachedLastRound w) + 1
  ∧ finalizing w = []
  ∧ outOfOrderApplieds w ≡ₚ Some s :: q
  ∧ sRound s <= ordinal (lastFullyAppliedRound w).
Proof.
  intros [HR HH HP HT] Hg Hpop.
  apply heapPop_spec in Hpop as [Hhd Hperm].
  destruct (guardApplieds_head _ Hg) as [s' [Hs' Hr]].
  assert (s' = s) by congruence. subst s'.
  rewrite add64_1 in Hr by apply HR.
  assert (Hin : Some s ∈ outOfOrderApplieds w)
    by (eapply list_elem_of_lookup_2; eauto).
  destruct (inv_applieds _ HR _ Hin) as (_ & Hb & Hne). simpl in *.
  repeat split; try assumption; try lia.
  destruct (finalizing w) as [|t l] eqn:Hf; [reflexivity|].
  exfalso. apply (Hne t); [left|].
  rewrite Hr. symmetry. apply (inv_fin _ HR). rewrite Hf. left.
Qed.

Lemma spawnStep_Inv w w' :
  Inv w → guardApplieds w = Ok true → spawnStep w = Ok w' → Inv w'.
Proof.
  intros HI Hg Hs. destruct (spawnStep_spec _ _ Hs) as (s & q & Hpop & ->).
  destruct (spawn_facts _ _ _ HI Hg Hpop) as (Hr & Hf & Hperm & Hle).
  destruct HI as [HR HH HP HT]. constructor.
  - destruct HR as [Ru Rc Ra Ruc Rca Rfl Rf Rap Rnd].
    rewrite Hperm in Rnd. rewrite fmap_cons in Rnd.
    apply NoDup_cons in Rnd as [Rnotin Rnd].
    constructor; simpl; rewrite ?Hf; simpl; try assumption.
    + lia.
    + intros t Ht. apply list_elem_of_singleton in Ht. subst t. simpl. lia.
    + intros p Hp.
      assert (Hp' : p ∈ outOfOrderApplieds w)
        by (rewrite Hperm; now apply elem_of_cons; right).
      destruct (Rap p Hp') as (? & ? & ?).
      split; [assumption|]. split; [lia|].
      intros t Ht. apply list_elem_of_singleton in Ht. subst t. simpl.
      intros Heq. apply Rnotin. simpl. rewrite <- Heq.
      now apply list_elem_of_fmap_2.
  - exact HH.
  - eapply InvPending_eq; [..|exact HP]; reflexivity.
  - destruct HT as [Tp Tpl Ta Tab Tf Tfl].
    constructor; unfold applyRounds in *; simpl;
      rewrite ?popRounds_app, ?applyCalls_app, ?finalizeRounds_app; simpl;
      rewrite ?app_nil_r; try assumption.
    rewrite Hf in *. simpl in *. assumption.
Qed.

Lemma finalizing_single w k t :
  InvRounds w → finalizing w !! k = Some t → k = 0%nat ∧ finalizing w = [t].
Proof.
  intros HR Hk. pose proof (inv_fin_len _ HR) as Hlen.
  destruct (finalizing w) as [|t0 [|t1 l]]; simpl in *; try lia.
  - rewrite lookup_nil in Hk. discriminate.
  - destruct k; simpl in Hk; [split; congruence|].
    rewrite lookup_nil in Hk. discriminate.
Qed.

Lemma runFinalize_spec k res w w' :
  runFinalize k res w = Ok w' →
  ∃ s, finalizing w !! k = Some (mkFinalizeTask s false)
    ∧ w' = emit [EvFinalize (finalizeArgs s) res; EvLog (finalizeLog res) "finalize"]
             (setFinalizing (<[k := mkFinalizeTask s true]> (finalizing w)) w).
Proof.
  unfold runFinalize. destruct (finalizing w !! k) as [[s [|]]|]; try discriminate.
  intros Hs. simpl in Hs. inv_ok. eauto.
Qed.

Lemma runFinalize_Inv k res w w' : Inv w → runFinalize k res w = Ok w' → Inv w'.
Proof.
  intros [HR HH HP HT] Hs. destruct (runFinalize_spec _ _ _ _ Hs) as (s & Hk & ->).
  destruct (finalizing_single _ _ _ HR Hk) as [-> Hf].
  constructor.
  - destruct HR as [Ru Rc Ra Ruc Rca Rfl Rf Rap Rnd].
    rewrite Hf in *.
    constructor; simpl; rewrite ?Hf; simpl; try assumption.
    + intros t Ht. apply list_elem_of_singleton in Ht. subst t. simpl.
      apply (Rf (mkFinalizeTask s false)). left.
    + intros p Hp. destruct (Rap p Hp) as (? & ? & Hne).
      split; [assumption|]. split; [assumption|].
      intros t Ht. apply list_elem_of_singleton in Ht. subst t. simpl.
      apply (Hne (mkFinalizeTask s false)). left.
  - exact HH.
  - eapply InvPending_eq; [..|exact HP]; reflexivity.
  - destruct HT as [Tp Tpl Ta Tab Tf Tfl].
    rewrite Hf in *. simpl in Tfl.
    constructor; unfold applyRounds in *; simpl;
      rewrite ?popRounds_app, ?applyCalls_app, ?finalizeRounds_app; simpl;
      rewrite ?app_nil_r, ?Hf; simpl; try assumption.
    + apply consecutive_snoc; [assumption|]. intros x Hx.
      rewrite (Tfl x Hx).
      destruct (inv_fin _ HR (mkFinalizeTask s false)) as [Hr _];
        [rewrite Hf; left|]. simpl in Hr. lia.
    + intros x Hx. rewrite last_snoc in Hx. injection Hx as <-.
      destruct (inv_fin _ HR (mkFinalizeTask s false)) as [Hr _];
        [rewrite Hf; left|]. simpl in Hr. lia.
Qed.

Lemma handleFinalized_spec k dbErr w w' :
  handleFinalized k dbErr w = Ok w' →
  ∃ s evs, finalizing w !! k = Some (mkFinalizeTask s true)
    ∧ undefinedRound w' = undefinedRound w
    ∧ cachedLastRound w' = sRound s
    ∧ lastFullyAppliedRound w' = lastFullyAppliedRound w
    ∧ outOfOrderDiffs w' = outOfOrderDiffs w
    ∧ outOfOrderApplieds w' = outOfOrderApplieds w
    ∧ syncingRounds w' = syncingRounds w
    ∧ hashCache w' = hashCache w
    ∧ fetching w' = fetching w
    ∧ finalizing w' = delete k (finalizing w)
    ∧ running w' = running w
    ∧ trace w' = trace w ++ evs
    ∧ popRounds evs = [] ∧ applyCalls evs = [] ∧ finalizeRounds evs = []
    ∧ sRound (LastBlock (syncedState w')) = sRound s
    ∧ (dbErr = None → stateStore w' = Some (syncedState w')).
Proof.
  unfold handleFinalized. destruct (finalizing w !! k) as [[s [|]]|]; try discriminate.
  intros Hs. exists s.
  destruct dbErr; inv_ok; eexists; simpl; rewrite <- ?app_assoc;
    repeat split; try reflexivity; try discriminate.
Qed.

Lemma handleFinalized_Inv k dbErr w w' :
  Inv w → handleFinalized k dbErr w = Ok w' → Inv w'.
Proof.
  intros [HR HH HP HT] Hs.
  destruct (handleFinalized_spec _ _ _ _ Hs)
    as (s & evs & Hk & Hu & Hc & Ha & Hd & Hap & Hsy & Hha & Hfe & Hfi & Hrun
        & Htr & Hpr & Hac & Hfr & _).
  destruct (finalizing_single _ _ _ HR Hk) as [-> Hf].
  rewrite Hf in Hfi. simpl in Hfi.
  destruct (inv_fin _ HR (mkFinalizeTask s true)) as [Hr Hle]; [rewrite Hf; left|].
  simpl in Hr.
  pose proof (ordinal_bounds _ (inv_c _ HR)).
  pose proof (ordinal_bounds _ (inv_a _ HR)).
  assert (Hord : ordinal (sRound s) = sRound s) by (apply ordinal_small; lia).
  constructor.
  - destruct HR as [Ru Rc Ra Ruc Rca Rfl Rf Rap Rnd].
    constructor; rewrite ?Hu, ?Hc, ?Ha, ?Hap, ?Hfi, ?Hord; simpl; try assumption.
    + unfold isUint64. lia.
    + lia.
    + lia.
    + lia.
    + intros t Ht. inversion Ht.
    + intros p Hp. destruct (Rap p Hp) as (? & ? & Hne).
      specialize (Hne (mkFinalizeTask s true)). rewrite Hf in Hne.
      specialize (Hne ltac:(left)). simpl in Hne.
      split; [assumption|]. split; [lia|].
      intros t Ht. inversion Ht.
  - eapply InvHash_eq; eauto.
  - eapply InvPending_eq; eauto.
  - destruct HT as [Tp Tpl Ta Tab Tf Tfl].
    rewrite Hf in Tfl. simpl in Tfl.
    constructor; unfold applyRounds in *;
      rewrite Htr, ?popRounds_app, ?applyCalls_app, ?finalizeRounds_app,
        ?Hpr, ?Hac, ?Hfr, ?app_nil_r, ?Hc, ?Ha, ?Hfi, ?Hord; simpl;
      try assumption.
    intros x Hx. rewrite (Tfl x Hx). lia.
Qed.

(** ** Receiving a fetched diff keeps the invariant *)

Lemma consume_fields steps end_ d :
  round (consume steps end_ d) = round d
  ∧ fetchMask (consume steps end_ d) = fetchMask d
  ∧ thisRoot (consume steps end_ d) = thisRoot d
  ∧ prevRoot (consume steps end_ d) = prevRoot d
  ∧ fetched (consume steps end_ d) = fetched d.
Proof.
  revert d. induction steps as [|[c|e] steps IH]; intros d; simpl.
  - destruct end_; simpl; auto.
  - destruct (IH (setWriteLog (writeLog d ++ [c]) d)) as (? & ? & ? & ? & ?).
    simpl in *. auto.
  - auto.
Qed.

Lemma fetchDiffBody_fields st r prev this m :
  round (fetchDiffBody st r prev this m).1 = r
  ∧ fetchMask (fetchDiffBody st r prev this m).1 = m
  ∧ thisRoot (fetchDiffBody st r prev this m).1 = this
  ∧ prevRoot (fetchDiffBody st r prev this m).1 = prev.
Proof.
  unfold fetchDiffBody.
  destruct (HasRoot st this); simpl; [auto|].
  destruct (hashEqual _ _); simpl; [auto|].
  destruct (GetDiff st prev this) as [e|it]; simpl; [auto|].
  match goal with |- context [consume ?s ?e ?d] =>
    destruct (consume_fields s e d) as (? & ? & ? & ? & ?) end.
  simpl in *. auto.
Qed.

Lemma handleItem_spec item w w' :
  handleItem item w = Ok w' →
  match err item with
  | Some _ =>
      ∃ e, syncingRounds w !! round item = Some e
        ∧ w' = setSyncingRounds
                 (<[round item :=
                      {| outstanding := maskClear (outstanding e) (fetchMask item);
                         awaitingRetry := maskSet (awaitingRetry e) (fetchMask item) |}]>
                    (syncingRounds w))
                 (emit [EvLog LogError "error calling getdiff"] w)
  | None =>
      ∃ q, heapPush (outOfOrderDiffs w) item = Ok q ∧ w' = setDiffs q w
  end.
Proof.
  unfold handleItem. destruct (err item); intros Hs; inv_ok.
  - simpl in *. rewrite lookup_insert_eq in Hstep0.
    injection Hstep0 as <-. simpl.
    exists a. split; [assumption|]. unfold setSyncingRounds; simpl.
    now rewrite insert_insert_eq.
  - eauto.
Qed.

Lemma handleDiff_spec k st w w' :
  handleDiff k st w = Ok w' →
  ∃ t prev,
    fetching w !! k = Some t ∧ tPrev t = Some prev
    ∧ handleItem (fetchDiffBody st (tRound t) prev (tThis t) (tMask t)).1
        (emit (map (fun c => EvGetDiff (fst c) (snd c))
                 (fetchDiffBody st (tRound t) prev (tThis t) (tMask t)).2)
           (setFetching (delete k (fetching w)) w)) = Ok w'.
Proof.
  unfold handleDiff. destruct (fetching w !! k) as [t|]; [|discriminate].
  intros Hs. inv_ok. exists t, a. split; [reflexivity|]. split; [assumption|].
  unfold fetchDiff in Hs. destruct (fetchDiffBody _ _ _ _ _) as [item calls].
  simpl in *. inv_ok. congruence.
Qed.

Lemma quiet_getDiff_events (calls : list (Root * Root)) :
  popRounds (map (fun c => EvGetDiff (fst c) (snd c)) calls) = []
  ∧ applyCalls (map (fun c => EvGetDiff (fst c) (snd c)) calls) = []
  ∧ finalizeRounds (map (fun c => EvGetDiff (fst c) (snd c)) calls) = []
  ∧ getBlockRounds (map (fun c => EvGetDiff (fst c) (snd c)) calls) = []
  ∧ submitted (map (fun c => EvGetDiff (fst c) (snd c)) calls) = [].
Proof. induction calls; simpl; auto. Qed.

(** What a received diff changes: nothing but the diffs queue, the
    pool and the entry of its round. *)
Lemma handleDiff_frame k st w w' :
  handleDiff k st w = Ok w' →
  undefinedRound w' = undefinedRound w
  ∧ cachedLastRound w' = cachedLastRound w
  ∧ lastFullyAppliedRound w' = lastFullyAppliedRound w
  ∧ outOfOrderApplieds w' = outOfOrderApplieds w
  ∧ hashCache w' = hashCache w
  ∧ finalizing w' = finalizing w
  ∧ running w' = running w
  ∧ fetching w' = delete k (fetching w)
  ∧ popRounds (trace w') = popRounds (trace w)
  ∧ applyCalls (trace w') = applyCalls (trace w)
  ∧ finalizeRounds (trace w') = finalizeRounds (trace w).
Proof.
  intros Hs. destruct (handleDiff_spec _ _ _ _ Hs) as (t & prev & Hk & Hprev & Hi).
  apply handleItem_spec in Hi.
  destruct (quiet_getDiff_events (fetchDiffBody st (tRound t) prev (tThis t) (tMask t)).2)
    as (E1 & E2 & E3 & _).
  destruct (err _).
  - destruct Hi as (e' & He & ->). simpl.
    rewrite !popRounds_app, !applyCalls_app, !finalizeRounds_app, E1, E2, E3.
    simpl. rewrite !app_nil_r. repeat split; reflexivity.
  - destruct Hi as (q & Hq & ->). simpl.
    rewrite !popRounds_app, !applyCalls_app, !finalizeRounds_app, E1, E2, E3.
    rewrite !app_nil_r. repeat split; reflexivity.
Qed.

Lemma keys_remove_task (D : list (Z * Z)) (F : list fetchTask) (k : nat) t :
  F !! k = Some t →
  D ++ (taskKey <$> F) ≡ₚ taskKey t :: (D ++ (taskKey <$> delete k F)).
Proof.
  intros Hk.
  transitivity (D ++ (taskKey <$> (t :: delete k F))).
  - apply Permutation_app_head. apply fmap_Permutation.
    now apply delete_Permutation.
  - rewrite fmap_cons. symmetry. apply Permutation_middle.
Qed.

Lemma handleDiff_InvPending k st w w' :
  InvPending w → handleDiff k st w = Ok w' → InvPending w'.
Proof.
  intros HP Hs.
  destruct (handleDiff_frame _ _ _ _ Hs)
    as (Hu & Hc & Ha & Hap & Hha & Hfi & Hrun & Hfe & _).
  destruct (handleDiff_spec _ _ _ _ Hs) as (t & prev & Hk & Hprev & Hi).
  destruct (fetchDiffBody_fields st (tRound t) prev (tThis t) (tMask t))
    as (Fr & Fm & Ft & _).
  set (item := (fetchDiffBody st (tRound t) prev (tThis t) (tMask t)).1) in *.
  apply handleItem_spec in Hi.
  assert (Htin : t ∈ fetching w) by (eapply list_elem_of_lookup_2; eauto).
  assert (Hfperm : fetching w ≡ₚ t :: delete k (fetching w))
    by (now apply delete_Permutation).
  assert (Htc := inv_tasks_coherent _ HP t Htin).
  destruct (err item) as [failure|].
  - (* the fetch failed: its subtree goes back to awaiting retry *)
    destruct Hi as (e & He & Hw'). simpl in He.
    assert (Hpend : pending w ≡ₚ (round item, fetchMask item) :: pending w').
    { unfold pending. rewrite Hfe. subst w'.
      replace (round item, fetchMask item) with (taskKey t)
        by (unfold taskKey; congruence).
      now apply keys_remove_task. }
    assert (Hnd := inv_pending_nodup _ HP). rewrite Hpend in Hnd.
    apply NoDup_cons in Hnd as [Hnotin Hnd].
    assert (Hold : ∀ x, x ∈ pending w' → x ∈ pending w).
    { intros x Hx. rewrite Hpend. now apply elem_of_cons; right. }
    destruct (inv_pending _ HP _ _ (pending_task _ _ Htin)) as (_ & Hm & _).
    rewrite <- Fm in Hm.
    constructor.
    + intros r m Hin.
      destruct (inv_pending _ HP _ _ (Hold _ Hin)) as (Hb' & Hm' & Hc' & [e1 [He1 Hb1]]).
      rewrite Ha, Hha. split; [assumption|]. split; [assumption|].
      split; [assumption|]. subst w'. simpl.
      destruct (decide (r = round item)) as [->|Hrne].
      * eexists. rewrite lookup_insert_eq. split; [reflexivity|]. simpl.
        assert (e1 = e) by congruence. subst e1.
        rewrite maskClear_other; try assumption.
        intros Heq. apply Hnotin. rewrite Heq. exact Hin.
      * exists e1. rewrite lookup_insert_ne by congruence. auto.
    + exact Hnd.
    + subst w'. simpl. apply (inv_diffs_coherent _ HP).
    + rewrite Hfe. intros t' Ht'. apply (inv_tasks_coherent _ HP).
      rewrite Hfperm. now apply elem_of_cons; right.
  - (* the diff is queued *)
    destruct Hi as (q & Hq & Hw'). simpl in Hq.
    apply heapPush_Permutation in Hq.
    assert (Hdq : outOfOrderDiffs w' = q) by (subst w'; reflexivity).
    assert (Hsy : syncingRounds w' = syncingRounds w) by (subst w'; reflexivity).
    assert (Hpend : pending w' ≡ₚ pending w).
    { unfold pending. rewrite Hfe, Hdq.
      rewrite (keys_remove_task _ _ _ _ Hk).
      transitivity ((diffKey <$> item :: outOfOrderDiffs w)
                      ++ (taskKey <$> delete k (fetching w))).
      - apply Permutation_app_tail. now apply fmap_Permutation.
      - rewrite fmap_cons. simpl. apply Permutation_cons; [|reflexivity].
        unfold diffKey, taskKey. congruence. }
    constructor.
    + intros r m Hin. rewrite Hpend in Hin. rewrite Ha, Hha, Hsy.
      now apply (inv_pending _ HP).
    + rewrite Hpend. apply (inv_pending_nodup _ HP).
    + intros d Hd. rewrite Hdq, Hq in Hd. apply elem_of_cons in Hd as [->|Hd].
      * rewrite Ft, Fr. exact Htc.
      * now apply (inv_diffs_coherent _ HP).
    + rewrite Hfe. intros t' Ht'. apply (inv_tasks_coherent _ HP).
      rewrite Hfperm. now apply elem_of_cons; right.
Qed.

Lemma handleDiff_Inv k st w w' : Inv w → handleDiff k st w = Ok w' → Inv w'.
Proof.
  intros [HR HH HP HT] Hs.
  destruct (handleDiff_frame _ _ _ _ Hs)
    as (Hu & Hc & Ha & Hap & Hha & Hfi & Hrun & Hfe & Hp & Hac & Hfr).
  constructor.
  - eapply InvRounds_eq; eauto.
  - eapply InvHash_eq; eauto.
  - eapply handleDiff_InvPending; eauto.
  - eapply InvTrace_eq; eauto.
Qed.

(** ** A new block keeps the invariant *)

(** More summaries cached break nothing of the fetches under way. *)
Lemma InvPending_grow w w' :
  lastFullyAppliedRound w' = lastFullyAppliedRound w →
  syncingRounds w' = syncingRounds w →
  outOfOrderDiffs w' = outOfOrderDiffs w →
  fetching w' = fetching w →
  (∀ k, is_Some (hashCache w !! k) → is_Some (hashCache w' !! k)) →
  InvPending w → InvPending w'.
Proof.
  intros Ha Hs Hd Hf Hh [P1 P2 P3 P4].
  constructor; unfold pending in *; rewrite ?Ha, ?Hs, ?Hd, ?Hf; try assumption.
  intros r m Hin. destruct (P1 r m Hin) as (? & ? & Hc & ?).
  split; [lia|]. split; [assumption|]. split; [|assumption].
  intros Hlt. apply Hh. now apply Hc.
Qed.

Lemma InvHash_insert w k s :
  InvHash w → coherent s → (k ≠ undefinedRound w → sRound s = k) →
  InvHash (setHashCache (<[k := s]> (hashCache w)) w).
Proof.
  intros HH Hc Hk k' s'. simpl. rewrite lookup_insert.
  destruct (decide (k = k')) as [<-|Hne]; simpl.
  - intros [= <-]. auto.
  - apply HH.
Qed.

Lemma coherent_summaryFromBlock blk : coherent (summaryFromBlock blk).
Proof. split; reflexivity. Qed.

Lemma installDummy_Inv blk w : Inv w → Inv (installDummy blk w).
Proof.
  intros [HR HH HP HT].
  pose proof (installDummy_quiet blk w) as Hq.
  constructor.
  - eapply InvRounds_quiet; eauto.
  - unfold installDummy. destruct (negb _ && _) eqn:Hc; [|assumption].
    apply andb_true_iff in Hc as [_ Hc]. apply Z.eqb_eq in Hc.
    apply InvHash_insert; [assumption|split; reflexivity|congruence].
  - eapply InvPending_grow; [..|exact HP];
      unfold installDummy; destruct (negb _ && _); try reflexivity; try tauto.
    intros k. simpl. rewrite lookup_insert.
    destruct (decide (cachedLastRound w = k)); simpl; eauto.
  - eapply InvTrace_quiet; eauto.
Qed.

Lemma cacheIncoming_Inv blk w : Inv w → Inv (cacheIncoming blk w).
Proof.
  intros [HR HH HP HT].
  pose proof (cacheIncoming_quiet blk w) as Hq.
  constructor.
  - eapply InvRounds_quiet; eauto.
  - unfold cacheIncoming. destruct (hashCache w !! _); [assumption|].
    apply InvHash_insert; [assumption|apply coherent_summaryFromBlock|reflexivity].
  - eapply InvPending_grow; [..|exact HP];
      unfold cacheIncoming; destruct (hashCache w !! hRound _);
      try reflexivity; try tauto.
    intros k. simpl. rewrite lookup_insert.
    destruct (decide (hRound (bHeader blk) = k)); simpl; eauto.
  - eapply InvTrace_quiet; eauto.
Qed.

(** The catch-up loop touches the hash cache and the trace only, and
    only adds to the cache. *)
Lemma catchUp_frame getBlock fuel i R w w' :
  catchUp getBlock fuel i R w = Ok w' →
  syncingRounds w' = syncingRounds w
  ∧ fetching w' = fetching w
  ∧ (∀ k v, hashCache w !! k = Some v → hashCache w' !! k = Some v).
Proof.
  revert i w. induction fuel as [|fuel IH]; intros i w; simpl.
  - destruct (i <? R); intros Hs; inv_ok. auto.
  - destruct (i <? R); intros Hs; inv_ok; [|auto].
    destruct (IH _ _ Hs) as (Hsy & Hfe & Hha).
    destruct (hashCache w !! i) eqn:Hi; inv_ok; [auto|].
    destruct (getBlock i); inv_ok. simpl in *.
    repeat split; try assumption.
    intros k v Hk. apply Hha. rewrite lookup_insert_ne; [assumption|congruence].
Qed.

Lemma catchUp_InvHash getBlock fuel i R w w' :
  (∀ i b, getBlock i = inr b → hRound (bHeader b) = i) →
  catchUp getBlock fuel i R w = Ok w' → InvHash w → InvHash w'.
Proof.
  intros Hwf. revert i w. induction fuel as [|fuel IH]; intros i w; simpl.
  - destruct (i <? R); intros Hs; inv_ok. auto.
  - destruct (i <? R); intros Hs HH; inv_ok; [|auto].
    apply (IH _ _ Hs).
    destruct (hashCache w !! i) eqn:Hi; inv_ok; [auto|].
    destruct (getBlock i) as [|b] eqn:Hb; inv_ok.
    apply (InvHash_insert (emit [EvGetBlock i] w)); [exact HH| |].
    + apply coherent_summaryFromBlock.
    + intros _. simpl. now apply Hwf.
Qed.

Lemma catchUp_Inv getBlock fuel i R w w' :
  (∀ i b, getBlock i = inr b → hRound (bHeader b) = i) →
  catchUp getBlock fuel i R w = Ok w' → Inv w → Inv w'.
Proof.
  intros Hwf Hs [HR HH HP HT].
  pose proof (catchUp_quiet _ _ _ _ _ _ Hs) as Hq.
  destruct (catchUp_frame _ _ _ _ _ _ Hs) as (Hsy & Hfe & Hha).
  constructor.
  - eapply InvRounds_quiet; eauto.
  - eapply catchUp_InvHash; eauto.
  - eapply InvPending_grow; [..|exact HP]; try assumption; try apply Hq.
    intros k [v Hv]. exists v. now apply Hha.
  - eapply InvTrace_quiet; eauto.
Qed.

(** *** Scheduling *)

Lemma maskIO_ne0 : maskIO ≠ 0.
Proof. discriminate. Qed.
Lemma maskState_ne0 : maskState ≠ 0.
Proof. discriminate. Qed.

Lemma needsFetch_clear e m : needsFetch e m = true → Z.land (outstanding e) m = 0.
Proof.
  unfold needsFetch. intros H. apply andb_true_iff in H as [H _].
  now apply Z.eqb_eq.
Qed.

(** A fetch submitted for a subtree that was not outstanding. *)
Lemma submitFetch_InvPending i e m t w :
  InvPending w →
  syncingRounds w !! i = Some e →
  needsFetch e m = true →
  (m = maskIO ∨ m = maskState) →
  tRound t = i → tMask t = m → rRound (tThis t) = i →
  0 <= i < MaxUint64 →
  is_Some (hashCache w !! i) →
  InvPending (submitFetch i (markOutstanding e m) t w).
Proof.
  intros [P1 P2 P3 P4] He Hn Hm Hr Hmask Hthis Hb Hh.
  assert (Hpend : pending (submitFetch i (markOutstanding e m) t w)
                  = pending w ++ [(i, m)]).
  { unfold pending. simpl. rewrite fmap_app. simpl.
    unfold taskKey at 2. rewrite Hr, Hmask. now rewrite app_assoc. }
  assert (Hnotin : (i, m) ∉ pending w).
  { intros Hin. destruct (P1 _ _ Hin) as (_ & _ & _ & [e1 [He1 Hb1]]).
    assert (e1 = e) by congruence. subst e1.
    apply Hb1. now apply needsFetch_clear. }
  constructor.
  - intros r m' Hin. rewrite Hpend in Hin. simpl.
    apply elem_of_app in Hin as [Hin|Hin].
    + destruct (P1 _ _ Hin) as (? & ? & ? & [e1 [He1 Hb1]]).
      split; [lia|]. split; [assumption|]. split; [assumption|].
      destruct (decide (r = i)) as [->|Hne].
      * eexists. rewrite lookup_insert_eq. split; [reflexivity|]. simpl.
        assert (e1 = e) by congruence. subst e1. now apply maskSet_keeps.
      * exists e1. rewrite lookup_insert_ne by congruence. auto.
    + apply list_elem_of_singleton in Hin. injection Hin as -> ->.
      split; [lia|]. split; [assumption|]. split; [intros _; assumption|].
      eexists. rewrite lookup_insert_eq. split; [reflexivity|]. simpl.
      apply maskSet_has. destruct Hm as [-> | ->]; discriminate.
  - rewrite Hpend. apply NoDup_app. repeat split; try assumption.
    + intros x Hx Hx'. apply list_elem_of_singleton in Hx'. subst x. contradiction.
    + apply NoDup_singleton.
  - exact P3.
  - simpl. intros t' Ht'. apply elem_of_app in Ht' as [Ht'|Ht']; [auto|].
    apply list_elem_of_singleton in Ht'. subst t'. congruence.
Qed.

Lemma scheduleSubtree_InvPending i m t w :
  InvPending w →
  (m = maskIO ∨ m = maskState) →
  tRound t = i → tMask t = m → rRound (tThis t) = i →
  0 <= i < MaxUint64 →
  is_Some (hashCache w !! i) →
  InvPending (scheduleSubtree i m t w).
Proof.
  intros HP Hm Hr Hmask Hthis Hb Hh. unfold scheduleSubtree.
  destruct (syncingRounds w !! i) as [e|] eqn:He; [|assumption].
  destruct (needsFetch e m) eqn:Hn; [|assumption].
  eapply submitFetch_InvPending; eauto.
Qed.

Lemma scheduleSubtree_hashCache i m t w :
  hashCache (scheduleSubtree i m t w) = hashCache w.
Proof.
  unfold scheduleSubtree. destruct (syncingRounds w !! i) as [e|]; [|reflexivity].
  destruct (needsFetch e m); reflexivity.
Qed.

Lemma scheduleRound_hashCache i w w' :
  scheduleRound i w = Ok w' → hashCache w' = hashCache w.
Proof.
  unfold scheduleRound. intros Hs.
  destruct (match syncingRounds w !! i with Some _ => _ | None => _ end);
    inv_ok; [reflexivity|].
  rewrite !scheduleSubtree_hashCache. destruct (syncingRounds w !! i); reflexivity.
Qed.

(** The entry of a round is created for a round that has no fetch under
    way. *)
Lemma ensure_InvPending i w :
  InvPending w → syncingRounds w !! i = None →
  InvPending (setSyncingRounds
                (<[i := {| outstanding := maskNone; awaitingRetry := maskAll |}]>
                   (syncingRounds w)) w).
Proof.
  intros [P1 P2 P3 P4] Hnone. constructor; try assumption.
  intros r m Hin. change (pending (setSyncingRounds _ w)) with (pending w) in Hin.
  destruct (P1 _ _ Hin) as (? & ? & ? & [e1 [He1 Hb1]]).
  split; [lia|]. split; [assumption|]. split; [assumption|]. simpl.
  exists e1. rewrite lookup_insert_ne; [auto|]. congruence.
Qed.

Lemma scheduleRound_InvPending i w w' :
  InvHash w → InvPending w →
  0 <= i < MaxUint64 → i ≠ undefinedRound w →
  scheduleRound i w = Ok w' → InvPending w'.
Proof.
  intros HH HP Hb Hne. unfold scheduleRound. intros Hs.
  destruct (match syncingRounds w !! i with Some _ => _ | None => _ end);
    inv_ok; [assumption|].
  rename a into this.
  assert (Hthis : hashCache w !! i = Some this).
  { destruct (syncingRounds w !! i); exact Hstep. }
  destruct (HH _ _ Hthis) as [[Hio Hst] Hrd]. specialize (Hrd Hne).
  assert (Hh1 : ∀ w0, hashCache w0 = hashCache w → is_Some (hashCache w0 !! i))
    by (intros w0 ->; eauto).
  apply scheduleSubtree_InvPending;
    [|auto|simpl; congruence|reflexivity|simpl; congruence|exact Hb|].
  2:{ apply Hh1. rewrite scheduleSubtree_hashCache.
      destruct (syncingRounds w !! i); reflexivity. }
  apply scheduleSubtree_InvPending;
    [|auto|simpl; congruence|reflexivity|simpl; congruence|exact Hb|].
  2:{ apply Hh1. destruct (syncingRounds w !! i); reflexivity. }
  destruct (syncingRounds w !! i) eqn:Hf.
  - eapply InvPending_eq; [..|exact HP]; reflexivity.
  - eapply (InvPending_eq (setSyncingRounds _ w)); [..|apply ensure_InvPending];
      try reflexivity; eauto.
Qed.

Lemma scheduleRound_Inv i w w' :
  Inv w → ordinal (cachedLastRound w) < i < MaxUint64 →
  scheduleRound i w = Ok w' → Inv w'.
Proof.
  intros [HR HH HP HT] Hb Hs.
  pose proof (scheduleRound_quiet _ _ _ Hs) as Hq.
  pose proof (ordinal_bounds _ (inv_u _ HR)).
  pose proof (ordinal_bounds _ (inv_c _ HR)).
  pose proof (inv_uc _ HR).
  constructor.
  - eapply InvRounds_quiet; eauto.
  - eapply InvHash_eq; [apply Hq|eapply scheduleRound_hashCache; eauto|assumption].
  - eapply scheduleRound_InvPending; eauto; [lia|].
    intros ->. unfold ordinal at 1 in H1.
    destruct (Z.eqb_spec (undefinedRound w) MaxUint64); lia.
  - eapply InvTrace_quiet; eauto.
Qed.

(** The scheduling loop returns only when the block's round is not the
    largest [uint64]. *)
Lemma scheduleLoop_bound fuel i R w w' :
  isUint64 i → isUint64 R →
  (Z.of_nat fuel <= R - i + 1) → i <= R →
  scheduleLoop fuel i R w = Ok w' → R < MaxUint64.
Proof.
  revert i w. induction fuel as [|fuel IH]; intros i w Hi HR Hf Hle; simpl.
  - destruct (Z.leb_spec i R); [discriminate|lia].
  - destruct (Z.leb_spec i R); [|lia]. intros Hs. inv_ok.
    destruct (Z.eq_dec i R) as [->|Hne].
    + assert (fuel = 0%nat) by lia. subst fuel. simpl in Hs.
      destruct (Z.leb_spec (add64 R 1) R); [discriminate|].
      rewrite add64_1 in H0 by assumption.
      destruct (Z.eq_dec R MaxUint64) as [E|E].
      * rewrite E in H0. vm_compute in H0. discriminate.
      * unfold isUint64 in HR. lia.
    + apply (IH (add64 i 1) a); try assumption.
      * apply add64_isUint64.
      * rewrite add64_1, ordinal_small by (unfold isUint64 in *; lia). lia.
      * rewrite add64_1, ordinal_small by (unfold isUint64 in *; lia). lia.
Qed.

Lemma scheduleLoop_Inv fuel i R w w' :
  isUint64 i → isUint64 R →
  (i <= R → Z.of_nat fuel <= R - i + 1) →
  ordinal (cachedLastRound w) < i →
  scheduleLoop fuel i R w = Ok w' → Inv w → Inv w'.
Proof.
  revert i w. induction fuel as [|fuel IH]; intros i w Hi HR Hf Hlo; simpl.
  - destruct (Z.leb_spec i R); intros Hs; inv_ok. auto.
  - destruct (Z.leb_spec i R); intros Hs HI; [|inv_ok; auto].
    assert (Hmax : R < MaxUint64).
    { eapply (scheduleLoop_bound (S fuel) i R w w'); eauto.
      simpl. destruct (Z.leb_spec i R); [exact Hs|lia]. }
    specialize (Hf ltac:(assumption)).
    inv_ok.
    assert (Hi1 : add64 i 1 = i + 1).
    { rewrite add64_1, ordinal_small by (unfold isUint64 in *; lia). lia. }
    assert (Hc : cachedLastRound a = cachedLastRound w)
      by (apply (scheduleRound_quiet _ _ _ Hstep)).
    apply (IH (add64 i 1) a); try assumption.
    + apply add64_isUint64.
    + lia.
    + rewrite Hc. lia.
    + eapply scheduleRound_Inv; eauto. lia.
Qed.

Lemma handleNewBlock_Inv blk getBlock w w' :
  wfLabel (LNewBlock blk getBlock) →
  handleNewBlock blk getBlock w = Ok w' → Inv w → Inv w'.
Proof.
  intros [HR Hwf]. unfold handleNewBlock. intros Hs HI. inv_ok.
  rename a into w1.
  set (w0 := installDummy blk (emit [EvLog LogDebug "incoming block"] w)) in *.
  assert (HI0 : Inv w0).
  { apply installDummy_Inv. destruct HI as [H1 H2 H3 H4]. constructor.
    - eapply InvRounds_eq; [..|exact H1]; reflexivity.
    - exact H2.
    - eapply InvPending_eq; [..|exact H3]; reflexivity.
    - eapply InvTrace_eq; [..|exact H4]; simpl;
        rewrite ?popRounds_app, ?applyCalls_app, ?finalizeRounds_app; simpl;
        rewrite ?app_nil_r; reflexivity. }
  assert (HI1 : Inv w1) by (eapply catchUp_Inv; eauto).
  assert (HI2 : Inv (cacheIncoming blk w1)) by (apply cacheIncoming_Inv; exact HI1).
  pose proof (inv_c _ (inv_rounds _ HI2)) as Hc.
  eapply scheduleLoop_Inv; [..|exact Hs|exact HI2].
  - apply add64_isUint64.
  - exact HR.
  - lia.
  - rewrite add64_1 by exact Hc. lia.
Qed.

(** ** Every state of the loop satisfies the invariant *)

(** The branch an iteration takes. *)
Lemma iter_cases l w w' :
  iter l w = Ok w' →
  (∃ k res, l = LRunFinalize k res ∧ runFinalize k res w = Ok w')
  ∨ (running w = true
     ∧ ((∃ res, l = LApply res ∧ guardDiffs w = Ok true ∧ applyStep res w = Ok w')
        ∨ (l = LSpawnFinalize ∧ guardDiffs w = Ok false
           ∧ guardApplieds w = Ok true ∧ spawnStep w = Ok w')
        ∨ (guardDiffs w = Ok false ∧ guardApplieds w = Ok false
           ∧ ((∃ p res, l = LPruned p res ∧ handlePruned p res w = Ok w')
              ∨ (∃ blk gb, l = LNewBlock blk gb ∧ handleNewBlock blk gb w = Ok w')
              ∨ (∃ k st, l = LDiff k st ∧ handleDiff k st w = Ok w')
              ∨ (∃ k dbErr, l = LFinalized k dbErr
                            ∧ handleFinalized k dbErr w = Ok w')
              ∨ (l = LDone ∧ w' = setRunning false w))))).
Proof.
  intros Hs.
  destruct l; simpl in Hs;
    try (left; eauto; fail);
    right;
    (destruct (running w); simpl in Hs; [|discriminate]);
    (split; [reflexivity|]);
    inv_ok;
    (destruct a; [|inv_ok; destruct a; inv_ok]);
    try discriminate.
  - left. eauto.
  - right. left. auto.
  - right. right. repeat split; auto. left. eauto.
  - right. right. repeat split; auto. right. left. eauto.
  - right. right. repeat split; auto. right. right. left. eauto.
  - right. right. repeat split; auto. right. right. right. left. eauto.
  - right. right. repeat split; auto. right. right. right. right. auto.
Qed.

Lemma setRunning_Inv b w : Inv w → Inv (setRunning b w).
Proof.
  intros [HR HH HP HT]. constructor.
  - eapply InvRounds_eq; [..|exact HR]; reflexivity.
  - exact HH.
  - eapply InvPending_eq; [..|exact HP]; reflexivity.
  - eapply InvTrace_eq; [..|exact HT]; reflexivity.
Qed.

Lemma handlePruned_Inv p res w w' : handlePruned p res w = Ok w' → Inv w → Inv w'.
Proof.
  intros Hs [HR HH HP HT].
  pose proof (handlePruned_quiet _ _ _ _ Hs) as Hq.
  assert (hashCache w' = hashCache w ∧ syncingRounds w' = syncingRounds w
          ∧ fetching w' = fetching w) as (Hh & Hsy & Hf).
  { unfold handlePruned in Hs. destruct res; inv_ok; auto. }
  constructor.
  - eapply InvRounds_quiet; eauto.
  - apply (InvHash_eq w w'); [apply Hq|assumption|assumption].
  - apply (InvPending_eq w w'); try assumption; apply Hq.
  - eapply InvTrace_quiet; eauto.
Qed.

Lemma iter_Inv l w w' : wfLabel l → iter l w = Ok w' → Inv w → Inv w'.
Proof.
  intros Hwf Hs HI.
  destruct (iter_cases _ _ _ Hs)
    as [(k & res & -> & H)
       |(Hrun & [(res & -> & Hg & H)
                |[(-> & Hg & Hg' & H)
                 |(Hg & Hg' & [(p & res & -> & H)
                              |[(blk & gb & -> & H)
                               |[(k & st & -> & H)
                                |[(k & dbErr & -> & H)
                                 |(-> & ->)]]]])]])].
  - eapply runFinalize_Inv; eauto.
  - eapply applyStep_Inv; eauto.
  - eapply spawnStep_Inv; eauto.
  - eapply handlePruned_Inv; eauto.
  - eapply handleNewBlock_Inv; eauto.
  - eapply handleDiff_Inv; eauto.
  - eapply handleFinalized_Inv; eauto.
  - now apply setRunning_Inv.
Qed.

Lemma workerInit_rounds genesisBlock db :
  wfStart genesisBlock db →
  let w := workerInit genesisBlock db in
  isUint64 (undefinedRound w)
  ∧ isUint64 (cachedLastRound w)
  ∧ lastFullyAppliedRound w = cachedLastRound w
  ∧ ordinal (undefinedRound w) = hRound (bHeader genesisBlock) - 1
  ∧ ordinal (undefinedRound w) <= ordinal (cachedLastRound w).
Proof.
  intros [Hg Hdb]. simpl.
  split; [apply sub64_isUint64|].
  assert (Hou := sub64_1 _ Hg).
  destruct ((_ =? _) || (_ <? _)) eqn:Hc.
  - split; [apply sub64_isUint64|]. split; [reflexivity|]. split; [assumption|lia].
  - apply orb_false_iff in Hc as [Hne Hge].
    apply Z.eqb_neq in Hne. apply Z.ltb_ge in Hge.
    rewrite defaultUndefinedRound_eq in Hne.
    assert (Hp : isUint64 (sRound (LastBlock (NewNode db)))).
    { destruct db as [st|]; simpl in *; [now apply Hdb|]. exfalso. now apply Hne. }
    split; [assumption|]. split; [reflexivity|]. split; [assumption|].
    rewrite (ordinal_small _ Hne). lia.
Qed.

Lemma workerInit_Inv genesisBlock db :
  wfStart genesisBlock db → Inv (workerInit genesisBlock db).
Proof.
  intros Hwf.
  destruct (workerInit_rounds _ _ Hwf) as (Hu & Hc & Ha & _ & Huc).
  constructor.
  - constructor; rewrite ?Ha; try assumption; simpl.
    + lia.
    + lia.
    + intros t Ht. inversion Ht.
    + intros p Hp. inversion Hp.
    + constructor.
  - intros k s Hk. simpl in Hk. rewrite lookup_empty in Hk. discriminate.
  - constructor; simpl.
    + intros r m Hin. inversion Hin.
    + constructor.
    + intros d Hd. inversion Hd.
    + intros t Ht. inversion Ht.
  - constructor; simpl.
    + intros i x y Hx. destruct i; discriminate.
    + discriminate.
    + intros i j x y _ Hx. destruct i; discriminate.
    + intros x Hx. inversion Hx.
    + intros i x y Hx. destruct i; discriminate.
    + discriminate.
Qed.

Lemma reachableFrom_Inv w0 w :
  Inv w0 → reachableFrom wfLabel w0 w → Inv w.
Proof.
  intros H0 Hr. induction Hr as [|w l w' Hr IH Hl Hs]; [assumption|].
  eapply iter_Inv; eauto.
Qed.

Lemma Reachable_Inv w : Reachable w → Inv w.
Proof.
  intros (g & db & Hwf & Hr).
  eapply reachableFrom_Inv; [|exact Hr]. now apply workerInit_Inv.
Qed.

(** A run of labels that the model accepts is a path of reachable
    states. *)
Lemma reachableFrom_run (P : Label → Prop) ls w0 w w' :
  reachableFrom P w0 w → Forall P ls → run ls w = Ok w' → reachableFrom P w0 w'.
Proof.
  revert w. induction ls as [|l ls IH]; intros w Hr Hall Hs; simpl in Hs.
  - inv_ok. assumption.
  - inv_ok. apply Forall_cons in Hall as [Hl Hall].
    eapply IH; [|exact Hall|exact Hs]. eapply reach_step; eauto.
Qed.

Lemma fromOk_run {A} (d : A) (r : Result A) : isOk r = true → r = Ok (fromOk d r).
Proof. destruct r; simpl; congruence. Qed.

(** ** Outstanding and awaiting retry stay apart *)

Lemma disjointMasks_insert w i e :
  disjointMasks w → Z.land (outstanding e) (awaitingRetry e) = 0 →
  disjointMasks (setSyncingRounds (<[i := e]> (syncingRounds w)) w).
Proof.
  intros Hd He r e'. simpl. rewrite lookup_insert.
  destruct (decide (i = r)); simpl; [intros [= <-]; assumption|apply Hd].
Qed.

Lemma disjointMasks_eq w w' :
  syncingRounds w' = syncingRounds w → disjointMasks w → disjointMasks w'.
Proof. intros Hs Hd r e. rewrite Hs. apply Hd. Qed.

Lemma scheduleSubtree_disjoint i m t w :
  disjointMasks w → disjointMasks (scheduleSubtree i m t w).
Proof.
  intros Hd. unfold scheduleSubtree.
  destruct (syncingRounds w !! i) as [e|] eqn:He; [|assumption].
  destruct (needsFetch e m); [|assumption].
  eapply disjointMasks_eq;
    [|apply (disjointMasks_insert w i (markOutstanding e m) Hd)]; [reflexivity|].
  simpl. apply mask_move_disjoint'. now apply (Hd i).
Qed.

Lemma scheduleRound_disjoint i w w' :
  scheduleRound i w = Ok w' → disjointMasks w → disjointMasks w'.
Proof.
  unfold scheduleRound. intros Hs Hd.
  destruct (match syncingRounds w !! i with Some _ => _ | None => _ end);
    inv_ok; [assumption|].
  apply scheduleSubtree_disjoint, scheduleSubtree_disjoint.
  destruct (syncingRounds w !! i).
  - eapply disjointMasks_eq; [|exact Hd]. reflexivity.
  - eapply disjointMasks_eq;
      [|apply (disjointMasks_insert w i
                 {| outstanding := maskNone; awaitingRetry := maskAll |} Hd)];
      reflexivity.
Qed.

Lemma scheduleLoop_disjoint fuel i R w w' :
  scheduleLoop fuel i R w = Ok w' → disjointMasks w → disjointMasks w'.
Proof.
  revert i w. induction fuel as [|fuel IH]; intros i w; simpl.
  - destruct (i <=? R); intros Hs; inv_ok. auto.
  - destruct (i <=? R); intros Hs Hd; inv_ok; [|auto].
    eapply IH; eauto. eapply scheduleRound_disjoint; eauto.
Qed.

Lemma handleNewBlock_disjoint blk getBlock w w' :
  handleNewBlock blk getBlock w = Ok w' → disjointMasks w → disjointMasks w'.
Proof.
  unfold handleNewBlock. intros Hs Hd. inv_ok.
  eapply scheduleLoop_disjoint; [exact Hs|].
  destruct (catchUp_frame _ _ _ _ _ _ Hstep) as (Hsy & _).
  eapply disjointMasks_eq; [|exact Hd].
  unfold cacheIncoming. destruct (hashCache a !! _); simpl; rewrite Hsy;
    unfold installDummy; destruct (negb _ && _); reflexivity.
Qed.

Lemma applyStep_disjoint res w w' :
  applyStep res w = Ok w' → disjointMasks w → disjointMasks w'.
Proof.
  intros Hs Hd.
  destruct (applyStep_spec _ _ _ Hs)
    as (d & q & e & evs & Hpop & He & Hu & Hc & Hq & Hfe & Hfi & Hrun & Htr
        & Hpr & Hac & Hfr & Hgb & Hsub & Hcase).
  cbv zeta in Hcase. intros r e'.
  destruct (_ && _) in Hcase.
  - destruct Hcase as (-> & _). intros Hl.
    apply lookup_delete_Some in Hl as [_ Hl]. now apply (Hd r).
  - destruct Hcase as (-> & _). rewrite lookup_insert.
    destruct (decide (round d = r)); simpl; [|apply Hd].
    intros [= <-]. simpl. apply maskClear_sub. now apply (Hd (round d)).
Qed.

Lemma handleDiff_disjoint k st w w' :
  handleDiff k st w = Ok w' → disjointMasks w → disjointMasks w'.
Proof.
  intros Hs Hd.
  destruct (handleDiff_spec _ _ _ _ Hs) as (t & prev & Hk & Hprev & Hi).
  apply handleItem_spec in Hi. destruct (err _) as [failure|].
  - destruct Hi as (e & He & ->). simpl in He.
    apply (disjointMasks_insert
             (emit [EvLog LogError "error calling getdiff"]
                (emit _ (setFetching (delete k (fetching w)) w)))).
    + exact Hd.
    + simpl. apply mask_move_disjoint. now apply (Hd _ _ He).
  - destruct Hi as (q & _ & ->). exact Hd.
Qed.

Lemma iter_disjoint l w w' : iter l w = Ok w' → disjointMasks w → disjointMasks w'.
Proof.
  intros Hs Hd.
  destruct (iter_cases _ _ _ Hs)
    as [(k & res & -> & H)
       |(Hrun & [(res & -> & Hg & H)
                |[(-> & Hg & Hg' & H)
                 |(Hg & Hg' & [(p & res & -> & H)
                              |[(blk & gb & -> & H)
                               |[(k & st & -> & H)
                                |[(k & dbErr & -> & H)
                                 |(-> & ->)]]]])]])].
  - destruct (runFinalize_spec _ _ _ _ H) as (s & _ & ->). exact Hd.
  - eapply applyStep_disjoint; eauto.
  - destruct (spawnStep_spec _ _ H) as (s & q & _ & ->). exact Hd.
  - unfold handlePruned in H. destruct res; inv_ok; exact Hd.
  - eapply handleNewBlock_disjoint; eauto.
  - eapply handleDiff_disjoint; eauto.
  - eapply disjointMasks_eq; [|exact Hd].
    destruct (handleFinalized_spec _ _ _ _ H)
      as (s & evs & _ & _ & _ & _ & _ & _ & Hsy & _). exact Hsy.
  - exact Hd.
Qed.

(** * The claims *)

(** ** Sample runs are runs of the worker *)

Lemma sampleChain_round i b : sampleChain i = inr b → hRound (bHeader b) = i.
Proof. unfold sampleChain. intros [= <-]. reflexivity. Qed.

Lemma sample_wfLabel r :
  isUint64 r → wfLabel (LNewBlock (sampleBlock r) sampleChain).
Proof. intros Hr. split; [exact Hr|apply sampleChain_round]. Qed.

Lemma sample_wfStart : wfStart (sampleBlock 0) None.
Proof. split; [unfold isUint64; simpl; rewrite MaxUint64_eq; lia|discriminate]. Qed.

Lemma sampleRun_Reachable ls :
  Forall wfLabel ls → isOk (run ls sampleInit) = true → Reachable (sampleRun ls).
Proof.
  intros Hall Hok. exists (sampleBlock 0), None. split; [apply sample_wfStart|].
  eapply reachableFrom_run; [apply reach_init|exact Hall|].
  apply fromOk_run. exact Hok.
Qed.

Ltac sample_labels :=
  cbv [applyRound0 round1First round1Present round0Processed deliveredOnce
       deliveredTwice syncRound app];
  repeat (apply Forall_cons; split;
          [first [exact I
                 | apply sample_wfLabel; unfold isUint64; rewrite MaxUint64_eq; lia]|]);
  apply List.Forall_nil.

Lemma applyRound0_Reachable : Reachable (sampleRun applyRound0).
Proof. apply sampleRun_Reachable; [sample_labels|vm_compute; reflexivity]. Qed.

Lemma round1First_Reachable : Reachable (sampleRun round1First).
Proof. apply sampleRun_Reachable; [sample_labels|vm_compute; reflexivity]. Qed.

Lemma round1Present_Reachable : Reachable (sampleRun round1Present).
Proof. apply sampleRun_Reachable; [sample_labels|vm_compute; reflexivity]. Qed.

Lemma round0Processed_Reachable : Reachable (sampleRun round0Processed).
Proof. apply sampleRun_Reachable; [sample_labels|vm_compute; reflexivity]. Qed.

Lemma deliveredOnce_Reachable : Reachable (sampleRun deliveredOnce).
Proof. apply sampleRun_Reachable; [sample_labels|vm_compute; reflexivity]. Qed.

Lemma deliveredTwice_Reachable : Reachable (sampleRun deliveredTwice).
Proof. apply sampleRun_Reachable; [sample_labels|vm_compute; reflexivity]. Qed.

Lemma nextDuringFinalize_Reachable : Reachable (sampleRun nextDuringFinalize).
Proof. apply sampleRun_Reachable; [sample_labels|vm_compute; reflexivity]. Qed.

(** ** The diff fetcher *)

Lemma consume_spec steps end_ d :
  writeLog (consume steps end_ d) = writeLog d ++ chunksRead steps
  ∧ err (consume steps end_ d)
    = match streamError steps end_ with Some e => Some e | None => err d end.
Proof.
  revert d. induction steps as [|[c|e] steps IH]; intros d; simpl.
  - rewrite app_nil_r. destruct end_; simpl; auto.
  - destruct (IH (setWriteLog (writeLog d ++ [c]) d)) as [Hw He].
    rewrite Hw, He. simpl. rewrite <- app_assoc. auto.
  - rewrite app_nil_r. auto.
Qed.

(** C3: every invocation of the diff fetcher sends exactly one
    FetchedDiff, which carries the invocation's round, roots and mask.
    If the local store has this_root the result has fetched=false and an
    empty write log, and no get_diff call was made; otherwise, if the
    two hashes are equal, it has fetched=true and an empty write log,
    again without a remote call; otherwise get_diff was called once,
    fetched is true, the write log holds the chunks streamed, in order,
    and err is the failure to obtain or to consume the stream, if any:
    the result is sent all the same. *)
Theorem fetchDiff_sends_one_result (st : Storage) (r : Z) (prev this : Root)
    (m : outstandingMask) :
  ∃ d,
    sent (fetchDiff st r prev this m) = [d]
    ∧ round d = r ∧ prevRoot d = prev ∧ thisRoot d = this ∧ fetchMask d = m
    ∧ if HasRoot st this then
        fetched d = false ∧ writeLog d = [] ∧ err d = None
        ∧ remoteCalls (fetchDiff st r prev this m) = []
      else if hashEqual (rHash this) (rHash prev) then
        fetched d = true ∧ writeLog d = [] ∧ err d = None
        ∧ remoteCalls (fetchDiff st r prev this m) = []
      else
        fetched d = true
        ∧ remoteCalls (fetchDiff st r prev this m) = [(prev, this)]
        ∧ match GetDiff st prev this with
          | inl e => err d = Some e ∧ writeLog d = []
          | inr it =>
              writeLog d = chunksRead (itSteps it)
              ∧ err d = streamError (itSteps it) (itEnd it)
          end.
Proof.
  unfold fetchDiff, fetchDiffBody.
  destruct (HasRoot st this); simpl.
  - eexists. repeat split.
  - destruct (hashEqual (rHash this) (rHash prev)); simpl.
    + eexists. repeat split.
    + destruct (GetDiff st prev this) as [e|it]; simpl.
      * eexists. repeat split.
      * eexists. split; [reflexivity|].
        match goal with |- context [consume ?s ?e ?d] =>
          destruct (consume_fields s e d) as (-> & -> & -> & -> & ->);
          destruct (consume_spec s e d) as (-> & ->) end.
        simpl. repeat split. now destruct (streamError _ _).
Qed.

(** A stream consumed to its end without failure gives all its chunks. *)
Lemma chunksRead_all (chunks : list LogEntry) :
  chunksRead (itValue <$> chunks) = chunks
  ∧ streamError (itValue <$> chunks) None = None.
Proof.
  induction chunks as [|c l [IH1 IH2]]; [auto|].
  rewrite fmap_cons. cbn [chunksRead streamError]. now rewrite IH1.
Qed.

(** ** ForceFinalize *)

(** C8: at ROUND_LATEST the code looks up the latest block and calls
    the local store's finalize with the magic round 2^64-1 it was
    given, not with the round of the block it looked up: round 7 in
    the sample runtime. *)
Theorem ForceFinalize_latest_passes_magic_round :
  (∀ (rh : Roothash) (fin : finalizeCall → option error) (b : Block),
     GetLatestBlock rh = inr b →
     ∃ call, ForceFinalize rh fin RoundLatest = (fin call, [call])
       ∧ fRound call = 18446744073709551615
       ∧ fNamespace call = hNamespace (bHeader b)
       ∧ fRoots call = [hIORoot (bHeader b); hStateRoot (bHeader b)])
  ∧ ForceFinalize sampleRoothash (fun _ => None) RoundLatest
    = (None, [{| fNamespace := "ns"%string;
                 fRound := 18446744073709551615;
                 fRoots := ["io7"; "state7"]%string |}])
  ∧ GetLatestBlock sampleRoothash = inr (sampleBlock 7)
  ∧ hRound (bHeader (sampleBlock 7)) = 7.
Proof.
  split.
  - intros rh fin b Hb. unfold ForceFinalize.
    rewrite Z.eqb_refl, Hb. eexists. split; [reflexivity|].
    split; [reflexivity|]. split; reflexivity.
  - split; [reflexivity|]. split; reflexivity.
Qed.

(** What [ForceFinalize] does do: the lookup by the round given, the
    early return on a failed lookup, and a single finalize with the
    hashes of the block found, for the round given. *)
Lemma ForceFinalize_spec (rh : Roothash) (fin : finalizeCall → option error) (r : Z) :
  ForceFinalize rh fin r
  = match (if r =? RoundLatest then GetLatestBlock rh else GetBlock rh r) with
    | inl e => (Some e, [])
    | inr block =>
        let call := {| fNamespace := hNamespace (bHeader block);
                       fRound := r;
                       fRoots := [hIORoot (bHeader block);
                                  hStateRoot (bHeader block)] |} in
        (fin call, [call])
    end.
Proof. reflexivity. Qed.

(** ** Applies: round order *)

(** Only the first branch of the loop takes a diff off the queue or
    calls Apply. *)
Lemma iter_no_pop l w w' :
  iter l w = Ok w' → (∀ res, l ≠ LApply res) →
  (∀ d, d ∈ outOfOrderDiffs w → d ∈ outOfOrderDiffs w')
  ∧ popRounds (trace w') = popRounds (trace w)
  ∧ applyCalls (trace w') = applyCalls (trace w).
Proof.
  intros Hs Hl.
  destruct (iter_cases _ _ _ Hs)
    as [(k & res & -> & H)
       |(Hrun & [(res & -> & Hg & H)
                |[(-> & Hg & Hg' & H)
                 |(Hg & Hg' & [(p & res & -> & H)
                              |[(blk & gb & -> & H)
                               |[(k & st & -> & H)
                                |[(k & dbErr & -> & H)
                                 |(-> & ->)]]]])]])].
  - destruct (runFinalize_spec _ _ _ _ H) as (s & _ & ->). simpl.
    rewrite popRounds_app, applyCalls_app. simpl. rewrite !app_nil_r. auto.
  - now destruct (Hl res).
  - destruct (spawnStep_spec _ _ H) as (s & q & _ & ->). simpl.
    rewrite popRounds_app, applyCalls_app. simpl. rewrite !app_nil_r. auto.
  - destruct (handlePruned_quiet _ _ _ _ H) as [_ _ _ Hd _ _ _ Hp Ha _].
    rewrite Hd. auto.
  - destruct (handleNewBlock_quiet _ _ _ _ H) as [_ _ _ Hd _ _ _ Hp Ha _].
    rewrite Hd. auto.
  - destruct (handleDiff_frame _ _ _ _ H)
      as (_ & _ & _ & _ & _ & _ & _ & _ & Hp & Ha & _).
    split; [|auto].
    destruct (handleDiff_spec _ _ _ _ H) as (t & prev & _ & _ & Hi).
    apply handleItem_spec in Hi. destruct (err _) as [failure|].
    + destruct Hi as (e & _ & ->). auto.
    + destruct Hi as (q & Hq & ->). simpl in *.
      apply heapPush_Permutation in Hq. intros d Hd. rewrite Hq. now right.
  - destruct (handleFinalized_spec _ _ _ _ H)
      as (s & evs & _ & _ & _ & _ & Hd & _ & _ & _ & _ & _ & _ & -> & Hp & Ha & _).
    rewrite Hd, popRounds_app, applyCalls_app, Hp, Ha, !app_nil_r. auto.
  - auto.
Qed.

(** C1 (as amended): in every reachable state a diff leaves the diffs
    queue only in the first branch of the loop, it is the diff at the
    head and its round is last_fully_applied_round + 1 (modulo 2^64);
    Apply is called for it when it was fetched, with that round as
    destination. Consequently the rounds of successive pops never go
    back and never skip a round, and the rounds of successive Apply
    calls never decrease. *)
Theorem diffs_popped_in_round_order (w : World) :
  Reachable w →
  (∀ res w', iter (LApply res) w = Ok w' →
     ∃ d, outOfOrderDiffs w !! 0%nat = Some d
       ∧ outOfOrderDiffs w ≡ₚ d :: outOfOrderDiffs w'
       ∧ round d = add64 (lastFullyAppliedRound w) 1
       ∧ aDstRound (applyArgs d) = round d
       ∧ popRounds (trace w') = popRounds (trace w) ++ [round d]
       ∧ applyCalls (trace w')
         = applyCalls (trace w) ++ (if fetched d then [(applyArgs d, res)] else []))
  ∧ (∀ l w', iter l w = Ok w' → (∀ res, l ≠ LApply res) →
       (∀ d, d ∈ outOfOrderDiffs w → d ∈ outOfOrderDiffs w')
       ∧ popRounds (trace w') = popRounds (trace w)
       ∧ applyCalls (trace w') = applyCalls (trace w))
  ∧ gapless (popRounds (trace w))
  ∧ nondecreasing (applyRounds (trace w)).
Proof.
  intros Hr. pose proof (Reachable_Inv _ Hr) as HI.
  split; [|split; [|split]].
  - intros res w' Hs.
    destruct (iter_cases _ _ _ Hs)
      as [(k & res' & [=] & _)
         |(Hrun & [(res' & [= <-] & Hg & H)
                  |[([=] & _)
                   |(_ & _ & [(? & ? & [=] & _)
                             |[(? & ? & [=] & _)
                              |[(? & ? & [=] & _)
                               |[(? & ? & [=] & _)
                                |([=] & _)]]]])]])].
    destruct (applyStep_spec _ _ _ H)
      as (d & q & e & evs & Hpop & He & Hu & Hc & Hq & Hfe & Hfi & Hrun'
          & Htr & Hpr & Hac & Hfr & Hgb & Hsub & Hcase).
    destruct (popped_facts _ _ _ HI Hg Hpop)
      as (Hrd & Hb & Hm & Hne & Hco & _ & Hperm & _).
    exists d. rewrite Hq, Htr, popRounds_app, applyCalls_app, Hpr, Hac.
    repeat split; try assumption.
    + apply (heapPop_spec _ _ _ Hpop).
    + rewrite add64_1; [assumption|]. apply HI.
  - intros l w' Hs Hl. exact (iter_no_pop l w w' Hs Hl).
  - apply HI.
  - apply HI.
Qed.

Lemma diffs_popped_in_round_order_witness :
  gapless (popRounds (trace (sampleRun round1Present)))
  ∧ nondecreasing (applyRounds (trace (sampleRun round1Present))).
Proof.
  apply (diffs_popped_in_round_order (sampleRun round1Present)
           round1Present_Reachable).
Defined.

(** C1 as stated fails: Apply calls are not in strictly increasing round
    order (both subtrees of round 0 are applied), and they may skip a
    round (no subtree of round 1 needs an Apply when its roots are in
    the store already). *)
Lemma apply_rounds_repeat_and_skip :
  (Reachable (sampleRun applyRound0)
   ∧ applyRounds (trace (sampleRun applyRound0)) = [0; 0]
   ∧ ¬ strictlyIncreasing (applyRounds (trace (sampleRun applyRound0))))
  ∧ (Reachable (sampleRun round1Present)
     ∧ applyRounds (trace (sampleRun round1Present)) = [0; 0; 2; 2]
     ∧ popRounds (trace (sampleRun round1Present)) = [0; 0; 1; 1; 2; 2]).
Proof.
  split; [split; [apply applyRound0_Reachable|split]
         |split; [apply round1Present_Reachable|split]];
    try (vm_compute; reflexivity).
  intros Hinc.
  assert (Heq : applyRounds (trace (sampleRun applyRound0)) = [0; 0])
    by (vm_compute; reflexivity).
  rewrite Heq in Hinc. specialize (Hinc 0%nat 0 0 eq_refl eq_refl). lia.
Qed.

(** ** Finalizes: one at a time *)

(** Only the second branch of the loop takes a summary off the applieds
    queue or spawns a [finalize]. *)
Lemma iter_no_spawn l w w' :
  iter l w = Ok w' → l ≠ LSpawnFinalize →
  (∀ p, p ∈ outOfOrderApplieds w → p ∈ outOfOrderApplieds w')
  ∧ (length (finalizing w') <= length (finalizing w))%nat.
Proof.
  intros Hs Hl.
  destruct (iter_cases _ _ _ Hs)
    as [(k & res & -> & H)
       |(Hrun & [(res & -> & Hg & H)
                |[(-> & Hg & Hg' & H)
                 |(Hg & Hg' & [(p & res & -> & H)
                              |[(blk & gb & -> & H)
                               |[(k & st & -> & H)
                                |[(k & dbErr & -> & H)
                                 |(-> & ->)]]]])]])].
  - destruct (runFinalize_spec _ _ _ _ H) as (s & _ & ->). simpl.
    rewrite length_insert. auto.
  - destruct (applyStep_spec _ _ _ H)
      as (d & q & e & evs & Hpop & He & Hu & Hc & Hq & Hfe & Hfi & Hrun'
          & Htr & Hpr & Hac & Hfr & Hgb & Hsub & Hcase).
    rewrite Hfi. split; [|lia]. cbv zeta in Hcase.
    destruct (_ && _) in Hcase.
    + destruct Hcase as (_ & _ & _ & Hpush).
      apply heapPush_Permutation in Hpush. intros p Hp. rewrite Hpush. now right.
    + destruct Hcase as (_ & _ & _ & ->). auto.
  - congruence.
  - destruct (handlePruned_quiet _ _ _ _ H) as [_ _ _ _ Ha Hf _ _ _ _].
    rewrite Ha, Hf. auto.
  - destruct (handleNewBlock_quiet _ _ _ _ H) as [_ _ _ _ Ha Hf _ _ _ _].
    rewrite Ha, Hf. auto.
  - destruct (handleDiff_frame _ _ _ _ H)
      as (_ & _ & _ & Ha & _ & Hf & _). rewrite Ha, Hf. auto.
  - destruct (handleFinalized_spec _ _ _ _ H)
      as (s & evs & Hk & _ & _ & _ & _ & Ha & _ & _ & _ & Hf & _).
    rewrite Ha, Hf. split; [auto|]. rewrite length_delete by eauto. lia.
  - auto.
Qed.

(** The last finalized round changes only when a completion is
    received. *)
Lemma iter_cachedLastRound l w w' :
  iter l w = Ok w' → cachedLastRound w' ≠ cachedLastRound w →
  ∃ k dbErr, l = LFinalized k dbErr ∧ handleFinalized k dbErr w = Ok w'.
Proof.
  intros Hs Hne.
  destruct (iter_cases _ _ _ Hs)
    as [(k & res & -> & H)
       |(Hrun & [(res & -> & Hg & H)
                |[(-> & Hg & Hg' & H)
                 |(Hg & Hg' & [(p & res & -> & H)
                              |[(blk & gb & -> & H)
                               |[(k & st & -> & H)
                                |[(k & dbErr & -> & H)
                                 |(-> & ->)]]]])]])].
  - destruct (runFinalize_spec _ _ _ _ H) as (s & _ & ->). now destruct Hne.
  - destruct (applyStep_spec _ _ _ H) as (d & q & e & evs & _ & _ & _ & Hc & _).
    contradiction.
  - destruct (spawnStep_spec _ _ H) as (s & q & _ & ->). now destruct Hne.
  - destruct (handlePruned_quiet _ _ _ _ H). contradiction.
  - destruct (handleNewBlock_quiet _ _ _ _ H). contradiction.
  - destruct (handleDiff_frame _ _ _ _ H) as (_ & Hc & _). contradiction.
  - eauto.
  - now destruct Hne.
Qed.

(** C2: in every reachable state at most one finalize task is in
    flight, and it is for round cached_last_round + 1. A summary is
    popped from the applieds queue and its finalize spawned only in the
    second branch of the loop, when no finalize is in flight and the
    summary's round is cached_last_round + 1; the task calls the local
    store's finalize for that round; cached_last_round changes only when
    the loop receives the completion of the task in flight, and becomes
    its round. The rounds of successive finalize calls are consecutive. *)
Theorem one_finalize_in_flight (w : World) :
  Reachable w →
  (length (finalizing w) <= 1)%nat
  ∧ (∀ t, t ∈ finalizing w → sRound (ftSummary t) = add64 (cachedLastRound w) 1)
  ∧ (∀ w', iter LSpawnFinalize w = Ok w' →
       finalizing w = []
       ∧ ∃ s, outOfOrderApplieds w !! 0%nat = Some (Some s)
           ∧ outOfOrderApplieds w ≡ₚ Some s :: outOfOrderApplieds w'
           ∧ sRound s = add64 (cachedLastRound w) 1
           ∧ finalizing w' = [mkFinalizeTask s false]
           ∧ cachedLastRound w' = cachedLastRound w)
  ∧ (∀ l w', iter l w = Ok w' → l ≠ LSpawnFinalize →
       (∀ p, p ∈ outOfOrderApplieds w → p ∈ outOfOrderApplieds w')
       ∧ (length (finalizing w') <= length (finalizing w))%nat)
  ∧ (∀ k res w', iter (LRunFinalize k res) w = Ok w' →
       ∃ s, finalizing w = [mkFinalizeTask s false]
         ∧ finalizing w' = [mkFinalizeTask s true]
         ∧ trace w' = trace w ++ [EvFinalize (finalizeArgs s) res;
                                  EvLog (finalizeLog res) "finalize"]
         ∧ fRound (finalizeArgs s) = add64 (cachedLastRound w) 1)
  ∧ (∀ l w', iter l w = Ok w' → cachedLastRound w' ≠ cachedLastRound w →
       ∃ k dbErr s, l = LFinalized k dbErr
         ∧ finalizing w = [mkFinalizeTask s true]
         ∧ finalizing w' = []
         ∧ cachedLastRound w' = sRound s
         ∧ sRound s = add64 (cachedLastRound w) 1)
  ∧ consecutive (finalizeRounds (trace w)).
Proof.
  intros Hr. pose proof (Reachable_Inv _ Hr) as HI.
  pose proof (inv_rounds _ HI) as HR.
  assert (Hfin : ∀ t, t ∈ finalizing w →
            sRound (ftSummary t) = add64 (cachedLastRound w) 1).
  { intros t Ht. rewrite add64_1 by apply HR. now apply (inv_fin _ HR). }
  split; [apply HR|]. split; [exact Hfin|].
  split; [|split; [|split; [|split]]].
  - intros w' Hs.
    destruct (iter_cases _ _ _ Hs)
      as [(k & res' & [=] & _)
         |(Hrun & [(res' & [=] & _)
                  |[(_ & Hg & Hg' & H)
                   |(_ & _ & [(? & ? & [=] & _)
                             |[(? & ? & [=] & _)
                              |[(? & ? & [=] & _)
                               |[(? & ? & [=] & _)
                                |([=] & _)]]]])]])].
    destruct (spawnStep_spec _ _ H) as (s & q & Hpop & ->).
    destruct (spawn_facts _ _ _ HI Hg' Hpop) as (Hrd & Hf & Hperm & _).
    split; [exact Hf|]. exists s. simpl. rewrite Hf.
    repeat split; try assumption.
    + apply (heapPop_spec _ _ _ Hpop).
    + rewrite add64_1; [assumption|]. apply HR.
  - intros l w' Hs Hl. exact (iter_no_spawn l w w' Hs Hl).
  - intros k res w' Hs. simpl in Hs.
    destruct (runFinalize_spec _ _ _ _ Hs) as (s & Hk & ->).
    destruct (finalizing_single _ _ _ HR Hk) as [-> Hf].
    exists s. simpl. rewrite Hf. repeat split.
    apply (Hfin (mkFinalizeTask s false)). rewrite Hf. left.
  - intros l w' Hs Hne.
    destruct (iter_cachedLastRound _ _ _ Hs Hne) as (k & dbErr & -> & H).
    destruct (handleFinalized_spec _ _ _ _ H)
      as (s & evs & Hk & _ & Hc & _ & _ & _ & _ & _ & _ & Hf & _).
    destruct (finalizing_single _ _ _ HR Hk) as [-> Hf0].
    exists 0%nat, dbErr, s. rewrite Hf, Hf0, Hc. repeat split.
    apply (Hfin (mkFinalizeTask s true)). rewrite Hf0. left.
  - apply HI.
Qed.

Lemma one_finalize_in_flight_witness :
  (length (finalizing (sampleRun round0Processed)) <= 1)%nat.
Proof.
  apply (one_finalize_in_flight (sampleRun round0Processed)
           round0Processed_Reachable).
Defined.

(** ** Entries of the queues *)

Lemma filter_key_le1 {A K} `{EqDecision K} (f : A → K) (l : list A) (y : K) :
  NoDup (f <$> l) → (length (filter (λ x, f x = y) l) <= 1)%nat.
Proof.
  induction l as [|x l IH]; [simpl; lia|].
  rewrite fmap_cons. intros Hnd. apply NoDup_cons in Hnd as [Hx Hnd].
  rewrite filter_cons. destruct (decide (f x = y)) as [Hy|Hy]; [|auto].
  simpl. destruct (filter (λ x0, f x0 = y) l) as [|z l'] eqn:Hf; [simpl; lia|].
  exfalso. apply Hx.
  assert (Hz : z ∈ filter (λ x0, f x0 = y) l) by (rewrite Hf; left).
  apply list_elem_of_filter in Hz as [Hz1 Hz2].
  rewrite Hy, <- Hz1. now apply list_elem_of_fmap_2.
Qed.

Lemma filter_round_split (l : list fetchedDiff) (r : Z) :
  (∀ d, d ∈ l → fetchMask d = maskIO ∨ fetchMask d = maskState) →
  (length (filter (λ d, round d = r) l)
   <= length (filter (λ d, diffKey d = (r, maskIO)) l)
      + length (filter (λ d, diffKey d = (r, maskState)) l))%nat.
Proof.
  induction l as [|d l IH]; intros Hm; [simpl; lia|].
  assert (IH' := IH (λ d' Hd', Hm d' (list_elem_of_further _ _ _ Hd'))).
  rewrite !filter_cons.
  destruct (decide (round d = r)) as [Hr|Hr];
    destruct (decide (diffKey d = (r, maskIO))) as [H1|H1];
    destruct (decide (diffKey d = (r, maskState))) as [H2|H2];
    simpl; try lia.
  exfalso. unfold diffKey in *.
  destruct (Hm d ltac:(left)) as [E|E]; rewrite E, Hr in *; congruence.
Qed.

(** C7 (as amended): in every reachable state the applieds queue holds
    no nil entry and at most one entry for any round, and the diffs
    queue holds at most one entry for any round and subtree, each entry
    being for the IO or the state subtree: at most two for a round. *)
Theorem queue_entries_per_round (w : World) :
  Reachable w →
  Forall is_Some (outOfOrderApplieds w)
  ∧ NoDup (appliedRound <$> outOfOrderApplieds w)
  ∧ (∀ r, (length (filter (λ p, appliedRound p = r) (outOfOrderApplieds w)) <= 1)%nat)
  ∧ NoDup (diffKey <$> outOfOrderDiffs w)
  ∧ (∀ d, d ∈ outOfOrderDiffs w → fetchMask d = maskIO ∨ fetchMask d = maskState)
  ∧ (∀ r m, (length (filter (λ d, diffKey d = (r, m)) (outOfOrderDiffs w)) <= 1)%nat)
  ∧ (∀ r, (length (filter (λ d, round d = r) (outOfOrderDiffs w)) <= 2)%nat).
Proof.
  intros Hr. destruct (Reachable_Inv _ Hr) as [HR HH HP HT].
  assert (Hnd : NoDup (diffKey <$> outOfOrderDiffs w)).
  { pose proof (inv_pending_nodup _ HP) as H. unfold pending in H.
    now apply NoDup_app in H as [H _]. }
  assert (Hm : ∀ d, d ∈ outOfOrderDiffs w →
            fetchMask d = maskIO ∨ fetchMask d = maskState).
  { intros d Hd. apply (inv_pending _ HP (round d)). now apply pending_diff. }
  repeat split.
  - apply Forall_forall. intros p Hp. now apply (inv_applieds _ HR).
  - apply HR.
  - intros r. apply filter_key_le1, HR.
  - exact Hnd.
  - exact Hm.
  - intros r m. now apply filter_key_le1.
  - intros r. pose proof (filter_round_split _ r Hm).
    pose proof (filter_key_le1 diffKey _ (r, maskIO) Hnd).
    pose proof (filter_key_le1 diffKey _ (r, maskState) Hnd). lia.
Qed.

Lemma queue_entries_per_round_witness :
  Forall is_Some (outOfOrderApplieds (sampleRun round1Present))
  ∧ NoDup (appliedRound <$> outOfOrderApplieds (sampleRun round1Present)).
Proof.
  destruct (queue_entries_per_round (sampleRun round1Present)
              round1Present_Reachable) as (H1 & H2 & _).
  exact (conj H1 H2).
Defined.

(** C7 as stated fails for the diffs queue: when the two fetches of
    round 1 are delivered before those of round 0, the queue holds two
    entries for round 1. *)
Lemma two_diffs_of_one_round :
  Reachable (sampleRun round1First)
  ∧ round <$> outOfOrderDiffs (sampleRun round1First) = [1; 1]
  ∧ fetchMask <$> outOfOrderDiffs (sampleRun round1First) = [maskIO; maskState]
  ∧ ¬ NoDup (round <$> outOfOrderDiffs (sampleRun round1First)).
Proof.
  split; [apply round1First_Reachable|].
  assert (Heq : round <$> outOfOrderDiffs (sampleRun round1First) = [1; 1])
    by (vm_compute; reflexivity).
  split; [exact Heq|]. split; [vm_compute; reflexivity|].
  rewrite Heq. intros Hnd. apply NoDup_cons in Hnd as [Hin _].
  apply Hin. left.
Qed.

(** ** A failed apply does not hold the round back *)

(** What [Apply] answers shows in the trace only. *)
Lemma applyStep_result_independent res res' w w' :
  applyStep res w = Ok w' →
  ∃ w'', applyStep res' w = Ok w'' ∧ setTrace [] w'' = setTrace [] w'.
Proof.
  unfold applyStep.
  destruct (heapPop (outOfOrderDiffs w)) as [[d q]| | |]; simpl; try discriminate.
  destruct (syncingRounds w !! round d) as [e|] eqn:He.
  2:{ destruct (fetched d); [destruct res|]; simpl; rewrite He; discriminate. }
  destruct (fetched d); [destruct res, res'|]; simpl; rewrite ?He; simpl;
    (destruct (_ && _); simpl;
     [destruct (heapPush _ _); simpl; try discriminate|]);
    intros [= <-]; eexists; split; reflexivity.
Qed.

Lemma applyStep_Ok res w :
  Inv w → guardDiffs w = Ok true → ∃ w', applyStep res w = Ok w'.
Proof.
  intros HI Hg.
  destruct (guardDiffs_head _ Hg) as [d0 [Hd0 _]].
  destruct (heapPop_Ok (outOfOrderDiffs w)) as (d & q & Hpop).
  { intros x _. eexists. reflexivity. }
  { intros Hnil. rewrite Hnil in Hd0. discriminate. }
  destruct (popped_facts _ _ _ HI Hg Hpop)
    as (Hr & Hb & Hm & Hne & Hco & [s [Hs1 Hs2]] & Hperm & [e [He Hbit]]).
  destruct (heapPush_Ok (outOfOrderApplieds w) (Some s)) as [q' Hq'].
  { intros p Hp. apply elem_of_cons in Hp as [->|Hp].
    - eexists. reflexivity.
    - destruct (inv_applieds _ (inv_rounds _ HI) p Hp) as [[s' ->] _].
      eexists. reflexivity. }
  unfold applyStep. rewrite Hpop. simpl.
  destruct (fetched d); [destruct res|]; simpl; rewrite He; simpl;
    (destruct (_ && _); simpl; [rewrite Hs1, Hq'; simpl|]); eauto.
Qed.

(** C4: in every reachable state in which the loop pops a diff, the
    step returns whatever the local store's apply answers: apply is
    called exactly once when the diff was fetched (and not at all
    otherwise), the diff leaves the queue and no fetch is submitted for
    it again, and the state reached does not depend on the answer. The
    diff's mask is cleared from outstanding; when outstanding and
    awaiting_retry are then both empty the entry of the round is deleted,
    hash_cache[r-1] is dropped, last_fully_applied_round becomes r and
    the round's summary is pushed onto the applieds queue; otherwise the
    entry is kept with the mask cleared. *)
Theorem apply_error_does_not_block (w : World) (res : option error) :
  Reachable w → guardDiffs w = Ok true →
  ∃ d e w',
    outOfOrderDiffs w !! 0%nat = Some d
    ∧ syncingRounds w !! round d = Some e
    ∧ applyStep res w = Ok w'
    ∧ applyCalls (trace w')
      = applyCalls (trace w) ++ (if fetched d then [(applyArgs d, res)] else [])
    ∧ outOfOrderDiffs w ≡ₚ d :: outOfOrderDiffs w'
    ∧ fetching w' = fetching w
    ∧ submitted (trace w') = submitted (trace w)
    ∧ (∀ res', ∃ w'', applyStep res' w = Ok w'' ∧ setTrace [] w'' = setTrace [] w')
    ∧ let e' := {| outstanding := maskClear (outstanding e) (fetchMask d);
                   awaitingRetry := awaitingRetry e |} in
      if (outstanding e' =? maskNone) && (awaitingRetry e' =? maskNone) then
        syncingRounds w' = delete (round d) (syncingRounds w)
        ∧ hashCache w' = delete (sub64 (round d) 1) (hashCache w)
        ∧ lastFullyAppliedRound w' = round d
        ∧ ∃ s, hashCache w !! round d = Some s
            ∧ sRound s = round d
            ∧ outOfOrderApplieds w' ≡ₚ Some s :: outOfOrderApplieds w
      else
        syncingRounds w' = <[round d := e']> (syncingRounds w)
        ∧ hashCache w' = hashCache w
        ∧ lastFullyAppliedRound w' = lastFullyAppliedRound w
        ∧ outOfOrderApplieds w' = outOfOrderApplieds w.
Proof.
  intros Hr Hg. pose proof (Reachable_Inv _ Hr) as HI.
  destruct (applyStep_Ok res w HI Hg) as [w' Hs].
  destruct (applyStep_spec _ _ _ Hs)
    as (d & q & e & evs & Hpop & He & Hu & Hc & Hq & Hfe & Hfi & Hrun'
        & Htr & Hpr & Hac & Hfr & Hgb & Hsub & Hcase).
  destruct (popped_facts _ _ _ HI Hg Hpop)
    as (Hrd & Hb & Hm & Hne & Hco & [s [Hs1 Hs2]] & Hperm & _).
  exists d, e, w'.
  rewrite Htr, applyCalls_app, submitted_app, Hac, Hsub, app_nil_r, Hq.
  split; [apply (heapPop_spec _ _ _ Hpop)|].
  do 6 (split; [assumption || reflexivity|]).
  split; [intros res'; eapply applyStep_result_independent; eauto|].
  cbv zeta in *. destruct (_ && _).
  - destruct Hcase as (? & ? & ? & Hpush). repeat split; try assumption.
    exists s. repeat split; try assumption.
    rewrite Hs1 in Hpush. now apply heapPush_Permutation in Hpush.
  - exact Hcase.
Qed.

Lemma apply_error_does_not_block_witness :
  ∃ d e w',
    outOfOrderDiffs (sampleRun (round1First ++ [LDiff 0 missingStore])) !! 0%nat = Some d
    ∧ syncingRounds (sampleRun (round1First ++ [LDiff 0 missingStore])) !! round d = Some e
    ∧ applyStep (Some "disk fault"%string)
        (sampleRun (round1First ++ [LDiff 0 missingStore])) = Ok w'.
Proof.
  destruct (apply_error_does_not_block
              (sampleRun (round1First ++ [LDiff 0 missingStore]))
              (Some "disk fault"%string))
    as (d & e & w' & H1 & H2 & H3 & _).
  - apply sampleRun_Reachable; [sample_labels|vm_compute; reflexivity].
  - vm_compute. reflexivity.
  - exists d, e, w'. auto.
Defined.

(** ** The catch-up loop *)

(** The loop returns or panics within the fuel it is given. *)
Lemma catchUp_returns getBlock fuel i R w :
  isUint64 R → 0 <= i → R - i <= Z.of_nat fuel →
  catchUp getBlock fuel i R w ≠ Diverges.
Proof.
  intros HR. revert i w. induction fuel as [|fuel IH]; intros i w Hi Hf; simpl.
  - destruct (Z.ltb_spec i R); [lia|discriminate].
  - destruct (Z.ltb_spec i R); [|discriminate].
    assert (Hi1 : add64 i 1 = i + 1).
    { rewrite add64_1, ordinal_small by (unfold isUint64 in *; lia). lia. }
    destruct (hashCache w !! i); simpl.
    + rewrite Hi1. apply IH; lia.
    + destruct (getBlock i); simpl; [discriminate|].
      rewrite Hi1. apply IH; lia.
Qed.

(** It looks up rounds from [i] to [R - 1] that are not cached, in
    order, and caches every round in between. *)
Lemma catchUp_lookups getBlock fuel i R w w' :
  isUint64 R → 0 <= i →
  catchUp getBlock fuel i R w = Ok w' →
  (∃ new, getBlockRounds (trace w') = getBlockRounds (trace w) ++ new
          ∧ ∀ j, j ∈ new → i <= j < R ∧ hashCache w !! j = None)
  ∧ (∀ k, i <= k < R → is_Some (hashCache w' !! k))
  ∧ (∀ k, ¬ (i <= k < R) → hashCache w' !! k = hashCache w !! k).
Proof.
  intros HR. revert i w. induction fuel as [|fuel IH]; intros i w Hi; simpl.
  - destruct (Z.ltb_spec i R); intros Hs; inv_ok.
    split; [exists []; rewrite app_nil_r; split; [reflexivity|]|split].
    + intros j Hj. inversion Hj.
    + intros k Hk. lia.
    + reflexivity.
  - destruct (Z.ltb_spec i R); intros Hs; inv_ok.
    2:{ split; [exists []; rewrite app_nil_r; split; [reflexivity|]|split].
        - intros j Hj. inversion Hj.
        - intros k Hk. lia.
        - reflexivity. }
    assert (Hi1 : add64 i 1 = i + 1).
    { rewrite add64_1, ordinal_small by (unfold isUint64 in *; lia). lia. }
    rewrite Hi1 in Hs.
    destruct (IH (i + 1) a ltac:(lia) Hs) as ([new [Hnew Hin]] & Hsome & Hsame).
    destruct (hashCache w !! i) as [s|] eqn:Hci; inv_ok.
    + split; [exists new; split; [assumption|]|split].
      * intros j Hj. destruct (Hin j Hj). split; [lia|assumption].
      * intros k Hk. destruct (decide (k = i)) as [->|Hne].
        -- rewrite Hsame by lia. eauto.
        -- apply Hsome. lia.
      * intros k Hk. apply Hsame. lia.
    + destruct (getBlock i) as [|b]; inv_ok. simpl in *.
      rewrite getBlockRounds_app in Hnew. simpl in Hnew.
      split; [exists (i :: new); split|split].
      * rewrite Hnew, <- app_assoc. reflexivity.
      * intros j Hj. apply elem_of_cons in Hj as [->|Hj]; [split; [lia|assumption]|].
        destruct (Hin j Hj) as [Hb Hn]. split; [lia|].
        rewrite lookup_insert_ne in Hn by lia. exact Hn.
      * intros k Hk. destruct (decide (k = i)) as [->|Hne].
        -- rewrite Hsame by lia. rewrite lookup_insert_eq. eauto.
        -- apply Hsome. lia.
      * intros k Hk. rewrite Hsame by lia. apply lookup_insert_ne. lia.
Qed.

Lemma scheduleSubtree_getBlockRounds i m t w :
  getBlockRounds (trace (scheduleSubtree i m t w)) = getBlockRounds (trace w).
Proof.
  unfold scheduleSubtree. destruct (syncingRounds w !! i) as [e|]; [|reflexivity].
  destruct (needsFetch e m); [|reflexivity].
  simpl. rewrite getBlockRounds_app. simpl. now rewrite app_nil_r.
Qed.

Lemma scheduleLoop_getBlockRounds fuel i R w w' :
  scheduleLoop fuel i R w = Ok w' →
  getBlockRounds (trace w') = getBlockRounds (trace w).
Proof.
  revert i w. induction fuel as [|fuel IH]; intros i w; simpl.
  - destruct (i <=? R); intros Hs; inv_ok. reflexivity.
  - destruct (i <=? R); intros Hs; inv_ok; [|reflexivity].
    rewrite (IH _ _ Hs). clear Hs. unfold scheduleRound in Hstep.
    destruct (match syncingRounds w !! i with Some _ => _ | None => _ end);
      inv_ok; [reflexivity|].
    rewrite !scheduleSubtree_getBlockRounds.
    destruct (syncingRounds w !! i); simpl; rewrite getBlockRounds_app; simpl;
      now rewrite app_nil_r.
Qed.

(** C5: on a new-block event the catch-up loop starts at
    cached_last_round, except when that is the worker's undefined-round
    sentinel: then it starts at cached_last_round + 1, which is round 0
    for the all-ones sentinel. From there the loop makes at most
    R - start iterations, none of them wrapping: it returns or panics,
    and the historical blocks the handler looks up are rounds from
    start to R - 1 that were not cached. *)
Theorem catch_up_starts_past_sentinel (w : World) (blk : Block)
    (getBlock : Z → error + Block) :
  isUint64 (cachedLastRound w) → isUint64 (hRound (bHeader blk)) →
  startSummaryRound w
  = (if cachedLastRound w =? undefinedRound w
     then add64 (cachedLastRound w) 1 else cachedLastRound w)
  ∧ (cachedLastRound w = undefinedRound w →
     startSummaryRound w = ordinal (cachedLastRound w) + 1)
  ∧ (cachedLastRound w = undefinedRound w → cachedLastRound w = MaxUint64 →
     startSummaryRound w = 0)
  ∧ (cachedLastRound w ≠ undefinedRound w →
     startSummaryRound w = cachedLastRound w)
  ∧ 0 <= startSummaryRound w <= MaxUint64
  ∧ (∀ w0, catchUp getBlock
             (Z.to_nat (hRound (bHeader blk) - startSummaryRound w))
             (startSummaryRound w) (hRound (bHeader blk)) w0 ≠ Diverges)
  ∧ (∀ w', handleNewBlock blk getBlock w = Ok w' →
       ∃ new, getBlockRounds (trace w') = getBlockRounds (trace w) ++ new
            ∧ ∀ j, j ∈ new →
                startSummaryRound w <= j < hRound (bHeader blk)
                ∧ hashCache w !! j = None).
Proof.
  intros Hc HR.
  assert (Hstart : 0 <= startSummaryRound w <= MaxUint64).
  { unfold startSummaryRound. destruct (_ =? _); [apply add64_isUint64|exact Hc]. }
  repeat split; try apply Hstart.
  - intros Heq. unfold startSummaryRound.
    rewrite (proj2 (Z.eqb_eq _ _) Heq). now apply add64_1.
  - intros Heq Hmax. unfold startSummaryRound.
    rewrite (proj2 (Z.eqb_eq _ _) Heq), Hmax. reflexivity.
  - intros Hne. unfold startSummaryRound.
    now rewrite (proj2 (Z.eqb_neq _ _) Hne).
  - intros w0. apply catchUp_returns; [exact HR|lia|lia].
  - intros w'. unfold handleNewBlock. intros Hs. inv_ok. rename a into w1.
    apply scheduleLoop_getBlockRounds in Hs.
    assert (Hst : startSummaryRound
                    (installDummy blk (emit [EvLog LogDebug "incoming block"] w))
                  = startSummaryRound w).
    { unfold startSummaryRound, installDummy. destruct (negb _ && _); reflexivity. }
    rewrite Hst in Hstep.
    destruct (catchUp_lookups _ _ _ _ _ _ HR (proj1 Hstart) Hstep)
      as ([new [Hnew Hin]] & _).
    exists new. split.
    + rewrite Hs.
      assert (Hci : trace (cacheIncoming blk w1) = trace w1)
        by (unfold cacheIncoming; destruct (hashCache w1 !! _); reflexivity).
      rewrite Hci, Hnew.
      unfold installDummy. destruct (negb _ && _); simpl;
        rewrite getBlockRounds_app; simpl; now rewrite app_nil_r.
    + intros j Hj. destruct (Hin j Hj) as [Hb Hn]. split; [exact Hb|].
      unfold installDummy in Hn. destruct (negb _ && _) eqn:Hd; [|exact Hn].
      simpl in Hn. apply lookup_insert_None in Hn as [Hn _]. exact Hn.
Qed.

Lemma catch_up_starts_past_sentinel_witness :
  startSummaryRound sampleInit = 0
  ∧ cachedLastRound sampleInit = MaxUint64
  ∧ undefinedRound sampleInit = MaxUint64.
Proof.
  destruct (catch_up_starts_past_sentinel sampleInit (sampleBlock 2) sampleChain)
    as (_ & _ & H & _).
  - vm_compute. split; discriminate.
  - vm_compute. split; discriminate.
  - split; [apply H; reflexivity|split; reflexivity].
Defined.

(** ** Outstanding and awaiting retry *)

(** C9: in every state the follower loop reaches, whatever its
    environment does, no subtree bit of an entry of syncing_rounds is
    set in both outstanding and awaiting_retry. *)
Theorem outstanding_and_retry_disjoint (genesisBlock : Block)
    (db : option watcherState) (w : World) :
  reachableFrom anyLabel (workerInit genesisBlock db) w →
  ∀ r e, syncingRounds w !! r = Some e →
    Z.land (outstanding e) (awaitingRetry e) = 0.
Proof.
  intros Hr. change (disjointMasks w).
  induction Hr as [|w l w' Hr IH _ Hs].
  - intros r e He. simpl in He. rewrite lookup_empty in He. discriminate.
  - eapply iter_disjoint; eauto.
Qed.

Lemma anyLabel_all ls : Forall anyLabel ls.
Proof. induction ls; constructor; [exact I|assumption]. Qed.

Lemma outstanding_and_retry_disjoint_witness :
  ∃ e, syncingRounds (sampleRun (round1First ++ [LDiff 0 failingStore])) !! 0
       = Some e
    ∧ awaitingRetry e = maskIO
    ∧ Z.land (outstanding e) (awaitingRetry e) = 0.
Proof.
  eexists. split; [vm_compute; reflexivity|]. split; [reflexivity|].
  apply (outstanding_and_retry_disjoint (sampleBlock 0) None
           (sampleRun (round1First ++ [LDiff 0 failingStore]))) with (r := 0).
  - eapply reachableFrom_run; [apply reach_init|apply anyLabel_all|].
    apply fromOk_run. vm_compute. reflexivity.
  - vm_compute. reflexivity.
Defined.

(** ** Start-up *)

Lemma scheduleSubtree_fetching i m t w :
  ∃ more, fetching (scheduleSubtree i m t w) = fetching w ++ more.
Proof.
  unfold scheduleSubtree. destruct (syncingRounds w !! i) as [e|].
  - destruct (needsFetch e m); [exists [t]; reflexivity|].
    exists []. now rewrite app_nil_r.
  - exists []. now rewrite app_nil_r.
Qed.

Lemma scheduleRound_fetching i w w' :
  scheduleRound i w = Ok w' → ∃ more, fetching w' = fetching w ++ more.
Proof.
  unfold scheduleRound. intros Hs.
  destruct (match syncingRounds w !! i with Some _ => _ | None => _ end);
    inv_ok; [exists []; now rewrite app_nil_r|].
  match goal with |- context [scheduleSubtree i maskState ?t ?w0] =>
    destruct (scheduleSubtree_fetching i maskState t w0) as [m2 ->] end.
  match goal with |- context [scheduleSubtree i maskIO ?t ?w0] =>
    destruct (scheduleSubtree_fetching i maskIO t w0) as [m1 ->] end.
  exists (m1 ++ m2). rewrite app_assoc.
  destruct (syncingRounds w !! i); reflexivity.
Qed.

Lemma scheduleLoop_fetching fuel i R w w' :
  scheduleLoop fuel i R w = Ok w' → ∃ more, fetching w' = fetching w ++ more.
Proof.
  revert i w. induction fuel as [|fuel IH]; intros i w; simpl.
  - destruct (i <=? R); intros Hs; inv_ok. exists []. now rewrite app_nil_r.
  - destruct (i <=? R); intros Hs; inv_ok; [|exists []; now rewrite app_nil_r].
    destruct (IH _ _ Hs) as [m2 ->].
    destruct (scheduleRound_fetching _ _ _ Hstep) as [m1 ->].
    exists (m1 ++ m2). now rewrite app_assoc.
Qed.

(** The first round scheduled for a worker with no round in progress:
    both its subtrees are fetched, the IO subtree first. *)
Lemma scheduleRound_fresh i w w' :
  InvHash w → i ≠ undefinedRound w →
  syncingRounds w !! i = None →
  scheduleRound i w = Ok w' →
  ∃ tIO tState,
    fetching w' = fetching w ++ [tIO; tState]
    ∧ taskKey tIO = (i, maskIO) ∧ taskKey tState = (i, maskState).
Proof.
  intros HH Hne Hnone. unfold scheduleRound. rewrite Hnone. intros Hs. inv_ok.
  rename a into this. simpl in Hstep.
  destruct (HH _ _ Hstep) as [_ Hrd]. specialize (Hrd Hne).
  unfold scheduleSubtree at 2. simpl. rewrite lookup_insert_eq.
  change (needsFetch {| outstanding := maskNone; awaitingRetry := maskAll |} maskIO)
    with true. cbv iota.
  unfold scheduleSubtree. simpl. rewrite lookup_insert_eq.
  change (needsFetch
            (markOutstanding {| outstanding := maskNone; awaitingRetry := maskAll |}
               maskIO) maskState) with true. cbv iota.
  simpl. eexists _, _. rewrite <- app_assoc. split; [reflexivity|].
  unfold taskKey. simpl. rewrite Hrd. auto.
Qed.

(** C10: when the round found in the state store (the all-ones default
    when there is none) is the all-ones default or lies before the
    genesis round g, the worker starts as never synced: its working
    sentinel, cached_last_round and last_fully_applied_round are
    g - 1 modulo 2^64, which is the all-ones value only for g = 0, and
    syncing resumes from g: the catch-up loop starts at g, g is the
    round whose diffs the loop waits for, and on the first block at or
    after g the first fetches submitted are those of round g. *)
Theorem worker_resumes_from_genesis (genesisBlock : Block)
    (db : option watcherState) :
  wfStart genesisBlock db →
  (sRound (LastBlock (NewNode db)) = defaultUndefinedRound
   ∨ sRound (LastBlock (NewNode db)) < hRound (bHeader genesisBlock)) →
  undefinedRound (workerInit genesisBlock db)
  = sub64 (hRound (bHeader genesisBlock)) 1
  ∧ cachedLastRound (workerInit genesisBlock db)
    = sub64 (hRound (bHeader genesisBlock)) 1
  ∧ lastFullyAppliedRound (workerInit genesisBlock db)
    = sub64 (hRound (bHeader genesisBlock)) 1
  ∧ (0 < hRound (bHeader genesisBlock) →
     sub64 (hRound (bHeader genesisBlock)) 1 = hRound (bHeader genesisBlock) - 1
     ∧ sub64 (hRound (bHeader genesisBlock)) 1 ≠ defaultUndefinedRound)
  ∧ (hRound (bHeader genesisBlock) = 0 →
     sub64 (hRound (bHeader genesisBlock)) 1 = defaultUndefinedRound)
  ∧ startSummaryRound (workerInit genesisBlock db) = hRound (bHeader genesisBlock)
  ∧ add64 (cachedLastRound (workerInit genesisBlock db)) 1
    = hRound (bHeader genesisBlock)
  ∧ add64 (lastFullyAppliedRound (workerInit genesisBlock db)) 1
    = hRound (bHeader genesisBlock)
  ∧ (∀ blk getBlock w',
       wfLabel (LNewBlock blk getBlock) →
       hRound (bHeader genesisBlock) <= hRound (bHeader blk) →
       handleNewBlock blk getBlock (workerInit genesisBlock db) = Ok w' →
       ∃ tIO tState rest,
         fetching w' = tIO :: tState :: rest
         ∧ taskKey tIO = (hRound (bHeader genesisBlock), maskIO)
         ∧ taskKey tState = (hRound (bHeader genesisBlock), maskState)).
Proof.
  intros Hwf Hcond.
  pose proof (workerInit_Inv _ _ Hwf) as HI.
  destruct Hwf as [Hg Hdb].
  set (g := hRound (bHeader genesisBlock)) in *.
  assert (Hc : cachedLastRound (workerInit genesisBlock db) = sub64 g 1).
  { simpl. fold g.
    destruct Hcond as [-> | Hlt].
    - rewrite Z.eqb_refl. reflexivity.
    - rewrite (proj2 (Z.ltb_lt _ _) Hlt), orb_true_r. reflexivity. }
  assert (Hu : undefinedRound (workerInit genesisBlock db) = sub64 g 1)
    by reflexivity.
  assert (Ha : lastFullyAppliedRound (workerInit genesisBlock db) = sub64 g 1)
    by exact Hc.
  assert (Hadd : add64 (sub64 g 1) 1 = g).
  { rewrite add64_1 by apply sub64_isUint64. rewrite sub64_1 by exact Hg. lia. }
  assert (Hne : g ≠ sub64 g 1).
  { intros Heq. pose proof (sub64_1 g Hg) as Ho. rewrite <- Heq in Ho.
    destruct (Z.eq_dec g MaxUint64) as [E|E].
    - rewrite E in Ho. vm_compute in Ho. discriminate.
    - rewrite ordinal_small in Ho by exact E. lia. }
  split; [exact Hu|]. split; [exact Hc|]. split; [exact Ha|].
  split; [|split; [|split; [|split; [|split]]]].
  - intros Hpos. unfold sub64, wrap64.
    unfold isUint64 in Hg. rewrite MaxUint64_eq in Hg.
    rewrite Z.mod_small by lia. split; [reflexivity|].
    rewrite defaultUndefinedRound_eq, MaxUint64_eq. lia.
  - intros ->. reflexivity.
  - unfold startSummaryRound. rewrite Hc, Hu, Z.eqb_refl. exact Hadd.
  - rewrite Hc. exact Hadd.
  - rewrite Ha. exact Hadd.
  - intros blk getBlock w' Hl Hle Hs.
    assert (Hwfl := Hl). destruct Hl as [HR Hgb].
    unfold handleNewBlock in Hs. inv_ok. rename a into w1.
    set (w0 := installDummy blk
                 (emit [EvLog LogDebug "incoming block"]
                    (workerInit genesisBlock db))) in *.
    assert (HI0 : Inv w0).
    { apply installDummy_Inv. destruct HI as [H1 H2 H3 H4]. constructor.
      - eapply InvRounds_eq; [..|exact H1]; reflexivity.
      - exact H2.
      - eapply InvPending_eq; [..|exact H3]; reflexivity.
      - eapply InvTrace_eq; [..|exact H4]; reflexivity. }
    assert (HI1 : Inv w1) by (eapply catchUp_Inv; eauto).
    assert (HI2 : Inv (cacheIncoming blk w1)) by (apply cacheIncoming_Inv; exact HI1).
    destruct (catchUp_frame _ _ _ _ _ _ Hstep) as (Hsy1 & Hfe1 & _).
    pose proof (catchUp_quiet _ _ _ _ _ _ Hstep) as Hq1.
    assert (Hsy2 : syncingRounds (cacheIncoming blk w1) = ∅).
    { unfold cacheIncoming. destruct (hashCache w1 !! _); simpl; rewrite Hsy1;
        unfold w0, installDummy; destruct (negb _ && _); reflexivity. }
    assert (Hfe2 : fetching (cacheIncoming blk w1) = []).
    { unfold cacheIncoming. destruct (hashCache w1 !! _); simpl; rewrite Hfe1;
        unfold w0, installDummy; destruct (negb _ && _); reflexivity. }
    assert (Hc2 : cachedLastRound (cacheIncoming blk w1) = sub64 g 1).
    { rewrite (quiet_c _ _ (cacheIncoming_quiet blk w1)), (quiet_c _ _ Hq1).
      unfold w0. rewrite (quiet_c _ _ (installDummy_quiet _ _)). exact Hc. }
    assert (Hu2 : undefinedRound (cacheIncoming blk w1) = sub64 g 1).
    { rewrite (quiet_u _ _ (cacheIncoming_quiet blk w1)), (quiet_u _ _ Hq1).
      unfold w0. rewrite (quiet_u _ _ (installDummy_quiet _ _)). exact Hu. }
    rewrite Hc2, Hadd in Hs.
    destruct (Z.to_nat (hRound (bHeader blk) - g + 1)) as [|fuel] eqn:Hfuel; [lia|].
    simpl in Hs. destruct (Z.leb_spec g (hRound (bHeader blk))); [|lia].
    inv_ok. rename a into w3.
    destruct (scheduleRound_fresh g _ _ (inv_hash _ HI2)
                ltac:(rewrite Hu2; exact Hne)
                ltac:(rewrite Hsy2; apply lookup_empty) Hstep0)
      as (tIO & tSt & Hf3 & HkIO & HkSt).
    destruct (scheduleLoop_fetching _ _ _ _ _ Hs) as [more Hmore].
    exists tIO, tSt, more. rewrite Hmore, Hf3, Hfe2. auto.
Qed.

Lemma worker_resumes_from_genesis_witness :
  undefinedRound (workerInit (sampleBlock 5) None) = 4
  ∧ cachedLastRound (workerInit (sampleBlock 5) None) = 4.
Proof.
  destruct (worker_resumes_from_genesis (sampleBlock 5) None) as (H1 & H2 & _).
  - split; [unfold isUint64; simpl; rewrite MaxUint64_eq; lia|discriminate].
  - left. reflexivity.
  - split; [exact H1|exact H2].
Defined.

(** ** A block delivered twice *)

Lemma catchUp_skip getBlock fuel i R w :
  R <= i → catchUp getBlock fuel i R w = Ok w.
Proof.
  intros Hle. destruct fuel; simpl; destruct (Z.ltb_spec i R); try lia; reflexivity.
Qed.

Lemma scheduleLoop_skip fuel i R w : R < i → scheduleLoop fuel i R w = Ok w.
Proof.
  intros Hlt. destruct fuel; simpl; destruct (Z.leb_spec i R); try lia; reflexivity.
Qed.

(** X4: a block whose round is not after the last finalized one
    schedules nothing. Once the completion of a round's [finalize] has
    been received, delivering its block again makes the handler return
    and leave the rounds, the queues, the entries of syncing rounds and
    the pool as they are. *)
Theorem redelivery_after_completion (blk : Block) (getBlock : Z → error + Block)
    (w : World) :
  isUint64 (cachedLastRound w) → isUint64 (hRound (bHeader blk)) →
  hRound (bHeader blk) <= ordinal (cachedLastRound w) →
  ∃ w', handleNewBlock blk getBlock w = Ok w'
    ∧ quietStep w w'
    ∧ syncingRounds w' = syncingRounds w
    ∧ fetching w' = fetching w
    ∧ submitted (trace w') = submitted (trace w).
Proof.
  intros Hc HR Hle.
  assert (Hmax : cachedLastRound w ≠ MaxUint64).
  { intros E. rewrite E in Hle. destruct HR as [HR _].
    change (ordinal MaxUint64) with (-1) in Hle. lia. }
  rewrite (ordinal_small _ Hmax) in Hle.
  assert (Hadd : add64 (cachedLastRound w) 1 = cachedLastRound w + 1).
  { rewrite add64_1 by exact Hc. now rewrite ordinal_small. }
  unfold handleNewBlock.
  set (w0 := installDummy blk (emit [EvLog LogDebug "incoming block"] w)).
  assert (Hc0 : cachedLastRound w0 = cachedLastRound w)
    by (unfold w0, installDummy; destruct (negb _ && _); reflexivity).
  rewrite catchUp_skip.
  2:{ unfold startSummaryRound. rewrite Hc0.
      destruct (_ =? _); [rewrite Hadd|]; lia. }
  simpl.
  assert (Hc1 : cachedLastRound (cacheIncoming blk w0) = cachedLastRound w).
  { unfold cacheIncoming. destruct (hashCache w0 !! _); exact Hc0. }
  rewrite scheduleLoop_skip by (rewrite Hc1, Hadd; lia).
  eexists. split; [reflexivity|].
  split; [|unfold cacheIncoming; destruct (hashCache w0 !! _);
           unfold w0, installDummy; destruct (negb _ && _); simpl;
           rewrite ?submitted_app; simpl; rewrite ?app_nil_r; auto].
  eapply quietStep_trans; [|apply cacheIncoming_quiet].
  eapply quietStep_trans; [|apply installDummy_quiet].
  constructor; simpl;
    rewrite ?popRounds_app, ?applyCalls_app, ?finalizeRounds_app; simpl;
    rewrite ?app_nil_r; reflexivity.
Qed.

Lemma redelivery_after_completion_witness :
  ∃ w', handleNewBlock (sampleBlock 0) sampleChain (sampleRun deliveredOnce) = Ok w'
    ∧ quietStep (sampleRun deliveredOnce) w'
    ∧ syncingRounds w' = syncingRounds (sampleRun deliveredOnce)
    ∧ fetching w' = fetching (sampleRun deliveredOnce)
    ∧ submitted (trace w') = submitted (trace (sampleRun deliveredOnce)).
Proof.
  apply (redelivery_after_completion (sampleBlock 0) sampleChain
           (sampleRun deliveredOnce)).
  - vm_compute. split; discriminate.
  - vm_compute. split; discriminate.
  - vm_compute. discriminate.
Defined.

(** ** A queued diff of a round already applied *)

Lemma iter_heapOrdered l w w' :
  iter l w = Ok w' →
  heapOrdered round (outOfOrderDiffs w) → heapOrdered round (outOfOrderDiffs w').
Proof.
  intros Hs Ho.
  destruct (iter_cases _ _ _ Hs)
    as [(k & res & -> & H)
       |(Hrun & [(res & -> & Hg & H)
                |[(-> & Hg & Hg' & H)
                 |(Hg & Hg' & [(p & res & -> & H)
                              |[(blk & gb & -> & H)
                               |[(k & st & -> & H)
                                |[(k & dbErr & -> & H)
                                 |(-> & ->)]]]])]])].
  - destruct (runFinalize_spec _ _ _ _ H) as (s & _ & ->). exact Ho.
  - destruct (applyStep_spec _ _ _ H)
      as (d & q & e & evs & Hpop & _ & _ & _ & Hq & _).
    rewrite Hq. eapply heapPop_ordered; [|exact Ho|exact Hpop]. reflexivity.
  - destruct (spawnStep_spec _ _ H) as (s & q & _ & ->). exact Ho.
  - destruct (handlePruned_quiet _ _ _ _ H) as [_ _ _ Hd _ _ _ _ _ _].
    now rewrite Hd.
  - destruct (handleNewBlock_quiet _ _ _ _ H) as [_ _ _ Hd _ _ _ _ _ _].
    now rewrite Hd.
  - destruct (handleDiff_spec _ _ _ _ H) as (t & prev & _ & _ & Hi).
    apply handleItem_spec in Hi. destruct (err _) as [failure|].
    + destruct Hi as (e & _ & ->). exact Ho.
    + destruct Hi as (q & Hpush & ->). simpl.
      eapply heapPush_ordered; [|exact Ho|exact Hpush]. reflexivity.
  - destruct (handleFinalized_spec _ _ _ _ H)
      as (s & evs & _ & _ & _ & _ & Hd & _). now rewrite Hd.
  - exact Ho.
Qed.

(** The diffs queue of the worker is a heap on the rounds. *)
Lemma Reachable_heapOrdered w :
  Reachable w → heapOrdered round (outOfOrderDiffs w).
Proof.
  intros (g & db & _ & Hr).
  induction Hr as [|w l w' Hr IH Hl Hs].
  - intros k x p Hk. simpl in Hk. lia.
  - eapply iter_heapOrdered; eauto.
Qed.

Lemma iter_applied_round l w w' :
  iter l w = Ok w' → (∀ res, l ≠ LApply res) →
  lastFullyAppliedRound w' = lastFullyAppliedRound w.
Proof.
  intros Hs Hl.
  destruct (iter_cases _ _ _ Hs)
    as [(k & res & -> & H)
       |(Hrun & [(res & -> & Hg & H)
                |[(-> & Hg & Hg' & H)
                 |(Hg & Hg' & [(p & res & -> & H)
                              |[(blk & gb & -> & H)
                               |[(k & st & -> & H)
                                |[(k & dbErr & -> & H)
                                 |(-> & ->)]]]])]])].
  - destruct (runFinalize_spec _ _ _ _ H) as (s & _ & ->). reflexivity.
  - now destruct (Hl res).
  - destruct (spawnStep_spec _ _ H) as (s & q & _ & ->). reflexivity.
  - now destruct (handlePruned_quiet _ _ _ _ H).
  - now destruct (handleNewBlock_quiet _ _ _ _ H).
  - now destruct (handleDiff_frame _ _ _ _ H) as (_ & _ & Ha & _).
  - now destruct (handleFinalized_spec _ _ _ _ H) as (s & evs & _ & _ & _ & Ha & _).
  - reflexivity.
Qed.

(** With such a diff in the queue the head of the queue is not the
    round after the last fully applied one. *)
Lemma stale_guardDiffs w :
  isUint64 (lastFullyAppliedRound w) →
  heapOrdered round (outOfOrderDiffs w) →
  staleDiffQueued w → guardDiffs w = Ok false.
Proof.
  intros Ha Ho (d & Hd & Hle). unfold guardDiffs.
  destruct (outOfOrderDiffs w) as [|h q] eqn:E.
  - now apply elem_of_nil in Hd.
  - assert (Hh : round h <= round d).
    { exact (heapOrdered_head round (h :: q) h d Ho eq_refl Hd). }
    simpl. unfold GetRound, fetchedDiff_roundItem. simpl.
    rewrite add64_1 by exact Ha.
    destruct (Z.eqb_spec (ordinal (lastFullyAppliedRound w) + 1) (round h));
      [lia|reflexivity].
Qed.

(** Such a diff is never taken off the queue: from then on, whatever
    the worker receives, it pops no diff, calls Apply no more and its
    last fully applied round stays where it is. *)
Lemma stale_diff_wedges (P : Label → Prop) w w' :
  isUint64 (lastFullyAppliedRound w) →
  heapOrdered round (outOfOrderDiffs w) →
  staleDiffQueued w →
  reachableFrom P w w' →
  staleDiffQueued w'
  ∧ heapOrdered round (outOfOrderDiffs w')
  ∧ lastFullyAppliedRound w' = lastFullyAppliedRound w
  ∧ guardDiffs w' = Ok false
  ∧ popRounds (trace w') = popRounds (trace w)
  ∧ applyCalls (trace w') = applyCalls (trace w).
Proof.
  intros Ha Ho Hst Hr.
  induction Hr as [|w1 l w2 Hr IH Hl Hs].
  - split; [assumption|]. split; [assumption|]. split; [reflexivity|].
    split; [now apply stale_guardDiffs|]. split; reflexivity.
  - destruct IH as (Hst1 & Ho1 & Ha1 & Hg1 & Hp1 & Hc1).
    assert (Hne : ∀ res, l ≠ LApply res).
    { intros res ->.
      destruct (iter_cases _ _ _ Hs)
        as [(k & r & E & _)|(_ & [(r & _ & Hg & _)|[(E & _)|(_ & _ & HE)]])];
        try discriminate; try congruence.
      destruct HE as [(? & ? & E & _)|[(? & ? & E & _)|[(? & ? & E & _)
                     |[(? & ? & E & _)|(E & _)]]]]; discriminate. }
    destruct (iter_no_pop _ _ _ Hs Hne) as (Hin & Hp & Hc).
    pose proof (iter_applied_round _ _ _ Hs Hne) as Ha2.
    pose proof (iter_heapOrdered _ _ _ Hs Ho1) as Ho2.
    assert (Hst2 : staleDiffQueued w2).
    { destruct Hst1 as (d & Hd & Hle). exists d. split; [now apply Hin|].
      now rewrite Ha2. }
    split; [exact Hst2|]. split; [exact Ho2|].
    split; [congruence|].
    split; [apply stale_guardDiffs; [rewrite Ha2, Ha1; exact Ha|exact Ho2|exact Hst2]|].
    split; congruence.
Qed.

(** C6: round 0 is applied and its finalize has called the store; the
    loop has not yet received the completion. Delivering block 0 a
    second time in that state submits both fetches of round 0 again.
    Their results stay in the diffs queue (round 0 is no longer
    last_fully_applied_round + 1) in front of those of round 1, so that
    after block 1 the worker that saw block 0 once has made four apply
    and two finalize calls, while the worker that saw it twice has made
    two and one and has nothing left to do: no fetch or finalize is in
    flight, neither queue can be drained, and whatever it receives from
    then on it calls Apply no more. *)
Theorem redelivery_before_completion_stalls :
  (Reachable (sampleRun round0Processed)
   ∧ lastFullyAppliedRound (sampleRun round0Processed) = 0
   ∧ cachedLastRound (sampleRun round0Processed) = MaxUint64
   ∧ syncingRounds (sampleRun round0Processed) = ∅
   ∧ length (applyCalls (trace (sampleRun round0Processed))) = 2%nat
   ∧ finalizeRounds (trace (sampleRun round0Processed)) = [0]
   ∧ ftCalled <$> finalizing (sampleRun round0Processed) = [true])
  ∧ (taskKey <$> fetching
       (sampleRun (round0Processed ++ [LNewBlock (sampleBlock 0) sampleChain]))
     = [(0, maskIO); (0, maskState)])
  ∧ (Reachable (sampleRun deliveredOnce)
     ∧ length (applyCalls (trace (sampleRun deliveredOnce))) = 4%nat
     ∧ finalizeRounds (trace (sampleRun deliveredOnce)) = [0; 1])
  ∧ (Reachable (sampleRun deliveredTwice)
     ∧ length (applyCalls (trace (sampleRun deliveredTwice))) = 2%nat
     ∧ finalizeRounds (trace (sampleRun deliveredTwice)) = [0]
     ∧ round <$> outOfOrderDiffs (sampleRun deliveredTwice) = [0; 0; 1; 1]
     ∧ lastFullyAppliedRound (sampleRun deliveredTwice) = 0
     ∧ cachedLastRound (sampleRun deliveredTwice) = 0
     ∧ outOfOrderApplieds (sampleRun deliveredTwice) = []
     ∧ fetching (sampleRun deliveredTwice) = []
     ∧ finalizing (sampleRun deliveredTwice) = []
     ∧ guardDiffs (sampleRun deliveredTwice) = Ok false
     ∧ guardApplieds (sampleRun deliveredTwice) = Ok false)
  ∧ (∀ w', reachableFrom wfLabel (sampleRun deliveredTwice) w' →
       lastFullyAppliedRound w' = 0
       ∧ guardDiffs w' = Ok false
       ∧ applyCalls (trace w') = applyCalls (trace (sampleRun deliveredTwice))).
Proof.
  split; [split; [apply round0Processed_Reachable
                 |repeat split; vm_compute; reflexivity]|].
  split; [vm_compute; reflexivity|].
  split; [split; [apply deliveredOnce_Reachable
                 |repeat split; vm_compute; reflexivity]|].
  split; [split; [apply deliveredTwice_Reachable
                 |repeat split; vm_compute; reflexivity]|].
  intros w' Hr.
  assert (Ha : lastFullyAppliedRound (sampleRun deliveredTwice) = 0)
    by (vm_compute; reflexivity).
  assert (Hrs : round <$> outOfOrderDiffs (sampleRun deliveredTwice) = [0; 0; 1; 1])
    by (vm_compute; reflexivity).
  destruct (stale_diff_wedges wfLabel (sampleRun deliveredTwice) w')
    as (_ & _ & Ha' & Hg & _ & Hc); try assumption.
  - rewrite Ha. unfold isUint64. rewrite MaxUint64_eq. lia.
  - apply Reachable_heapOrdered, deliveredTwice_Reachable.
  - assert (H0 : 0 ∈ round <$> outOfOrderDiffs (sampleRun deliveredTwice))
      by (rewrite Hrs; left).
    apply list_elem_of_fmap in H0 as (d & Hd0 & Hd).
    exists d. split; [exact Hd|]. rewrite Ha, <- Hd0. reflexivity.
  - split; [congruence|]. split; assumption.
Qed.

(** * Further properties of the worker *)

(** X1: in every state of the worker the diff at the head of the diffs
    queue, the only one the first guard of the loop looks at, has the
    least round of the queue. *)
Theorem diffs_queue_head_is_least (w : World) (h d : fetchedDiff) :
  Reachable w →
  outOfOrderDiffs w !! 0%nat = Some h → d ∈ outOfOrderDiffs w →
  round h <= round d.
Proof.
  intros Hr Hh Hd.
  exact (heapOrdered_head round _ h d (Reachable_heapOrdered _ Hr) Hh Hd).
Qed.

Lemma diffs_queue_head_is_least_witness :
  round <$> outOfOrderDiffs (sampleRun deliveredTwice) = [0; 0; 1; 1]
  ∧ ∀ h d, outOfOrderDiffs (sampleRun deliveredTwice) !! 0%nat = Some h →
           d ∈ outOfOrderDiffs (sampleRun deliveredTwice) → round h <= round d.
Proof.
  split; [vm_compute; reflexivity|].
  intros h d.
  apply (diffs_queue_head_is_least (sampleRun deliveredTwice) h d).
  apply deliveredTwice_Reachable.
Defined.

(** X2: once the diffs queue holds a diff of a round that is not after
    the last fully applied one, the first branch of the loop is never
    taken again: whatever the worker receives from then on, that diff
    stays queued, no diff is popped, Apply is not called and the last
    fully applied round does not move. *)
Theorem queued_stale_diff_stops_applies (w w' : World) :
  Reachable w → staleDiffQueued w → reachableFrom wfLabel w w' →
  staleDiffQueued w'
  ∧ guardDiffs w' = Ok false
  ∧ lastFullyAppliedRound w' = lastFullyAppliedRound w
  ∧ popRounds (trace w') = popRounds (trace w)
  ∧ applyCalls (trace w') = applyCalls (trace w).
Proof.
  intros Hr Hst Hstep.
  destruct (stale_diff_wedges wfLabel w w')
    as (H1 & _ & H2 & H3 & H4 & H5); try assumption.
  - apply (inv_a _ (inv_rounds _ (Reachable_Inv _ Hr))).
  - now apply Reachable_heapOrdered.
  - auto.
Qed.

Lemma queued_stale_diff_stops_applies_witness :
  staleDiffQueued (sampleRun deliveredTwice)
  ∧ applyCalls (trace (sampleRun (deliveredTwice
                                   ++ [LNewBlock (sampleBlock 2) sampleChain])))
    = applyCalls (trace (sampleRun deliveredTwice)).
Proof.
  assert (Hst : staleDiffQueued (sampleRun deliveredTwice)).
  { assert (H0 : 0 ∈ round <$> outOfOrderDiffs (sampleRun deliveredTwice))
      by (vm_compute; left).
    apply list_elem_of_fmap in H0 as (d & Hd0 & Hd).
    exists d. split; [exact Hd|]. rewrite <- Hd0. vm_compute. discriminate. }
  split; [exact Hst|].
  apply (queued_stale_diff_stops_applies (sampleRun deliveredTwice)
           (sampleRun (deliveredTwice ++ [LNewBlock (sampleBlock 2) sampleChain]))).
  - apply deliveredTwice_Reachable.
  - exact Hst.
  - eapply reach_step with (l := LNewBlock (sampleBlock 2) sampleChain);
      [apply reach_init| |vm_compute; reflexivity].
    split; [vm_compute; split; discriminate|].
    intros i b E. injection E as <-. reflexivity.
Defined.

(** On the sample runtime: the scheduling loop starts at the round
    after the last finalized one, so a block that arrives while a round
    is applied but the completion of its finalize is not yet received
    has that round fetched again. Here round 0 is applied and block 1 arrives before
    the completion: the four fetches of rounds 0 and 1 are submitted,
    the two diffs of round 0 stay in front of those of round 1, and the
    worker, with nothing in flight, calls Apply no more. *)
Theorem new_block_during_finalize_stalls :
  taskKey <$> fetching
    (sampleRun (round0Processed ++ [LNewBlock (sampleBlock 1) sampleChain]))
  = [(0, maskIO); (0, maskState); (1, maskIO); (1, maskState)]
  ∧ (Reachable (sampleRun nextDuringFinalize)
     ∧ round <$> outOfOrderDiffs (sampleRun nextDuringFinalize) = [0; 0; 1; 1]
     ∧ lastFullyAppliedRound (sampleRun nextDuringFinalize) = 0
     ∧ cachedLastRound (sampleRun nextDuringFinalize) = 0
     ∧ fetching (sampleRun nextDuringFinalize) = []
     ∧ finalizing (sampleRun nextDuringFinalize) = []
     ∧ outOfOrderApplieds (sampleRun nextDuringFinalize) = []
     ∧ applyRounds (trace (sampleRun nextDuringFinalize)) = [0; 0]
     ∧ finalizeRounds (trace (sampleRun nextDuringFinalize)) = [0])
  ∧ (∀ w', reachableFrom wfLabel (sampleRun nextDuringFinalize) w' →
       lastFullyAppliedRound w' = 0
       ∧ applyRounds (trace w') = [0; 0]).
Proof.
  split; [vm_compute; reflexivity|].
  split; [split; [apply nextDuringFinalize_Reachable
                 |repeat split; vm_compute; reflexivity]|].
  intros w' Hr.
  assert (Ha : lastFullyAppliedRound (sampleRun nextDuringFinalize) = 0)
    by (vm_compute; reflexivity).
  destruct (stale_diff_wedges wfLabel (sampleRun nextDuringFinalize) w')
    as (_ & _ & Ha' & _ & _ & Hc); try assumption.
  - rewrite Ha. unfold isUint64. rewrite MaxUint64_eq. lia.
  - apply Reachable_heapOrdered, nextDuringFinalize_Reachable.
  - assert (H0 : 0 ∈ round <$> outOfOrderDiffs (sampleRun nextDuringFinalize))
      by (vm_compute; left).
    apply list_elem_of_fmap in H0 as (d & Hd0 & Hd).
    exists d. split; [exact Hd|]. rewrite Ha, <- Hd0. reflexivity.
  - split; [congruence|]. unfold applyRounds. rewrite Hc.
    vm_compute. reflexivity.
Qed.

(** * The rounds of the worker *)

Ltac iter_split Hs :=
  destruct (iter_cases _ _ _ Hs)
    as [(? & ? & -> & H)
       |(Hrun & [(? & -> & Hg & H)
                |[(-> & Hg & Hg' & H)
                 |(Hg & Hg' & [(? & ? & -> & H)
                              |[(? & ? & -> & H)
                               |[(? & ? & -> & H)
                                |[(? & ? & -> & H)
                                 |(-> & ->)]]]])]])].

(** The same for a step whose label is known. *)
Ltac iter_at Hs :=
  destruct (iter_cases _ _ _ Hs)
    as [(? & ? & El & H)
       |(Hrun & [(? & El & Hg & H)
                |[(El & Hg & Hg' & H)
                 |(Hg & Hg' & [(? & ? & El & H)
                              |[(? & ? & El & H)
                               |[(? & ? & El & H)
                                |[(? & ? & El & H)
                                 |(El & H)]]]])]])];
  try discriminate El; try (symmetry in El; simplify_eq).

Lemma iter_undefinedRound l w w' :
  iter l w = Ok w' → undefinedRound w' = undefinedRound w.
Proof.
  intros Hs. iter_split Hs.
  - destruct (runFinalize_spec _ _ _ _ H) as (s & _ & ->). reflexivity.
  - now destruct (applyStep_spec _ _ _ H) as (d & q & e & evs & _ & _ & Hu & _).
  - destruct (spawnStep_spec _ _ H) as (s & q & _ & ->). reflexivity.
  - now destruct (handlePruned_quiet _ _ _ _ H).
  - now destruct (handleNewBlock_quiet _ _ _ _ H).
  - now destruct (handleDiff_frame _ _ _ _ H) as (Hu & _).
  - now destruct (handleFinalized_spec _ _ _ _ H) as (s & evs & _ & Hu & _).
  - reflexivity.
Qed.

(** X5: the sentinel never changes; the round finalized last and the
    round applied last move forward one round at a time, and the first
    is never ahead of the second. *)
Theorem rounds_advance_one_at_a_time (w w' : World) (l : Label) :
  Reachable w → iter l w = Ok w' →
  ordinal (undefinedRound w) <= ordinal (cachedLastRound w)
                             <= ordinal (lastFullyAppliedRound w)
  ∧ undefinedRound w' = undefinedRound w
  ∧ (cachedLastRound w' = cachedLastRound w
     ∨ ordinal (cachedLastRound w') = ordinal (cachedLastRound w) + 1)
  ∧ (lastFullyAppliedRound w' = lastFullyAppliedRound w
     ∨ ordinal (lastFullyAppliedRound w')
       = ordinal (lastFullyAppliedRound w) + 1).
Proof.
  intros Hr Hs. pose proof (Reachable_Inv _ Hr) as HI.
  destruct HI as [HR HH HP HT].
  split; [split; apply HR|].
  split; [eapply iter_undefinedRound; eauto|].
  iter_split Hs.
  - destruct (runFinalize_spec _ _ _ _ H) as (s & _ & ->). auto.
  - destruct (applyStep_spec _ _ _ H)
      as (d & q & e & evs & Hpop & He & _ & Hc & _ & _ & _ & _ & _ & _ & _ & _ & _ & _ & Hif).
    split; [left; exact Hc|].
    destruct (popped_facts w d q (mkInv _ HR HH HP HT) Hg Hpop)
      as (Hd & Hb & _).
    cbv zeta in Hif. destruct (_ && _).
    + destruct Hif as (_ & _ & -> & _). right.
      rewrite ordinal_small; [exact Hd|]. unfold MaxUint64 in *. lia.
    + destruct Hif as (_ & _ & -> & _). now left.
  - destruct (spawnStep_spec _ _ H) as (s & q & _ & ->). auto.
  - destruct (handlePruned_quiet _ _ _ _ H) as [_ Hc Ha _ _ _ _ _ _ _]. auto.
  - destruct (handleNewBlock_quiet _ _ _ _ H) as [_ Hc Ha _ _ _ _ _ _ _]. auto.
  - destruct (handleDiff_frame _ _ _ _ H) as (_ & Hc & Ha & _). auto.
  - destruct (handleFinalized_spec _ _ _ _ H)
      as (s & evs & Hk & _ & Hc & Ha & _).
    split; [right|left; exact Ha].
    destruct (inv_fin _ HR (mkFinalizeTask s true)) as [Hs1 Hs2].
    { eapply list_elem_of_lookup_2; eauto. }
    simpl in Hs1. rewrite Hc.
    pose proof (ordinal_bounds _ (inv_a _ HR)).
    rewrite ordinal_small; [exact Hs1|]. lia.
  - auto.
Qed.

Lemma rounds_advance_one_at_a_time_witness :
  cachedLastRound (sampleRun (round0Processed ++ [LFinalized 0 None]))
  = cachedLastRound (sampleRun round0Processed)
  ∨ ordinal (cachedLastRound (sampleRun (round0Processed ++ [LFinalized 0 None])))
    = ordinal (cachedLastRound (sampleRun round0Processed)) + 1.
Proof.
  destruct (rounds_advance_one_at_a_time (sampleRun round0Processed)
              (sampleRun (round0Processed ++ [LFinalized 0 None]))
              (LFinalized 0 None))
    as (_ & _ & Hc & _).
  - apply round0Processed_Reachable.
  - vm_compute. reflexivity.
  - exact Hc.
Defined.

(** * Shutdown *)

Lemma iter_stopped l w w' :
  running w = false → iter l w = Ok w' →
  running w' = false ∧ fetching w' = fetching w
  ∧ length (finalizing w') = length (finalizing w)
  ∧ outOfOrderDiffs w' = outOfOrderDiffs w
  ∧ cachedLastRound w' = cachedLastRound w
  ∧ syncedState w' = syncedState w.
Proof.
  intros Hstop Hs. iter_split Hs; try congruence.
  destruct (runFinalize_spec _ _ _ _ H) as (s & _ & ->). simpl.
  rewrite length_insert. repeat split; try reflexivity. exact Hstop.
Qed.

(** X6: once the loop is left, no send on [diffCh] or [finalizeCh] is
    received any more: the fetches and the [finalize] in flight never
    return, the counter of [fetcherGroup] stays where it was, and if it
    was not zero [worker] never returns. The last round synced does not
    move either. *)
Theorem cancelled_worker_never_returns (P : Label → Prop) (w w' : World) :
  running w = false → reachableFrom P w w' →
  running w' = false
  ∧ fetcherGroup w' = fetcherGroup w
  ∧ GetLastSynced w' = GetLastSynced w
  ∧ (fetcherGroup w ≠ 0%nat → ¬ workerReturns w').
Proof.
  intros Hrun Hr.
  assert (Hall : running w' = false ∧ fetching w' = fetching w
                 ∧ length (finalizing w') = length (finalizing w)
                 ∧ syncedState w' = syncedState w).
  { induction Hr as [|w1 l w2 Hr IH Hl Hs]; [auto|].
    destruct IH as (H1 & H2 & H3 & H4).
    destruct (iter_stopped _ _ _ H1 Hs) as (G1 & G2 & G3 & _ & _ & G4).
    split; [exact G1|]. split; [congruence|]. split; congruence. }
  destruct Hall as (H1 & H2 & H3 & H4).
  assert (Hg : fetcherGroup w' = fetcherGroup w)
    by (unfold fetcherGroup; now rewrite H2, H3).
  split; [exact H1|]. split; [exact Hg|].
  split; [unfold GetLastSynced; now rewrite H4|].
  intros Hne [_ H0]. congruence.
Qed.

Lemma cancelled_worker_never_returns_witness :
  fetcherGroup (sampleRun (applyRound0 ++ [LSpawnFinalize; LDone])) = 1%nat
  ∧ ¬ workerReturns
        (sampleRun (applyRound0 ++ [LSpawnFinalize; LDone; LRunFinalize 0 None])).
Proof.
  split; [vm_compute; reflexivity|].
  destruct (cancelled_worker_never_returns anyLabel
              (sampleRun (applyRound0 ++ [LSpawnFinalize; LDone]))
              (sampleRun (applyRound0
                          ++ [LSpawnFinalize; LDone; LRunFinalize 0 None])))
    as (_ & _ & _ & Hn).
  - vm_compute. reflexivity.
  - eapply reach_step with (l := LRunFinalize 0 None);
      [apply reach_init|exact I|vm_compute; reflexivity].
  - apply Hn. vm_compute. discriminate.
Defined.

(** * The finalizer and the checkpoint *)

(** X7: what the local store's Finalize answers does not reach the
    loop. The goroutine calls it once, logs, and hands the summary
    over; when the loop receives it the round becomes the last one
    synced, whatever the answer was, and is written to the state
    store. *)
Theorem finalize_failure_is_only_logged (w : World) (s : blockSummary)
    (res : option error) :
  finalizing w = [mkFinalizeTask s false] →
  ∃ w1, iter (LRunFinalize 0 res) w = Ok w1
    ∧ trace w1 = trace w ++ [EvFinalize (finalizeArgs s) res;
                             EvLog (finalizeLog res) "finalize"]
    ∧ setTrace [] w1 = setTrace [] (setFinalizing [mkFinalizeTask s true] w)
    ∧ ∀ dbErr w2, iter (LFinalized 0 dbErr) w1 = Ok w2 →
        cachedLastRound w2 = sRound s
        ∧ GetLastSynced w2 = (sRound s, sIORoot s, sStateRoot s)
        ∧ finalizing w2 = []
        ∧ stateStore w2 = match dbErr with
                          | Some _ => stateStore w
                          | None => Some (syncedState w2)
                          end.
Proof.
  intros Hf. eexists. split.
  { change (iter (LRunFinalize 0 res) w) with (runFinalize 0 res w).
    unfold runFinalize. rewrite Hf. simpl. reflexivity. }
  split; [reflexivity|]. split; [reflexivity|].
  intros dbErr w2 Hs. iter_at Hs.
  unfold handleFinalized in H. simpl in H.
  destruct dbErr; inv_ok; repeat split; reflexivity.
Qed.

Lemma finalize_failure_is_only_logged_witness :
  ∃ w1, iter (LRunFinalize 0 (Some "store fault"%string))
          (sampleRun (applyRound0 ++ [LSpawnFinalize])) = Ok w1
    ∧ ∀ w2, iter (LFinalized 0 None) w1 = Ok w2 → cachedLastRound w2 = 0.
Proof.
  destruct (finalize_failure_is_only_logged
              (sampleRun (applyRound0 ++ [LSpawnFinalize]))
              (summaryFromBlock (sampleBlock 0)) (Some "store fault"%string))
    as (w1 & H1 & _ & _ & H2).
  - vm_compute. reflexivity.
  - exists w1. split; [exact H1|].
    intros w2 Hs. destruct (H2 None w2 Hs) as (Hc & _). exact Hc.
Defined.

(** ** Steps that leave the checkpoint alone *)

Lemma sameCheckpoint_refl w : sameCheckpoint w w.
Proof. constructor; reflexivity. Qed.

Lemma sameCheckpoint_trans w1 w2 w3 :
  sameCheckpoint w1 w2 → sameCheckpoint w2 w3 → sameCheckpoint w1 w3.
Proof. intros [] []. constructor; congruence. Qed.

Lemma installDummy_same blk w : sameCheckpoint w (installDummy blk w).
Proof. unfold installDummy. destruct (_ && _); constructor; reflexivity. Qed.

Lemma cacheIncoming_same blk w : sameCheckpoint w (cacheIncoming blk w).
Proof. unfold cacheIncoming. destruct (_ !! _); constructor; reflexivity. Qed.

Lemma catchUp_same getBlock fuel i R w w' :
  catchUp getBlock fuel i R w = Ok w' → sameCheckpoint w w'.
Proof.
  revert i w. induction fuel as [|fuel IH]; intros i w; simpl.
  - destruct (i <? R); intros Hs; inv_ok. apply sameCheckpoint_refl.
  - destruct (i <? R); intros Hs; inv_ok; [|apply sameCheckpoint_refl].
    apply IH in Hs. eapply sameCheckpoint_trans; [|exact Hs].
    destruct (hashCache w !! i); inv_ok; [apply sameCheckpoint_refl|].
    destruct (getBlock i); inv_ok. constructor; reflexivity.
Qed.

Lemma scheduleSubtree_same i m t w : sameCheckpoint w (scheduleSubtree i m t w).
Proof.
  unfold scheduleSubtree. destruct (syncingRounds w !! i) as [e|];
    [|apply sameCheckpoint_refl].
  destruct (needsFetch e m); constructor; reflexivity.
Qed.

Lemma scheduleRound_same i w w' : scheduleRound i w = Ok w' → sameCheckpoint w w'.
Proof.
  unfold scheduleRound. intros Hs.
  destruct (match syncingRounds w !! i with Some _ => _ | None => _ end);
    inv_ok; [apply sameCheckpoint_refl|].
  eapply sameCheckpoint_trans; [|apply scheduleSubtree_same].
  eapply sameCheckpoint_trans; [|apply scheduleSubtree_same].
  destruct (syncingRounds w !! i); constructor; reflexivity.
Qed.

Lemma scheduleLoop_same fuel i R w w' :
  scheduleLoop fuel i R w = Ok w' → sameCheckpoint w w'.
Proof.
  revert i w. induction fuel as [|fuel IH]; intros i w; simpl.
  - destruct (i <=? R); intros Hs; inv_ok. apply sameCheckpoint_refl.
  - destruct (i <=? R); intros Hs; inv_ok; [|apply sameCheckpoint_refl].
    apply IH in Hs. eapply sameCheckpoint_trans; [|exact Hs].
    eapply scheduleRound_same; eauto.
Qed.

Lemma handleNewBlock_same blk getBlock w w' :
  handleNewBlock blk getBlock w = Ok w' → sameCheckpoint w w'.
Proof.
  unfold handleNewBlock. intros Hs. inv_ok.
  apply scheduleLoop_same in Hs. apply catchUp_same in Hstep.
  eapply sameCheckpoint_trans; [|exact Hs].
  eapply sameCheckpoint_trans; [|apply cacheIncoming_same].
  eapply sameCheckpoint_trans; [|exact Hstep].
  eapply sameCheckpoint_trans; [|apply installDummy_same].
  constructor; reflexivity.
Qed.

Lemma applyStep_same res w w' : applyStep res w = Ok w' → sameCheckpoint w w'.
Proof.
  unfold applyStep. intros Hs. inv_ok. destruct a as [d q].
  destruct (fetched d); [destruct res|]; simpl in Hs; inv_ok;
    match type of Hs with
    | (if ?c then _ else _) = _ => destruct c
    end; inv_ok; constructor; reflexivity.
Qed.

Lemma handleDiff_same k st w w' : handleDiff k st w = Ok w' → sameCheckpoint w w'.
Proof.
  intros Hs. destruct (handleDiff_spec _ _ _ _ Hs) as (t & prev & _ & _ & Hi).
  apply handleItem_spec in Hi. destruct (err _) as [failure|].
  - destruct Hi as (e & _ & ->). constructor; reflexivity.
  - destruct Hi as (q & _ & ->). constructor; reflexivity.
Qed.

Lemma iter_same l w w' :
  iter l w = Ok w' → (∀ k dbErr, l ≠ LFinalized k dbErr) → sameCheckpoint w w'.
Proof.
  intros Hs Hl. iter_split Hs.
  - destruct (runFinalize_spec _ _ _ _ H) as (s & _ & ->). constructor; reflexivity.
  - eapply applyStep_same; eauto.
  - destruct (spawnStep_spec _ _ H) as (s & q & _ & ->). constructor; reflexivity.
  - unfold handlePruned in H. destruct x0; inv_ok; constructor; reflexivity.
  - eapply handleNewBlock_same; eauto.
  - eapply handleDiff_same; eauto.
  - now destruct (Hl x x0).
  - constructor; reflexivity.
Qed.

(** The Finalize calls made so far stay made. *)
Lemma iter_finalizeRounds l w w' :
  iter l w = Ok w' →
  ∃ more, finalizeRounds (trace w') = finalizeRounds (trace w) ++ more.
Proof.
  intros Hs. iter_split Hs.
  - destruct (runFinalize_spec _ _ _ _ H) as (s & _ & ->). simpl.
    rewrite finalizeRounds_app. eauto.
  - destruct (applyStep_spec _ _ _ H)
      as (d & q & e & evs & _ & _ & _ & _ & _ & _ & _ & _ & -> & _ & _ & Hf & _).
    rewrite finalizeRounds_app, Hf. eauto.
  - destruct (spawnStep_spec _ _ H) as (s & q & _ & ->). simpl.
    rewrite finalizeRounds_app. eauto.
  - destruct (handlePruned_quiet _ _ _ _ H) as [_ _ _ _ _ _ _ _ _ ->].
    exists []. now rewrite app_nil_r.
  - destruct (handleNewBlock_quiet _ _ _ _ H) as [_ _ _ _ _ _ _ _ _ ->].
    exists []. now rewrite app_nil_r.
  - destruct (handleDiff_frame _ _ _ _ H)
      as (_ & _ & _ & _ & _ & _ & _ & _ & _ & _ & ->).
    exists []. now rewrite app_nil_r.
  - destruct (handleFinalized_spec _ _ _ _ H)
      as (s & evs & _ & _ & _ & _ & _ & _ & _ & _ & _ & _ & _ & -> & _ & _ & Hf & _).
    rewrite finalizeRounds_app, Hf. eauto.
  - exists []. now rewrite app_nil_r.
Qed.

(** ** The checkpoint invariant *)

Lemma workerInit_InvCheckpoint genesisBlock db :
  InvCheckpoint genesisBlock db (workerInit genesisBlock db).
Proof.
  constructor; simpl; try (intros ? Hin; now apply elem_of_nil in Hin).
  - reflexivity.
  - lia.
  - now left.
  - now left.
Qed.

Lemma InvCheckpoint_same g db w w' :
  sameCheckpoint w w' →
  undefinedRound w' = undefinedRound w →
  cachedLastRound w' = cachedLastRound w →
  (∃ more, finalizeRounds (trace w') = finalizeRounds (trace w) ++ more) →
  (∀ t, t ∈ finalizing w' → ftCalled t = true →
     sRound (ftSummary t) ∈ finalizeRounds (trace w')) →
  (∀ t, t ∈ finalizing w' → coherent (ftSummary t)) →
  (∀ s, Some s ∈ outOfOrderApplieds w' → coherent s) →
  InvCheckpoint g db w → InvCheckpoint g db w'.
Proof.
  intros [Hsy Hst] Hu Hc (more & Hf) H1 H2 H3 [Cu Cs Csy Cst _ _ _].
  constructor; try assumption.
  - congruence.
  - now rewrite Hc.
  - rewrite Hsy, Hc, Hf. destruct Csy as [E|(E1 & E2 & E0 & E3)]; [now left|right].
    split; [exact E1|]. split; [exact E2|]. split; [exact E0|].
    apply elem_of_app. now left.
  - rewrite Hst, Hc, Hf. destruct Cst as [E|(st & E1 & E2 & E3 & E4)]; [now left|right].
    exists st. split; [exact E1|]. split; [exact E2|]. split; [exact E3|].
    apply elem_of_app. now left.
Qed.

Lemma iter_InvCheckpoint g db l w w' :
  isUint64 (hRound (bHeader g)) →
  Inv w → InvCheckpoint g db w → iter l w = Ok w' → InvCheckpoint g db w'.
Proof.
  intros Hg0 HI HC Hs. pose proof HI as [HR HH HP HT].
  pose proof (iter_undefinedRound _ _ _ Hs) as Hu.
  pose proof (iter_finalizeRounds _ _ _ Hs) as Hfin.
  pose proof HC as [Cu Cs Csy Cst Cc Cf Ca].
  iter_split Hs.
  - (* the goroutine calls Finalize *)
    destruct (runFinalize_spec _ _ _ _ H) as (s & Hk & ->).
    destruct (finalizing_single _ _ _ HR Hk) as [-> Hfz].
    eapply (InvCheckpoint_same g db w);
      [constructor; reflexivity|reflexivity|reflexivity|exact Hfin
      | | | |exact HC]; simpl; rewrite ?Hfz; simpl.
    + intros t Ht _. apply list_elem_of_singleton in Ht as ->. simpl.
      rewrite finalizeRounds_app. apply elem_of_app. right. simpl. now left.
    + intros t Ht. apply list_elem_of_singleton in Ht as ->. simpl.
      apply (Cf (mkFinalizeTask s false)). rewrite Hfz. now left.
    + exact Ca.
  - (* a diff is applied *)
    destruct (applyStep_spec _ _ _ H)
      as (d & q & e & evs & Hpop & He & _ & Hc & _ & _ & Hfz & _ & Htr & _ & _ & Hfr & _ & _ & Hif).
    destruct (popped_facts w d q HI Hg Hpop)
      as (_ & _ & _ & Hdu & _ & (s & Hhs & Hsr) & _).
    eapply (InvCheckpoint_same g db w); try exact HC; try assumption.
    + eapply applyStep_same; eauto.
    + rewrite Hfz, Htr, finalizeRounds_app, Hfr, app_nil_r. exact Cc.
    + now rewrite Hfz.
    + cbv zeta in Hif. destruct (_ && _).
      * destruct Hif as (_ & _ & _ & Hpush). rewrite Hhs in Hpush.
        apply heapPush_Permutation in Hpush. intros s' Hs'.
        rewrite Hpush in Hs'. apply elem_of_cons in Hs' as [Es|Hs'].
        -- injection Es as ->. now apply (HH _ _ Hhs).
        -- now apply Ca.
      * destruct Hif as (_ & _ & _ & ->). exact Ca.
  - (* a finalize is spawned *)
    destruct (spawnStep_spec _ _ H) as (s & q & Hpop & ->).
    destruct (spawn_facts w s q HI Hg' Hpop) as (_ & Hnil & Hperm & _).
    eapply (InvCheckpoint_same g db w);
      [constructor; reflexivity|reflexivity|reflexivity|exact Hfin
      | | | |exact HC]; simpl; rewrite ?Hnil; simpl.
    + intros t Ht. apply list_elem_of_singleton in Ht as ->. discriminate.
    + intros t Ht. apply list_elem_of_singleton in Ht as ->. simpl.
      apply Ca. rewrite Hperm. now left.
    + intros s' Hs'. apply Ca. rewrite Hperm. now right.
  - destruct (handlePruned_quiet _ _ _ _ H) as [_ Hc _ _ Hap Hfz _ _ _ Hfr].
    eapply (InvCheckpoint_same g db w); try exact HC; try assumption.
    + eapply iter_same with (l := LPruned x x0); [|discriminate].
      simpl. rewrite Hrun, Hg. simpl. rewrite Hg'. exact H.
    + now rewrite Hfz, Hfr.
    + now rewrite Hfz.
    + now rewrite Hap.
  - destruct (handleNewBlock_quiet _ _ _ _ H) as [_ Hc _ _ Hap Hfz _ _ _ Hfr].
    eapply (InvCheckpoint_same g db w); try exact HC; try assumption.
    + eapply handleNewBlock_same; eauto.
    + now rewrite Hfz, Hfr.
    + now rewrite Hfz.
    + now rewrite Hap.
  - destruct (handleDiff_frame _ _ _ _ H)
      as (_ & Hc & _ & Hap & _ & Hfz & _ & _ & _ & _ & Hfr).
    eapply (InvCheckpoint_same g db w); try exact HC; try assumption.
    + eapply handleDiff_same; eauto.
    + now rewrite Hfz, Hfr.
    + now rewrite Hfz.
    + now rewrite Hap.
  - (* a completion is received *)
    destruct Hfin as (more & Hfin).
    assert (Hspec := handleFinalized_spec _ _ _ _ H).
    destruct Hspec
      as (s & evs & Hk & _ & Hc & _ & _ & Hap & _ & _ & _ & Hfz & _ & _ & _ & _ & _ & _ & _).
    destruct (finalizing_single _ _ _ HR Hk) as [-> Hfz0].
    assert (Hin : mkFinalizeTask s true ∈ finalizing w) by (rewrite Hfz0; now left).
    destruct (inv_fin _ HR _ Hin) as [Hs1 Hs2]. simpl in Hs1.
    pose proof (Cc _ Hin eq_refl) as Hcalled. simpl in Hcalled.
    pose proof (Cf _ Hin) as Hcoh. simpl in Hcoh.
    pose proof (ordinal_bounds _ (inv_a _ HR)) as Hab.
    pose proof (ordinal_bounds _ (inv_c _ HR)) as Hcb.
    assert (Hos : ordinal (sRound s) = sRound s) by (apply ordinal_small; lia).
    assert (Hgs : hRound (bHeader g) <= sRound s).
    { pose proof (inv_uc _ HR) as Huc. rewrite Cu, sub64_1 in Huc by exact Hg0. lia. }
    unfold handleFinalized in H. rewrite Hk in H.
    constructor.
    + congruence.
    + rewrite Hc, Hos. lia.
    + right. destruct x0; inv_ok; simpl; (split; [reflexivity|]);
        (split; [exact Hcoh|]); (split; [lia|]);
        rewrite !finalizeRounds_app;
        repeat (apply elem_of_app; left); exact Hcalled.
    + destruct x0 as [failure|]; inv_ok; simpl.
      * destruct Cst as [E|(st & E1 & E2 & E3 & E4)]; [now left|right].
        exists st. split; [exact E1|]. split; [rewrite Hos; lia|].
        split; [exact E3|]. rewrite !finalizeRounds_app.
        repeat (apply elem_of_app; left). exact E4.
      * right. eexists. split; [reflexivity|]. simpl.
        split; [rewrite Hos; lia|]. split; [exact Hcoh|].
        rewrite !finalizeRounds_app. repeat (apply elem_of_app; left). exact Hcalled.
    + rewrite Hfz, Hfz0. simpl. intros t Ht. now apply elem_of_nil in Ht.
    + rewrite Hfz, Hfz0. simpl. intros t Ht. now apply elem_of_nil in Ht.
    + rewrite Hap. exact Ca.
  - eapply (InvCheckpoint_same g db w); try exact HC; try reflexivity;
      try (constructor; reflexivity); try assumption.
Qed.

Lemma reachable_InvCheckpoint g db w :
  wfStart g db → reachableFrom wfLabel (workerInit g db) w →
  Inv w ∧ InvCheckpoint g db w.
Proof.
  intros Hwf Hr. induction Hr as [|w l w' Hr [HI HC] Hl Hs].
  - split; [now apply workerInit_Inv|apply workerInit_InvCheckpoint].
  - split; [eapply iter_Inv; eauto|].
    eapply iter_InvCheckpoint; eauto. apply Hwf.
Qed.

Lemma sampleRun_reachableFrom ls :
  Forall wfLabel ls → isOk (run ls sampleInit) = true →
  reachableFrom wfLabel (workerInit (sampleBlock 0) None) (sampleRun ls).
Proof.
  intros Hall Hok. eapply reachableFrom_run; [apply reach_init|exact Hall|].
  apply fromOk_run. exact Hok.
Qed.

(** X8: what GetLastSynced returns is what NewNode loaded, until the
    first completion of a finalize is received; from then on it is the
    round finalized last, with the IO and the state root of that round,
    and the local store's Finalize has been called for that round. *)
Theorem last_synced_is_last_finalized (g : Block) (db : option watcherState)
    (w : World) :
  wfStart g db → reachableFrom wfLabel (workerInit g db) w →
  GetLastSynced w = GetLastSynced (workerInit g db)
  ∨ ∃ io st,
      GetLastSynced w = (cachedLastRound w, io, st)
      ∧ rRound io = cachedLastRound w ∧ rRound st = cachedLastRound w
      ∧ hRound (bHeader g) <= cachedLastRound w
      ∧ cachedLastRound w ∈ finalizeRounds (trace w).
Proof.
  intros Hwf Hr. destruct (reachable_InvCheckpoint _ _ _ Hwf Hr) as [HI HC].
  destruct (ck_synced _ _ _ HC) as [E|(E1 & [E2 E3] & E0 & E4)].
  - left. unfold GetLastSynced. now rewrite E.
  - right. eexists _, _. unfold GetLastSynced. rewrite E1.
    split; [reflexivity|]. split; [congruence|]. split; [congruence|].
    split; [lia|assumption].
Qed.

Lemma last_synced_is_last_finalized_witness :
  GetLastSynced (sampleRun deliveredOnce) = GetLastSynced sampleInit
  ∨ ∃ io st,
      GetLastSynced (sampleRun deliveredOnce)
      = (cachedLastRound (sampleRun deliveredOnce), io, st)
      ∧ rRound io = cachedLastRound (sampleRun deliveredOnce)
      ∧ rRound st = cachedLastRound (sampleRun deliveredOnce)
      ∧ hRound (bHeader (sampleBlock 0)) <= cachedLastRound (sampleRun deliveredOnce)
      ∧ cachedLastRound (sampleRun deliveredOnce)
        ∈ finalizeRounds (trace (sampleRun deliveredOnce)).
Proof.
  apply (last_synced_is_last_finalized (sampleBlock 0) None (sampleRun deliveredOnce)).
  - apply sample_wfStart.
  - apply sampleRun_reachableFrom; [sample_labels|vm_compute; reflexivity].
Defined.

(** ** Restarts *)

Lemma persisted_before_start g db :
  wfStart g db →
  ordinal (sRound (LastBlock (NewNode db)))
  <= ordinal (cachedLastRound (workerInit g db)).
Proof.
  intros [Hg Hdb]. unfold workerInit. cbn [cachedLastRound].
  set (k := sRound (LastBlock (NewNode db))).
  assert (Hk : isUint64 k).
  { unfold k, NewNode. destruct db as [st|]; [now apply Hdb|].
    simpl. unfold isUint64. rewrite defaultUndefinedRound_eq, MaxUint64_eq. lia. }
  destruct (Z.eqb_spec k defaultUndefinedRound) as [E|Hne]; simpl.
  - rewrite E, defaultUndefinedRound_eq. change (ordinal MaxUint64) with (-1).
    apply (ordinal_bounds _ (sub64_isUint64 _ _)).
  - destruct (Z.ltb_spec k (hRound (bHeader g))); [|lia].
    rewrite sub64_1 by exact Hg. rewrite defaultUndefinedRound_eq in Hne.
    rewrite ordinal_small; [lia|exact Hne].
Qed.

Lemma persisted_before_finalized g db w :
  wfStart g db → Inv w → InvCheckpoint g db w →
  ordinal (persistedRound w) <= ordinal (cachedLastRound w).
Proof.
  intros Hwf HI HC. unfold persistedRound.
  destruct (ck_store _ _ _ HC) as [E|(st & E & Hb & _)]; rewrite E.
  - transitivity (ordinal (cachedLastRound (workerInit g db)));
      [apply persisted_before_start; exact Hwf|apply HC].
  - simpl. pose proof (ordinal_bounds _ (inv_c _ (inv_rounds _ HI))).
    rewrite ordinal_small; lia.
Qed.

(** X9: the round a restart resumes from never goes back and is never
    ahead of the round finalized last; it moves only when the loop has
    received the completion of a finalize and the write to the state
    store succeeded, and is then the round just finalized. *)
Theorem checkpoint_round_never_goes_back (g : Block) (db : option watcherState)
    (w w' : World) (l : Label) :
  wfStart g db → reachableFrom wfLabel (workerInit g db) w →
  iter l w = Ok w' →
  ordinal (persistedRound w) <= ordinal (persistedRound w')
  ∧ ordinal (persistedRound w) <= ordinal (cachedLastRound w)
  ∧ (stateStore w' ≠ stateStore w →
     (∃ k, l = LFinalized k None)
     ∧ persistedRound w' = cachedLastRound w'
     ∧ ordinal (cachedLastRound w') = ordinal (cachedLastRound w) + 1).
Proof.
  intros Hwf Hr Hs. destruct (reachable_InvCheckpoint _ _ _ Hwf Hr) as [HI HC].
  pose proof (persisted_before_finalized _ _ _ Hwf HI HC) as Hle.
  split; [|split; [exact Hle|]].
  - destruct l; try (destruct (iter_same _ _ _ Hs) as [_ E]; [discriminate|];
                     unfold persistedRound; rewrite E; lia).
    iter_at Hs. destruct (handleFinalized_spec _ _ _ _ H)
      as (s & evs & Hk & _ & Hc & _ & _ & _ & _ & _ & _ & _ & _ & _ & _ & _ & _ & Hsr & Hst).
    destruct HI as [HR _ _ _].
    destruct (inv_fin _ HR (mkFinalizeTask s true)) as [Hs1 Hs2];
      [eapply list_elem_of_lookup_2; eauto|]. simpl in Hs1.
    pose proof (ordinal_bounds _ (inv_a _ HR)).
    pose proof (ordinal_bounds _ (inv_c _ HR)).
    destruct dbErr as [failure|].
    + unfold handleFinalized in H. rewrite Hk in H. inv_ok.
      unfold persistedRound. simpl. fold (persistedRound w). lia.
    + unfold persistedRound in *. rewrite (Hst eq_refl). simpl. rewrite Hsr.
      rewrite (ordinal_small (sRound s)) by lia. lia.
  - intros Hne.
    destruct l; try (destruct (iter_same _ _ _ Hs) as [_ E]; [discriminate|];
                     congruence).
    iter_at Hs. destruct (handleFinalized_spec _ _ _ _ H)
      as (s & evs & Hk & _ & Hc & _ & _ & _ & _ & _ & _ & _ & _ & _ & _ & _ & _ & Hsr & Hst).
    destruct HI as [HR _ _ _].
    destruct (inv_fin _ HR (mkFinalizeTask s true)) as [Hs1 Hs2];
      [eapply list_elem_of_lookup_2; eauto|]. simpl in Hs1.
    pose proof (ordinal_bounds _ (inv_a _ HR)).
    pose proof (ordinal_bounds _ (inv_c _ HR)).
    destruct dbErr as [failure|].
    + exfalso. apply Hne. unfold handleFinalized in H. rewrite Hk in H. inv_ok.
      reflexivity.
    + split; [eauto|]. unfold persistedRound. rewrite (Hst eq_refl). simpl.
      rewrite Hsr, Hc. split; [reflexivity|]. rewrite ordinal_small; lia.
Qed.

Lemma checkpoint_round_never_goes_back_witness :
  ordinal (persistedRound (sampleRun round0Processed))
  <= ordinal (persistedRound (sampleRun (round0Processed ++ [LFinalized 0 None]))).
Proof.
  destruct (checkpoint_round_never_goes_back (sampleBlock 0) None
              (sampleRun round0Processed)
              (sampleRun (round0Processed ++ [LFinalized 0 None]))
              (LFinalized 0 None)) as (Hle & _).
  - apply sample_wfStart.
  - apply sampleRun_reachableFrom; [sample_labels|vm_compute; reflexivity].
  - vm_compute. reflexivity.
  - exact Hle.
Defined.

(** X10: when the write to the state store succeeded, a restart of the
    node on that store resumes where the worker was: the round
    finalized last is the one just written, the sentinel is the same,
    and GetLastSynced answers the same. *)
Theorem restart_resumes_from_checkpoint (g : Block) (db : option watcherState)
    (w w' : World) (k : nat) :
  wfStart g db → reachableFrom wfLabel (workerInit g db) w →
  iter (LFinalized k None) w = Ok w' →
  wfStart g (stateStore w')
  ∧ undefinedRound (workerInit g (stateStore w')) = undefinedRound w'
  ∧ cachedLastRound (workerInit g (stateStore w')) = cachedLastRound w'
  ∧ lastFullyAppliedRound (workerInit g (stateStore w')) = cachedLastRound w'
  ∧ GetLastSynced (workerInit g (stateStore w')) = GetLastSynced w'.
Proof.
  intros Hwf Hr Hs.
  assert (Hr' : reachableFrom wfLabel (workerInit g db) w')
    by (eapply (reach_step _ _ _ (LFinalized k None)); [exact Hr|exact I|exact Hs]).
  destruct (reachable_InvCheckpoint _ _ _ Hwf Hr') as [HI' HC'].
  iter_at Hs. destruct (handleFinalized_spec _ _ _ _ H)
    as (s & evs & Hk & _ & Hc & _ & _ & _ & _ & _ & _ & _ & _ & _ & _ & _ & _ & Hsr & Hst).
  specialize (Hst eq_refl).
  destruct (reachable_InvCheckpoint _ _ _ Hwf Hr) as [[HR _ _ _] HC].
  destruct (inv_fin _ HR (mkFinalizeTask s true)) as [Hs1 Hs2];
    [eapply list_elem_of_lookup_2; eauto|]. simpl in Hs1.
  pose proof (ordinal_bounds _ (inv_a _ HR)).
  pose proof (ordinal_bounds _ (inv_c _ HR)).
  pose proof (inv_uc _ HR) as Huc.
  rewrite (ck_undefined _ _ _ HC), sub64_1 in Huc by apply Hwf.
  assert (Hb : hRound (bHeader g) <= sRound s < MaxUint64) by lia.
  assert (Hg0 : 0 <= hRound (bHeader g)) by apply Hwf.
  split.
  { split; [apply Hwf|]. rewrite Hst. intros st [= <-]. rewrite Hsr.
    unfold isUint64. lia. }
  rewrite Hst. unfold workerInit, GetLastSynced. simpl.
  rewrite Hsr, Hc, (ck_undefined _ _ _ HC').
  assert (E1 : (sRound s =? defaultUndefinedRound) = false)
    by (apply Z.eqb_neq; rewrite defaultUndefinedRound_eq; lia).
  assert (E2 : (sRound s <? hRound (bHeader g)) = false) by (apply Z.ltb_ge; lia).
  rewrite E1, E2. simpl. repeat split; reflexivity.
Qed.

Lemma restart_resumes_from_checkpoint_witness :
  cachedLastRound
    (workerInit (sampleBlock 0)
       (stateStore (sampleRun (round0Processed ++ [LFinalized 0 None]))))
  = cachedLastRound (sampleRun (round0Processed ++ [LFinalized 0 None])).
Proof.
  destruct (restart_resumes_from_checkpoint (sampleBlock 0) None
              (sampleRun round0Processed)
              (sampleRun (round0Processed ++ [LFinalized 0 None])) 0)
    as (_ & _ & Hc & _).
  - apply sample_wfStart.
  - apply sampleRun_reachableFrom; [sample_labels|vm_compute; reflexivity].
  - vm_compute. reflexivity.
  - exact Hc.
Defined.

(** * The new-block handler, phase by phase *)

Lemma handleNewBlock_unfold blk getBlock w :
  handleNewBlock blk getBlock w
  = (let w0 := installDummy blk (emit [EvLog LogDebug "incoming block"] w) in
     w1 ← catchUp getBlock
            (Z.to_nat (hRound (bHeader blk) - startSummaryRound w0))
            (startSummaryRound w0) (hRound (bHeader blk)) w0;
     scheduleLoop
       (Z.to_nat (hRound (bHeader blk)
                  - add64 (cachedLastRound (cacheIncoming blk w1)) 1 + 1))
       (add64 (cachedLastRound (cacheIncoming blk w1)) 1)
       (hRound (bHeader blk)) (cacheIncoming blk w1)).
Proof. reflexivity. Qed.

Lemma cacheIncoming_keeps blk w k v :
  hashCache w !! k = Some v → hashCache (cacheIncoming blk w) !! k = Some v.
Proof.
  unfold cacheIncoming. destruct (hashCache w !! hRound (bHeader blk)) eqn:E;
    [auto|]. simpl. intros Hk. rewrite lookup_insert_ne; [exact Hk|congruence].
Qed.

Lemma cacheIncoming_has blk w :
  is_Some (hashCache (cacheIncoming blk w) !! hRound (bHeader blk)).
Proof.
  unfold cacheIncoming. destruct (hashCache w !! hRound (bHeader blk)) eqn:E;
    [eauto|]. simpl. rewrite lookup_insert_eq. eauto.
Qed.

Lemma installDummy_keeps blk w k v :
  hashCache w !! k = Some v → hashCache (installDummy blk w) !! k = Some v.
Proof.
  unfold installDummy.
  destruct (bool_decide (is_Some (hashCache w !! cachedLastRound w))) eqn:E;
    simpl; [auto|].
  destruct (cachedLastRound w =? undefinedRound w); [|auto]. simpl.
  intros Hk. rewrite lookup_insert_ne; [exact Hk|].
  intros <-. apply bool_decide_eq_false in E. apply E. eauto.
Qed.

Lemma installDummy_has blk w :
  cachedLastRound w = undefinedRound w →
  is_Some (hashCache (installDummy blk w) !! cachedLastRound w).
Proof.
  intros Hcu. unfold installDummy.
  destruct (bool_decide (is_Some (hashCache w !! cachedLastRound w))) eqn:E; simpl.
  - now apply bool_decide_eq_true in E.
  - rewrite Hcu, Z.eqb_refl. simpl. rewrite lookup_insert_eq. eauto.
Qed.

Lemma sub64_succ (c : Z) : isUint64 c → sub64 (ordinal c + 1) 1 = c.
Proof.
  unfold isUint64, sub64, wrap64, ordinal. rewrite MaxUint64_eq. intros Hc.
  destruct (Z.eqb_spec c 18446744073709551615) as [->|Hne]; [reflexivity|].
  replace (c + 1 - 1) with c by lia. apply Z.mod_small. lia.
Qed.

Lemma sub64_pred (j : Z) : 0 < j <= MaxUint64 → sub64 j 1 = j - 1.
Proof.
  unfold sub64, wrap64. rewrite MaxUint64_eq. intros Hj. apply Z.mod_small. lia.
Qed.

(** What the handler has made sure of when it starts to schedule: the
    summaries of the rounds it goes through, and of the round before
    each, are cached. *)
Lemma newBlock_prefix blk getBlock w w1 :
  wfLabel (LNewBlock blk getBlock) → Inv w →
  catchUp getBlock
    (Z.to_nat (hRound (bHeader blk)
               - startSummaryRound
                   (installDummy blk (emit [EvLog LogDebug "incoming block"] w))))
    (startSummaryRound
       (installDummy blk (emit [EvLog LogDebug "incoming block"] w)))
    (hRound (bHeader blk))
    (installDummy blk (emit [EvLog LogDebug "incoming block"] w)) = Ok w1 →
  Inv (cacheIncoming blk w1)
  ∧ quietStep w (cacheIncoming blk w1)
  ∧ syncingRounds (cacheIncoming blk w1) = syncingRounds w
  ∧ fetching (cacheIncoming blk w1) = fetching w
  ∧ (∀ k v, hashCache w !! k = Some v →
       hashCache (cacheIncoming blk w1) !! k = Some v)
  ∧ (∀ j, ordinal (cachedLastRound w) < j <= hRound (bHeader blk) →
       is_Some (hashCache (cacheIncoming blk w1) !! j)
       ∧ is_Some (hashCache (cacheIncoming blk w1) !! sub64 j 1)).
Proof.
  intros [HR Hwf] HI Hcu.
  set (we := emit [EvLog LogDebug "incoming block"] w) in *.
  set (w0 := installDummy blk we) in *.
  assert (HIe : Inv we).
  { destruct HI as [H1 H2 H3 H4]. constructor.
    - eapply InvRounds_eq; [..|exact H1]; reflexivity.
    - exact H2.
    - eapply InvPending_eq; [..|exact H3]; reflexivity.
    - eapply InvTrace_eq; [..|exact H4]; simpl;
        rewrite ?popRounds_app, ?applyCalls_app, ?finalizeRounds_app; simpl;
        rewrite ?app_nil_r; reflexivity. }
  assert (HI0 : Inv w0) by (apply installDummy_Inv; exact HIe).
  assert (HI1 : Inv w1) by (eapply catchUp_Inv; eauto).
  assert (HI2 : Inv (cacheIncoming blk w1)) by (apply cacheIncoming_Inv; exact HI1).
  assert (Hqe : quietStep w we).
  { constructor; simpl;
      rewrite ?popRounds_app, ?applyCalls_app, ?finalizeRounds_app; simpl;
      rewrite ?app_nil_r; reflexivity. }
  assert (Hq0 : quietStep w w0)
    by (eapply quietStep_trans; [exact Hqe|apply installDummy_quiet]).
  assert (Hq1 : quietStep w w1)
    by (eapply quietStep_trans; [exact Hq0|eapply catchUp_quiet; eauto]).
  assert (Hq2 : quietStep w (cacheIncoming blk w1))
    by (eapply quietStep_trans; [exact Hq1|apply cacheIncoming_quiet]).
  destruct (catchUp_frame _ _ _ _ _ _ Hcu) as (Hsy1 & Hfe1 & Hke1).
  assert (Hsy0 : syncingRounds w0 = syncingRounds w ∧ fetching w0 = fetching w).
  { unfold w0, installDummy. destruct (_ && _); split; reflexivity. }
  assert (Hsy2 : ∀ w', syncingRounds (cacheIncoming blk w') = syncingRounds w'
                       ∧ fetching (cacheIncoming blk w') = fetching w').
  { intros w'. unfold cacheIncoming. destruct (_ !! _); split; reflexivity. }
  split; [exact HI2|]. split; [exact Hq2|].
  split; [rewrite (proj1 (Hsy2 w1)), Hsy1; apply Hsy0|].
  split; [rewrite (proj2 (Hsy2 w1)), Hfe1; apply Hsy0|].
  assert (Hkeep : ∀ k v, hashCache w0 !! k = Some v →
                         hashCache (cacheIncoming blk w1) !! k = Some v).
  { intros k v Hk. apply cacheIncoming_keeps, Hke1. exact Hk. }
  split.
  { intros k v Hk. apply Hkeep. unfold w0. apply installDummy_keeps. exact Hk. }
  (* coverage *)
  destruct HI as [HRo _ _ _].
  pose proof (inv_c _ HRo) as Hc. pose proof (inv_u _ HRo) as Hu.
  pose proof (inv_uc _ HRo) as Huc.
  pose proof (ordinal_bounds _ Hc) as Hcb.
  assert (Hc0 : cachedLastRound w0 = cachedLastRound w) by apply Hq0.
  assert (Hu0 : undefinedRound w0 = undefinedRound w) by apply Hq0.
  assert (Hstart : 0 <= startSummaryRound w0 <= ordinal (cachedLastRound w) + 1
                   ∧ (cachedLastRound w ≠ undefinedRound w →
                      startSummaryRound w0 = cachedLastRound w
                      ∧ ordinal (cachedLastRound w) = cachedLastRound w)).
  { unfold startSummaryRound. rewrite Hc0, Hu0.
    destruct (Z.eqb_spec (cachedLastRound w) (undefinedRound w)) as [E|E].
    - rewrite add64_1 by exact Hc. split; [lia|]. intros Hne. contradiction.
    - assert (Hne : cachedLastRound w ≠ MaxUint64).
      { intros Emax. rewrite Emax in Huc. change (ordinal MaxUint64) with (-1) in Huc.
        pose proof (ordinal_bounds _ Hu).
        apply E. rewrite Emax. symmetry.
        destruct (Z.eq_dec (undefinedRound w) MaxUint64) as [|Hn]; [assumption|].
        rewrite (ordinal_small _ Hn) in Huc. unfold isUint64 in Hu. lia. }
      rewrite (ordinal_small _ Hne). unfold isUint64 in Hc. split; [lia|].
      intros _. split; reflexivity. }
  destruct Hstart as [Hsb Hsne].
  destruct (catchUp_lookups _ _ _ _ _ _ HR (proj1 Hsb) Hcu) as (_ & Hcov & _).
  assert (Hthis : ∀ j, ordinal (cachedLastRound w) < j <= hRound (bHeader blk) →
                       is_Some (hashCache (cacheIncoming blk w1) !! j)).
  { intros j Hj. destruct (Z.eq_dec j (hRound (bHeader blk))) as [->|Hne].
    - apply cacheIncoming_has.
    - destruct (Hcov j ltac:(lia)) as [v Hv]. exists v.
      now apply cacheIncoming_keeps. }
  intros j Hj. split; [now apply Hthis|].
  destruct (Z.eq_dec j (ordinal (cachedLastRound w) + 1)) as [->|Hne].
  - rewrite sub64_succ by exact Hc.
    destruct (Z.eq_dec (cachedLastRound w) (undefinedRound w)) as [E|E].
    + assert (Hd : is_Some (hashCache w0 !! cachedLastRound w)).
      { exact (installDummy_has blk we E). }
      destruct Hd as [v Hv]. exists v. now apply Hkeep.
    + destruct (Hsne E) as [Hs1 Hs2].
      destruct (Hcov (cachedLastRound w) ltac:(lia)) as [v Hv]. exists v.
      now apply cacheIncoming_keeps.
  - rewrite sub64_pred by (unfold isUint64 in HR; lia). apply Hthis. lia.
Qed.

(** ** The scheduling loop *)

Lemma scheduleRound_Ok i w :
  is_Some (hashCache w !! i) → ∃ w', scheduleRound i w = Ok w'.
Proof.
  intros [this Hthis]. unfold scheduleRound.
  destruct (match syncingRounds w !! i with Some _ => _ | None => _ end);
    [eauto|].
  assert (E : hashCache (emit [EvLog LogDebug "preparing round sync"]
                (match syncingRounds w !! i with
                 | Some _ => w
                 | None =>
                     setSyncingRounds
                       (<[i := {| outstanding := maskNone; awaitingRetry := maskAll |}]>
                          (syncingRounds w)) w
                 end)) !! i = Some this)
    by (destruct (syncingRounds w !! i); exact Hthis).
  cbv zeta. rewrite E. simpl. eauto.
Qed.

Lemma scheduleLoop_Ok fuel i R w :
  isUint64 i → 0 <= R < MaxUint64 →
  (i <= R → R - i + 1 <= Z.of_nat fuel) →
  (∀ j, i <= j <= R → is_Some (hashCache w !! j)) →
  ∃ w', scheduleLoop fuel i R w = Ok w'.
Proof.
  revert i w. induction fuel as [|fuel IH]; intros i w Hi HR Hf Hcov; simpl.
  - destruct (Z.leb_spec i R); [lia|eauto].
  - destruct (Z.leb_spec i R); [|eauto].
    destruct (scheduleRound_Ok i w) as [w1 Hw1]; [apply Hcov; lia|].
    rewrite Hw1. simpl.
    assert (Hi1 : add64 i 1 = i + 1).
    { rewrite add64_1, ordinal_small by (unfold isUint64 in *; lia). lia. }
    apply IH.
    + apply add64_isUint64.
    + exact HR.
    + lia.
    + intros j Hj. rewrite (scheduleRound_hashCache _ _ _ Hw1). apply Hcov. lia.
Qed.

(** A property kept by each round of the loop is kept by the loop. *)
Lemma scheduleLoop_ind (Q : World → Prop) (lo c0 : Z)
    (h0 : gmap Z blockSummary) fuel i R w w' :
  (∀ j w0 w1, Inv w0 → cachedLastRound w0 = c0 → hashCache w0 = h0 →
     lo <= j <= R → j < MaxUint64 →
     Q w0 → scheduleRound j w0 = Ok w1 → Q w1) →
  isUint64 i → isUint64 R → lo <= i →
  (i <= R → Z.of_nat fuel <= R - i + 1) →
  cachedLastRound w = c0 → hashCache w = h0 →
  ordinal c0 < i →
  scheduleLoop fuel i R w = Ok w' → Inv w → Q w → Q w'.
Proof.
  intros Hstep. revert i w.
  induction fuel as [|fuel IH]; intros i w Hi HR Hlo Hf Hc0 Hh0 Hc; simpl.
  - destruct (Z.leb_spec i R); intros Hs; inv_ok. auto.
  - destruct (Z.leb_spec i R); intros Hs HI HQ; [|inv_ok; auto].
    assert (Hmax : R < MaxUint64).
    { eapply (scheduleLoop_bound (S fuel) i R w w'); eauto.
      simpl. destruct (Z.leb_spec i R); [exact Hs|lia]. }
    specialize (Hf ltac:(assumption)).
    inv_ok.
    assert (Hi1 : add64 i 1 = i + 1).
    { rewrite add64_1, ordinal_small by (unfold isUint64 in *; lia). lia. }
    assert (Hca : cachedLastRound a = cachedLastRound w)
      by (apply (scheduleRound_quiet _ _ _ Hstep0)).
    assert (Hha : hashCache a = hashCache w)
      by (apply (scheduleRound_hashCache _ _ _ Hstep0)).
    assert (HIa : Inv a)
      by (eapply scheduleRound_Inv; eauto; rewrite Hc0; lia).
    assert (HQa : Q a) by (eapply (Hstep i w a); eauto; lia).
    revert Hs HIa HQa. apply IH; try assumption.
    + apply add64_isUint64.
    + lia.
    + lia.
    + congruence.
    + congruence.
    + lia.
Qed.

(** * The marks of a round and its fetches *)

Lemma mask_cases (o : Z) : 0 <= o <= maskAll → o = 0 ∨ o = 1 ∨ o = 2 ∨ o = 3.
Proof. change maskAll with 3. lia. Qed.

Lemma maskClear_range (o m : Z) :
  0 <= o <= maskAll → (m = maskIO ∨ m = maskState) →
  0 <= maskClear o m <= maskAll.
Proof.
  intros Ho Hm. apply mask_cases in Ho.
  destruct Ho as [-> | [-> | [-> | ->]]], Hm as [-> | ->];
    vm_compute; split; discriminate.
Qed.

Lemma maskSet_range (o m : Z) :
  0 <= o <= maskAll → (m = maskIO ∨ m = maskState) →
  0 <= maskSet o m <= maskAll.
Proof.
  intros Ho Hm. apply mask_cases in Ho.
  destruct Ho as [-> | [-> | [-> | ->]]], Hm as [-> | ->];
    vm_compute; split; discriminate.
Qed.

Lemma maskClear_bit (o m m' : Z) :
  0 <= o <= maskAll → (m = maskIO ∨ m = maskState) →
  (m' = maskIO ∨ m' = maskState) →
  Z.land (maskClear o m) m' ≠ 0 → Z.land o m' ≠ 0 ∧ m' ≠ m.
Proof.
  intros Ho Hm Hm'. apply mask_cases in Ho.
  destruct Ho as [-> | [-> | [-> | ->]]], Hm as [-> | ->], Hm' as [-> | ->];
    vm_compute; intros H; split; try discriminate; try (exfalso; now apply H).
Qed.

Lemma maskSet_bit (o m m' : Z) :
  0 <= o <= maskAll → (m = maskIO ∨ m = maskState) →
  (m' = maskIO ∨ m' = maskState) →
  Z.land (maskSet o m) m' ≠ 0 → m' = m ∨ Z.land o m' ≠ 0.
Proof.
  intros Ho Hm Hm'. apply mask_cases in Ho.
  destruct Ho as [-> | [-> | [-> | ->]]], Hm as [-> | ->], Hm' as [-> | ->];
    vm_compute; intros H; try (left; reflexivity); try (right; discriminate);
    exfalso; now apply H.
Qed.

Lemma InvOutstanding_eq w w' :
  syncingRounds w' = syncingRounds w →
  outOfOrderDiffs w' = outOfOrderDiffs w →
  fetching w' = fetching w →
  InvOutstanding w → InvOutstanding w'.
Proof.
  intros Hs Hd Hf [O1 O2]. constructor; unfold pending; rewrite ?Hs, ?Hd, ?Hf;
    assumption.
Qed.

Lemma workerInit_InvOutstanding g db : InvOutstanding (workerInit g db).
Proof. constructor; simpl; intros r e; rewrite lookup_empty; discriminate. Qed.

Lemma applyStep_InvOutstanding res w w' :
  Inv w → guardDiffs w = Ok true → applyStep res w = Ok w' →
  InvOutstanding w → InvOutstanding w'.
Proof.
  intros HI Hg Hs [O1 O2]. apply_step_facts HI Hg Hs.
  destruct HI as [HR HH HP HT].
  assert (Hpend : pending w ≡ₚ (round d, fetchMask d) :: pending w').
  { unfold pending. rewrite Hq, Hfe, Hperm. reflexivity. }
  assert (Hkeep : ∀ x, x ∈ pending w → x ≠ (round d, fetchMask d) → x ∈ pending w').
  { intros x Hx Hne'. rewrite Hpend in Hx. apply elem_of_cons in Hx as [->|Hx];
      [contradiction|exact Hx]. }
  destruct (O1 _ _ He) as [Ho Haw].
  assert (Hsy : ∀ r e2, syncingRounds w' !! r = Some e2 →
            (r ≠ round d ∧ syncingRounds w !! r = Some e2)
            ∨ (r = round d
               ∧ e2 = {| outstanding := maskClear (outstanding e) (fetchMask d);
                         awaitingRetry := awaitingRetry e |})).
  { intros r e2. destruct (_ && _) in Hcase.
    - destruct Hcase as (-> & _). intros Hl.
      apply lookup_delete_Some in Hl as [Hne' Hl]. left. split; [congruence|exact Hl].
    - destruct Hcase as (-> & _). intros Hl.
      apply lookup_insert_Some in Hl as [[<- <-]|[Hne' Hl]]; [right; auto|left].
      split; [congruence|exact Hl]. }
  constructor.
  - intros r e2 Hl. destruct (Hsy _ _ Hl) as [[_ Hl']|[_ ->]]; [eauto|].
    simpl. split; [now apply maskClear_range|exact Haw].
  - intros r e2 m' Hl Hm' Hbit'. destruct (Hsy _ _ Hl) as [[Hne' Hl']|[-> ->]].
    + apply Hkeep; [eapply O2; eauto|]. congruence.
    + simpl in Hbit'.
      destruct (maskClear_bit _ _ _ Ho Hm Hm' Hbit') as [Hb1 Hb2].
      apply Hkeep; [eapply O2; eauto|]. congruence.
Qed.

Lemma handleDiff_InvOutstanding k st w w' :
  InvPending w → handleDiff k st w = Ok w' →
  InvOutstanding w → InvOutstanding w'.
Proof.
  intros HP Hs [O1 O2].
  destruct (handleDiff_frame _ _ _ _ Hs)
    as (Hu & Hc & Ha & Hap & Hha & Hfi & Hrun & Hfe & _).
  destruct (handleDiff_spec _ _ _ _ Hs) as (t & prev & Hk & Hprev & Hi).
  destruct (fetchDiffBody_fields st (tRound t) prev (tThis t) (tMask t))
    as (Fr & Fm & Ft & _).
  set (item := (fetchDiffBody st (tRound t) prev (tThis t) (tMask t)).1) in *.
  apply handleItem_spec in Hi.
  assert (Htin : t ∈ fetching w) by (eapply list_elem_of_lookup_2; eauto).
  destruct (inv_pending _ HP _ _ (pending_task _ _ Htin)) as (_ & Hm & _).
  rewrite <- Fm in Hm.
  destruct (err item) as [failure|].
  - destruct Hi as (e & He & Hw'). simpl in He.
    assert (Hpend : pending w ≡ₚ (round item, fetchMask item) :: pending w').
    { unfold pending. rewrite Hfe. subst w'.
      replace (round item, fetchMask item) with (taskKey t)
        by (unfold taskKey; congruence).
      now apply keys_remove_task. }
    assert (Hkeep : ∀ x, x ∈ pending w → x ≠ (round item, fetchMask item) →
                         x ∈ pending w').
    { intros x Hx Hne'. rewrite Hpend in Hx. apply elem_of_cons in Hx as [->|Hx];
        [contradiction|exact Hx]. }
    destruct (O1 _ _ He) as [Ho Haw].
    assert (Hsy : ∀ r e2, syncingRounds w' !! r = Some e2 →
              (r ≠ round item ∧ syncingRounds w !! r = Some e2)
              ∨ (r = round item
                 ∧ e2 = {| outstanding := maskClear (outstanding e) (fetchMask item);
                           awaitingRetry := maskSet (awaitingRetry e) (fetchMask item) |})).
    { intros r e2. subst w'. simpl. intros Hl.
      apply lookup_insert_Some in Hl as [[<- <-]|[Hne' Hl]]; [right; auto|left].
      split; [congruence|exact Hl]. }
    constructor.
    + intros r e2 Hl. destruct (Hsy _ _ Hl) as [[_ Hl']|[_ ->]]; [eauto|].
      simpl. split; [now apply maskClear_range|now apply maskSet_range].
    + intros r e2 m' Hl Hm' Hbit'. destruct (Hsy _ _ Hl) as [[Hne' Hl']|[-> ->]].
      * apply Hkeep; [eapply O2; eauto|]. congruence.
      * simpl in Hbit'.
        destruct (maskClear_bit _ _ _ Ho Hm Hm' Hbit') as [Hb1 Hb2].
        apply Hkeep; [eapply O2; eauto|]. congruence.
  - destruct Hi as (q & Hq & Hw'). simpl in Hq.
    apply heapPush_Permutation in Hq.
    assert (Hdq : outOfOrderDiffs w' = q) by (subst w'; reflexivity).
    assert (Hsy : syncingRounds w' = syncingRounds w) by (subst w'; reflexivity).
    assert (Hpend : pending w' ≡ₚ pending w).
    { unfold pending. rewrite Hfe, Hdq.
      rewrite (keys_remove_task _ _ _ _ Hk).
      transitivity ((diffKey <$> item :: outOfOrderDiffs w)
                      ++ (taskKey <$> delete k (fetching w))).
      - apply Permutation_app_tail. now apply fmap_Permutation.
      - rewrite fmap_cons. simpl. apply Permutation_cons; [|reflexivity].
        unfold diffKey, taskKey. congruence. }
    constructor.
    + rewrite Hsy. exact O1.
    + intros r e2 m' Hl Hm' Hbit'. rewrite Hpend. rewrite Hsy in Hl. eauto.
Qed.

Lemma scheduleSubtree_InvOutstanding i m t w :
  (m = maskIO ∨ m = maskState) → taskKey t = (i, m) →
  InvOutstanding w → InvOutstanding (scheduleSubtree i m t w).
Proof.
  intros Hm Hkey [O1 O2]. unfold scheduleSubtree.
  destruct (syncingRounds w !! i) as [e|] eqn:He; [|constructor; assumption].
  destruct (needsFetch e m) eqn:Hn; [|constructor; assumption].
  destruct (O1 _ _ He) as [Ho Haw].
  assert (Hpend : pending (submitFetch i (markOutstanding e m) t w)
                  = pending w ++ [(i, m)]).
  { unfold pending. simpl. rewrite fmap_app. simpl. rewrite Hkey.
    now rewrite app_assoc. }
  constructor.
  - intros r e2. simpl. intros Hl.
    apply lookup_insert_Some in Hl as [[<- <-]|[Hne Hl]]; [|eauto].
    simpl. split; [now apply maskSet_range|now apply maskClear_range].
  - intros r e2 m' Hl Hm' Hbit. rewrite Hpend. apply elem_of_app.
    simpl in Hl. apply lookup_insert_Some in Hl as [[<- <-]|[Hne Hl]].
    + simpl in Hbit. destruct (maskSet_bit _ _ _ Ho Hm Hm' Hbit) as [->|Hb].
      * right. now left.
      * left. eapply O2; eauto.
    + left. eapply O2; eauto.
Qed.

Lemma scheduleRound_InvOutstanding i w w' :
  InvHash w → i ≠ undefinedRound w →
  scheduleRound i w = Ok w' → InvOutstanding w → InvOutstanding w'.
Proof.
  intros HH Hne. unfold scheduleRound. intros Hs HO.
  destruct (match syncingRounds w !! i with Some _ => _ | None => _ end);
    inv_ok; [assumption|].
  rename a into this.
  assert (Hthis : hashCache w !! i = Some this).
  { destruct (syncingRounds w !! i); exact Hstep. }
  destruct (HH _ _ Hthis) as [_ Hrd]. specialize (Hrd Hne).
  apply scheduleSubtree_InvOutstanding; [auto|unfold taskKey; simpl; congruence|].
  apply scheduleSubtree_InvOutstanding; [auto|unfold taskKey; simpl; congruence|].
  destruct HO as [O1 O2].
  destruct (syncingRounds w !! i) eqn:Hf.
  - constructor; assumption.
  - constructor.
    + intros r e2. simpl. intros Hl.
      apply lookup_insert_Some in Hl as [[<- <-]|[Hne' Hl]]; [|eauto].
      simpl. vm_compute. repeat split; discriminate.
    + intros r e2 m' Hl Hm' Hbit.
      change (pending _) with (pending w).
      simpl in Hl. apply lookup_insert_Some in Hl as [[<- <-]|[Hne' Hl]];
        [|eapply O2; eauto].
      simpl in Hbit. exfalso. apply Hbit. reflexivity.
Qed.

Lemma ordinal_above (c u j : Z) :
  isUint64 u → ordinal u <= ordinal c → ordinal c < j → j < MaxUint64 → j ≠ u.
Proof.
  intros Hu Huc Hcj Hj ->. pose proof (ordinal_bounds _ Hu).
  rewrite ordinal_small in Huc by lia. lia.
Qed.

Lemma handleNewBlock_InvOutstanding blk getBlock w w' :
  wfLabel (LNewBlock blk getBlock) → Inv w →
  handleNewBlock blk getBlock w = Ok w' →
  InvOutstanding w → InvOutstanding w'.
Proof.
  intros Hwf HI Hs HO. rewrite handleNewBlock_unfold in Hs. cbv zeta in Hs.
  inv_ok. rename a into w1.
  destruct (newBlock_prefix _ _ _ _ Hwf HI Hstep)
    as (HI2 & Hq2 & Hsy2 & Hfe2 & _ & _).
  pose proof (inv_c _ (inv_rounds _ HI2)) as Hc2.
  eapply (scheduleLoop_ind InvOutstanding
            (add64 (cachedLastRound (cacheIncoming blk w1)) 1)
            (cachedLastRound (cacheIncoming blk w1))
            (hashCache (cacheIncoming blk w1))
            (Z.to_nat (hRound (bHeader blk)
                       - add64 (cachedLastRound (cacheIncoming blk w1)) 1 + 1))
            (add64 (cachedLastRound (cacheIncoming blk w1)) 1)
            (hRound (bHeader blk)) (cacheIncoming blk w1) w');
    [ |apply add64_isUint64|apply Hwf|lia|lia|reflexivity|reflexivity
    |rewrite add64_1 by exact Hc2; lia|exact Hs|exact HI2| ].
  - intros j w0 wj HI0 Hc0 Hh0 Hj Hmax HQ Hsj.
    eapply scheduleRound_InvOutstanding; [apply HI0| |exact Hsj|exact HQ].
    destruct HI0 as [HR0 _ _ _].
    apply (ordinal_above (cachedLastRound w0)); [apply HR0|apply HR0| |exact Hmax].
    rewrite Hc0. rewrite add64_1 in Hj by exact Hc2. lia.
  - eapply InvOutstanding_eq; [exact Hsy2| |exact Hfe2|exact HO]. apply Hq2.
Qed.

Lemma iter_InvOutstanding l w w' :
  wfLabel l → Inv w → iter l w = Ok w' → InvOutstanding w → InvOutstanding w'.
Proof.
  intros Hwf HI Hs HO. iter_split Hs.
  - destruct (runFinalize_spec _ _ _ _ H) as (s & _ & ->).
    eapply InvOutstanding_eq; [..|exact HO]; reflexivity.
  - eapply applyStep_InvOutstanding; eauto.
  - destruct (spawnStep_spec _ _ H) as (s & q & _ & ->).
    eapply InvOutstanding_eq; [..|exact HO]; reflexivity.
  - unfold handlePruned in H.
    destruct x0; inv_ok; (eapply InvOutstanding_eq; [..|exact HO]; reflexivity).
  - eapply handleNewBlock_InvOutstanding; eauto.
  - eapply handleDiff_InvOutstanding; eauto. apply HI.
  - destruct (handleFinalized_spec _ _ _ _ H)
      as (s & evs & _ & _ & _ & _ & Hd & _ & Hsy & _ & Hfe & _).
    eapply InvOutstanding_eq; [exact Hsy|exact Hd|exact Hfe|exact HO].
  - eapply InvOutstanding_eq; [..|exact HO]; reflexivity.
Qed.

Lemma Reachable_InvOutstanding w : Reachable w → InvOutstanding w.
Proof.
  intros (g & db & Hwf & Hr).
  assert (HIO : Inv w ∧ InvOutstanding w).
  { induction Hr as [|w l w' Hr [HI HO] Hl Hs].
    - split; [now apply workerInit_Inv|apply workerInit_InvOutstanding].
    - split; [eapply iter_Inv; eauto|eapply iter_InvOutstanding; eauto]. }
  apply HIO.
Qed.

(** X11: for every round in syncing_rounds, a subtree is marked
    outstanding exactly when a fetch of it is under way, as a task of
    the pool or as a result waiting in the diffs queue; there is one
    such fetch at most for a round and a subtree, and the two masks hold
    no bit but those of the two subtrees. *)
Theorem outstanding_marks_fetches_under_way (w : World) :
  Reachable w →
  NoDup (pending w)
  ∧ (∀ r m, (r, m) ∈ pending w →
       (m = maskIO ∨ m = maskState)
       ∧ ∃ e, syncingRounds w !! r = Some e ∧ Z.land (outstanding e) m ≠ 0)
  ∧ (∀ r e m, syncingRounds w !! r = Some e → (m = maskIO ∨ m = maskState) →
       Z.land (outstanding e) m ≠ 0 → (r, m) ∈ pending w)
  ∧ (∀ r e, syncingRounds w !! r = Some e →
       0 <= outstanding e <= maskAll ∧ 0 <= awaitingRetry e <= maskAll).
Proof.
  intros Hr. destruct (Reachable_Inv _ Hr) as [_ _ HP _].
  destruct (Reachable_InvOutstanding _ Hr) as [O1 O2].
  split; [apply HP|]. split; [|split; assumption].
  intros r m Hin. destruct (inv_pending _ HP _ _ Hin) as (_ & Hm & _ & He).
  split; assumption.
Qed.

Lemma outstanding_marks_fetches_under_way_witness :
  pending (sampleRun round1First) = [(1, maskIO); (1, maskState); (0, maskIO); (0, maskState)]
  ∧ NoDup (pending (sampleRun round1First)).
Proof.
  split; [vm_compute; reflexivity|].
  apply (outstanding_marks_fetches_under_way (sampleRun round1First)).
  apply round1First_Reachable.
Defined.

(** * The roots a fetch is given *)

Lemma InvShape_eq w w' :
  undefinedRound w' = undefinedRound w →
  cachedLastRound w' = cachedLastRound w →
  hashCache w' = hashCache w →
  outOfOrderDiffs w' = outOfOrderDiffs w →
  fetching w' = fetching w →
  applyCalls (trace w') = applyCalls (trace w) →
  InvShape w → InvShape w'.
Proof.
  intros Hu Hc Hh Hd Hf Ha [S1 S2 S3 S4].
  constructor; rewrite ?Hu, ?Hc, ?Hh, ?Hd, ?Hf, ?Ha; assumption.
Qed.

Lemma workerInit_InvShape g db : InvShape (workerInit g db).
Proof.
  constructor; simpl.
  - intros t Ht. now apply elem_of_nil in Ht.
  - intros d Hd. now apply elem_of_nil in Hd.
  - intros _ s. rewrite lookup_empty. discriminate.
  - intros c Hc. now apply elem_of_nil in Hc.
Qed.

Lemma fetchShape_apply u d :
  fetchShape u (round d) (fetchMask d) (prevRoot d) (thisRoot d) →
  applyShape (applyArgs d).
Proof.
  intros [Hr [[_ Hp]|[_ [Hp|(_ & Hp & Hh)]]]]; unfold applyShape; simpl.
  - left. rewrite Hp. split; reflexivity.
  - right. congruence.
  - left. split; congruence.
Qed.

Lemma applyStep_InvShape res w w' :
  Inv w → guardDiffs w = Ok true → applyStep res w = Ok w' →
  InvShape w → InvShape w'.
Proof.
  intros HI Hg Hs [S1 S2 S3 S4]. apply_step_facts HI Hg Hs.
  assert (Hd : d ∈ outOfOrderDiffs w) by (rewrite Hperm; now left).
  assert (Hh : ∀ k v, hashCache w' !! k = Some v → hashCache w !! k = Some v).
  { intros k v. destruct (_ && _) in Hcase.
    - destruct Hcase as (_ & -> & _). intros Hl.
      now apply lookup_delete_Some in Hl as [_ Hl].
    - destruct Hcase as (_ & -> & _). auto. }
  constructor.
  - rewrite Hfe, Hu. exact S1.
  - rewrite Hu, Hq. intros d' Hd'. apply S2. rewrite Hperm. now right.
  - rewrite Hu, Hc. intros Hcu s' Hs'. apply (S3 Hcu). now apply Hh.
  - rewrite Htr, applyCalls_app, Hac. intros c Hc'.
    apply elem_of_app in Hc' as [Hc'|Hc']; [now apply S4|].
    destruct (fetched d); [|now apply elem_of_nil in Hc'].
    apply list_elem_of_singleton in Hc' as ->. simpl.
    eapply fetchShape_apply. now apply S2.
Qed.

Lemma handleDiff_InvShape k st w w' :
  handleDiff k st w = Ok w' → InvShape w → InvShape w'.
Proof.
  intros Hs [S1 S2 S3 S4].
  destruct (handleDiff_frame _ _ _ _ Hs)
    as (Hu & Hc & Ha & Hap & Hha & Hfi & Hrun & Hfe & _ & Hac & _).
  destruct (handleDiff_spec _ _ _ _ Hs) as (t & prev & Hk & Hprev & Hi).
  destruct (fetchDiffBody_fields st (tRound t) prev (tThis t) (tMask t))
    as (Fr & Fm & Ft & Fp).
  set (item := (fetchDiffBody st (tRound t) prev (tThis t) (tMask t)).1) in *.
  apply handleItem_spec in Hi.
  assert (Htin : t ∈ fetching w) by (eapply list_elem_of_lookup_2; eauto).
  assert (Hfperm : fetching w ≡ₚ t :: delete k (fetching w))
    by (now apply delete_Permutation).
  assert (Hdiffs : ∀ d, d ∈ outOfOrderDiffs w' → d = item ∨ d ∈ outOfOrderDiffs w).
  { intros d. destruct (err item) as [failure|].
    - destruct Hi as (e & _ & ->). simpl. auto.
    - destruct Hi as (q & Hq & ->). simpl. apply heapPush_Permutation in Hq.
      rewrite Hq. intros Hd. apply elem_of_cons in Hd. tauto. }
  constructor.
  - rewrite Hfe, Hu. intros t' Ht'. apply S1. rewrite Hfperm. now right.
  - rewrite Hu. intros d Hd. destruct (Hdiffs d Hd) as [->|Hd']; [|now apply S2].
    destruct (S1 t Htin) as (prev' & Hp' & Hshape).
    assert (prev' = prev) by congruence. subst prev'.
    rewrite Fr, Fm, Ft, Fp. exact Hshape.
  - rewrite Hu, Hc, Hha. exact S3.
  - rewrite Hac. exact S4.
Qed.

Lemma scheduleSubtree_tasks i m t w t' :
  t' ∈ fetching (scheduleSubtree i m t w) → t' ∈ fetching w ∨ t' = t.
Proof.
  unfold scheduleSubtree. destruct (syncingRounds w !! i) as [e|]; [|auto].
  destruct (needsFetch e m); [|auto]. simpl. intros Hin.
  apply elem_of_app in Hin as [Hin|Hin]; [auto|].
  apply list_elem_of_singleton in Hin. auto.
Qed.

Lemma scheduleRound_InvShape j w w' :
  Inv w → ordinal (cachedLastRound w) < j < MaxUint64 →
  is_Some (hashCache w !! sub64 j 1) →
  scheduleRound j w = Ok w' → InvShape w → InvShape w'.
Proof.
  intros HI Hj [sp Hsp] Hs HS.
  pose proof (scheduleRound_quiet _ _ _ Hs) as Hq.
  pose proof (scheduleRound_hashCache _ _ _ Hs) as Hh.
  pose proof HS as [S1 S2 S3 S4].
  destruct HI as [HR HH _ _].
  pose proof (inv_u _ HR) as Hu. pose proof (inv_c _ HR) as Hc.
  pose proof (inv_uc _ HR) as Huc.
  pose proof (ordinal_bounds _ Hu) as Hub.
  pose proof (ordinal_bounds _ Hc) as Hcb.
  assert (Hju : j ≠ undefinedRound w)
    by (apply (ordinal_above (cachedLastRound w)); try assumption; lia).
  constructor.
  2:{ rewrite (quiet_u _ _ Hq), (quiet_diffs _ _ Hq). exact S2. }
  2:{ rewrite (quiet_u _ _ Hq), (quiet_c _ _ Hq), Hh. exact S3. }
  2:{ rewrite (quiet_applies _ _ Hq). exact S4. }
  rewrite (quiet_u _ _ Hq).
  unfold scheduleRound in Hs.
  destruct (match syncingRounds w !! j with Some _ => _ | None => _ end);
    inv_ok; [exact S1|].
  rename a into this.
  assert (Hthis : hashCache w !! j = Some this).
  { destruct (syncingRounds w !! j); exact Hstep. }
  destruct (HH _ _ Hthis) as [[Hio Hst] Hrd]. specialize (Hrd Hju).
  clear Hq Hh Hstep.
  assert (Hprev : ∀ w0, hashCache w0 = hashCache w →
                        hashCache w0 !! sub64 j 1 = Some sp)
    by (intros w0 ->; exact Hsp).
  match goal with
  | |- context [hashCache ?x !! sub64 j 1] =>
      rewrite (Hprev x) by (destruct (syncingRounds w !! j); reflexivity)
  end.
  intros t Ht.
  apply scheduleSubtree_tasks in Ht as [Ht | ->].
  - apply scheduleSubtree_tasks in Ht as [Ht | ->].
    + apply S1. destruct (syncingRounds w !! j); exact Ht.
    + (* the IO subtree *)
      eexists. split; [reflexivity|]. simpl. split; [congruence|].
      left. split; reflexivity.
  - (* the state subtree *)
    eexists. split; [reflexivity|]. simpl. split; [congruence|].
    right. split; [reflexivity|]. rewrite Hrd.
    destruct (HH _ _ Hsp) as [[_ Hpst] Hprd].
    destruct (Z.eq_dec (sub64 j 1) (undefinedRound w)) as [E|E].
    + (* the round before is the sentinel *)
      right.
      assert (Eu : j = ordinal (undefinedRound w) + 1).
      { destruct (Z.eq_dec j 0) as [->|Hj0].
        - rewrite <- E. reflexivity.
        - rewrite sub64_pred in E by lia. rewrite <- E.
          rewrite ordinal_small; lia. }
      assert (Ecu : cachedLastRound w = undefinedRound w)
        by (apply ordinal_inj; try assumption; lia).
      rewrite E in Hsp. destruct (S3 Ecu _ Hsp) as [D1 D2].
      split; [exact Eu|]. split; [congruence|exact D2].
    + left. rewrite Hpst, (Hprd E).
      apply sub64_pred. destruct (Z.eq_dec j 0) as [->|Hj0]; [|lia].
      exfalso. assert (Ec : ordinal (cachedLastRound w) = -1) by lia.
      assert (Eu : ordinal (undefinedRound w) = -1) by lia.
      apply E. unfold ordinal in Eu.
      destruct (Z.eqb_spec (undefinedRound w) MaxUint64) as [->|]; [reflexivity|].
      unfold isUint64 in Hu. lia.
Qed.

Lemma installDummy_lookup blk w s :
  cachedLastRound w = undefinedRound w →
  hashCache (installDummy blk w) !! undefinedRound w = Some s →
  hashCache w !! undefinedRound w = Some s
  ∨ (rRound (sStateRoot s) = add64 (cachedLastRound w) 1
     ∧ rHash (sStateRoot s) = emptyHash).
Proof.
  intros Hcu. unfold installDummy.
  destruct (negb _ && _); [|auto]. simpl. rewrite <- Hcu, lookup_insert_eq.
  intros [= <-]. right. split; reflexivity.
Qed.

Lemma newBlock_prefix_shape blk getBlock w w1 :
  wfLabel (LNewBlock blk getBlock) → Inv w →
  catchUp getBlock
    (Z.to_nat (hRound (bHeader blk)
               - startSummaryRound
                   (installDummy blk (emit [EvLog LogDebug "incoming block"] w))))
    (startSummaryRound
       (installDummy blk (emit [EvLog LogDebug "incoming block"] w)))
    (hRound (bHeader blk))
    (installDummy blk (emit [EvLog LogDebug "incoming block"] w)) = Ok w1 →
  InvShape w → InvShape (cacheIncoming blk w1).
Proof.
  intros Hwf HI Hcu [S1 S2 S3 S4].
  destruct (newBlock_prefix _ _ _ _ Hwf HI Hcu)
    as (HI2 & Hq2 & Hsy2 & Hfe2 & _ & _).
  constructor.
  - rewrite Hfe2, (quiet_u _ _ Hq2). exact S1.
  - rewrite (quiet_diffs _ _ Hq2), (quiet_u _ _ Hq2). exact S2.
  - rewrite (quiet_u _ _ Hq2), (quiet_c _ _ Hq2). intros Ecu s Hs.
    set (we := emit [EvLog LogDebug "incoming block"] w) in *.
    destruct (installDummy_has blk we Ecu) as [v0 Hv0].
    change (cachedLastRound we) with (cachedLastRound w) in Hv0.
    rewrite Ecu in Hv0.
    destruct (catchUp_frame _ _ _ _ _ _ Hcu) as (_ & _ & Hkeep).
    pose proof (cacheIncoming_keeps blk _ _ _ (Hkeep _ _ Hv0)) as Hv2.
    assert (s = v0) by congruence. subst v0.
    destruct (installDummy_lookup blk we s Ecu Hv0) as [Hold|[D1 D2]].
    + now apply (S3 Ecu).
    + split; [|exact D2]. rewrite D1.
      change (cachedLastRound we) with (cachedLastRound w).
      rewrite add64_1 by apply HI. now rewrite Ecu.
  - rewrite (quiet_applies _ _ Hq2). exact S4.
Qed.

Lemma handleNewBlock_InvShape blk getBlock w w' :
  wfLabel (LNewBlock blk getBlock) → Inv w →
  handleNewBlock blk getBlock w = Ok w' → InvShape w → InvShape w'.
Proof.
  intros Hwf HI Hs HS. rewrite handleNewBlock_unfold in Hs. cbv zeta in Hs.
  inv_ok. rename a into w1.
  pose proof (newBlock_prefix_shape _ _ _ _ Hwf HI Hstep HS) as HS2.
  destruct (newBlock_prefix _ _ _ _ Hwf HI Hstep)
    as (HI2 & Hq2 & Hsy2 & Hfe2 & _ & Hcov).
  pose proof (inv_c _ (inv_rounds _ HI2)) as Hc2.
  assert (Ec2 : cachedLastRound (cacheIncoming blk w1) = cachedLastRound w)
    by apply Hq2.
  eapply (scheduleLoop_ind InvShape
            (add64 (cachedLastRound (cacheIncoming blk w1)) 1)
            (cachedLastRound (cacheIncoming blk w1))
            (hashCache (cacheIncoming blk w1))
            (Z.to_nat (hRound (bHeader blk)
                       - add64 (cachedLastRound (cacheIncoming blk w1)) 1 + 1))
            (add64 (cachedLastRound (cacheIncoming blk w1)) 1)
            (hRound (bHeader blk)) (cacheIncoming blk w1) w');
    [ |apply add64_isUint64|apply Hwf|lia|lia|reflexivity|reflexivity
    |rewrite add64_1 by exact Hc2; lia|exact Hs|exact HI2|exact HS2].
  intros j w0 wj HI0 Hc0 Hh0 Hj Hmax HQ Hsj.
  rewrite add64_1 in Hj by exact Hc2.
  eapply scheduleRound_InvShape; [exact HI0| | |exact Hsj|exact HQ].
  - rewrite Hc0. lia.
  - rewrite Hh0. apply Hcov. rewrite <- Ec2. lia.
Qed.

Lemma iter_InvShape l w w' :
  wfLabel l → Inv w → iter l w = Ok w' → InvShape w → InvShape w'.
Proof.
  intros Hwf HI Hs HS. iter_split Hs.
  - destruct (runFinalize_spec _ _ _ _ H) as (s & _ & ->).
    eapply InvShape_eq; [..|exact HS]; try reflexivity.
    simpl. rewrite applyCalls_app. simpl. now rewrite app_nil_r.
  - eapply applyStep_InvShape; eauto.
  - destruct (spawnStep_spec _ _ H) as (s & q & _ & ->).
    eapply InvShape_eq; [..|exact HS]; try reflexivity.
    simpl. rewrite applyCalls_app. simpl. now rewrite app_nil_r.
  - pose proof (handlePruned_quiet _ _ _ _ H) as Hq.
    eapply InvShape_eq; [..|exact HS]; try apply Hq;
      unfold handlePruned in H; destruct x0; inv_ok; reflexivity.
  - eapply handleNewBlock_InvShape; eauto.
  - eapply handleDiff_InvShape; eauto.
  - (* the round finalized is past the sentinel *)
    destruct (handleFinalized_spec _ _ _ _ H)
      as (s & evs & Hk & Hu & Hc & _ & Hd & _ & _ & Hh & Hfe & _ & _ & Htr & _ & Hac & _).
    destruct HS as [S1 S2 S3 S4]. destruct HI as [HR _ _ _].
    constructor.
    + rewrite Hfe, Hu. exact S1.
    + rewrite Hd, Hu. exact S2.
    + rewrite Hu, Hc. intros Ecu. exfalso.
      destruct (inv_fin _ HR (mkFinalizeTask s true)) as [Hs1 Hs2];
        [eapply list_elem_of_lookup_2; eauto|]. simpl in Hs1.
      pose proof (ordinal_bounds _ (inv_a _ HR)).
      revert Ecu. apply (ordinal_above (cachedLastRound w)); try apply HR; lia.
    + rewrite Htr, applyCalls_app, Hac, app_nil_r. exact S4.
  - eapply InvShape_eq; [..|exact HS]; reflexivity.
Qed.

Lemma Reachable_InvShape w : Reachable w → InvShape w.
Proof.
  intros (g & db & Hwf & Hr).
  assert (HIS : Inv w ∧ InvShape w).
  { induction Hr as [|w l w' Hr [HI HS] Hl Hs].
    - split; [now apply workerInit_Inv|apply workerInit_InvShape].
    - split; [eapply iter_Inv; eauto|eapply iter_InvShape; eauto]. }
  apply HIS.
Qed.

(** X12: the IO subtree of a round is always fetched against its own
    root with the empty hash; the state subtree against the state root
    of the round before or, for the first round after the sentinel,
    against an empty root of the round itself. This holds for every task
    of the pool, whose previous root is never nil, for every result in
    the diffs queue and so for every Apply made: its source is the empty
    hash at the destination's round or a root of the round before. *)
Theorem fetch_roots_by_subtree (w : World) :
  Reachable w →
  (∀ t, t ∈ fetching w →
     ∃ prev, tPrev t = Some prev
       ∧ fetchShape (undefinedRound w) (tRound t) (tMask t) prev (tThis t))
  ∧ (∀ d, d ∈ outOfOrderDiffs w →
       fetchShape (undefinedRound w) (round d) (fetchMask d)
         (prevRoot d) (thisRoot d))
  ∧ (∀ call res, (call, res) ∈ applyCalls (trace w) →
       (aSrcRound call = aDstRound call ∧ aSrcHash call = emptyHash)
       ∨ aSrcRound call = aDstRound call - 1).
Proof.
  intros Hr. destruct (Reachable_InvShape _ Hr) as [S1 S2 _ S4].
  split; [exact S1|]. split; [exact S2|].
  intros call res Hin. exact (S4 _ Hin).
Qed.

Lemma fetch_roots_by_subtree_witness :
  applyRounds (trace (sampleRun deliveredOnce)) = [0; 0; 1; 1]
  ∧ ∀ call res, (call, res) ∈ applyCalls (trace (sampleRun deliveredOnce)) →
      (aSrcRound call = aDstRound call ∧ aSrcHash call = emptyHash)
      ∨ aSrcRound call = aDstRound call - 1.
Proof.
  split; [vm_compute; reflexivity|].
  apply (fetch_roots_by_subtree (sampleRun deliveredOnce)).
  apply deliveredOnce_Reachable.
Defined.

(** * No panic but the one on a failed lookup *)

Lemma guardDiffs_Ok w : ∃ b, guardDiffs w = Ok b.
Proof.
  unfold guardDiffs. destruct (outOfOrderDiffs w) as [|d q]; simpl; eauto.
Qed.

Lemma guardApplieds_Ok w : InvRounds w → ∃ b, guardApplieds w = Ok b.
Proof.
  intros HR. unfold guardApplieds.
  destruct (outOfOrderApplieds w) as [|p q] eqn:E; simpl; [eauto|].
  destruct (inv_applieds _ HR p) as [[s ->] _]; [rewrite E; now left|].
  simpl. eauto.
Qed.

Lemma spawnStep_Ok w :
  InvRounds w → guardApplieds w = Ok true → ∃ w', spawnStep w = Ok w'.
Proof.
  intros HR Hg. destruct (guardApplieds_head _ Hg) as (s0 & Hs0 & _).
  destruct (heapPop_Ok (outOfOrderApplieds w)) as (p & q & Hpop).
  { intros x Hx. destruct (inv_applieds _ HR x Hx) as [[s ->] _].
    eexists. reflexivity. }
  { intros Hnil. rewrite Hnil in Hs0. discriminate. }
  destruct (heapPop_spec _ _ _ Hpop) as [Hhead _].
  assert (p = Some s0) by congruence. subst p.
  unfold spawnStep. rewrite Hpop. simpl. eauto.
Qed.

Lemma catchUp_Ok getBlock fuel i R w :
  (∀ k, ∃ b, getBlock k = inr b) →
  isUint64 R → 0 <= i → R - i <= Z.of_nat fuel →
  ∃ w', catchUp getBlock fuel i R w = Ok w'.
Proof.
  intros Hgb HR. revert i w. induction fuel as [|fuel IH]; intros i w Hi Hf; simpl.
  - destruct (Z.ltb_spec i R); [lia|eauto].
  - destruct (Z.ltb_spec i R); [|eauto].
    assert (Hi1 : add64 i 1 = i + 1).
    { rewrite add64_1, ordinal_small by (unfold isUint64 in *; lia). lia. }
    destruct (hashCache w !! i); simpl.
    + rewrite Hi1. apply IH; lia.
    + destruct (Hgb i) as [b ->]. simpl. rewrite Hi1. apply IH; lia.
Qed.

Lemma handleNewBlock_Ok blk getBlock w :
  wfLabel (LNewBlock blk getBlock) → Inv w →
  hRound (bHeader blk) < MaxUint64 → (∀ k, ∃ b, getBlock k = inr b) →
  ∃ w', handleNewBlock blk getBlock w = Ok w'.
Proof.
  intros Hwf HI Hmax Hgb. rewrite handleNewBlock_unfold. cbv zeta.
  set (w0 := installDummy blk (emit [EvLog LogDebug "incoming block"] w)).
  assert (Hs0 : 0 <= startSummaryRound w0).
  { unfold startSummaryRound.
    assert (Hc : isUint64 (cachedLastRound w0)).
    { unfold w0, installDummy. destruct (_ && _); apply HI. }
    destruct (_ =? _); [apply add64_isUint64|apply Hc]. }
  destruct (catchUp_Ok getBlock
              (Z.to_nat (hRound (bHeader blk) - startSummaryRound w0))
              (startSummaryRound w0) (hRound (bHeader blk)) w0 Hgb)
    as [w1 Hw1]; [apply Hwf|exact Hs0|lia|].
  rewrite Hw1. simpl.
  destruct (newBlock_prefix _ _ _ _ Hwf HI Hw1)
    as (HI2 & Hq2 & _ & _ & _ & Hcov).
  pose proof (inv_c _ (inv_rounds _ HI2)) as Hc2.
  assert (Ec2 : cachedLastRound (cacheIncoming blk w1) = cachedLastRound w)
    by apply Hq2.
  apply scheduleLoop_Ok.
  - apply add64_isUint64.
  - destruct Hwf as [[H0 _] _]. lia.
  - lia.
  - intros j Hj. apply Hcov. rewrite add64_1 in Hj by exact Hc2.
    rewrite <- Ec2. lia.
Qed.

Lemma handleDiff_Ok k st w t :
  InvPending w → InvShape w → fetching w !! k = Some t →
  ∃ w', handleDiff k st w = Ok w'.
Proof.
  intros HP HS Hk.
  assert (Htin : t ∈ fetching w) by (eapply list_elem_of_lookup_2; eauto).
  destruct (shape_tasks _ HS t Htin) as (prev & Hprev & _).
  destruct (inv_pending _ HP _ _ (pending_task _ _ Htin))
    as (_ & _ & _ & (e & He & _)).
  destruct (fetchDiffBody_fields st (tRound t) prev (tThis t) (tMask t))
    as (Fr & _).
  unfold handleDiff. rewrite Hk, Hprev. simpl. unfold fetchDiff.
  destruct (fetchDiffBody st (tRound t) prev (tThis t) (tMask t))
    as [item calls] eqn:Eb. simpl in *.
  unfold handleItem. destruct (err item) as [failure|]; simpl.
  - rewrite Fr, He. simpl. rewrite lookup_insert_eq. simpl. eauto.
  - destruct (heapPush_Ok (outOfOrderDiffs w) item) as [q Hq].
    { intros x _. eexists. reflexivity. }
    rewrite Hq. simpl. eauto.
Qed.

(** X13: an iteration of the loop, or a step of a finalize goroutine,
    never panics in a state the worker reaches, whatever the stores
    answer, provided the roothash backend answers the lookups of the
    catch-up loop and the block is not of the largest round: no nil
    entry of syncing_rounds or of the hash cache is dereferenced and no
    empty queue is popped. *)
Theorem loop_iteration_never_panics (w : World) (l : Label) :
  Reachable w → wfLabel l →
  (∀ blk getBlock, l = LNewBlock blk getBlock →
     hRound (bHeader blk) < MaxUint64 ∧ ∀ k, ∃ b, getBlock k = inr b) →
  iter l w = Blocked ∨ ∃ w', iter l w = Ok w'.
Proof.
  intros Hr Hwf Hnb. pose proof (Reachable_Inv _ Hr) as HI.
  pose proof (Reachable_InvShape _ Hr) as HS.
  destruct HI as [HR HH HP HT].
  destruct l as [res| |k res|p res|blk gb|k st|k dbErr| ]; simpl;
    try (unfold runFinalize;
         destruct (finalizing w !! k) as [[s [|]]|]; simpl; eauto; fail);
    (destruct (running w); simpl; [|auto]);
    (destruct (guardDiffs_Ok w) as [gd Egd]; rewrite Egd; simpl);
    (destruct gd;
     [|destruct (guardApplieds_Ok w HR) as [ga Ega]; rewrite Ega; simpl;
       destruct ga]); auto.
  - right. apply applyStep_Ok; [constructor; assumption|exact Egd].
  - right. now apply spawnStep_Ok.
  - right. unfold handlePruned. destruct res; simpl; eauto.
  - right. destruct (Hnb blk gb eq_refl) as [Hmax Hgb].
    apply handleNewBlock_Ok; try assumption. constructor; assumption.
  - destruct (fetching w !! k) as [t|] eqn:Hk.
    + right. eapply handleDiff_Ok; eauto.
    + left. unfold handleDiff. now rewrite Hk.
  - unfold handleFinalized.
    destruct (finalizing w !! k) as [[s [|]]|]; simpl; auto.
    right. destruct dbErr; simpl; eauto.
  - right. eauto.
Qed.

Lemma loop_iteration_never_panics_witness :
  iter (LDiff 0 failingStore) (sampleRun round1First) = Blocked
  ∨ ∃ w', iter (LDiff 0 failingStore) (sampleRun round1First) = Ok w'.
Proof.
  apply (loop_iteration_never_panics (sampleRun round1First) (LDiff 0 failingStore)).
  - apply round1First_Reachable.
  - exact I.
  - intros blk getBlock [=].
Defined.


(** * Scheduling one round among the others *)

Lemma Reachable_disjoint w : Reachable w → disjointMasks w.
Proof.
  intros (g & db & _ & Hr). induction Hr as [|w l w' Hr IH _ Hs].
  - intros r e He. simpl in He. rewrite lookup_empty in He. discriminate.
  - eapply iter_disjoint; eauto.
Qed.

Lemma scheduleSubtree_other i m t w (r : Z) :
  r ≠ i → syncingRounds (scheduleSubtree i m t w) !! r = syncingRounds w !! r.
Proof.
  intros Hne. unfold scheduleSubtree.
  destruct (syncingRounds w !! i) as [e|]; [|reflexivity].
  destruct (needsFetch e m); [|reflexivity]. simpl.
  apply lookup_insert_ne. congruence.
Qed.

Lemma scheduleRound_other j w w' (r : Z) :
  scheduleRound j w = Ok w' → r ≠ j →
  syncingRounds w' !! r = syncingRounds w !! r.
Proof.
  unfold scheduleRound. intros Hs Hne.
  destruct (match syncingRounds w !! j with Some _ => _ | None => _ end);
    inv_ok; [reflexivity|].
  rewrite !scheduleSubtree_other by exact Hne.
  destruct (syncingRounds w !! j); [reflexivity|]. simpl.
  apply lookup_insert_ne. congruence.
Qed.

(** The loop leaves the rounds before its first one alone. *)
Lemma scheduleLoop_below fuel i R w w' (r : Z) :
  isUint64 i → isUint64 R → (i <= R → Z.of_nat fuel <= R - i + 1) →
  r < i → scheduleLoop fuel i R w = Ok w' →
  syncingRounds w' !! r = syncingRounds w !! r.
Proof.
  revert i w. induction fuel as [|fuel IH]; intros i w Hi HR Hf Hr; simpl.
  - destruct (Z.leb_spec i R); intros Hs; inv_ok. reflexivity.
  - destruct (Z.leb_spec i R); intros Hs; [|inv_ok; reflexivity].
    assert (Hmax : R < MaxUint64).
    { eapply (scheduleLoop_bound (S fuel) i R w w'); eauto.
      simpl. destruct (Z.leb_spec i R); [exact Hs|lia]. }
    specialize (Hf ltac:(assumption)). inv_ok.
    assert (Hi1 : add64 i 1 = i + 1).
    { rewrite add64_1, ordinal_small by (unfold isUint64 in *; lia). lia. }
    rewrite (IH (add64 i 1) a); [| |assumption| | |exact Hs].
    + eapply scheduleRound_other; eauto. lia.
    + apply add64_isUint64.
    + lia.
    + lia.
Qed.

(** The loop goes through every round from its first one to the
    block's; what it does there is not undone by the rounds after. *)
Lemma scheduleLoop_visits fuel i R w w' (r : Z) :
  isUint64 i → isUint64 R → (i <= R → Z.of_nat fuel <= R - i + 1) →
  i <= r <= R → scheduleLoop fuel i R w = Ok w' →
  ∃ wa wb,
    syncingRounds wa !! r = syncingRounds w !! r
    ∧ hashCache wa = hashCache w
    ∧ quietStep w wa
    ∧ (∃ more, fetching wa = fetching w ++ more)
    ∧ scheduleRound r wa = Ok wb
    ∧ syncingRounds w' !! r = syncingRounds wb !! r
    ∧ (∃ more, fetching w' = fetching wb ++ more).
Proof.
  revert i w. induction fuel as [|fuel IH]; intros i w Hi HR Hf Hr; simpl.
  - destruct (Z.leb_spec i R); intros Hs; inv_ok. lia.
  - destruct (Z.leb_spec i R); intros Hs; [|lia].
    assert (Hmax : R < MaxUint64).
    { eapply (scheduleLoop_bound (S fuel) i R w w'); eauto.
      simpl. destruct (Z.leb_spec i R); [exact Hs|lia]. }
    specialize (Hf ltac:(assumption)). inv_ok.
    assert (Hi1 : add64 i 1 = i + 1).
    { rewrite add64_1, ordinal_small by (unfold isUint64 in *; lia). lia. }
    destruct (Z.eq_dec r i) as [->|Hne].
    + exists w, a. split; [reflexivity|]. split; [reflexivity|].
      split; [apply quietStep_refl|].
      split; [exists []; now rewrite app_nil_r|]. split; [exact Hstep|].
      split; [|eapply scheduleLoop_fetching; eauto].
      eapply scheduleLoop_below; [..|exact Hs]; try assumption.
      * apply add64_isUint64.
      * lia.
      * lia.
    + destruct (IH (add64 i 1) a)
        as (wa & wb & H1 & H2 & Hq & (m1 & H3) & H4 & H5 & H6);
        [apply add64_isUint64|assumption|lia|lia|exact Hs|].
      exists wa, wb.
      split; [rewrite H1; eapply scheduleRound_other; eauto|].
      split; [rewrite H2; eapply scheduleRound_hashCache; eauto|].
      split; [eapply quietStep_trans; [eapply scheduleRound_quiet; eauto|exact Hq]|].
      split; [|auto].
      destruct (scheduleRound_fetching _ _ _ Hstep) as [m0 Hm0].
      exists (m0 ++ m1). rewrite H3, Hm0. now rewrite app_assoc.
Qed.

(** ** A subtree that awaits a retry *)

Lemma scheduleSubtree_submits i m t w e :
  syncingRounds w !! i = Some e → needsFetch e m = true →
  scheduleSubtree i m t w = submitFetch i (markOutstanding e m) t w.
Proof. intros He Hn. unfold scheduleSubtree. now rewrite He, Hn. Qed.

Lemma needsFetch_other e :
  needsFetch (markOutstanding e maskIO) maskState = needsFetch e maskState.
Proof.
  unfold needsFetch, markOutstanding. simpl.
  rewrite maskClear_other by (auto; discriminate).
  unfold maskSet. rewrite Z.land_lor_distr_l.
  change (Z.land maskIO maskState) with 0. now rewrite Z.lor_0_r.
Qed.

Lemma needsFetch_bits e m :
  needsFetch e m = true →
  Z.land (outstanding e) m = 0 ∧ Z.land (awaitingRetry e) m ≠ 0.
Proof.
  unfold needsFetch. intros H. apply andb_true_iff in H as [H1 H2].
  apply Z.eqb_eq in H1. apply negb_true_iff, Z.eqb_neq in H2. auto.
Qed.

Lemma scheduleRound_retry r w w' e m :
  InvHash w → r ≠ undefinedRound w →
  syncingRounds w !! r = Some e →
  (m = maskIO ∨ m = maskState) → needsFetch e m = true →
  scheduleRound r w = Ok w' →
  (∃ t, t ∈ fetching w' ∧ t ∈ submitted (trace w') ∧ taskKey t = (r, m))
  ∧ ∃ e', syncingRounds w' !! r = Some e'
      ∧ Z.land (outstanding e') m ≠ 0 ∧ Z.land (awaitingRetry e') m = 0.
Proof.
  intros HH Hne He Hm Hn. destruct (needsFetch_bits _ _ Hn) as [Ho Haw].
  unfold scheduleRound. rewrite He.
  assert (Hnall : (outstanding e =? maskAll) = false).
  { apply Z.eqb_neq. intros E. rewrite E in Ho.
    destruct Hm as [-> | ->]; discriminate. }
  rewrite Hnall. intros Hs. inv_ok. rename a into this. simpl in Hstep.
  destruct (HH _ _ Hstep) as [_ Hrd]. specialize (Hrd Hne).
  set (tIO := mkFetchTask (sRound this) _ (sIORoot this) maskIO).
  set (tSt := mkFetchTask (sRound this) _ (sStateRoot this) maskState).
  set (w0 := emit [EvLog LogDebug "preparing round sync"] w).
  assert (He0 : syncingRounds w0 !! r = Some e) by exact He.
  destruct Hm as [-> | ->].
  - (* the IO subtree is submitted first *)
    rewrite (scheduleSubtree_submits r maskIO tIO w0 e He0 Hn).
    set (w1 := submitFetch r (markOutstanding e maskIO) tIO w0).
    assert (He1 : syncingRounds w1 !! r = Some (markOutstanding e maskIO))
      by (unfold w1; simpl; apply lookup_insert_eq).
    unfold scheduleSubtree. rewrite He1.
    destruct (needsFetch (markOutstanding e maskIO) maskState).
    + split.
      * exists tIO. simpl. rewrite !submitted_app. simpl.
        split; [apply elem_of_app; left; apply elem_of_app; right; now left|].
        split; [|unfold taskKey; simpl; now rewrite Hrd].
        apply elem_of_app; left. apply elem_of_app; right. now left.
      * eexists. simpl. rewrite lookup_insert_eq. split; [reflexivity|]. simpl.
        split; [apply maskSet_keeps, maskSet_has; discriminate|].
        apply maskClear_sub, maskClear_disjoint.
    + split.
      * exists tIO. simpl. rewrite !submitted_app. simpl.
        split; [apply elem_of_app; right; now left|].
        split; [|unfold taskKey; simpl; now rewrite Hrd].
        apply elem_of_app; right. now left.
      * exists (markOutstanding e maskIO). split; [exact He1|]. simpl.
        split; [apply maskSet_has; discriminate|apply maskClear_disjoint].
  - (* the state subtree, after the IO subtree *)
    assert (Hst : ∃ w1 e1, scheduleSubtree r maskIO tIO w0 = w1
                      ∧ syncingRounds w1 !! r = Some e1
                      ∧ needsFetch e1 maskState = true).
    { unfold scheduleSubtree. rewrite He0.
      destruct (needsFetch e maskIO).
      - eexists _, _. split; [reflexivity|]. simpl. rewrite lookup_insert_eq.
        split; [reflexivity|]. now rewrite needsFetch_other.
      - eexists _, _. split; [reflexivity|]. split; [exact He0|exact Hn]. }
    destruct Hst as (w1 & e1 & -> & He1 & Hn1).
    rewrite (scheduleSubtree_submits r maskState tSt _ e1 He1 Hn1).
    split.
    + exists tSt. simpl. rewrite !submitted_app. simpl.
      split; [apply elem_of_app; right; now left|].
      split; [|unfold taskKey; simpl; now rewrite Hrd].
      apply elem_of_app; right. now left.
    + eexists. simpl. rewrite lookup_insert_eq. split; [reflexivity|]. simpl.
      split; [apply maskSet_has; discriminate|apply maskClear_disjoint].
Qed.

(** What the handler does at a round [r] it goes through. *)
Lemma handleNewBlock_visits blk getBlock w w' (r : Z) :
  wfLabel (LNewBlock blk getBlock) → Inv w →
  ordinal (cachedLastRound w) < r <= hRound (bHeader blk) →
  handleNewBlock blk getBlock w = Ok w' →
  ∃ wa wb,
    InvHash wa ∧ undefinedRound wa = undefinedRound w
    ∧ r ≠ undefinedRound w
    ∧ syncingRounds wa !! r = syncingRounds w !! r
    ∧ scheduleRound r wa = Ok wb
    ∧ syncingRounds w' !! r = syncingRounds wb !! r
    ∧ (∃ more, fetching w' = fetching wb ++ more).
Proof.
  intros Hwf HI Hr Hs.
  rewrite handleNewBlock_unfold in Hs. cbv zeta in Hs.
  inv_ok. rename a into w1.
  destruct (newBlock_prefix _ _ _ _ Hwf HI Hstep)
    as (HI2 & Hq2 & Hsy2 & Hfe2 & _ & _).
  pose proof (inv_c _ (inv_rounds _ HI2)) as Hc2.
  assert (Ec2 : cachedLastRound (cacheIncoming blk w1) = cachedLastRound w)
    by apply Hq2.
  assert (Hfirst : add64 (cachedLastRound (cacheIncoming blk w1)) 1 <= r).
  { rewrite add64_1 by exact Hc2. rewrite Ec2. lia. }
  assert (Hmax : hRound (bHeader blk) < MaxUint64).
  { eapply scheduleLoop_bound; [..|exact Hs];
      [apply add64_isUint64|apply Hwf|lia|lia]. }
  destruct (scheduleLoop_visits
              (Z.to_nat (hRound (bHeader blk)
                         - add64 (cachedLastRound (cacheIncoming blk w1)) 1 + 1))
              (add64 (cachedLastRound (cacheIncoming blk w1)) 1)
              (hRound (bHeader blk)) (cacheIncoming blk w1) w' r)
    as (wa & wb & H1 & H2 & Hq & _ & H4 & H5 & H6);
    [apply add64_isUint64|apply Hwf|lia|lia|exact Hs|].
  exists wa, wb.
  assert (Hua : undefinedRound wa = undefinedRound w)
    by (rewrite (quiet_u _ _ Hq); apply Hq2).
  split.
  { eapply InvHash_eq; [|exact H2|apply HI2]. apply Hq. }
  split; [exact Hua|]. split.
  { destruct HI as [HR _ _ _].
    apply (ordinal_above (cachedLastRound w)); try apply HR; lia. }
  split; [now rewrite H1, Hsy2|]. split; [exact H4|]. split; [exact H5|].
  exact H6.
Qed.

(** * Retries *)

(** X14: when the result a fetch sends carries an error, the loop
    queues nothing and calls no Apply: the subtree goes from outstanding
    to awaiting retry in the round's entry, and no fetch of it is under
    way any more. *)
Theorem failed_fetch_awaits_retry (w : World) (k : nat) (st : Storage)
    (t : fetchTask) (prev : Root) (failure : error) :
  Reachable w → fetching w !! k = Some t → tPrev t = Some prev →
  err (fetchDiffBody st (tRound t) prev (tThis t) (tMask t)).1 = Some failure →
  ∃ w' e e',
    handleDiff k st w = Ok w'
    ∧ syncingRounds w !! tRound t = Some e
    ∧ syncingRounds w' !! tRound t = Some e'
    ∧ outstanding e' = maskClear (outstanding e) (tMask t)
    ∧ awaitingRetry e' = maskSet (awaitingRetry e) (tMask t)
    ∧ Z.land (outstanding e') (tMask t) = 0
    ∧ Z.land (awaitingRetry e') (tMask t) ≠ 0
    ∧ outOfOrderDiffs w' = outOfOrderDiffs w
    ∧ fetching w' = delete k (fetching w)
    ∧ applyCalls (trace w') = applyCalls (trace w)
    ∧ (tRound t, tMask t) ∉ pending w'.
Proof.
  intros Hr Hk Hprev Herr. pose proof (Reachable_Inv _ Hr) as [HR HH HP HT].
  pose proof (Reachable_InvShape _ Hr) as HS.
  destruct (handleDiff_Ok k st w t HP HS Hk) as [w' Hw'].
  assert (HP' : InvPending w') by (eapply handleDiff_InvPending; eauto).
  destruct (handleDiff_frame _ _ _ _ Hw')
    as (_ & _ & _ & _ & _ & _ & _ & Hfe & _ & Hac & _).
  destruct (handleDiff_spec _ _ _ _ Hw') as (t' & prev' & Hk' & Hprev' & Hi).
  assert (t' = t) by congruence. subst t'.
  assert (prev' = prev) by congruence. subst prev'.
  destruct (fetchDiffBody_fields st (tRound t) prev (tThis t) (tMask t))
    as (Fr & Fm & _).
  apply handleItem_spec in Hi. rewrite Herr in Hi.
  destruct Hi as (e & He & Ew). rewrite Fr, Fm in *. simpl in He.
  assert (Htin : t ∈ fetching w) by (eapply list_elem_of_lookup_2; eauto).
  destruct (inv_pending _ HP _ _ (pending_task _ _ Htin)) as (_ & Hm & _).
  assert (He' : syncingRounds w' !! tRound t
                = Some {| outstanding := maskClear (outstanding e) (tMask t);
                          awaitingRetry := maskSet (awaitingRetry e) (tMask t) |})
    by (rewrite Ew; simpl; apply lookup_insert_eq).
  eexists w', e, _. split; [exact Hw'|]. split; [exact He|]. split; [exact He'|].
  simpl. split; [reflexivity|]. split; [reflexivity|].
  split; [apply maskClear_disjoint|].
  split; [apply maskSet_has; destruct Hm as [-> | ->]; discriminate|].
  split; [rewrite Ew; reflexivity|]. split; [exact Hfe|]. split; [exact Hac|].
  intros Hin. destruct (inv_pending _ HP' _ _ Hin) as (_ & _ & _ & (e2 & He2 & Hbit)).
  rewrite He' in He2. injection He2 as <-. simpl in Hbit.
  apply Hbit, maskClear_disjoint.
Qed.

Lemma failed_fetch_awaits_retry_witness :
  ∃ w' e e',
    handleDiff 0 failingStore (sampleRun round1First) = Ok w'
    ∧ syncingRounds (sampleRun round1First) !! 0 = Some e
    ∧ syncingRounds w' !! 0 = Some e'
    ∧ Z.land (outstanding e') maskIO = 0
    ∧ Z.land (awaitingRetry e') maskIO ≠ 0.
Proof.
  destruct (failed_fetch_awaits_retry (sampleRun round1First) 0 failingStore
              (mkFetchTask 0 (Some (emptiedRoot (sIORoot (summaryFromBlock (sampleBlock 0)))))
                 (sIORoot (summaryFromBlock (sampleBlock 0))) maskIO)
              (emptiedRoot (sIORoot (summaryFromBlock (sampleBlock 0))))
              "stream broken"%string)
    as (w' & e & e' & H1 & H2 & H3 & _ & _ & H4 & H5 & _).
  - apply round1First_Reachable.
  - vm_compute. reflexivity.
  - reflexivity.
  - vm_compute. reflexivity.
  - exists w', e, e'. auto.
Defined.

(** X15: a subtree that awaits a retry is fetched again by the next
    block whose scheduling loop goes through its round: before the
    handler no fetch of it is under way; after it a task for it is in
    the pool and the subtree is outstanding, not awaiting a retry. *)
Theorem awaiting_subtree_fetched_on_next_block (w w' : World) (blk : Block)
    (getBlock : Z → error + Block) (r m : Z) (e : inFlight) :
  Reachable w → wfLabel (LNewBlock blk getBlock) →
  syncingRounds w !! r = Some e → (m = maskIO ∨ m = maskState) →
  Z.land (awaitingRetry e) m ≠ 0 →
  ordinal (cachedLastRound w) < r <= hRound (bHeader blk) →
  handleNewBlock blk getBlock w = Ok w' →
  ((r, m) ∉ pending w)
  ∧ (∃ t, t ∈ fetching w' ∧ taskKey t = (r, m))
  ∧ ∃ e', syncingRounds w' !! r = Some e'
      ∧ Z.land (outstanding e') m ≠ 0 ∧ Z.land (awaitingRetry e') m = 0.
Proof.
  intros Hr Hwf He Hm Haw Hrange Hs.
  pose proof (Reachable_Inv _ Hr) as HI.
  pose proof (Reachable_disjoint _ Hr _ _ He) as Hdis.
  destruct (out_range _ (Reachable_InvOutstanding _ Hr) _ _ He) as [Ho1 Ho2].
  assert (Hclear : Z.land (outstanding e) m = 0).
  { apply mask_cases in Ho1, Ho2. revert Hdis Haw.
    destruct Ho1 as [-> | [-> | [-> | ->]]], Ho2 as [-> | [-> | [-> | ->]]],
      Hm as [-> | ->]; vm_compute; intros Hdis Haw;
      try reflexivity; try discriminate; exfalso; now apply Haw. }
  assert (Hn : needsFetch e m = true).
  { unfold needsFetch. apply andb_true_iff. split; [now apply Z.eqb_eq|].
    now apply negb_true_iff, Z.eqb_neq. }
  split.
  { intros Hin. destruct (inv_pending _ (inv_pend _ HI) _ _ Hin)
      as (_ & _ & _ & (e2 & He2 & Hbit)). congruence. }
  destruct (handleNewBlock_visits _ _ _ _ r Hwf HI Hrange Hs)
    as (wa & wb & HHa & Hua & Hru & Hsa & Hsb & Hs' & (more & Hf')).
  rewrite He in Hsa. rewrite <- Hua in Hru.
  destruct (scheduleRound_retry _ _ _ _ _ HHa Hru Hsa Hm Hn Hsb)
    as [(t & Ht & _ & Hkey) (e' & He' & Hb1 & Hb2)].
  split.
  - exists t. split; [|exact Hkey]. rewrite Hf'. apply elem_of_app. now left.
  - exists e'. rewrite Hs'. auto.
Qed.

Lemma awaiting_subtree_fetched_on_next_block_witness :
  ((0, maskIO) ∉ pending (sampleRun (round1First ++ [LDiff 0 failingStore])))
  ∧ (0, maskIO)
    ∈ pending (sampleRun (round1First
                          ++ [LDiff 0 failingStore;
                              LNewBlock (sampleBlock 1) sampleChain])).
Proof.
  destruct (awaiting_subtree_fetched_on_next_block
              (sampleRun (round1First ++ [LDiff 0 failingStore]))
              (sampleRun (round1First
                          ++ [LDiff 0 failingStore;
                              LNewBlock (sampleBlock 1) sampleChain]))
              (sampleBlock 1) sampleChain 0 maskIO
              {| outstanding := maskState; awaitingRetry := maskIO |})
    as (H1 & (t & Ht & Hkey) & _).
  - apply sampleRun_Reachable; [|vm_compute; reflexivity].
    cbv [round1First app].
    repeat (apply Forall_cons; split;
            [first [exact I
                   | apply sample_wfLabel; unfold isUint64; rewrite MaxUint64_eq; lia]|]).
    apply List.Forall_nil.
  - apply sample_wfLabel. unfold isUint64. rewrite MaxUint64_eq. lia.
  - vm_compute. reflexivity.
  - now left.
  - vm_compute. discriminate.
  - vm_compute. split; [reflexivity|discriminate].
  - vm_compute. reflexivity.
  - split; [exact H1|]. rewrite <- Hkey. apply pending_task, Ht.
Defined.

(** * Rounds applied but not yet finalized *)

(** X3: the scheduling loop starts right after the last finalized
    round, not after the last applied one. A new block that arrives
    while round [r] is fully applied but the completion of its finalize
    has not been received gives [r] a new entry, with both subtrees
    outstanding, and submits both of its fetches again. *)
Theorem applied_round_is_fetched_again (w w' : World) (blk : Block)
    (getBlock : Z → error + Block) (r : Z) :
  Reachable w → wfLabel (LNewBlock blk getBlock) →
  ordinal (cachedLastRound w) < r <= ordinal (lastFullyAppliedRound w) →
  r <= hRound (bHeader blk) →
  syncingRounds w !! r = None →
  handleNewBlock blk getBlock w = Ok w' →
  (∃ tIO tState,
     tIO ∈ fetching w' ∧ taskKey tIO = (r, maskIO)
     ∧ tState ∈ fetching w' ∧ taskKey tState = (r, maskState))
  ∧ (∃ e, syncingRounds w' !! r = Some e
       ∧ Z.land (outstanding e) maskIO ≠ 0
       ∧ Z.land (outstanding e) maskState ≠ 0)
  ∧ lastFullyAppliedRound w' = lastFullyAppliedRound w.
Proof.
  intros Hr Hwf [Hlo Hhi] Hblk Hnone Hs.
  pose proof (Reachable_Inv _ Hr) as HI.
  pose proof (handleNewBlock_Inv _ _ _ _ Hwf Hs HI) as HI'.
  destruct (handleNewBlock_visits _ _ _ _ r Hwf HI (conj Hlo Hblk) Hs)
    as (wa & wb & HHa & Hua & Hru & Hsa & Hsb & Hs' & (more & Hf')).
  rewrite Hnone in Hsa. rewrite <- Hua in Hru.
  destruct (scheduleRound_fresh _ _ _ HHa Hru Hsa Hsb)
    as (tIO & tState & Hf & HkIO & HkState).
  assert (HinIO : tIO ∈ fetching w').
  { rewrite Hf', Hf. apply elem_of_app; left; apply elem_of_app; right; left. }
  assert (HinState : tState ∈ fetching w').
  { rewrite Hf', Hf.
    apply elem_of_app; left; apply elem_of_app; right; right; left. }
  split; [|split].
  - exists tIO, tState. auto.
  - pose proof (pending_task _ _ HinIO) as P1.
    pose proof (pending_task _ _ HinState) as P2.
    injection HkIO as E1 E2. injection HkState as E3 E4.
    rewrite E1, E2 in P1. rewrite E3, E4 in P2.
    destruct (inv_pending _ (inv_pend _ HI') _ _ P1) as (_ & _ & _ & (e & He & Hb1)).
    destruct (inv_pending _ (inv_pend _ HI') _ _ P2) as (_ & _ & _ & (e2 & He2 & Hb2)).
    exists e. split; [exact He|]. split; [exact Hb1|]. congruence.
  - now destruct (handleNewBlock_quiet _ _ _ _ Hs).
Qed.

Lemma applied_round_is_fetched_again_witness :
  syncingRounds (sampleRun round0Processed) !! 0 = None
  ∧ ∃ tIO tState,
      tIO ∈ fetching (sampleRun (round0Processed
                                  ++ [LNewBlock (sampleBlock 1) sampleChain]))
      ∧ taskKey tIO = (0, maskIO)
      ∧ tState ∈ fetching (sampleRun (round0Processed
                                       ++ [LNewBlock (sampleBlock 1) sampleChain]))
      ∧ taskKey tState = (0, maskState).
Proof.
  split; [vm_compute; reflexivity|].
  apply (applied_round_is_fetched_again (sampleRun round0Processed)
           (sampleRun (round0Processed ++ [LNewBlock (sampleBlock 1) sampleChain]))
           (sampleBlock 1) sampleChain 0).
  - apply round0Processed_Reachable.
  - apply sample_wfLabel. unfold isUint64. rewrite MaxUint64_eq. lia.
  - vm_compute. split; [reflexivity|discriminate].
  - vm_compute. discriminate.
  - vm_compute. reflexivity.
  - vm_compute. reflexivity.
Defined.

(** X16: the result of a fetch for a round that is applied already,
    when it carries no error, is queued all the same, and from then on the
    worker applies nothing: whatever it receives afterwards, the guard
    of the first branch of the loop is false, Apply is not called and
    the last fully applied round stays where it is. *)
Theorem result_for_applied_round_stops_applies (w w1 : World) (k : nat)
    (st : Storage) (t : fetchTask) (prev : Root) :
  Reachable w → fetching w !! k = Some t → tPrev t = Some prev →
  tRound t <= ordinal (lastFullyAppliedRound w) →
  err (fetchDiffBody st (tRound t) prev (tThis t) (tMask t)).1 = None →
  iter (LDiff k st) w = Ok w1 →
  length (outOfOrderDiffs w1) = S (length (outOfOrderDiffs w))
  ∧ ∀ w', reachableFrom wfLabel w1 w' →
      guardDiffs w' = Ok false
      ∧ lastFullyAppliedRound w' = lastFullyAppliedRound w
      ∧ applyCalls (trace w') = applyCalls (trace w).
Proof.
  intros Hr Hk Hprev Hold Herr Hs.
  assert (Hr1 : Reachable w1).
  { destruct Hr as (g & db & Hwf & Hr). exists g, db. split; [exact Hwf|].
    eapply (reach_step _ _ _ (LDiff k st)); [exact Hr|exact I|exact Hs]. }
  iter_at Hs. rename H into Hd.
  destruct (handleDiff_frame _ _ _ _ Hd)
    as (_ & _ & Ha & _ & _ & _ & _ & _ & _ & Hac & _).
  destruct (handleDiff_spec _ _ _ _ Hd) as (t' & prev' & Hk' & Hprev' & Hi).
  assert (t' = t) by congruence. subst t'.
  assert (prev' = prev) by congruence. subst prev'.
  destruct (fetchDiffBody_fields st (tRound t) prev (tThis t) (tMask t))
    as (Fr & _).
  apply handleItem_spec in Hi. rewrite Herr in Hi.
  destruct Hi as (q & Hq & Ew). simpl in Hq.
  pose proof (heapPush_Permutation _ _ _ Hq) as Hperm.
  assert (Hdq : outOfOrderDiffs w1 = q) by (rewrite Ew; reflexivity).
  split; [rewrite Hdq, (Permutation_length Hperm); reflexivity|].
  intros w' Hr'.
  destruct (stale_diff_wedges wfLabel w1 w')
    as (_ & _ & Ha' & Hgd & _ & Hc); try assumption.
  - apply (inv_a _ (inv_rounds _ (Reachable_Inv _ Hr1))).
  - now apply Reachable_heapOrdered.
  - eexists. split; [rewrite Hdq, Hperm; left|]. rewrite Fr, Ha. exact Hold.
  - split; [exact Hgd|]. split; congruence.
Qed.

Lemma result_for_applied_round_stops_applies_witness :
  0 <= ordinal (lastFullyAppliedRound
                  (sampleRun (round0Processed
                              ++ [LNewBlock (sampleBlock 1) sampleChain;
                                  LFinalized 0 None])))
  ∧ applyCalls (trace (sampleRun nextDuringFinalize))
    = applyCalls (trace (sampleRun (round0Processed
                                     ++ [LNewBlock (sampleBlock 1) sampleChain;
                                         LFinalized 0 None]))).
Proof.
  split; [vm_compute; discriminate|].
  eapply (result_for_applied_round_stops_applies
            (sampleRun (round0Processed
                        ++ [LNewBlock (sampleBlock 1) sampleChain;
                            LFinalized 0 None]))
            (sampleRun (round0Processed
                        ++ [LNewBlock (sampleBlock 1) sampleChain;
                            LFinalized 0 None; LDiff 0 presentStore]))
            0 presentStore).
  - apply sampleRun_Reachable; [sample_labels|vm_compute; reflexivity].
  - vm_compute. reflexivity.
  - reflexivity.
  - vm_compute. discriminate.
  - vm_compute. reflexivity.
  - vm_compute. reflexivity.
  - eapply (reachableFrom_run wfLabel
              [LDiff 0 presentStore; LDiff 0 missingStore; LDiff 0 missingStore]);
      [apply reach_init|sample_labels|vm_compute; reflexivity].
Defined.

(** * The round queue under container/heap *)

Section RoundQueue.
Context {T : Type} `{roundItem T}.
Context (key : T → Z) (Hkey : ∀ x, GetRound x = Ok (key x)).
Implicit Types q : list T.

(** X17: heap.Pop on a queue in heap order that holds no nil item
    returns an item of the least round, takes exactly that item out and
    leaves the queue in heap order. *)
Theorem queue_pop_takes_least_round q :
  heapOrdered key q → q ≠ [] →
  ∃ x q', heapPop q = Ok (x, q')
    ∧ q ≡ₚ x :: q'
    ∧ (∀ y, y ∈ q → key x <= key y)
    ∧ heapOrdered key q'.
Proof.
  intros Ho Hne.
  assert (Hok : roundsOk q) by (intros x _; eauto).
  destruct (heapPop_Ok q Hok Hne) as (x & q' & Hp).
  exists x, q'. split; [exact Hp|].
  destruct (heapPop_spec _ _ _ Hp) as [Hhead Hperm].
  split; [exact Hperm|]. split.
  - intros y Hy. exact (heapOrdered_head key q x y Ho Hhead Hy).
  - exact (heapPop_ordered key Hkey q x q' Ho Hp).
Qed.

(** X18: heap.Push on a queue in heap order that holds no nil item
    adds exactly the pushed item and leaves the queue in heap order, so
    that the item at index 0 is one of the least round. *)
Theorem queue_push_keeps_heap q (x : T) :
  heapOrdered key q →
  ∃ q', heapPush q x = Ok q'
    ∧ q' ≡ₚ x :: q
    ∧ heapOrdered key q'
    ∧ ∃ h, q' !! 0%nat = Some h ∧ key h <= key x ∧ ∀ y, y ∈ q → key h <= key y.
Proof.
  intros Ho.
  assert (Hok : roundsOk (x :: q)) by (intros y _; eauto).
  destruct (heapPush_Ok q x Hok) as (q' & Hp).
  pose proof (heapPush_Permutation _ _ _ Hp) as Hperm.
  pose proof (heapPush_ordered key Hkey q x q' Ho Hp) as Ho'.
  exists q'. split; [exact Hp|]. split; [exact Hperm|]. split; [exact Ho'|].
  destruct q' as [|h q'].
  { apply Permutation_length in Hperm. discriminate. }
  exists h. split; [reflexivity|].
  assert (Hall : ∀ y, y ∈ x :: q → key h <= key y).
  { intros y Hy. apply (heapOrdered_head key (h :: q') h y Ho' eq_refl).
    now rewrite Hperm. }
  split; [apply Hall; left|]. intros y Hy. apply Hall. now right.
Qed.
End RoundQueue.

Lemma queue_pop_takes_least_round_witness :
  outOfOrderDiffs (sampleRun round1First) ≠ []
  ∧ ∃ x q', heapPop (outOfOrderDiffs (sampleRun round1First)) = Ok (x, q')
      ∧ ∀ y, y ∈ outOfOrderDiffs (sampleRun round1First) → round x <= round y.
Proof.
  assert (Hne : outOfOrderDiffs (sampleRun round1First) ≠ [])
    by (vm_compute; discriminate).
  split; [exact Hne|].
  destruct (queue_pop_takes_least_round round (fun d => eq_refl)
              (outOfOrderDiffs (sampleRun round1First)))
    as (x & q' & Hp & _ & Hleast & _).
  - apply Reachable_heapOrdered, round1First_Reachable.
  - exact Hne.
  - exists x, q'. auto.
Defined.

Lemma queue_push_keeps_heap_witness :
  outOfOrderDiffs (sampleRun round1First) ≠ []
  ∧ ∀ d, ∃ q', heapPush (outOfOrderDiffs (sampleRun round1First)) d = Ok q'
      ∧ q' ≡ₚ d :: outOfOrderDiffs (sampleRun round1First).
Proof.
  split; [vm_compute; discriminate|]. intros d.
  destruct (queue_push_keeps_heap round (fun d => eq_refl)
              (outOfOrderDiffs (sampleRun round1First)) d)
    as (q' & Hp & Hperm & _).
  - apply Reachable_heapOrdered, round1First_Reachable.
  - exists q'. auto.
Defined.

(** * Printing a mask *)

Lemma land_maskAll_range (o : Z) : 0 <= Z.land o maskAll <= maskAll.
Proof.
  change maskAll with (Z.ones 2). rewrite Z.land_ones by lia.
  pose proof (Z.mod_pos_bound o (2 ^ 2) ltac:(lia)) as Hb.
  change (Z.ones 2) with 3. change (2 ^ 2) with 4 in *. lia.
Qed.

Lemma String_low_bits (o : Z) :
  outstandingMask_String (Z.land o maskAll) = outstandingMask_String o.
Proof.
  unfold outstandingMask_String. rewrite <- !Z.land_assoc.
  change (Z.land maskAll maskIO) with maskIO.
  change (Z.land maskAll maskState) with maskState. reflexivity.
Qed.

(** X19: two masks print the same exactly when they agree on the IO
    and state bits: the string shows these two bits and nothing else of
    the mask. *)
Theorem mask_string_shows_subtree_bits (o1 o2 : Z) :
  outstandingMask_String o1 = outstandingMask_String o2
  ↔ Z.land o1 maskAll = Z.land o2 maskAll.
Proof.
  split.
  - intros E. rewrite <- (String_low_bits o1), <- (String_low_bits o2) in E.
    destruct (mask_cases _ (land_maskAll_range o1)) as [E1 | [E1 | [E1 | E1]]],
      (mask_cases _ (land_maskAll_range o2)) as [E2 | [E2 | [E2 | E2]]];
      rewrite E1, E2 in *; try reflexivity; vm_compute in E; discriminate E.
  - intros E. rewrite <- (String_low_bits o1), E. apply String_low_bits.
Qed.

(** * A round synced in step *)

Lemma Reachable_step w l w' :
  Reachable w → wfLabel l → iter l w = Ok w' → Reachable w'.
Proof.
  intros (g & db & Hwf & Hr) Hl Hs. exists g, db. split; [exact Hwf|].
  eapply reach_step; eauto.
Qed.

(** With both queues empty the loop waits in its [select]. *)
Lemma iter_select l w :
  running w = true → outOfOrderDiffs w = [] → outOfOrderApplieds w = [] →
  iter l w
  = match l with
    | LRunFinalize k res => runFinalize k res w
    | LPruned prunedBlk res => handlePruned prunedBlk res w
    | LNewBlock blk getBlock => handleNewBlock blk getBlock w
    | LDiff k st => handleDiff k st w
    | LFinalized k dbErr => handleFinalized k dbErr w
    | LDone => Ok (setRunning false w)
    | _ => Blocked
    end.
Proof.
  intros Hrun Hd Ha. unfold iter, guardDiffs, guardApplieds.
  rewrite Hrun, Hd, Ha. destruct l; reflexivity.
Qed.

Lemma scheduleRound_fresh_entry i w w' :
  syncingRounds w !! i = None → scheduleRound i w = Ok w' →
  syncingRounds w'
  = <[i := {| outstanding := maskAll; awaitingRetry := maskNone |}]> (syncingRounds w).
Proof.
  intros Hnone. unfold scheduleRound. rewrite Hnone. intros Hs. inv_ok.
  unfold scheduleSubtree at 2. simpl. rewrite lookup_insert_eq.
  change (needsFetch {| outstanding := maskNone; awaitingRetry := maskAll |} maskIO)
    with true. cbv iota.
  unfold scheduleSubtree. simpl. rewrite lookup_insert_eq.
  change (needsFetch
            (markOutstanding {| outstanding := maskNone; awaitingRetry := maskAll |}
               maskIO) maskState) with true. cbv iota.
  simpl. rewrite !insert_insert_eq. reflexivity.
Qed.

(** The block after the last finalized round reaches an idle worker:
    its two fetches are the only ones submitted. *)
Lemma idle_new_block w blk getBlock :
  Reachable w → idle w → wfLabel (LNewBlock blk getBlock) →
  (∀ k, ∃ b, getBlock k = inr b) →
  hRound (bHeader blk) = ordinal (cachedLastRound w) + 1 →
  hRound (bHeader blk) < MaxUint64 →
  ∃ w1 tIO tState s,
    iter (LNewBlock blk getBlock) w = Ok w1
    ∧ quietStep w w1
    ∧ fetching w1 = [tIO; tState]
    ∧ taskKey tIO = (hRound (bHeader blk), maskIO)
    ∧ taskKey tState = (hRound (bHeader blk), maskState)
    ∧ syncingRounds w1
      = <[hRound (bHeader blk) :=
            {| outstanding := maskAll; awaitingRetry := maskNone |}]> ∅
    ∧ hashCache w1 !! hRound (bHeader blk) = Some s
    ∧ sRound s = hRound (bHeader blk).
Proof.
  intros Hr Hidle Hwf Hgb HR Hmax.
  pose proof (Reachable_Inv _ Hr) as HI.
  destruct Hidle as [Hrun Hd Ha Hf Hfz Hsy Hac].
  rewrite (iter_select _ _ Hrun Hd Ha).
  destruct (handleNewBlock_Ok blk getBlock w Hwf HI Hmax Hgb) as [w1 Hs].
  pose proof (handleNewBlock_quiet _ _ _ _ Hs) as Hq.
  pose proof (handleNewBlock_Inv _ _ _ _ Hwf Hs HI) as HI1.
  pose proof Hs as Hs0.
  rewrite handleNewBlock_unfold in Hs. cbv zeta in Hs.
  inv_ok. rename a into wc.
  destruct (newBlock_prefix _ _ _ _ Hwf HI Hstep)
    as (HI2 & Hq2 & Hsy2 & Hfe2 & _ & Hcov).
  set (wp := cacheIncoming blk wc) in *.
  pose proof (inv_c _ (inv_rounds _ HI)) as Hc.
  assert (Efirst : add64 (cachedLastRound wp) 1 = hRound (bHeader blk)).
  { rewrite (quiet_c _ _ Hq2), add64_1 by exact Hc. lia. }
  rewrite Efirst in Hs.
  replace (Z.to_nat (hRound (bHeader blk) - hRound (bHeader blk) + 1))
    with 1%nat in Hs by lia.
  simpl in Hs. rewrite Z.leb_refl in Hs. inv_ok. rename a into wb.
  assert (Enext : add64 (hRound (bHeader blk)) 1 = hRound (bHeader blk) + 1).
  { destruct Hwf as [HRu _]. rewrite add64_1 by exact HRu.
    rewrite ordinal_small by lia. reflexivity. }
  rewrite Enext in Hs.
  destruct (Z.leb_spec (hRound (bHeader blk) + 1) (hRound (bHeader blk)));
    [lia|]. inv_ok.
  assert (Hnone : syncingRounds wp !! hRound (bHeader blk) = None).
  { rewrite Hsy2, Hsy. apply lookup_empty. }
  assert (Hne : hRound (bHeader blk) ≠ undefinedRound wp).
  { rewrite (quiet_u _ _ Hq2).
    apply (ordinal_above (cachedLastRound w));
      [apply HI|apply HI|lia|lia]. }
  destruct (scheduleRound_fresh _ _ _ (inv_hash _ HI2) Hne Hnone Hstep0)
    as (tIO & tState & Hfe & HkIO & HkState).
  pose proof (scheduleRound_fresh_entry _ _ _ Hnone Hstep0) as Hent.
  assert (HinIO : (hRound (bHeader blk), maskIO) ∈ pending w1).
  { rewrite <- HkIO. apply pending_task. rewrite Hfe. apply elem_of_app. right. left. }
  destruct (inv_pending _ (inv_pend _ HI1) _ _ HinIO) as (_ & _ & Hhc & _).
  destruct Hhc as [s Hs1].
  { rewrite (quiet_a _ _ Hq), Hac. lia. }
  exists w1, tIO, tState, s. split; [exact Hs0|]. split; [exact Hq|].
  split; [rewrite Hfe, Hfe2, Hf; reflexivity|].
  split; [exact HkIO|]. split; [exact HkState|].
  split; [rewrite Hent, Hsy2, Hsy; reflexivity|].
  split; [exact Hs1|].
  apply (inv_hash _ HI1 _ _ Hs1).
  rewrite (quiet_u _ _ Hq), <- (quiet_u _ _ Hq2). exact Hne.
Qed.

(** The result of the first fetch of the pool is received by a worker
    with empty queues and, being of the round awaited, applied at
    once. *)
Lemma deliver_and_apply w st ap t rest e :
  Reachable w → running w = true →
  outOfOrderDiffs w = [] → outOfOrderApplieds w = [] →
  fetching w = t :: rest → answers st →
  tRound t = ordinal (lastFullyAppliedRound w) + 1 →
  syncingRounds w !! tRound t = Some e →
  ∃ w2 w3,
    iter (LDiff 0 st) w = Ok w2 ∧ iter (LApply ap) w2 = Ok w3
    ∧ running w3 = true ∧ outOfOrderDiffs w3 = []
    ∧ fetching w3 = rest ∧ finalizing w3 = finalizing w
    ∧ undefinedRound w3 = undefinedRound w
    ∧ cachedLastRound w3 = cachedLastRound w
    ∧ popRounds (trace w3) = popRounds (trace w) ++ [tRound t]
    ∧ finalizeRounds (trace w3) = finalizeRounds (trace w)
    ∧ sameCheckpoint w w3
    ∧ let e' := {| outstanding := maskClear (outstanding e) (tMask t);
                   awaitingRetry := awaitingRetry e |} in
      if (outstanding e' =? maskNone) && (awaitingRetry e' =? maskNone) then
        syncingRounds w3 = delete (tRound t) (syncingRounds w)
        ∧ hashCache w3 = delete (sub64 (tRound t) 1) (hashCache w)
        ∧ lastFullyAppliedRound w3 = tRound t
        ∧ outOfOrderApplieds w3 = [hashCache w !! tRound t]
      else
        syncingRounds w3 = <[tRound t := e']> (syncingRounds w)
        ∧ hashCache w3 = hashCache w
        ∧ lastFullyAppliedRound w3 = lastFullyAppliedRound w
        ∧ outOfOrderApplieds w3 = [].
Proof.
  intros Hr Hrun Hd Ha Hf Hst Hround He.
  pose proof (Reachable_Inv _ Hr) as HI.
  pose proof (Reachable_InvShape _ Hr) as HS.
  assert (Hk : fetching w !! 0%nat = Some t) by (rewrite Hf; reflexivity).
  destruct (handleDiff_Ok 0 st w t (inv_pend _ HI) HS Hk) as [w2 Hs2].
  assert (Hi2 : iter (LDiff 0 st) w = Ok w2)
    by (rewrite (iter_select _ _ Hrun Hd Ha); exact Hs2).
  pose proof (Reachable_step w (LDiff 0 st) w2 Hr I Hi2) as Hr2.
  pose proof (Reachable_Inv _ Hr2) as HI2.
  destruct (handleDiff_frame _ _ _ _ Hs2)
    as (Hu2 & Hc2 & Ha2 & Hap2 & Hh2 & Hfz2 & Hrun2 & Hfe2 & Hp2 & Hac2 & Hfr2).
  pose proof (handleDiff_same _ _ _ _ Hs2) as Hsame2.
  destruct (handleDiff_spec _ _ _ _ Hs2) as (t' & prev & Hk' & Hprev & Hi).
  assert (t' = t) by congruence. subst t'.
  destruct (fetchDiffBody_fields st (tRound t) prev (tThis t) (tMask t))
    as (Fr & Fm & _).
  apply handleItem_spec in Hi. rewrite (Hst _ _ _ _) in Hi.
  destruct Hi as (q & Hq & Ew). simpl in Hq. rewrite Hd in Hq.
  set (item := (fetchDiffBody st (tRound t) prev (tThis t) (tMask t)).1) in *.
  assert (Eq : q = [item]).
  { apply heapPush_Permutation in Hq. now apply Permutation_singleton_r. }
  subst q.
  assert (Hd2 : outOfOrderDiffs w2 = [item]) by (rewrite Ew; reflexivity).
  assert (Hsy2 : syncingRounds w2 = syncingRounds w) by (rewrite Ew; reflexivity).
  assert (Hg2 : guardDiffs w2 = Ok true).
  { unfold guardDiffs. rewrite Hd2. simpl.
    unfold GetRound, fetchedDiff_roundItem. simpl.
    rewrite Ha2, add64_1 by apply HI. rewrite Fr, Hround.
    now rewrite Z.eqb_refl. }
  destruct (applyStep_Ok ap w2 HI2 Hg2) as [w3 Hs3].
  assert (Hi3 : iter (LApply ap) w2 = Ok w3).
  { unfold iter. rewrite Hrun2, Hrun. simpl. rewrite Hg2. exact Hs3. }
  pose proof (applyStep_same _ _ _ Hs3) as Hsame3.
  destruct (applyStep_spec _ _ _ Hs3)
    as (d & q & e0 & evs & Hpop & He0 & Hu3 & Hc3 & Hd3 & Hfe3 & Hfz3 & Hrun3
        & Htr & Hpr & _ & Hfr & _ & _ & Hcase).
  rewrite Hd2 in Hpop. destruct (heapPop_spec _ _ _ Hpop) as [Hhead Hperm].
  assert (d = item) by (simpl in Hhead; congruence). subst d.
  assert (Eq0 : q = []).
  { apply Permutation_length in Hperm. simpl in Hperm.
    destruct q; [reflexivity|discriminate]. }
  rewrite Eq0 in Hd3. rewrite Fr, Fm, Hsy2 in *. rewrite He in He0.
  injection He0 as <-.
  exists w2, w3. split; [exact Hi2|]. split; [exact Hi3|].
  split; [congruence|]. split; [exact Hd3|].
  split; [rewrite Hfe3, Hfe2, Hf; reflexivity|]. split; [congruence|].
  split; [congruence|]. split; [congruence|].
  split; [rewrite Htr, popRounds_app, Hpr, Hp2; reflexivity|].
  split; [rewrite Htr, finalizeRounds_app, Hfr, Hfr2; apply app_nil_r|].
  split; [eapply sameCheckpoint_trans; eauto|].
  cbv zeta in *. cbn [outstanding awaitingRetry] in Hcase |- *.
  destruct ((maskClear (outstanding e) (tMask t) =? maskNone)
            && (awaitingRetry e =? maskNone)).
  - destruct Hcase as (H1 & H2 & H3 & H4).
    split; [exact H1|]. split; [congruence|]. split; [exact H3|].
    rewrite Hap2, Ha, Hh2 in H4.
    apply heapPush_Permutation in H4. now apply Permutation_singleton_r.
  - destruct Hcase as (H1 & H2 & H3 & H4).
    split; [exact H1|]. split; [congruence|]. split; [congruence|]. congruence.
Qed.

(** The summary of the round after the last finalized one, alone in
    its queue, is finalized and the completion received. *)
Lemma finalize_applied w s fin dbErr :
  Reachable w → running w = true →
  outOfOrderDiffs w = [] → outOfOrderApplieds w = [Some s] →
  finalizing w = [] →
  sRound s = ordinal (cachedLastRound w) + 1 →
  ∃ w1 w2 w3,
    iter LSpawnFinalize w = Ok w1
    ∧ iter (LRunFinalize 0 fin) w1 = Ok w2
    ∧ iter (LFinalized 0 dbErr) w2 = Ok w3
    ∧ running w3 = true ∧ outOfOrderDiffs w3 = [] ∧ outOfOrderApplieds w3 = []
    ∧ finalizing w3 = [] ∧ fetching w3 = fetching w
    ∧ syncingRounds w3 = syncingRounds w
    ∧ undefinedRound w3 = undefinedRound w
    ∧ lastFullyAppliedRound w3 = lastFullyAppliedRound w
    ∧ cachedLastRound w3 = sRound s
    ∧ popRounds (trace w3) = popRounds (trace w)
    ∧ finalizeRounds (trace w3) = finalizeRounds (trace w) ++ [sRound s]
    ∧ GetLastSynced w3 = (sRound s, sIORoot s, sStateRoot s)
    ∧ stateStore w3 = match dbErr with
                      | None => Some (syncedState w3)
                      | Some _ => stateStore w
                      end.
Proof.
  intros Hr Hrun Hd Ha Hfz Hround.
  pose proof (Reachable_Inv _ Hr) as HI.
  assert (Hg : guardApplieds w = Ok true).
  { unfold guardApplieds. rewrite Ha. simpl.
    unfold GetRound, pointer_roundItem, GetRound, blockSummary_roundItem. simpl.
    rewrite add64_1 by apply HI. rewrite Hround. now rewrite Z.eqb_refl. }
  assert (Hs1 : spawnStep w
                = Ok (emit [EvSpawnFinalize s]
                        (setFinalizing (finalizing w ++ [mkFinalizeTask s false])
                           (setApplieds [] w)))).
  { unfold spawnStep. rewrite Ha. reflexivity. }
  rewrite Hfz in Hs1. simpl in Hs1.
  destruct dbErr as [dbe|].
  - eexists _, _, _. split.
    { unfold iter, guardDiffs. rewrite Hrun, Hd. simpl. rewrite Hg. exact Hs1. }
    split; [simpl; unfold runFinalize; simpl; reflexivity|].
    split.
    { unfold iter, guardDiffs, guardApplieds. simpl. rewrite Hrun, Hd. simpl.
      unfold handleFinalized. simpl. reflexivity. }
    simpl. rewrite ?popRounds_app, ?finalizeRounds_app. simpl.
    rewrite ?app_nil_r. repeat split; try assumption; reflexivity.
  - eexists _, _, _. split.
    { unfold iter, guardDiffs. rewrite Hrun, Hd. simpl. rewrite Hg. exact Hs1. }
    split; [simpl; unfold runFinalize; simpl; reflexivity|].
    split.
    { unfold iter, guardDiffs, guardApplieds. simpl. rewrite Hrun, Hd. simpl.
      unfold handleFinalized. simpl. reflexivity. }
    simpl. rewrite ?popRounds_app, ?finalizeRounds_app. simpl.
    rewrite ?app_nil_r. repeat split; try assumption; reflexivity.
Qed.

Lemma run_step l ls w w1 : iter l w = Ok w1 → run (l :: ls) w = run ls w1.
Proof.
  intros Hs. change (run (l :: ls) w) with (w' ← iter l w; run ls w').
  now rewrite Hs.
Qed.

Lemma run_app ls1 ls2 w w1 :
  run ls1 w = Ok w1 → run (ls1 ++ ls2) w = run ls2 w1.
Proof.
  revert w. induction ls1 as [|l ls1 IH]; intros w Hs; simpl in *.
  - now inv_ok.
  - inv_ok. rewrite Hstep. simpl. now apply IH.
Qed.

Lemma answers_missingStore : answers missingStore.
Proof.
  intros r prev this m. unfold fetchDiffBody, missingStore. simpl.
  destruct (hashEqual _ _); reflexivity.
Qed.

Lemma workerInit_idle g db : idle (workerInit g db).
Proof. constructor; reflexivity. Qed.

(** A round synced in step, from an idle worker to an idle worker. *)
Lemma syncNext_idle (w : World) (blk : Block)
    (getBlock : Z → error + Block) (stIO stState : Storage)
    (apIO apState fin dbErr : option error) :
  Reachable w → idle w → wfLabel (LNewBlock blk getBlock) →
  (∀ k, ∃ b, getBlock k = inr b) →
  hRound (bHeader blk) = ordinal (cachedLastRound w) + 1 →
  hRound (bHeader blk) < MaxUint64 →
  answers stIO → answers stState →
  ∃ w',
    run (syncNext blk getBlock stIO stState apIO apState fin dbErr) w = Ok w'
    ∧ Reachable w' ∧ idle w'
    ∧ cachedLastRound w' = hRound (bHeader blk)
    ∧ (GetLastSynced w').1.1 = hRound (bHeader blk)
    ∧ popRounds (trace w')
      = popRounds (trace w) ++ [hRound (bHeader blk); hRound (bHeader blk)]
    ∧ finalizeRounds (trace w')
      = finalizeRounds (trace w) ++ [hRound (bHeader blk)]
    ∧ (dbErr = None → persistedRound w' = hRound (bHeader blk)).
Proof.
  intros Hr Hidle Hwf Hgb HR Hmax HstIO HstState.
  set (R := hRound (bHeader blk)) in *.
  destruct (idle_new_block w blk getBlock Hr Hidle Hwf Hgb HR Hmax)
    as (w1 & tIO & tState & s & Hi1 & Hq1 & Hf1 & HkIO & HkState & Hsy1 & Hh1 & Hs).
  fold R in HkIO, HkState, Hsy1, Hh1, Hs.
  destruct Hidle as [Hrun Hd Ha Hf Hfz Hsy Hac].
  injection HkIO as HrIO HmIO. injection HkState as HrState HmState.
  pose proof (Reachable_step _ _ _ Hr Hwf Hi1) as Hr1.
  (* the IO subtree *)
  destruct (deliver_and_apply w1 stIO apIO tIO [tState]
              {| outstanding := maskAll; awaitingRetry := maskNone |})
    as (w2 & w3 & Hi2 & Hi3 & Hrun3 & Hd3 & Hf3 & Hfz3 & Hu3 & Hc3 & Hp3 & Hfr3
        & Hsame3 & Hcase3); try assumption.
  { rewrite (quiet_running _ _ Hq1). exact Hrun. }
  { rewrite (quiet_diffs _ _ Hq1). exact Hd. }
  { rewrite (quiet_applieds _ _ Hq1). exact Ha. }
  { rewrite HrIO, (quiet_a _ _ Hq1), Hac. exact HR. }
  { rewrite HrIO, Hsy1. apply lookup_insert_eq. }
  pose proof (Reachable_step w1 (LDiff 0 stIO) w2 Hr1 I Hi2) as Hr2.
  pose proof (Reachable_step w2 (LApply apIO) w3 Hr2 I Hi3) as Hr3.
  rewrite HrIO, HmIO in Hcase3. cbv zeta in Hcase3.
  cbn [outstanding awaitingRetry] in Hcase3.
  change ((maskClear maskAll maskIO =? maskNone) && (maskNone =? maskNone))
    with false in Hcase3.
  destruct Hcase3 as (Hsy3 & Hh3 & Ha3 & Hap3).
  (* the state subtree *)
  destruct (deliver_and_apply w3 stState apState tState []
              {| outstanding := maskClear maskAll maskIO; awaitingRetry := maskNone |})
    as (w4 & w5 & Hi4 & Hi5 & Hrun5 & Hd5 & Hf5 & Hfz5 & Hu5 & Hc5 & Hp5 & Hfr5
        & Hsame5 & Hcase5); try assumption.
  { rewrite HrState, Ha3, (quiet_a _ _ Hq1), Hac. exact HR. }
  { rewrite HrState, Hsy3. apply lookup_insert_eq. }
  pose proof (Reachable_step w3 (LDiff 0 stState) w4 Hr3 I Hi4) as Hr4.
  pose proof (Reachable_step w4 (LApply apState) w5 Hr4 I Hi5) as Hr5.
  rewrite HrState, HmState in Hcase5. cbv zeta in Hcase5.
  cbn [outstanding awaitingRetry] in Hcase5.
  change ((maskClear (maskClear maskAll maskIO) maskState =? maskNone)
          && (maskNone =? maskNone)) with true in Hcase5.
  destruct Hcase5 as (Hsy5 & Hh5 & Ha5 & Hap5).
  rewrite Hh3, Hh1 in Hap5.
  (* finalize *)
  destruct (finalize_applied w5 s fin dbErr)
    as (w6 & w7 & w8 & Hi6 & Hi7 & Hi8 & Hrun8 & Hd8 & Hap8 & Hfz8 & Hf8 & Hsy8
        & Hu8 & Ha8 & Hc8 & Hp8 & Hfr8 & Hget & Hstore); try assumption.
  { rewrite Hfz5, Hfz3, (quiet_finalizing _ _ Hq1). exact Hfz. }
  { rewrite Hc5, Hc3, (quiet_c _ _ Hq1), Hs. exact HR. }
  pose proof (Reachable_step w5 LSpawnFinalize w6 Hr5 I Hi6) as Hr6.
  pose proof (Reachable_step w6 (LRunFinalize 0 fin) w7 Hr6 I Hi7) as Hr7.
  pose proof (Reachable_step w7 (LFinalized 0 dbErr) w8 Hr7 I Hi8) as Hr8.
  exists w8. split.
  { unfold syncNext.
    rewrite (run_step _ _ _ _ Hi1), (run_step _ _ _ _ Hi2), (run_step _ _ _ _ Hi3),
      (run_step _ _ _ _ Hi4), (run_step _ _ _ _ Hi5), (run_step _ _ _ _ Hi6),
      (run_step _ _ _ _ Hi7), (run_step _ _ _ _ Hi8). reflexivity. }
  split; [exact Hr8|]. split.
  { constructor; try assumption.
    - rewrite Hf8. exact Hf5.
    - rewrite Hsy8, Hsy5, Hsy3, Hsy1.
      rewrite !delete_insert_eq. apply delete_empty.
    - rewrite Ha8, Ha5, Hc8, Hs. reflexivity. }
  split; [rewrite Hc8; exact Hs|].
  split; [rewrite Hget; exact Hs|].
  split.
  { rewrite Hp8, Hp5, Hp3, (quiet_pops _ _ Hq1), HrIO, HrState, <- app_assoc.
    reflexivity. }
  split.
  { rewrite Hfr8, Hfr5, Hfr3, (quiet_finalizes _ _ Hq1), Hs. reflexivity. }
  intros ->. unfold persistedRound. rewrite Hstore. simpl.
  unfold GetLastSynced in Hget. injection Hget as E _ _. rewrite E. exact Hs.
Qed.

(** X20: a worker with nothing queued, nothing in flight and no round
    in progress receives the block of the round after the last
    finalized one. If both fetches answer without error, then whatever
    Apply, Finalize and the state store answer, the worker goes
    through fetch, apply and finalize of that round without blocking:
    it pops the two diffs of the round, calls Finalize once for it,
    reports the round as last synced and is again idle, ready for the
    next block. *)
Theorem next_round_is_synced (w : World) (blk : Block)
    (getBlock : Z → error + Block) (stIO stState : Storage)
    (apIO apState fin dbErr : option error) :
  Reachable w → idle w → wfLabel (LNewBlock blk getBlock) →
  (∀ k, ∃ b, getBlock k = inr b) →
  hRound (bHeader blk) = ordinal (cachedLastRound w) + 1 →
  hRound (bHeader blk) < MaxUint64 →
  answers stIO → answers stState →
  ∃ w',
    run (syncNext blk getBlock stIO stState apIO apState fin dbErr) w = Ok w'
    ∧ Reachable w' ∧ idle w'
    ∧ cachedLastRound w' = hRound (bHeader blk)
    ∧ (GetLastSynced w').1.1 = hRound (bHeader blk)
    ∧ popRounds (trace w')
      = popRounds (trace w) ++ [hRound (bHeader blk); hRound (bHeader blk)]
    ∧ finalizeRounds (trace w')
      = finalizeRounds (trace w) ++ [hRound (bHeader blk)]
    ∧ (dbErr = None → persistedRound w' = hRound (bHeader blk)).
Proof. apply syncNext_idle. Qed.

Lemma next_round_is_synced_witness :
  idle sampleInit
  ∧ ∃ w',
      run (syncNext (sampleBlock 0) sampleChain missingStore missingStore
             None None None None) sampleInit = Ok w'
      ∧ idle w' ∧ cachedLastRound w' = 0.
Proof.
  split; [apply workerInit_idle|].
  destruct (next_round_is_synced sampleInit (sampleBlock 0) sampleChain
              missingStore missingStore None None None None)
    as (w' & Hrun & _ & Hidle & Hc & _).
  - apply (sampleRun_Reachable []); [apply List.Forall_nil|reflexivity].
  - apply workerInit_idle.
  - apply sample_wfLabel. unfold isUint64. rewrite MaxUint64_eq. lia.
  - intros k. eexists. reflexivity.
  - vm_compute. reflexivity.
  - rewrite MaxUint64_eq. vm_compute. reflexivity.
  - apply answers_missingStore.
  - apply answers_missingStore.
  - exists w'. auto.
Defined.

(** Blocks that arrive in step, each after the round before it is
    finalized, are all synced. *)
Lemma syncInStep_idle (getBlock : Z → error + Block) (st : Storage)
    (ap fin dbErr : option error) (blks : list Block) (w : World) :
  Reachable w → idle w →
  (∀ i b, getBlock i = inr b → hRound (bHeader b) = i) →
  (∀ k, ∃ b, getBlock k = inr b) → answers st →
  inStep (ordinal (cachedLastRound w) + 1) blks →
  ordinal (cachedLastRound w) + Z.of_nat (length blks) < MaxUint64 →
  ∃ w',
    run (syncInStep getBlock st ap fin dbErr blks) w = Ok w'
    ∧ Reachable w' ∧ idle w'
    ∧ ordinal (cachedLastRound w')
      = ordinal (cachedLastRound w) + Z.of_nat (length blks)
    ∧ finalizeRounds (trace w')
      = finalizeRounds (trace w) ++ ((λ b, hRound (bHeader b)) <$> blks)
    ∧ popRounds (trace w')
      = popRounds (trace w)
        ++ flat_map (λ b, [hRound (bHeader b); hRound (bHeader b)]) blks.
Proof.
  intros Hr Hidle Hco Hgb Hst. revert w Hr Hidle.
  induction blks as [|blk rest IH]; intros w Hr Hidle Hin Hmax.
  - exists w. simpl. rewrite !app_nil_r.
    split; [reflexivity|]. split; [exact Hr|]. split; [exact Hidle|].
    split; [lia|]. split; reflexivity.
  - destruct Hin as [HR Hrest].
    pose proof (ordinal_bounds _ (inv_c _ (inv_rounds _ (Reachable_Inv _ Hr))))
      as Hb.
    simpl length in Hmax.
    assert (Hlt : hRound (bHeader blk) < MaxUint64) by lia.
    assert (Hwf : wfLabel (LNewBlock blk getBlock)).
    { split; [unfold isUint64; lia|exact Hco]. }
    destruct (syncNext_idle w blk getBlock st st ap ap fin dbErr
                Hr Hidle Hwf Hgb HR Hlt Hst Hst)
      as (w1 & Hrun1 & Hr1 & Hidle1 & Hc1 & _ & Hp1 & Hf1 & _).
    assert (Eo : ordinal (cachedLastRound w1) = hRound (bHeader blk)).
    { rewrite Hc1. apply ordinal_small. lia. }
    destruct (IH w1 Hr1 Hidle1) as (w' & Hrun & Hr' & Hidle' & Hc' & Hf' & Hp').
    { rewrite Eo, HR. exact Hrest. }
    { rewrite Eo. lia. }
    exists w'. split.
    { unfold syncInStep in *.
      change (run (syncNext blk getBlock st st ap ap fin dbErr
                   ++ flat_map (λ blk, syncNext blk getBlock st st ap ap fin dbErr)
                        rest) w = Ok w').
      rewrite (run_app _ _ _ _ Hrun1). exact Hrun. }
    split; [exact Hr'|]. split; [exact Hidle'|].
    split; [rewrite Hc', Eo; simpl length; lia|].
    split; [rewrite Hf', Hf1, <- app_assoc; reflexivity|].
    rewrite Hp', Hp1, <- app_assoc. reflexivity.
Qed.

(** X21: from start-up, blocks that arrive in step from the round
    after the one the worker resumes from, each one synced before the
    next arrives, are all synced, however many there are: the worker
    ends idle, the rounds popped and finalized are exactly those of the
    blocks, in order, and the round finalized last is that of the last
    block. *)
Theorem blocks_in_step_are_all_synced (g : Block) (db : option watcherState)
    (getBlock : Z → error + Block) (st : Storage)
    (ap fin dbErr : option error) (blks : list Block) :
  wfStart g db →
  (∀ i b, getBlock i = inr b → hRound (bHeader b) = i) →
  (∀ k, ∃ b, getBlock k = inr b) → answers st →
  inStep (ordinal (cachedLastRound (workerInit g db)) + 1) blks →
  ordinal (cachedLastRound (workerInit g db)) + Z.of_nat (length blks)
    < MaxUint64 →
  ∃ w',
    run (syncInStep getBlock st ap fin dbErr blks) (workerInit g db) = Ok w'
    ∧ idle w'
    ∧ ordinal (cachedLastRound w')
      = ordinal (cachedLastRound (workerInit g db)) + Z.of_nat (length blks)
    ∧ finalizeRounds (trace w') = (λ b, hRound (bHeader b)) <$> blks
    ∧ popRounds (trace w')
      = flat_map (λ b, [hRound (bHeader b); hRound (bHeader b)]) blks.
Proof.
  intros Hwf Hco Hgb Hst Hin Hmax.
  destruct (syncInStep_idle getBlock st ap fin dbErr blks (workerInit g db))
    as (w' & Hrun & _ & Hidle & Hc & Hf & Hp); try assumption.
  - exists g, db. split; [exact Hwf|apply reach_init].
  - apply workerInit_idle.
  - exists w'. auto.
Qed.

Lemma blocks_in_step_are_all_synced_witness :
  inStep 0 [sampleBlock 0; sampleBlock 1; sampleBlock 2]
  ∧ ∃ w',
      run (syncInStep sampleChain missingStore None None None
             [sampleBlock 0; sampleBlock 1; sampleBlock 2]) sampleInit = Ok w'
      ∧ finalizeRounds (trace w') = [0; 1; 2].
Proof.
  split; [simpl; auto|].
  destruct (blocks_in_step_are_all_synced (sampleBlock 0) None sampleChain
              missingStore None None None
              [sampleBlock 0; sampleBlock 1; sampleBlock 2])
    as (w' & Hrun & _ & _ & Hf & _).
  - apply sample_wfStart.
  - apply sampleChain_round.
  - intros k. eexists. reflexivity.
  - apply answers_missingStore.
  - simpl. auto.
  - rewrite MaxUint64_eq. vm_compute. reflexivity.
  - exists w'. split; [exact Hrun|exact Hf].
Defined.

(** * Finalize after Apply *)

Lemma popKeys_app tr evs : popKeys (tr ++ evs) = popKeys tr ++ popKeys evs.
Proof. apply omap_app. Qed.

(** ** Steps that pop nothing *)

Lemma samePops_refl w : samePops w w.
Proof. reflexivity. Qed.

Lemma samePops_trans w1 w2 w3 : samePops w1 w2 → samePops w2 w3 → samePops w1 w3.
Proof. unfold samePops. congruence. Qed.

Ltac same_pops :=
  unfold samePops; simpl; rewrite ?popKeys_app; simpl; rewrite ?app_nil_r;
  reflexivity.

Lemma installDummy_pops blk w : samePops w (installDummy blk w).
Proof. unfold installDummy. destruct (_ && _); same_pops. Qed.

Lemma cacheIncoming_pops blk w : samePops w (cacheIncoming blk w).
Proof. unfold cacheIncoming. destruct (_ !! _); same_pops. Qed.

Lemma catchUp_pops getBlock fuel i R w w' :
  catchUp getBlock fuel i R w = Ok w' → samePops w w'.
Proof.
  revert i w. induction fuel as [|fuel IH]; intros i w; simpl.
  - destruct (i <? R); intros Hs; inv_ok. apply samePops_refl.
  - destruct (i <? R); intros Hs; inv_ok; [|apply samePops_refl].
    apply IH in Hs. eapply samePops_trans; [|exact Hs].
    destruct (hashCache w !! i); inv_ok; [apply samePops_refl|].
    destruct (getBlock i); inv_ok. same_pops.
Qed.

Lemma scheduleSubtree_pops i m t w : samePops w (scheduleSubtree i m t w).
Proof.
  unfold scheduleSubtree. destruct (syncingRounds w !! i) as [e|];
    [|apply samePops_refl].
  destruct (needsFetch e m); same_pops.
Qed.

Lemma scheduleRound_pops i w w' : scheduleRound i w = Ok w' → samePops w w'.
Proof.
  unfold scheduleRound. intros Hs.
  destruct (match syncingRounds w !! i with Some _ => _ | None => _ end);
    inv_ok; [apply samePops_refl|].
  eapply samePops_trans; [|apply scheduleSubtree_pops].
  eapply samePops_trans; [|apply scheduleSubtree_pops].
  destruct (syncingRounds w !! i); same_pops.
Qed.

Lemma scheduleLoop_pops fuel i R w w' :
  scheduleLoop fuel i R w = Ok w' → samePops w w'.
Proof.
  revert i w. induction fuel as [|fuel IH]; intros i w; simpl.
  - destruct (i <=? R); intros Hs; inv_ok. apply samePops_refl.
  - destruct (i <=? R); intros Hs; inv_ok; [|apply samePops_refl].
    apply IH in Hs. eapply samePops_trans; [|exact Hs].
    eapply scheduleRound_pops; eauto.
Qed.

Lemma handleNewBlock_pops blk getBlock w w' :
  handleNewBlock blk getBlock w = Ok w' → samePops w w'.
Proof.
  unfold handleNewBlock. intros Hs. inv_ok.
  apply scheduleLoop_pops in Hs. apply catchUp_pops in Hstep.
  eapply samePops_trans; [|exact Hs].
  eapply samePops_trans; [|apply cacheIncoming_pops].
  eapply samePops_trans; [|exact Hstep].
  eapply samePops_trans; [|apply installDummy_pops].
  same_pops.
Qed.

Lemma getDiff_events_pops (calls : list (Root * Root)) :
  popKeys (map (λ c, EvGetDiff c.1 c.2) calls) = [].
Proof. induction calls as [|c calls IH]; [reflexivity|exact IH]. Qed.

Lemma handleDiff_pops k st w w' : handleDiff k st w = Ok w' → samePops w w'.
Proof.
  intros Hs. destruct (handleDiff_spec _ _ _ _ Hs) as (t & prev & _ & _ & Hi).
  apply handleItem_spec in Hi. unfold samePops. destruct (err _) as [failure|].
  - destruct Hi as (e & _ & ->). simpl.
    rewrite !popKeys_app, getDiff_events_pops. simpl. now rewrite !app_nil_r.
  - destruct Hi as (q & _ & ->). simpl.
    rewrite !popKeys_app, getDiff_events_pops. now rewrite !app_nil_r.
Qed.

Lemma handleFinalized_pops k dbErr w w' :
  handleFinalized k dbErr w = Ok w' → samePops w w'.
Proof.
  unfold handleFinalized. destruct (finalizing w !! k) as [[s [|]]|]; try discriminate.
  intros Hs. destruct dbErr; inv_ok; same_pops.
Qed.

(** The first branch pops one diff. *)
Lemma applyStep_pops res w w' :
  applyStep res w = Ok w' →
  ∃ d q, heapPop (outOfOrderDiffs w) = Ok (d, q)
    ∧ popKeys (trace w') = popKeys (trace w) ++ [diffKey d].
Proof.
  unfold applyStep. intros Hs. inv_ok. destruct a as [d q].
  exists d, q. split; [exact Hstep|].
  destruct (fetched d); [destruct res|]; simpl in Hs; inv_ok;
    match type of Hs with
    | (if ?c then _ else _) = _ => destruct c
    end; inv_ok; simpl; rewrite ?popKeys_app; simpl;
    rewrite ?app_nil_r; reflexivity.
Qed.

(** ** The invariant *)

Lemma mask_move_bits (x y m m' : Z) :
  0 <= x <= maskAll → 0 <= y <= maskAll →
  (m = maskIO ∨ m = maskState) → (m' = maskIO ∨ m' = maskState) →
  Z.land (maskClear x m) m' = 0 → Z.land (maskSet y m) m' = 0 →
  Z.land x m' = 0 ∧ Z.land y m' = 0.
Proof.
  intros Hx Hy Hm Hm'. apply mask_cases in Hx, Hy.
  destruct Hx as [-> | [-> | [-> | ->]]], Hy as [-> | [-> | [-> | ->]]],
    Hm as [-> | ->], Hm' as [-> | ->];
    vm_compute; intros H1 H2; split; congruence.
Qed.

Lemma maskClear_kept (x m m' : Z) :
  0 <= x <= maskAll → (m = maskIO ∨ m = maskState) →
  (m' = maskIO ∨ m' = maskState) →
  Z.land (maskClear x m) m' = 0 → m' = m ∨ Z.land x m' = 0.
Proof.
  intros Hx Hm Hm'. apply mask_cases in Hx.
  destruct Hx as [-> | [-> | [-> | ->]]], Hm as [-> | ->], Hm' as [-> | ->];
    vm_compute; intros H1; auto; discriminate.
Qed.

Lemma scheduleSubtree_syncPopped K i m t w :
  (m = maskIO ∨ m = maskState) → InvOutstanding w →
  syncPopped K w → syncPopped K (scheduleSubtree i m t w).
Proof.
  intros Hm [O1 _] HK. unfold scheduleSubtree.
  destruct (syncingRounds w !! i) as [e|] eqn:He; [|exact HK].
  destruct (needsFetch e m); [|exact HK].
  destruct (O1 _ _ He) as [Ho Haw].
  intros r e2 m' Hl Hm' Hb1 Hb2. simpl in Hl.
  apply lookup_insert_Some in Hl as [[<- <-]|[Hne Hl]]; [|eapply HK; eauto].
  simpl in Hb1, Hb2.
  destruct (mask_move_bits _ _ _ _ Haw Ho Hm Hm' Hb2 Hb1) as [H1 H2].
  eapply HK; eauto.
Qed.

Lemma scheduleRound_syncPopped K i w w' :
  InvHash w → i ≠ undefinedRound w →
  scheduleRound i w = Ok w' →
  InvOutstanding w ∧ syncPopped K w → InvOutstanding w' ∧ syncPopped K w'.
Proof.
  intros HH Hne Hs [HO HK].
  split; [eapply scheduleRound_InvOutstanding; eauto|].
  revert Hs. unfold scheduleRound. intros Hs.
  destruct (match syncingRounds w !! i with Some _ => _ | None => _ end);
    inv_ok; [assumption|].
  rename a into this.
  assert (Hthis : hashCache w !! i = Some this).
  { destruct (syncingRounds w !! i); exact Hstep. }
  destruct (HH _ _ Hthis) as [_ Hrd]. specialize (Hrd Hne).
  set (w0 := emit [EvLog LogDebug "preparing round sync"]
               match syncingRounds w !! i with
               | Some _ => w
               | None =>
                   setSyncingRounds
                     (<[i := {| outstanding := maskNone; awaitingRetry := maskAll |}]>
                        (syncingRounds w)) w
               end) in *.
  assert (HO0 : InvOutstanding w0 ∧ syncPopped K w0).
  { subst w0. destruct HO as [O1 O2].
    destruct (syncingRounds w !! i) eqn:Hf.
    - split; [constructor; assumption|exact HK].
    - split.
      + constructor.
        * intros r e2. simpl. intros Hl.
          apply lookup_insert_Some in Hl as [[<- <-]|[Hne' Hl]]; [|eauto].
          simpl. vm_compute. repeat split; discriminate.
        * intros r e2 m' Hl Hm' Hbit.
          change (pending _) with (pending w).
          simpl in Hl. apply lookup_insert_Some in Hl as [[<- <-]|[Hne' Hl]];
            [|eapply O2; eauto].
          simpl in Hbit. exfalso. apply Hbit. reflexivity.
      + intros r e2 m' Hl Hm' Hb1 Hb2. simpl in Hl.
        apply lookup_insert_Some in Hl as [[<- <-]|[Hne' Hl]];
          [|eapply HK; eauto].
        simpl in Hb2. exfalso. destruct Hm' as [-> | ->]; discriminate. }
  destruct HO0 as [HO0 HK0].
  apply scheduleSubtree_syncPopped; [auto| |].
  - apply scheduleSubtree_InvOutstanding;
      [auto|unfold taskKey; simpl; congruence|exact HO0].
  - apply scheduleSubtree_syncPopped; auto.
Qed.

Lemma handleNewBlock_syncPopped K blk getBlock w w' :
  wfLabel (LNewBlock blk getBlock) → Inv w →
  handleNewBlock blk getBlock w = Ok w' →
  InvOutstanding w → syncPopped K w → syncPopped K w'.
Proof.
  intros Hwf HI Hs HO HK. rewrite handleNewBlock_unfold in Hs. cbv zeta in Hs.
  inv_ok. rename a into w1.
  destruct (newBlock_prefix _ _ _ _ Hwf HI Hstep)
    as (HI2 & Hq2 & Hsy2 & Hfe2 & _ & _).
  pose proof (inv_c _ (inv_rounds _ HI2)) as Hc2.
  apply (scheduleLoop_ind (λ w, InvOutstanding w ∧ syncPopped K w)
            (add64 (cachedLastRound (cacheIncoming blk w1)) 1)
            (cachedLastRound (cacheIncoming blk w1))
            (hashCache (cacheIncoming blk w1))
            (Z.to_nat (hRound (bHeader blk)
                       - add64 (cachedLastRound (cacheIncoming blk w1)) 1 + 1))
            (add64 (cachedLastRound (cacheIncoming blk w1)) 1)
            (hRound (bHeader blk)) (cacheIncoming blk w1) w');
    [ |apply add64_isUint64|apply Hwf|lia|lia|reflexivity|reflexivity
    |rewrite add64_1 by exact Hc2; lia|exact Hs|exact HI2| ].
  - intros j w0 wj HI0 Hc0 Hh0 Hj Hmax HQ Hsj.
    eapply scheduleRound_syncPopped; [apply HI0| |exact Hsj|exact HQ].
    destruct HI0 as [HR0 _ _ _].
    apply (ordinal_above (cachedLastRound w0)); [apply HR0|apply HR0| |exact Hmax].
    rewrite Hc0. rewrite add64_1 in Hj by exact Hc2. lia.
  - split.
    + eapply InvOutstanding_eq; [exact Hsy2| |exact Hfe2|exact HO]. apply Hq2.
    + intros r e m. rewrite Hsy2. apply HK.
Qed.

Lemma bothPopped_mono tr tr' r :
  (∀ x, x ∈ popKeys tr → x ∈ popKeys tr') → bothPopped tr r → bothPopped tr' r.
Proof. intros Hsub [H1 H2]. split; auto. Qed.

(** A step that pops nothing and moves no summary forward. *)
Lemma InvPopped_same w w' :
  samePops w w' →
  syncPopped (popKeys (trace w)) w' →
  (∀ p, p ∈ outOfOrderApplieds w' → p ∈ outOfOrderApplieds w) →
  (∀ t, t ∈ finalizing w' → ∃ t0, t0 ∈ finalizing w ∧ ftSummary t0 = ftSummary t) →
  finalizeRounds (trace w') = finalizeRounds (trace w) →
  InvPopped w → InvPopped w'.
Proof.
  unfold samePops. intros Hp Hsy Hap Hfz Hfr [P1 P2 P3 P4].
  constructor; unfold bothPopped in *; rewrite ?Hp, ?Hfr.
  - exact Hsy.
  - intros s Hs. apply P2, Hap, Hs.
  - intros t Ht. destruct (Hfz t Ht) as (t0 & Ht0 & <-). now apply P3.
  - exact P4.
Qed.

Lemma workerInit_InvPopped g db : InvPopped (workerInit g db).
Proof.
  constructor; simpl.
  - intros r e m Hl. rewrite lookup_empty in Hl. discriminate.
  - intros s Hs. inversion Hs.
  - intros t Ht. inversion Ht.
  - intros r Hr. inversion Hr.
Qed.

Lemma applyStep_InvPopped res w w' :
  Inv w → InvOutstanding w → guardDiffs w = Ok true → applyStep res w = Ok w' →
  InvPopped w → InvPopped w'.
Proof.
  intros HI [O1 O2] Hg Hs [P1 P2 P3 P4].
  destruct (applyStep_pops _ _ _ Hs) as (d' & q' & Hpop' & Hkeys).
  apply_step_facts HI Hg Hs.
  assert (d' = d) by congruence. subst d'.
  destruct (O1 _ _ He) as [Ho Haw].
  assert (Hmono : ∀ x, x ∈ popKeys (trace w) → x ∈ popKeys (trace w')).
  { intros x Hx. rewrite Hkeys. apply elem_of_app. now left. }
  assert (Hnew : (round d, fetchMask d) ∈ popKeys (trace w')).
  { rewrite Hkeys. apply elem_of_app. right. left. }
  assert (Hfin : finalizeRounds (trace w') = finalizeRounds (trace w)).
  { rewrite Htr, finalizeRounds_app, Hfr. apply app_nil_r. }
  assert (Hent : ∀ m, (m = maskIO ∨ m = maskState) →
            Z.land (maskClear (outstanding e) (fetchMask d)) m = 0 →
            Z.land (awaitingRetry e) m = 0 →
            (round d, m) ∈ popKeys (trace w')).
  { intros m Hm' Hb1 Hb2.
    destruct (maskClear_kept _ _ _ Ho Hm Hm' Hb1) as [-> | Hb0]; [exact Hnew|].
    apply Hmono. eapply P1; eauto. }
  cbn [outstanding awaitingRetry] in Hcase.
  constructor.
  - intros r e2 m Hl Hm' Hb1 Hb2.
    destruct (_ && _) in Hcase.
    + destruct Hcase as (Hsy & _). rewrite Hsy in Hl.
      apply lookup_delete_Some in Hl as [Hne' Hl]. apply Hmono. eapply P1; eauto.
    + destruct Hcase as (Hsy & _). rewrite Hsy in Hl.
      apply lookup_insert_Some in Hl as [[<- <-]|[Hne' Hl]].
      * simpl in Hb1, Hb2. now apply Hent.
      * apply Hmono. eapply P1; eauto.
  - intros s0 Hs0.
    destruct ((maskClear (outstanding e) (fetchMask d) =? maskNone)
              && (awaitingRetry e =? maskNone)) eqn:Hdone.
    + destruct Hcase as (_ & _ & _ & Hpush).
      apply heapPush_Permutation in Hpush. rewrite Hpush in Hs0.
      apply elem_of_cons in Hs0 as [E|Hs0];
        [|eapply bothPopped_mono; [exact Hmono|now apply P2]].
      rewrite Hs1 in E. injection E as ->. rewrite Hs2.
      apply andb_true_iff in Hdone as [D1 D2].
      apply Z.eqb_eq in D1, D2.
      split; apply Hent; auto; rewrite ?D1, ?D2; reflexivity.
    + destruct Hcase as (_ & _ & _ & Hsame). rewrite Hsame in Hs0.
      eapply bothPopped_mono; [exact Hmono|now apply P2].
  - intros t Ht. rewrite Hfi in Ht.
    eapply bothPopped_mono; [exact Hmono|now apply P3].
  - intros r Hr'. rewrite Hfin in Hr'.
    eapply bothPopped_mono; [exact Hmono|now apply P4].
Qed.

Lemma handleDiff_InvPopped k st w w' :
  InvPending w → InvOutstanding w → handleDiff k st w = Ok w' →
  InvPopped w → InvPopped w'.
Proof.
  intros HP [O1 O2] Hs HPop.
  destruct (handleDiff_frame _ _ _ _ Hs)
    as (_ & _ & _ & Hap & _ & Hfi & _ & _ & _ & _ & Hfr).
  apply (InvPopped_same w w'); try assumption.
  - eapply handleDiff_pops; eauto.
  - destruct (handleDiff_spec _ _ _ _ Hs) as (t & prev & Hk & Hprev & Hi).
    destruct (fetchDiffBody_fields st (tRound t) prev (tThis t) (tMask t))
      as (Fr & Fm & _).
    apply handleItem_spec in Hi.
    assert (Htin : t ∈ fetching w) by (eapply list_elem_of_lookup_2; eauto).
    destruct (inv_pending _ HP _ _ (pending_task _ _ Htin)) as (_ & Hm & _).
    rewrite <- Fm in Hm.
    destruct (err _) as [failure|].
    + destruct Hi as (e & He & ->). simpl in He.
      destruct (O1 _ _ He) as [Ho Haw].
      intros r e2 m Hl Hm' Hb1 Hb2. simpl in Hl.
      apply lookup_insert_Some in Hl as [[<- <-]|[Hne Hl]];
        [|eapply (pop_syncing _ HPop); eauto].
      simpl in Hb1, Hb2.
      destruct (mask_move_bits _ _ _ _ Ho Haw Hm Hm' Hb1 Hb2) as [H1 H2].
      eapply (pop_syncing _ HPop); eauto.
    + destruct Hi as (q & _ & ->). intros r e2 m. simpl.
      apply (pop_syncing _ HPop).
  - rewrite Hap. auto.
  - rewrite Hfi. eauto.
Qed.

Lemma iter_InvPopped l w w' :
  wfLabel l → Inv w → InvOutstanding w → iter l w = Ok w' →
  InvPopped w → InvPopped w'.
Proof.
  intros Hwf HI HO Hs HPop. iter_split Hs.
  - destruct (runFinalize_spec _ _ _ _ H) as (s & Hk & ->).
    destruct HPop as [P1 P2 P3 P4].
    assert (Hs0 : bothPopped (trace w) (sRound s)).
    { apply (P3 (mkFinalizeTask s false)). eapply list_elem_of_lookup_2; eauto. }
    constructor; unfold bothPopped; simpl;
      rewrite ?popKeys_app, ?finalizeRounds_app; simpl; rewrite ?app_nil_r.
    + exact P1.
    + exact P2.
    + intros t Ht. apply list_elem_of_lookup in Ht as [j Hj].
      apply list_lookup_insert_Some in Hj as [(_ & <- & _)|[_ Hj]];
        [exact Hs0|]. apply P3. eapply list_elem_of_lookup_2; eauto.
    + intros r Hr. apply elem_of_app in Hr as [Hr|Hr]; [now apply P4|].
      apply list_elem_of_singleton in Hr. subst r. exact Hs0.
  - eapply applyStep_InvPopped; eauto.
  - destruct (spawnStep_spec _ _ H) as (s & q & Hpop & ->).
    apply heapPop_spec in Hpop as [_ Hperm].
    destruct HPop as [P1 P2 P3 P4].
    constructor; unfold bothPopped; simpl;
      rewrite ?popKeys_app, ?finalizeRounds_app; simpl; rewrite ?app_nil_r.
    + exact P1.
    + intros s0 Hs0. apply P2. rewrite Hperm. now right.
    + intros t Ht. apply elem_of_app in Ht as [Ht|Ht]; [now apply P3|].
      apply list_elem_of_singleton in Ht. subst t. simpl.
      apply P2. rewrite Hperm. left.
    + exact P4.
  - pose proof (handlePruned_quiet _ _ _ _ H) as Hq.
    apply (InvPopped_same w w'); try assumption.
    + unfold handlePruned in H. unfold samePops.
      destruct x0; inv_ok; simpl; rewrite ?popKeys_app; simpl;
        now rewrite ?app_nil_r.
    + unfold handlePruned in H.
      destruct x0; inv_ok; intros ? ? ?; simpl; apply (pop_syncing _ HPop).
    + rewrite (quiet_applieds _ _ Hq). auto.
    + rewrite (quiet_finalizing _ _ Hq). eauto.
    + apply Hq.
  - pose proof (handleNewBlock_quiet _ _ _ _ H) as Hq.
    apply (InvPopped_same w w'); try assumption.
    + eapply handleNewBlock_pops; eauto.
    + eapply handleNewBlock_syncPopped; eauto. exact (pop_syncing _ HPop).
    + rewrite (quiet_applieds _ _ Hq). auto.
    + rewrite (quiet_finalizing _ _ Hq). eauto.
    + apply Hq.
  - eapply handleDiff_InvPopped; eauto. apply HI.
  - pose proof (handleFinalized_pops _ _ _ _ H) as Hp.
    destruct (handleFinalized_spec _ _ _ _ H)
      as (s & evs & Hk & _ & _ & _ & _ & Hap & Hsy & _ & _ & Hfi & _ & Htr
          & _ & _ & Hfr & _).
    apply (InvPopped_same w w'); try assumption.
    + intros ? ? ?. rewrite Hsy. apply (pop_syncing _ HPop).
    + rewrite Hap. auto.
    + rewrite Hfi. intros t Ht. exists t. split; [|reflexivity].
      eapply list_elem_of_delete_inv; eauto.
    + rewrite Htr, finalizeRounds_app, Hfr. apply app_nil_r.
  - apply (InvPopped_same w (setRunning false w)); try assumption;
      try reflexivity; auto.
    + intros ? ? ?. apply (pop_syncing _ HPop).
    + eauto.
Qed.

Lemma Reachable_InvPopped w : Reachable w → InvPopped w.
Proof.
  intros (g & db & Hwf & Hr).
  assert (HIO : Inv w ∧ InvOutstanding w ∧ InvPopped w).
  { induction Hr as [|w l w' Hr (HI & HO & HP) Hl Hs].
    - split; [now apply workerInit_Inv|].
      split; [apply workerInit_InvOutstanding|apply workerInit_InvPopped].
    - split; [eapply iter_Inv; eauto|].
      split; [eapply iter_InvOutstanding; eauto|eapply iter_InvPopped; eauto]. }
  apply HIO.
Qed.

(** X22: Finalize is called for a round only after a diff of its IO
    subtree and a diff of its state subtree have been popped from the
    diffs queue (and applied, when they carry a write log): this holds
    of every round whose Finalize was called, of the round a finalize
    goroutine is about to call Finalize for, and of every round that
    waits in the applieds queue. *)
Theorem finalize_only_after_both_subtrees (w : World) :
  Reachable w →
  (∀ r, r ∈ finalizeRounds (trace w) → bothPopped (trace w) r)
  ∧ (∀ k res w', iter (LRunFinalize k res) w = Ok w' →
       ∃ s, finalizing w !! k = Some (mkFinalizeTask s false)
         ∧ finalizeRounds (trace w') = finalizeRounds (trace w) ++ [sRound s]
         ∧ bothPopped (trace w) (sRound s))
  ∧ (∀ s, Some s ∈ outOfOrderApplieds w → bothPopped (trace w) (sRound s)).
Proof.
  intros Hr. destruct (Reachable_InvPopped _ Hr) as [P1 P2 P3 P4].
  split; [exact P4|]. split; [|exact P2].
  intros k res w' Hs. simpl in Hs.
  destruct (runFinalize_spec _ _ _ _ Hs) as (s & Hk & ->).
  exists s. split; [exact Hk|]. split.
  - simpl. rewrite finalizeRounds_app. reflexivity.
  - apply (P3 (mkFinalizeTask s false)). eapply list_elem_of_lookup_2; eauto.
Qed.

Lemma finalize_only_after_both_subtrees_witness :
  finalizeRounds (trace (sampleRun deliveredOnce)) ≠ []
  ∧ ∀ r, r ∈ finalizeRounds (trace (sampleRun deliveredOnce)) →
      bothPopped (trace (sampleRun deliveredOnce)) r.
Proof.
  split; [vm_compute; discriminate|].
  apply (finalize_only_after_both_subtrees (sampleRun deliveredOnce)).
  apply deliveredOnce_Reachable.
Defined.

(** * A lookup that fails *)

Lemma catchUp_Panic getBlock fuel i R w (j : Z) failure :
  isUint64 R → 0 <= i → R - i <= Z.of_nat fuel →
  i <= j < R → hashCache w !! j = None → getBlock j = inl failure →
  (∀ k, i <= k < j → is_Some (hashCache w !! k) ∨ ∃ b, getBlock k = inr b) →
  catchUp getBlock fuel i R w = Panic.
Proof.
  intros HR. revert i w.
  induction fuel as [|fuel IH]; intros i w Hi Hf Hj Hnone Hfail Hbefore; simpl.
  - lia.
  - destruct (Z.ltb_spec i R); [|lia].
    assert (Hi1 : add64 i 1 = i + 1).
    { rewrite add64_1, ordinal_small by (unfold isUint64 in *; lia). lia. }
    destruct (decide (i = j)) as [->|Hne].
    + rewrite Hnone, Hfail. reflexivity.
    + destruct (hashCache w !! i) as [s|] eqn:Hc; simpl.
      * rewrite Hi1. apply IH; try assumption; try lia.
        intros k Hk. apply Hbefore. lia.
      * destruct (Hbefore i ltac:(lia)) as [[s Hs]|[b Hb]]; [congruence|].
        rewrite Hb. simpl. rewrite Hi1. apply IH; try lia.
        -- simpl. rewrite lookup_insert_ne by lia. exact Hnone.
        -- exact Hfail.
        -- intros k Hk. simpl. rewrite lookup_insert_ne by lia.
           apply Hbefore. lia.
Qed.

(** X23: the catch-up loop of the new-block handler looks up, in
    order, the rounds from its start up to the block's round that are
    not cached. When the first lookup that fails is reached (every
    round before it is cached or found), the handler panics: the
    worker does not skip the round, retry or go on with the block. *)
Theorem failed_lookup_panics (w : World) (blk : Block)
    (getBlock : Z → error + Block) (j : Z) (failure : error) :
  Reachable w → wfLabel (LNewBlock blk getBlock) →
  startSummaryRound w <= j < hRound (bHeader blk) →
  hashCache w !! j = None → getBlock j = inl failure →
  (∀ k, startSummaryRound w <= k < j →
     is_Some (hashCache w !! k) ∨ ∃ b, getBlock k = inr b) →
  handleNewBlock blk getBlock w = Panic
  ∧ (running w = true → guardDiffs w = Ok false → guardApplieds w = Ok false →
     iter (LNewBlock blk getBlock) w = Panic).
Proof.
  intros Hr Hwf Hj Hnone Hfail Hbefore.
  pose proof (Reachable_Inv _ Hr) as [HR _ _ _].
  assert (Hp : handleNewBlock blk getBlock w = Panic).
  { rewrite handleNewBlock_unfold. cbv zeta.
    set (w0 := installDummy blk (emit [EvLog LogDebug "incoming block"] w)).
    assert (Hst : startSummaryRound w0 = startSummaryRound w).
    { unfold w0, startSummaryRound, installDummy.
      destruct (_ && _); reflexivity. }
    assert (Hs0 : 0 <= startSummaryRound w).
    { unfold startSummaryRound.
      destruct (_ =? _); [apply add64_isUint64|apply (inv_c _ HR)]. }
    assert (Hkeep : ∀ k v, hashCache w !! k = Some v → hashCache w0 !! k = Some v).
    { intros k v Hk. unfold w0. apply installDummy_keeps. exact Hk. }
    assert (Hnone0 : hashCache w0 !! j = None).
    { unfold w0, installDummy. simpl.
      destruct (negb _ && (cachedLastRound w =? undefinedRound w)) eqn:E;
        [|exact Hnone].
      simpl. rewrite lookup_insert_ne; [exact Hnone|].
      apply andb_true_iff in E as [_ E]. apply Z.eqb_eq in E.
      intros <-. unfold startSummaryRound in Hj.
      rewrite E, Z.eqb_refl in Hj. rewrite <- E in Hj.
      rewrite add64_1 in Hj by apply (inv_c _ HR).
      destruct Hwf as [HRu _]. unfold ordinal, isUint64 in *.
      destruct (Z.eqb_spec (cachedLastRound w) MaxUint64); lia. }
    rewrite Hst.
    rewrite (catchUp_Panic getBlock _ (startSummaryRound w) (hRound (bHeader blk))
               w0 j failure); try assumption; try reflexivity.
    - apply Hwf.
    - lia.
    - intros k Hk. destruct (Hbefore k Hk) as [[s Hs]|Hb]; [left|right; exact Hb].
      exists s. now apply Hkeep. }
  split; [exact Hp|].
  intros Hrun Hgd Hga. unfold iter. rewrite Hrun, Hgd, Hga. exact Hp.
Qed.

Lemma failed_lookup_panics_witness :
  hashCache sampleInit !! 1 = None
  ∧ handleNewBlock (sampleBlock 2)
      (λ i, if i =? 1 then inl "no such block"%string else inr (sampleBlock i))
      sampleInit = Panic.
Proof.
  split; [reflexivity|].
  destruct (failed_lookup_panics sampleInit (sampleBlock 2)
              (λ i, if i =? 1 then inl "no such block"%string
                    else inr (sampleBlock i))
              1 "no such block"%string) as [Hp _].
  - apply (sampleRun_Reachable []); [apply List.Forall_nil|reflexivity].
  - split; [unfold isUint64; rewrite MaxUint64_eq; simpl; lia|].
    intros i b. cbv beta. destruct (i =? 1); [discriminate|].
    intros E. injection E as <-. reflexivity.
  - vm_compute. split; [discriminate|reflexivity].
  - reflexivity.
  - reflexivity.
  - intros k Hk. right. exists (sampleBlock k).
    assert (E : startSummaryRound sampleInit = 0) by (vm_compute; reflexivity).
    rewrite E in Hk. assert (k = 0) by lia. subst k. reflexivity.
  - exact Hp.
Defined.

